(** * Roller-coaster builder: track geometry engine and track store

    A shallow embedding of the parts of the coaster builder that its
    specification makes claims about:

    - [Vector3], [Quaternion]: the three.js vector operations the engine
      calls (three.js is an external library; its methods are written
      out here as the library defines them).
    - [Json], [Store]: parsed JSON values, and the zustand store of
      [useRollerCoaster.tsx] (track points, loop segments, ride state,
      saved coasters) with its actions, among them [importCoaster].
    - The engine of [CoasterCar.tsx], [RideCamera.tsx] and [Track.tsx]:
      [sampleBarrelRollAnalytically], [computeRollFrame],
      [computeRollArcLength], the section table of the [sections] memo,
      [sampleHybridTrack], and the [useFrame] callback that drives the
      ride ([rideTick]).  The curve through the control points is a
      [THREE.CatmullRomCurve3]; the engine uses its [getPoint] and
      [getTangent] only, and the development is parametric in them.

    Numbers.  A JavaScript number is modelled as a real number: the
    engine's arithmetic is IEEE double arithmetic idealised as exact
    arithmetic on [R].  A real number is never [NaN]: where the code
    can divide zero by zero (the progress bounds of a section table of
    zero total length, the local parameter of an empty progress range)
    the definitions are the code's only away from that case, and the
    properties carry the hypothesis that keeps away from it.  The
    non-finite doubles are modelled where the code tests for them
    (import validation, [Json.number]).  The counter of point ids is a
    natural number: the code's counter is a double, which counts
    exactly below 2^53.

    The file has two parts: the definitions that embed the code, then
    the properties proved of them. *)

From Stdlib Require Import Reals Lra Lia List.
From stdpp Require Import gmap strings pretty.

Open Scope R_scope.
Set Warnings "-register-all".

(* ================================================================== *)
(** * THREE.Vector3 *)
(* ================================================================== *)

Module Vector3.

Record V3 : Type := mkV3 { vx : R; vy : R; vz : R }.

Definition zero : V3 := mkV3 0 0 0.

Definition add (a b : V3) : V3 :=
  mkV3 (vx a + vx b) (vy a + vy b) (vz a + vz b).

Definition sub (a b : V3) : V3 :=
  mkV3 (vx a - vx b) (vy a - vy b) (vz a - vz b).

Definition multiplyScalar (a : V3) (s : R) : V3 :=
  mkV3 (vx a * s) (vy a * s) (vz a * s).

(** [this.addScaledVector(v, s)]: [this + v * s]. *)
Definition addScaledVector (a v : V3) (s : R) : V3 :=
  mkV3 (vx a + vx v * s) (vy a + vy v * s) (vz a + vz v * s).

Definition dot (a b : V3) : R :=
  vx a * vx b + vy a * vy b + vz a * vz b.

Definition crossVectors (a b : V3) : V3 :=
  mkV3 (vy a * vz b - vz a * vy b)
       (vz a * vx b - vx a * vz b)
       (vx a * vy b - vy a * vx b).

Definition lengthSq (a : V3) : R := dot a a.

Definition length (a : V3) : R := sqrt (lengthSq a).

(** [divideScalar(s)] is [multiplyScalar(1 / s)]. *)
Definition divideScalar (a : V3) (s : R) : V3 := multiplyScalar a (1 / s).

(** [normalize()] is [divideScalar(this.length() || 1)]: the zero vector
    is left as it is. *)
Definition normalize (a : V3) : V3 :=
  divideScalar a (if Req_dec_T (length a) 0 then 1 else length a).

Definition distanceTo (a b : V3) : R := length (sub a b).

(** [this.lerp(v, alpha)]. *)
Definition lerp (a v : V3) (alpha : R) : V3 :=
  mkV3 (vx a + (vx v - vx a) * alpha)
       (vy a + (vy v - vy a) * alpha)
       (vz a + (vz v - vz a) * alpha).

End Vector3.
Export Vector3.

(* ================================================================== *)
(** * THREE.Quaternion (axis-angle rotation) *)
(* ================================================================== *)

Module Quaternion.

Record Quat : Type := mkQuat { qx : R; qy : R; qz : R; qw : R }.

(** [setFromAxisAngle(axis, angle)]; the axis is assumed normalized. *)
Definition setFromAxisAngle (axis : V3) (angle : R) : Quat :=
  let halfAngle := angle / 2 in
  let s := sin halfAngle in
  mkQuat (vx axis * s) (vy axis * s) (vz axis * s) (cos halfAngle).

(** [Vector3.applyQuaternion(q)]: [v + w * t + q.xyz x t] with
    [t = 2 * (q.xyz x v)]. *)
Definition applyQuaternion (v : V3) (q : Quat) : V3 :=
  let tx := 2 * (qy q * vz v - qz q * vy v) in
  let ty := 2 * (qz q * vx v - qx q * vz v) in
  let tz := 2 * (qx q * vy v - qy q * vx v) in
  mkV3 (vx v + qw q * tx + qy q * tz - qz q * ty)
       (vy v + qw q * ty + qz q * tx - qx q * tz)
       (vz v + qw q * tz + qx q * ty - qy q * tx).

(** [Vector3.applyAxisAngle(axis, angle)]. *)
Definition applyAxisAngle (v axis : V3) (angle : R) : V3 :=
  applyQuaternion v (setFromAxisAngle axis angle).

End Quaternion.
Export Quaternion.

(* ================================================================== *)
(** * The closed-form loop evaluator *)
(* ================================================================== *)

Record BarrelRollFrame : Type := mkBarrelRollFrame {
  entryPos : V3;
  forward : V3;
  up : V3;
  right : V3;
  radius : R;
  pitch : R
}.

(** The result shape of the samplers: [{ point, tangent, up, inRoll }].
    [sampleUp] is the field [up], under the name RideCamera.tsx reads it
    by; [inRoll] is the flag RideCamera.tsx's [sampleHybridTrack] adds
    (true on a loop section, false on a spline section). *)
Record Sample : Type := mkSample {
  point : V3;
  tangent : V3;
  sampleUp : V3;
  inRoll : bool
}.

Definition twoPi : R := PI * 2.

(** [theta = twoPi * (t - Math.sin(twoPi * t) / twoPi)] *)
Definition theta (t : R) : R := twoPi * (t - sin (twoPi * t) / twoPi).

(** [dThetaDt = twoPi * (1 - Math.cos(twoPi * t))] *)
Definition dThetaDt (t : R) : R := twoPi * (1 - cos (twoPi * t)).

Definition rollPoint (frame : BarrelRollFrame) (t : R) : V3 :=
  addScaledVector
    (addScaledVector
       (addScaledVector (entryPos frame) (forward frame) (pitch frame * t))
       (right frame) (radius frame * (cos (theta t) - 1)))
    (up frame) (radius frame * sin (theta t)).

(** The tangent before [.normalize()]. *)
Definition rollTangentRaw (frame : BarrelRollFrame) (t : R) : V3 :=
  addScaledVector
    (addScaledVector
       (multiplyScalar (forward frame) (pitch frame))
       (right frame) (- radius frame * sin (theta t) * dThetaDt t))
    (up frame) (radius frame * cos (theta t) * dThetaDt t).

Definition rollTangent (frame : BarrelRollFrame) (t : R) : V3 :=
  normalize (rollTangentRaw frame t).

Definition rollUp (frame : BarrelRollFrame) (t : R) : V3 :=
  normalize
    (addScaledVector
       (addScaledVector zero (up frame) (cos (theta t)))
       (right frame) (- sin (theta t))).

(** [sampleBarrelRollAnalytically(frame, t)] (CoasterCar.tsx,
    RideCamera.tsx, Track.tsx: the three copies compute the same point,
    tangent and up); the result already carries the [inRoll: true] that
    [sampleHybridTrack] attaches to it. *)
Definition sampleBarrelRollAnalytically (frame : BarrelRollFrame) (t : R)
  : Sample :=
  mkSample (rollPoint frame t) (rollTangent frame t) (rollUp frame t) true.

(** An orthonormal entry basis. *)
Definition orthonormal (f u r : V3) : Prop :=
  length f = 1 /\ length u = 1 /\ length r = 1 /\
  dot f u = 0 /\ dot f r = 0 /\ dot u r = 0.

(** The loop frame of the specification's scenario: a loop of radius 5
    and pitch 12 entered at [entry] with forward (1,0,0) and up (0,1,0);
    right is [forward x up] = (0,0,1), as [computeRollFrame] sets it. *)
Definition scenarioFrame (entry : V3) : BarrelRollFrame :=
  mkBarrelRollFrame entry (mkV3 1 0 0) (mkV3 0 1 0) (mkV3 0 0 1) 5 12.

(** Displacement of a sampled point from the loop's entry position,
    measured along an axis of the entry frame. *)
Definition displacementAlong (frame : BarrelRollFrame) (axis p : V3) : R :=
  dot (sub p (entryPos frame)) axis.

(* ================================================================== *)
(** * Parsed JSON values *)
(* ================================================================== *)

Module Json.

(** A JavaScript number as [JSON.parse] can produce it: a finite value,
    or an infinity when the literal overflows ([1e999]). [NaN] is part
    of the number type although no JSON text denotes it. *)
Inductive number : Type :=
| Finite (r : R)
| PosInfinity
| NegInfinity
| NaN.

(** The result of [JSON.parse]. An object is the list of its members;
    [getMember] reads the last binding of a key, as [JSON.parse] keeps
    the last of duplicated keys. *)
Inductive value : Type :=
| JNull
| JBool (b : bool)
| JNum (n : number)
| JStr (s : string)
| JArr (items : list value)
| JObj (members : list (string * value)).

(** A JavaScript value read from parsed JSON: [None] is [undefined]. *)
Definition jsval : Type := option value.

Definition getMember (members : list (string * value)) (key : string) : jsval :=
  fold_left
    (fun found kv => if String.eqb (fst kv) key then Some (snd kv) else found)
    members None.

(** [v.key] for a value [v] that is neither [null] nor [undefined]:
    only objects carry the members of the JSON text. *)
Definition prop (v : value) (key : string) : jsval :=
  match v with
  | JObj members => getMember members key
  | _ => None
  end.

Definition isFinite (n : number) : bool :=
  match n with
  | Finite _ => true
  | _ => false
  end.

(** [typeof v === 'object'] (true of [null], arrays and objects). *)
Definition typeofObject (v : jsval) : bool :=
  match v with
  | Some JNull | Some (JArr _) | Some (JObj _) => true
  | _ => false
  end.

Definition typeofNumber (v : jsval) : bool :=
  match v with
  | Some (JNum _) => true
  | _ => false
  end.

Definition typeofString (v : jsval) : bool :=
  match v with
  | Some (JStr _) => true
  | _ => false
  end.

Definition isArray (v : jsval) : bool :=
  match v with
  | Some (JArr _) => true
  | _ => false
  end.

(** [Boolean(v)]: [undefined], [null], [false], [0], [NaN] and the
    empty string are falsy. *)
Definition toBoolean (v : jsval) : bool :=
  match v with
  | None | Some JNull => false
  | Some (JBool b) => b
  | Some (JNum (Finite r)) => if Req_dec_T r 0 then false else true
  | Some (JNum NaN) => false
  | Some (JNum _) => true
  | Some (JStr s) => negb (String.eqb s EmptyString)
  | Some (JArr _) | Some (JObj _) => true
  end.

(** [v !== false]. *)
Definition notStrictlyFalse (v : jsval) : bool :=
  match v with
  | Some (JBool false) => false
  | _ => true
  end.

(** [Array.isArray(v) && v.length === n]. *)
Definition isArrayOfLength (v : jsval) (n : nat) : bool :=
  match v with
  | Some (JArr items) => Nat.eqb (List.length items) n
  | _ => false
  end.

(** What [JSON.parse(JSON.stringify(v))] gives back: a non-finite
    number is written as [null]. *)
Fixpoint roundTrip (v : value) : value :=
  match v with
  | JNum n => if isFinite n then v else JNull
  | JArr items => JArr (map roundTrip items)
  | JObj members => JObj (map (fun kv => (fst kv, roundTrip (snd kv))) members)
  | _ => v
  end.

(** Strings.  A JavaScript string is held as the bytes of its UTF-8
    encoding, which is what a string literal of this file is.

    The white space that [String.prototype.trim] and [parseInt] strip
    is the WhiteSpace and LineTerminator code points of ECMAScript:
    U+0009 to U+000D, U+0020, U+00A0, U+1680, U+2000 to U+200A, U+2028,
    U+2029, U+202F, U+205F, U+3000 and U+FEFF.  Beyond ASCII they take
    two or three bytes. *)
Definition isAsciiWhiteSpace (a : nat) : bool :=
  (Nat.eqb a 32 || (Nat.leb 9 a && Nat.leb a 13))%bool.

(** The three-byte white space code points. *)
Definition isWideWhiteSpace (a b c : nat) : bool :=
  (Nat.eqb a 225 && Nat.eqb b 154 && Nat.eqb c 128          (* U+1680 *)
   || Nat.eqb a 226 && Nat.eqb b 128
      && (Nat.leb 128 c && Nat.leb c 138                    (* U+2000..U+200A *)
          || Nat.eqb c 168 || Nat.eqb c 169                 (* U+2028, U+2029 *)
          || Nat.eqb c 175)                                 (* U+202F *)
   || Nat.eqb a 226 && Nat.eqb b 129 && Nat.eqb c 159       (* U+205F *)
   || Nat.eqb a 227 && Nat.eqb b 128 && Nat.eqb c 128       (* U+3000 *)
   || Nat.eqb a 239 && Nat.eqb b 187 && Nat.eqb c 191)%bool. (* U+FEFF *)

(** The number of bytes of the white space code point [s] starts with;
    0 when it starts with none. *)
Definition whiteSpaceWidth (s : string) : nat :=
  match s with
  | String a (String b (String c _)) =>
      let a := Ascii.nat_of_ascii a in
      let b := Ascii.nat_of_ascii b in
      let c := Ascii.nat_of_ascii c in
      if isAsciiWhiteSpace a then 1%nat
      else if (Nat.eqb a 194 && Nat.eqb b 160)%bool then 2%nat   (* U+00A0 *)
      else if isWideWhiteSpace a b c then 3%nat
      else 0%nat
  | String a (String b EmptyString) =>
      let a := Ascii.nat_of_ascii a in
      let b := Ascii.nat_of_ascii b in
      if isAsciiWhiteSpace a then 1%nat
      else if (Nat.eqb a 194 && Nat.eqb b 160)%bool then 2%nat
      else 0%nat
  | String a EmptyString =>
      if isAsciiWhiteSpace (Ascii.nat_of_ascii a) then 1%nat else 0%nat
  | EmptyString => 0%nat
  end.

(** [dropWhiteSpace pending s]: [s] without its leading white space,
    [pending] bytes of a white space code point being still to skip. *)
Fixpoint dropWhiteSpace (pending : nat) (s : string) : string :=
  match s with
  | EmptyString => EmptyString
  | String _ rest =>
      match pending with
      | S k => dropWhiteSpace k rest
      | O =>
          match whiteSpaceWidth s with
          | S k => dropWhiteSpace k rest
          | O => s
          end
      end
  end.

Definition trimStart (s : string) : string := dropWhiteSpace 0 s.

(** The longest suffix of white space goes: a string is cut where what
    is left of it is white space only. *)
Fixpoint trimEnd (s : string) : string :=
  match s with
  | EmptyString => EmptyString
  | String c rest =>
      if String.eqb (trimStart s) EmptyString then EmptyString
      else String c (trimEnd rest)
  end.

Definition trim (s : string) : string := trimEnd (trimStart s).

End Json.

(* ================================================================== *)
(** * The track store (useRollerCoaster.tsx) *)
(* ================================================================== *)

Inductive CoasterMode : Type := build | ride | preview.

Module TrackPoint.
Record t : Type := mk {
  id : string;
  position : V3;
  tilt : R;
  hasLoop : option bool
}.
End TrackPoint.

Module LoopSegment.
Record t : Type := mk {
  id : string;
  entryPointId : string;
  radius : R;
  pitch : R
}.
End LoopSegment.

Module SavedCoaster.
(** [trackPoints] and [loopSegments] hold what the import read from the
    JSON text: import stores them without converting them. *)
Record t : Type := mk {
  id : string;
  name : string;
  timestamp : N;
  trackPoints : list Json.value;
  loopSegments : Json.value;
  isLooped : bool;
  hasChainLift : bool;
  showWoodSupports : bool
}.

Definition roundTrip (c : t) : t :=
  mk (id c) (name c) (timestamp c)
     (map Json.roundTrip (trackPoints c)) (Json.roundTrip (loopSegments c))
     (isLooped c) (hasChainLift c) (showWoodSupports c).
End SavedCoaster.

Module Store.

Record State : Type := mkState {
  mode : CoasterMode;
  trackPoints : list TrackPoint.t;
  loopSegments : list LoopSegment.t;
  selectedPointId : option string;
  rideProgress : R;
  isRiding : bool;
  rideSpeed : R;
  isDraggingPoint : bool;
  isAddingPoints : bool;
  isLooped : bool;
  hasChainLift : bool;
  showWoodSupports : bool;
  isNightMode : bool;
  cameraTarget : option V3;
  savedCoasters : list SavedCoaster.t;
  currentCoasterName : option string
}.

(** The store together with the module-level [pointCounter] and the
    [localStorage] item under [STORAGE_KEY] ([None]: no item, which
    [loadSavedCoasters] reads as the empty list).  [pointCounter] is a
    natural number; the code's is a double, on which [++pointCounter]
    adds one as long as the counter is below 2^53 and leaves it as it
    is at 2^53: the model is the code's below that bound only. *)
Record World : Type := mkWorld {
  state : State;
  pointCounter : nat;
  localStorage : option (list SavedCoaster.t)
}.

Definition withState (w : World) (s : State) : World :=
  mkWorld s (pointCounter w) (localStorage w).

(** [set({ trackPoints })] and its siblings: a partial update keeps
    every other field. *)
Definition setTrack (s : State) (tps : list TrackPoint.t)
    (segs : list LoopSegment.t) (sel : option string) : State :=
  mkState (mode s) tps segs sel (rideProgress s) (isRiding s) (rideSpeed s)
    (isDraggingPoint s) (isAddingPoints s) (isLooped s) (hasChainLift s)
    (showWoodSupports s) (isNightMode s) (cameraTarget s) (savedCoasters s)
    (currentCoasterName s).

Definition setRide (s : State) (m : CoasterMode) (riding : bool) (progress : R)
  : State :=
  mkState m (trackPoints s) (loopSegments s) (selectedPointId s) progress riding
    (rideSpeed s) (isDraggingPoint s) (isAddingPoints s) (isLooped s)
    (hasChainLift s) (showWoodSupports s) (isNightMode s) (cameraTarget s)
    (savedCoasters s) (currentCoasterName s).

Definition setSavedCoasters (s : State) (cs : list SavedCoaster.t) : State :=
  mkState (mode s) (trackPoints s) (loopSegments s) (selectedPointId s)
    (rideProgress s) (isRiding s) (rideSpeed s) (isDraggingPoint s)
    (isAddingPoints s) (isLooped s) (hasChainLift s) (showWoodSupports s)
    (isNightMode s) (cameraTarget s) cs (currentCoasterName s).

(** The initial store. *)
Definition initialState (saved : list SavedCoaster.t) : State :=
  mkState build [] [] None 0 false 1 false true false true false false None
    saved None.

Definition loadSavedCoasters (w : World) : list SavedCoaster.t :=
  match localStorage w with
  | Some coasters => coasters
  | None => []
  end.

Definition initialWorld (stored : option (list SavedCoaster.t)) : World :=
  mkWorld (initialState (match stored with Some cs => cs | None => [] end))
          0 stored.

Definition pointId (n : nat) : string := "point-" +:+ pretty n.

Definition addTrackPoint (position : V3) (w : World) : World :=
  let counter := S (pointCounter w) in
  let id := pointId counter in
  let s := state w in
  mkWorld
    (setTrack s (trackPoints s ++ [TrackPoint.mk id position 0 None])
       (loopSegments s) (selectedPointId s))
    counter (localStorage w).

Definition updateTrackPoint (id : string) (position : V3) (w : World) : World :=
  let s := state w in
  withState w
    (setTrack s
       (map (fun point =>
               if String.eqb (TrackPoint.id point) id
               then TrackPoint.mk (TrackPoint.id point) position
                      (TrackPoint.tilt point) (TrackPoint.hasLoop point)
               else point)
            (trackPoints s))
       (loopSegments s) (selectedPointId s)).

Definition updateTrackPointTilt (id : string) (tilt : R) (w : World) : World :=
  let s := state w in
  withState w
    (setTrack s
       (map (fun point =>
               if String.eqb (TrackPoint.id point) id
               then TrackPoint.mk (TrackPoint.id point)
                      (TrackPoint.position point) tilt (TrackPoint.hasLoop point)
               else point)
            (trackPoints s))
       (loopSegments s) (selectedPointId s)).

Definition removeTrackPoint (id : string) (w : World) : World :=
  let s := state w in
  withState w
    (setTrack s
       (List.filter (fun point => negb (String.eqb (TrackPoint.id point) id))
                    (trackPoints s))
       (loopSegments s)
       (match selectedPointId s with
        | Some sel => if String.eqb sel id then None else Some sel
        | None => None
        end)).

(** [createLoopAtPoint(id)]; [now] is the value of [Date.now()]. *)
Definition createLoopAtPoint (now : N) (id : string) (w : World) : World :=
  let s := state w in
  match List.find (fun p => String.eqb (TrackPoint.id p) id) (trackPoints s) with
  | None => w
  | Some entryPoint =>
      match TrackPoint.hasLoop entryPoint with
      | Some true => w
      | _ =>
          let loopRadius := 5 in
          let loopPitch := 12 in
          let loopSegment :=
            LoopSegment.mk ("loop-" +:+ pretty now) id loopRadius loopPitch in
          let newTrackPoints :=
            map (fun p =>
                   if String.eqb (TrackPoint.id p) id
                   then TrackPoint.mk (TrackPoint.id p) (TrackPoint.position p)
                          (TrackPoint.tilt p) (Some true)
                   else p)
                (trackPoints s) in
          withState w
            (setTrack s newTrackPoints (loopSegments s ++ [loopSegment])
               (selectedPointId s))
      end
  end.

Definition selectPoint (id : option string) (w : World) : World :=
  let s := state w in
  withState w (setTrack s (trackPoints s) (loopSegments s) id).

Definition clearTrack (w : World) : World :=
  let s := state w in
  withState w (setRide (setTrack s [] [] None) (mode s) false 0).

Definition setRideProgress (progress : R) (w : World) : World :=
  let s := state w in
  withState w (setRide s (mode s) (isRiding s) progress).

Definition setIsRiding (riding : bool) (w : World) : World :=
  let s := state w in
  withState w (setRide s (mode s) riding (rideProgress s)).

Definition startRide (w : World) : World :=
  let s := state w in
  if Nat.leb 2 (List.length (trackPoints s))
  then withState w (setRide s ride true 0)
  else w.

Definition stopRide (w : World) : World :=
  withState w (setRide (state w) build false 0).

(** ** Import *)

Definition validLoopMeta (lm : Json.value) : bool :=
  (Json.isArrayOfLength (Json.prop lm "entryPos") 3
   && Json.isArrayOfLength (Json.prop lm "forward") 3
   && Json.isArrayOfLength (Json.prop lm "up") 3
   && Json.isArrayOfLength (Json.prop lm "right") 3
   && Json.typeofNumber (Json.prop lm "radius")
   && Json.typeofNumber (Json.prop lm "theta"))%bool.

Definition isFiniteNumber (n : Json.value) : bool :=
  match n with
  | Json.JNum x => Json.isFinite x
  | _ => false
  end.

(** The body of the [for (const pt of coaster.trackPoints)] loop:
    [true] when no [return false] is taken for [pt]. *)
Definition validTrackPoint (pt : Json.value) : bool :=
  (Json.toBoolean (Some pt) && Json.typeofObject (Some pt)
   && Json.isArrayOfLength (Json.prop pt "position") 3
   && match Json.prop pt "position" with
      | Some (Json.JArr items) => forallb isFiniteNumber items
      | _ => false
      end
   && Json.typeofNumber (Json.prop pt "tilt")
   && Json.typeofString (Json.prop pt "id")
   && match Json.prop pt "loopMeta" with
      | Some lm => if Json.toBoolean (Some lm) then validLoopMeta lm else true
      | None => true
      end)%bool.

(** The checks of [importCoaster] up to the construction of
    [validCoaster]: the trimmed name and the track points when every
    check passes. *)
Definition validateCoaster (coaster : Json.value)
  : option (string * list Json.value) :=
  if negb (Json.toBoolean (Some coaster) && Json.typeofObject (Some coaster))
  then None
  else
    match Json.prop coaster "name" with
    | Some (Json.JStr name) =>
        if String.eqb (Json.trim name) EmptyString then None
        else
          match Json.prop coaster "trackPoints" with
          | Some (Json.JArr pts) =>
              if forallb validTrackPoint pts
              then Some (Json.trim name, pts)
              else None
          | _ => None
          end
    | _ => None
    end.

(** [coaster.loopSegments || []]. *)
Definition loopSegmentsOrEmpty (coaster : Json.value) : Json.value :=
  match Json.prop coaster "loopSegments" with
  | Some v => if Json.toBoolean (Some v) then v else Json.JArr []
  | None => Json.JArr []
  end.

Definition buildValidCoaster (nowId nowTs : N) (coaster : Json.value)
    (name : string) (pts : list Json.value) : SavedCoaster.t :=
  SavedCoaster.mk ("coaster-" +:+ pretty nowId) name nowTs pts
    (loopSegmentsOrEmpty coaster)
    (Json.toBoolean (Json.prop coaster "isLooped"))
    (Json.notStrictlyFalse (Json.prop coaster "hasChainLift"))
    (Json.toBoolean (Json.prop coaster "showWoodSupports")).

(** [importCoaster(jsonString)].  [parsed] is the result of
    [JSON.parse(jsonString)], [None] when it throws; [nowId] and [nowTs]
    are the two readings of [Date.now()]; [storageWritable] tells
    whether [localStorage.setItem] succeeds (it throws when the quota is
    exceeded, which the surrounding [try] turns into [false]). *)
Definition importCoaster (nowId nowTs : N) (storageWritable : bool)
    (parsed : option Json.value) (w : World) : bool * World :=
  match parsed with
  | None => (false, w)
  | Some coaster =>
      match validateCoaster coaster with
      | None => (false, w)
      | Some (name, pts) =>
          let validCoaster := buildValidCoaster nowId nowTs coaster name pts in
          let coasters := loadSavedCoasters w ++ [validCoaster] in
          if storageWritable
          then (true,
                mkWorld (setSavedCoasters (state w) coasters)
                        (pointCounter w)
                        (Some (map SavedCoaster.roundTrip coasters)))
          else (false, w)
      end
  end.

End Store.

(* ================================================================== *)
(** * The track geometry engine (CoasterCar.tsx, RideCamera.tsx) *)
(* ================================================================== *)

(** Comparisons of numbers, as booleans. *)
Definition Rltb (a b : R) : bool := if Rlt_dec a b then true else false.
Definition Rleb (a b : R) : bool := if Rle_dec a b then true else false.

(** What the engine uses of a [THREE.CatmullRomCurve3]. *)
Record Curve : Type := mkCurve {
  getPoint : R -> V3;
  getTangent : R -> V3
}.

Inductive SectionType : Type := spline | roll.

Record TrackSection : Type := mkTrackSection {
  type : SectionType;
  startProgress : R;
  endProgress : R;
  arcLength : R;
  rollFrame : option BarrelRollFrame;
  splineStartT : option R;
  splineEndT : option R;
  pointIndex : option nat
}.

Definition worldUp : V3 := mkV3 0 1 0.
Definition worldX : V3 := mkV3 1 0 0.

(** [v.sub(t.clone().multiplyScalar(v.dot(t)))]: remove from [v] its
    component along [t]. *)
Definition rejectFrom (v t : V3) : V3 := sub v (multiplyScalar t (dot v t)).

(** The minimal rotation of [prevUp] that follows the tangent from
    [prevTangent] to [newTangent]; the up is kept when the tangents are
    parallel or opposite (dot beyond 0.9999) or the axis is too short.
    [computeRollFrame] and the rail loop of Track.tsx both start with
    it. *)
Definition rotateUpTo (prevTangent newTangent prevUp : V3) : V3 :=
  let dot := Rmax (-1) (Rmin 1 (dot prevTangent newTangent)) in
  if Rltb 0.9999 dot then prevUp
  else if Rltb dot (-0.9999) then prevUp
  else
    let axis := crossVectors prevTangent newTangent in
    if Rltb 0.0001 (length axis)
    then applyQuaternion prevUp (setFromAxisAngle (normalize axis) (acos dot))
    else prevUp.

(** [computeRollFrame]. *)
Definition computeRollFrame (spline : Curve) (splineT : R)
    (prevTangent prevUp : V3) (radius pitch : R) (rollOffset : V3)
  : BarrelRollFrame :=
  let entryPos := add (getPoint spline splineT) rollOffset in
  let forward := normalize (getTangent spline splineT) in
  let entryUp := rotateUpTo prevTangent forward prevUp in
  let entryUp := rejectFrom entryUp forward in
  let entryUp :=
    if Rltb 0.001 (length entryUp) then normalize entryUp
    else normalize (rejectFrom worldUp forward) in
  let right := normalize (crossVectors forward entryUp) in
  mkBarrelRollFrame entryPos forward entryUp right radius pitch.

(** The up of a rail sample of Track.tsx, propagated from the previous
    sample. *)
Definition railUp (prevTangent tangent prevUp : V3) : V3 :=
  let up := rotateUpTo prevTangent tangent prevUp in
  let up := rejectFrom up tangent in
  if Rltb 0.001 (length up) then normalize up else prevUp.

(** [computeRollArcLength]: 100 chords of equal parameter width. *)
Definition computeRollArcLength (radius pitch : R) : R :=
  let steps := 100%nat in
  fold_left
    (fun length i =>
       let t1 := INR i / INR steps in
       let t2 := INR (i + 1) / INR steps in
       let dTheta := theta t2 - theta t1 in
       let dForward := pitch / INR steps in
       let dRadial := radius * sqrt (dTheta * dTheta) in
       length + sqrt (dForward * dForward + dRadial * dRadial))
    (seq 0 steps) 0.

(** The [loopMap]: loop segments keyed by their entry point id; a later
    segment replaces an earlier one with the same key. *)
Definition buildLoopMap (loopSegments : list LoopSegment.t)
  : gmap string LoopSegment.t :=
  fold_left (fun m seg => <[LoopSegment.entryPointId seg := seg]> m)
            loopSegments ∅.

Definition totalSplineSegmentsOf (numPoints : nat) (isLooped : bool) : nat :=
  if isLooped then numPoints else (numPoints - 1)%nat.

(** The chord length of one spline span, over 10 sub-samples. *)
Definition splineSegmentLength (curve : Curve) (splineStartT splineEndT : R) : R :=
  let subSamples := 10%nat in
  fold_left
    (fun segmentLength s =>
       let t1 := splineStartT
                 + (INR s / INR subSamples) * (splineEndT - splineStartT) in
       let t2 := splineStartT
                 + (INR (s + 1) / INR subSamples) * (splineEndT - splineStartT) in
       segmentLength + distanceTo (getPoint curve t1) (getPoint curve t2))
    (seq 0 subSamples) 0.

(** The frame the section loop starts from. *)
Definition initialTangent (curve : Curve) : V3 := normalize (getTangent curve 0).

Definition initialUp (curve : Curve) : V3 :=
  let prevTangent := initialTangent curve in
  let prevUp := rejectFrom worldUp prevTangent in
  let prevUp :=
    if Rltb (length prevUp) 0.01 then rejectFrom worldX prevTangent
    else prevUp in
  normalize prevUp.

(** The running variables of the section loop. *)
Record BuildState : Type := mkBuildState {
  sections : list TrackSection;
  accumulatedLength : R;
  rollOffset : V3;
  prevTangent : V3;
  prevUp : V3
}.

(** Carrying [prevUp] to the end of a spline span. *)
Definition transportAcrossSpan (prevTangent endTangent prevUp : V3) : V3 :=
  let dot := Rmax (-1) (Rmin 1 (dot prevTangent endTangent)) in
  let prevUp :=
    if (Rltb dot 0.9999 && Rltb (-0.9999) dot)%bool then
      let axis := crossVectors prevTangent endTangent in
      if Rltb 0.0001 (length axis)
      then applyQuaternion prevUp
             (setFromAxisAngle (normalize axis) (acos dot))
      else prevUp
    else prevUp in
  let prevUp := rejectFrom prevUp endTangent in
  if Rltb 0.001 (length prevUp) then normalize prevUp else prevUp.

(** One turn of [for (let i = 0; i < numPoints; i++)]. *)
Definition buildStep (curve : Curve) (loopMap : gmap string LoopSegment.t)
    (numPoints : nat) (isLooped : bool)
    (st : BuildState) (i : nat) (point : TrackPoint.t) : BuildState :=
  let totalSplineSegments := totalSplineSegmentsOf numPoints isLooped in
  let st :=
    match loopMap !! TrackPoint.id point with
    | Some loopSeg =>
        let splineT := INR i / INR totalSplineSegments in
        let rollFrame :=
          computeRollFrame curve splineT (prevTangent st) (prevUp st)
            (LoopSegment.radius loopSeg) (LoopSegment.pitch loopSeg)
            (rollOffset st) in
        let rollArcLength :=
          computeRollArcLength (LoopSegment.radius loopSeg)
                               (LoopSegment.pitch loopSeg) in
        mkBuildState
          (sections st
           ++ [mkTrackSection roll 0 0 rollArcLength (Some rollFrame)
                 None None (Some i)])
          (accumulatedLength st + rollArcLength)
          (addScaledVector (rollOffset st) (forward rollFrame)
                           (LoopSegment.pitch loopSeg))
          (forward rollFrame) (up rollFrame)
    | None => st
    end in
  if (Nat.leb (numPoints - 1) i && negb isLooped)%bool then st
  else
    let splineStartT := INR i / INR totalSplineSegments in
    let splineEndT := INR (i + 1) / INR totalSplineSegments in
    let segmentLength := splineSegmentLength curve splineStartT splineEndT in
    let endTangent := normalize (getTangent curve splineEndT) in
    mkBuildState
      (sections st
       ++ [mkTrackSection spline 0 0 segmentLength None
             (Some splineStartT) (Some splineEndT) (Some i)])
      (accumulatedLength st + segmentLength)
      (rollOffset st)
      endTangent
      (transportAcrossSpan (prevTangent st) endTangent (prevUp st)).

(** The section loop over the track points with their indices. *)
Fixpoint buildLoop (curve : Curve) (loopMap : gmap string LoopSegment.t)
    (numPoints : nat) (isLooped : bool)
    (st : BuildState) (i : nat) (points : list TrackPoint.t) : BuildState :=
  match points with
  | [] => st
  | point :: rest =>
      buildLoop curve loopMap numPoints isLooped
        (buildStep curve loopMap numPoints isLooped st i point) (S i) rest
  end.

Definition withProgress (s : TrackSection) (startP endP : R) : TrackSection :=
  mkTrackSection (type s) startP endP (arcLength s) (rollFrame s)
    (splineStartT s) (splineEndT s) (pointIndex s).

(** The second loop: every section gets its share of [0, 1].  The
    quotients are the code's when [accumulatedLength] is not zero; for
    a table of zero total length the code computes 0 / 0, which is
    [NaN] and no real number. *)
Fixpoint assignProgress (accumulatedLength runningLength : R)
    (sections : list TrackSection) : list TrackSection :=
  match sections with
  | [] => []
  | section :: rest =>
      let startP := runningLength / accumulatedLength in
      let runningLength := runningLength + arcLength section in
      withProgress section startP (runningLength / accumulatedLength)
      :: assignProgress accumulatedLength runningLength rest
  end.

Section Track.

(** [new THREE.CatmullRomCurve3(points, isLooped, "catmullrom", 0.5)]. *)
Variable CatmullRomCurve3 : list V3 -> bool -> Curve.

Definition getTrackCurve (trackPoints : list TrackPoint.t) (isLooped : bool)
  : option Curve :=
  if Nat.ltb (List.length trackPoints) 2 then None
  else Some (CatmullRomCurve3 (map TrackPoint.position trackPoints) isLooped).

(** The state of the section loop when it ends, for a track that has a
    curve. *)
Definition buildSections (curve : Curve) (trackPoints : list TrackPoint.t)
    (loopSegments : list LoopSegment.t) (isLooped : bool) : BuildState :=
  buildLoop curve (buildLoopMap loopSegments) (List.length trackPoints) isLooped
    (mkBuildState [] 0 zero (initialTangent curve) (initialUp curve))
    0 trackPoints.

(** The [sections] memo with its [totalArcLength]. *)
Definition sectionsMemo (trackPoints : list TrackPoint.t)
    (loopSegments : list LoopSegment.t) (isLooped : bool)
  : list TrackSection * R :=
  if Nat.ltb (List.length trackPoints) 2 then ([], 0)
  else
    match getTrackCurve trackPoints isLooped with
    | None => ([], 0)
    | Some curve =>
        let st := buildSections curve trackPoints loopSegments isLooped in
        (assignProgress (accumulatedLength st) 0 (sections st),
         accumulatedLength st)
    end.

Definition trackSections (trackPoints : list TrackPoint.t)
    (loopSegments : list LoopSegment.t) (isLooped : bool) : list TrackSection :=
  fst (sectionsMemo trackPoints loopSegments isLooped).

End Track.

(** ** The path sampler *)

Definition clampProgress (progress : R) : R := Rmax 0 (Rmin progress 0.9999).

Definition inSection (progress : R) (s : TrackSection) : bool :=
  (Rleb (startProgress s) progress && Rltb progress (endProgress s))%bool.

(** The scan of the section table, then the last section. *)
Definition locateSection (progress : R) (sections : list TrackSection)
  : option TrackSection :=
  match List.find (inSection progress) sections with
  | Some s => Some s
  | None => last sections
  end.

(** The forward displacement of every loop entered at or before the
    point [pointIndex]. *)
Fixpoint accumulateRollOffset (spline : Curve)
    (loopMap : gmap string LoopSegment.t) (totalSplineSegments pointIndex : nat)
    (rollOffset : V3) (i : nat) (points : list TrackPoint.t) : V3 :=
  match points with
  | [] => rollOffset
  | tp :: rest =>
      if Nat.leb i pointIndex then
        let rollOffset :=
          match loopMap !! TrackPoint.id tp with
          | Some loopSeg =>
              let spT := INR i / INR totalSplineSegments in
              let fwd := normalize (getTangent spline spT) in
              addScaledVector rollOffset fwd (LoopSegment.pitch loopSeg)
          | None => rollOffset
          end in
        accumulateRollOffset spline loopMap totalSplineSegments pointIndex
          rollOffset (S i) rest
      else rollOffset
  end.

(** The up of a spline sample: world up made perpendicular to the
    tangent. *)
Definition splineUp (tangent : V3) : V3 :=
  let up := rejectFrom worldUp tangent in
  if Rltb 0.001 (lengthSq up) then normalize up
  else normalize (rejectFrom worldX tangent).

(** The second half of [sampleHybridTrack]: the local parameter of the
    (already clamped) progress in the located section, and the dispatch
    on the section's kind; [None] is the final [return null].  The
    local parameter is the code's when the progress range of the section
    is not empty (as it is whenever the scan found the section).  With
    an empty range, or with the [NaN] bounds of a table of zero total
    length, the code's quotient is no real number, and [getPoint]
    throws on it. *)
Definition sampleInSection (progress : R) (section : TrackSection)
    (spline : Curve) (loopSegments : list LoopSegment.t)
    (trackPoints : list TrackPoint.t) (isLooped : bool) : option Sample :=
  let localT := (progress - startProgress section)
                / (endProgress section - startProgress section) in
  match type section, rollFrame section with
  | roll, Some frame => Some (sampleBarrelRollAnalytically frame localT)
  | _, _ =>
      match splineStartT section, splineEndT section with
      | Some startT, Some endT =>
          let splineT := startT + localT * (endT - startT) in
          let point := getPoint spline splineT in
          let tangent := normalize (getTangent spline splineT) in
          let loopMap := buildLoopMap loopSegments in
          let numPoints := List.length trackPoints in
          let totalSplineSegments := totalSplineSegmentsOf numPoints isLooped in
          let rollOffset :=
            accumulateRollOffset spline loopMap totalSplineSegments
              (default 0%nat (pointIndex section)) zero 0 trackPoints in
          Some (mkSample (add point rollOffset) tangent (splineUp tangent) false)
      | _, _ => None
      end
  end.

(** [sampleHybridTrack] (the [inRoll] flag is RideCamera.tsx's). *)
Definition sampleHybridTrack (progress : R) (sections : list TrackSection)
    (spline : Curve) (loopSegments : list LoopSegment.t)
    (trackPoints : list TrackPoint.t) (isLooped : bool) : option Sample :=
  if Nat.eqb (List.length sections) 0 then None
  else
    let progress := clampProgress progress in
    match locateSection progress sections with
    | None => None
    | Some section =>
        sampleInSection progress section spline loopSegments trackPoints
          isLooped
    end.

(** ** The traversal driver (the [useFrame] callback of RideCamera.tsx) *)

(** [x % 1]: the remainder has the sign of [x]. *)
Definition remainderOne (x : R) : R :=
  if Rle_dec 0 x then frac_part x else - frac_part (- x).

(** What the [useMemo] of RideCamera hands to the callback. *)
Record RideMemo : Type := mkRideMemo {
  memoSections : list TrackSection;
  totalArcLength : R;
  firstPeakProgress : R
}.

(** The refs of RideCamera. *)
Record RideRefs : Type := mkRideRefs {
  curveRef : option Curve;
  previousCameraPos : V3;
  previousLookAt : V3;
  maxHeightReached : R;
  transportedUp : V3;
  lastProgress : R
}.

(** The camera: where it is, its up, and the point it looks at. *)
Record Camera : Type := mkCamera {
  cameraPosition : V3;
  cameraUp : V3;
  cameraLookAt : V3
}.

Record Ride : Type := mkRide {
  world : Store.World;
  refs : RideRefs;
  camera : Camera
}.

Definition withMaxHeight (r : RideRefs) (h : R) : RideRefs :=
  mkRideRefs (curveRef r) (previousCameraPos r) (previousLookAt r) h
    (transportedUp r) (lastProgress r).

(** The up carried from the previous sample to the new one, outside a
    roll. *)
Definition transportCameraUp (prevTangent tangent transportedUp : V3) : V3 :=
  let rotationAxis := crossVectors prevTangent tangent in
  let rotationAngle := acos (Rmin 1 (Rmax (-1) (dot prevTangent tangent))) in
  let transportedUp :=
    if (Rltb 0.0001 (lengthSq rotationAxis) && Rltb 0.0001 rotationAngle)%bool
    then applyAxisAngle transportedUp (normalize rotationAxis) rotationAngle
    else transportedUp in
  let transportedUp := rejectFrom transportedUp tangent in
  if Rltb 0.0001 (lengthSq transportedUp) then normalize transportedUp
  else normalize (rejectFrom worldUp tangent).

(** The chain lift is pulling: it is enabled and the progress is before
    the first peak. *)
Definition climbing (memo : RideMemo) (s : Store.State) : bool :=
  (Store.hasChainLift s
   && Rltb (Store.rideProgress s) (firstPeakProgress memo))%bool.

(** [speed]: the chain speed while climbing, the constant speed after. *)
Definition tickSpeed (memo : RideMemo) (s : Store.State) : R :=
  if climbing memo s then 0.9 * Store.rideSpeed s
  else 12.0 * Store.rideSpeed s.

(** [rideProgress + progressDelta]: the progress a tick advances to,
    before the test against 1. *)
Definition advancedProgress (memo : RideMemo) (delta : R) (s : Store.State) : R :=
  let progressDelta := (tickSpeed memo s * delta) / totalArcLength memo in
  Store.rideProgress s + progressDelta.

(** One call of the [useFrame] callback with elapsed time [delta]. *)
Definition rideTick (memo : RideMemo) (delta : R) (r : Ride) : Ride :=
  let s := Store.state (world r) in
  let sample p :=
    match curveRef (refs r) with
    | Some curve =>
        sampleHybridTrack p (memoSections memo) curve (Store.loopSegments s)
          (Store.trackPoints s) (Store.isLooped s)
    | None => None
    end in
  match curveRef (refs r) with
  | None => r
  | Some curve =>
    if (negb (Store.isRiding s)
        || Nat.eqb (List.length (memoSections memo)) 0)%bool then r
    else
      match sample (Store.rideProgress s) with
      | None => r
      | Some currentSample =>
        let currentHeight := vy (point currentSample) in
        let refs1 :=
          if climbing memo s
          then withMaxHeight (refs r)
                 (Rmax (maxHeightReached (refs r)) currentHeight)
          else refs r in
        let newProgress := advancedProgress memo delta s in
        if (Rleb 1 newProgress && negb (Store.isLooped s))%bool then
          mkRide (Store.stopRide (world r)) refs1 (camera r)
        else
          let wrapped := Rleb 1 newProgress in
          let newProgress :=
            if wrapped then remainderOne newProgress else newProgress in
          let refs2 :=
            if (wrapped && Store.hasChainLift s)%bool
            then withMaxHeight refs1 (vy (getPoint curve 0))
            else refs1 in
          let world' := Store.setRideProgress newProgress (world r) in
          match sample newProgress with
          | None => mkRide world' refs2 (camera r)
          | Some smp =>
            let newUp :=
              if inRoll smp then sampleUp smp
              else
                match sample (lastProgress refs2) with
                | Some prevSample =>
                    if inRoll prevSample then sampleUp smp
                    else transportCameraUp (tangent prevSample) (tangent smp)
                           (transportedUp refs2)
                | None => sampleUp smp
                end in
            let cameraHeight := 1.2 in
            let targetCameraPos :=
              add (point smp) (multiplyScalar newUp cameraHeight) in
            let lookDistance := 10 in
            let targetLookAt :=
              add (point smp) (multiplyScalar (tangent smp) lookDistance) in
            let camPos := lerp (previousCameraPos refs2) targetCameraPos 0.5 in
            let lookAt := lerp (previousLookAt refs2) targetLookAt 0.5 in
            mkRide world'
              (mkRideRefs (curveRef refs2) camPos lookAt
                 (maxHeightReached refs2) newUp newProgress)
              (mkCamera camPos newUp lookAt)
          end
      end
  end.

(* ================================================================== *)
(** * Notions used by the properties *)
(* ================================================================== *)

(** The sum of the arc lengths of a list of sections. *)
Definition totalLength (sections : list TrackSection) : R :=
  fold_right (fun s acc => arcLength s + acc) 0 sections.

(** A section carries the parameters of its kind: a roll its frame, a
    spline span its parameter range. *)
Definition sectionComplete (s : TrackSection) : Prop :=
  match type s with
  | roll => rollFrame s <> None
  | spline => splineStartT s <> None /\ splineEndT s <> None
  end.

(** A loop frame the closed form can be evaluated on. *)
Definition frameOrthonormal (frame : BarrelRollFrame) : Prop :=
  orthonormal (forward frame) (up frame) (right frame).

(** The straight line from the origin to (10, 0, 0), run at constant
    speed, and a track of two control points at its ends.  The
    properties below hold for every curve; the examples take this
    line for the curve of the track.  (It is the Catmull-Rom curve of
    three evenly spaced points on the line, see [midLoopTrack]; for the
    two end points alone three.js computes another cubic through
    them.) *)
Definition lineCurve : Curve :=
  mkCurve (fun t => mkV3 (10 * t) 0 0) (fun _ => mkV3 1 0 0).

Definition lineTrack : list TrackPoint.t :=
  [TrackPoint.mk (Store.pointId 1) (mkV3 0 0 0) 0 None;
   TrackPoint.mk (Store.pointId 2) (mkV3 10 0 0) 0 None].

(** A curve constructor for the examples: every track gets the
    straight line. *)
Definition lineSpline : list V3 -> bool -> Curve := fun _ _ => lineCurve.

(** The progress lies in the half-open range of a section. *)
Definition inRange (progress : R) (s : TrackSection) : Prop :=
  startProgress s <= progress < endProgress s.

(** The section table of the straight track. *)
Definition lineSections : list TrackSection :=
  [mkTrackSection spline 0 1 10 None (Some 0) (Some 1) (Some 0%nat)].

(** The straight track with a loop at its first point, as the editor
    builds it: two points are placed, then [createLoopAtPoint] is called
    on the first (at clock reading 0). *)
Definition loopWorld : Store.World :=
  Store.createLoopAtPoint 0 (Store.pointId 1)
    (Store.addTrackPoint (mkV3 10 0 0)
       (Store.addTrackPoint (mkV3 0 0 0) (Store.initialWorld None))).

Definition loopTrack : list TrackPoint.t :=
  [TrackPoint.mk (Store.pointId 1) (mkV3 0 0 0) 0 (Some true);
   TrackPoint.mk (Store.pointId 2) (mkV3 10 0 0) 0 None].

Definition loopSegment1 : LoopSegment.t :=
  LoopSegment.mk ("loop-" +:+ pretty 0%N) (Store.pointId 1) 5 12.

(** The arc length the builder gives the loop, and the progress at which
    the ride is half-way through it. *)
Definition loopArcLength : R := computeRollArcLength 5 12.

Definition loopMidProgress : R := loopArcLength / (loopArcLength + 10) / 2.

(** A track of two points with a loop at the first, as [loopTrack]
    with any two positions and any radius and pitch, and the frame the
    builder gives that loop on a curve. *)
Definition loopTrackAt (a b : V3) : list TrackPoint.t :=
  [TrackPoint.mk (Store.pointId 1) a 0 (Some true);
   TrackPoint.mk (Store.pointId 2) b 0 None].

Definition loopSegmentOf (radius pitch : R) : LoopSegment.t :=
  LoopSegment.mk ("loop-" +:+ pretty 0%N) (Store.pointId 1) radius pitch.

Definition firstLoopFrame (curve : Curve) (radius pitch : R) : BarrelRollFrame :=
  computeRollFrame curve (INR 0 / INR 1) (initialTangent curve)
    (initialUp curve) radius pitch zero.

(** The curve of a track whose control points all lie at the origin.
    A point of a Catmull-Rom curve is a combination of four control
    points with weights that add up to 1, here the origin; and
    [getTangent] is the normalized difference of two points of the
    curve, here the zero vector, which [normalize] leaves as it is. *)
Definition stillCurve : Curve := mkCurve (fun _ => zero) (fun _ => zero).

Definition stillSpline : list V3 -> bool -> Curve := fun _ _ => stillCurve.

Definition stillTrack : list TrackPoint.t :=
  [TrackPoint.mk (Store.pointId 1) zero 0 None;
   TrackPoint.mk (Store.pointId 2) zero 0 None].


(** The tick gets past its guards: a ride is on, there is a curve and a
    section table, and the current progress has a sample. *)
Definition tickRuns (memo : RideMemo) (r : Ride) (curve : Curve) : Prop :=
  let s := Store.state (world r) in
  Store.isRiding s = true /\
  curveRef (refs r) = Some curve /\
  memoSections memo <> [] /\
  sampleHybridTrack (Store.rideProgress s) (memoSections memo) curve
    (Store.loopSegments s) (Store.trackPoints s) (Store.isLooped s) <> None.

(** A ride on the straight open track, 95% of the way along. *)
Definition lineMemo : RideMemo := mkRideMemo lineSections 10 0.2.

Definition lineRideWorld : Store.World :=
  Store.setRideProgress 0.95
    (Store.startRide
       (Store.addTrackPoint (mkV3 10 0 0)
          (Store.addTrackPoint (mkV3 0 0 0) (Store.initialWorld None)))).

Definition lineRide : Ride :=
  mkRide lineRideWorld
    (mkRideRefs (Some lineCurve) zero zero 0 worldUp 0)
    (mkCamera zero worldUp zero).

(** Every loop segment of a store names a track point of that store as
    its entry. *)
Definition loopEntriesLive (s : Store.State) : Prop :=
  forall seg, In seg (Store.loopSegments s) ->
    exists p, In p (Store.trackPoints s) /\
              TrackPoint.id p = LoopSegment.entryPointId seg.

(** ** What the import asks, and the interchange schema

    The clauses of the schema on the name and on the position, tilt
    and id of the track points, in the specification's words:
    "[name] non-empty string; [trackPoints] is a sequence; each point
    has a 3-element finite-number position, numeric tilt, string id". *)

Definition pointMeetsSchema (pt : Json.value) : Prop :=
  exists (x y z : R) (tilt : Json.number) (id : string),
    Json.prop pt "position"
    = Some (Json.JArr [Json.JNum (Json.Finite x); Json.JNum (Json.Finite y);
                       Json.JNum (Json.Finite z)]) /\
    Json.prop pt "tilt" = Some (Json.JNum tilt) /\
    Json.prop pt "id" = Some (Json.JStr id).

Definition meetsImportSchema (parsed : option Json.value) : Prop :=
  exists (coaster : Json.value) (name : string) (pts : list Json.value),
    parsed = Some coaster /\
    Json.prop coaster "name" = Some (Json.JStr name) /\ name <> EmptyString /\
    Json.prop coaster "trackPoints" = Some (Json.JArr pts) /\
    Forall pointMeetsSchema pts.

(** A JavaScript value that is an array of exactly three elements. *)
Definition isTriple (v : Json.jsval) : Prop :=
  exists a b c, v = Some (Json.JArr [a; b; c]).

Definition isNumber (v : Json.jsval) : Prop :=
  exists n, v = Some (Json.JNum n).

(** The [loopMeta] member of a parsed track point, when it is there and
    truthy, has four three-element arrays and two numbers. *)
Definition loopMetaWellFormed (pt : Json.value) : Prop :=
  forall lm, Json.prop pt "loopMeta" = Some lm ->
    Json.toBoolean (Some lm) = true ->
    isTriple (Json.prop lm "entryPos") /\ isTriple (Json.prop lm "forward") /\
    isTriple (Json.prop lm "up") /\ isTriple (Json.prop lm "right") /\
    isNumber (Json.prop lm "radius") /\ isNumber (Json.prop lm "theta").

(** What [importCoaster] asks of the parsed text. *)
Definition importable (parsed : option Json.value) : Prop :=
  exists (coaster : Json.value) (name : string) (pts : list Json.value),
    parsed = Some coaster /\
    Json.prop coaster "name" = Some (Json.JStr name) /\
    Json.trim name <> EmptyString /\
    Json.prop coaster "trackPoints" = Some (Json.JArr pts) /\
    Forall (fun pt => pointMeetsSchema pt /\ loopMetaWellFormed pt) pts.

(** The whole interchange schema, as the specification words it.
    Section 6 gives the shape of a saved track,

      SavedTrack { id, name, timestamp,
        trackPoints: [ { id: string, position: [x,y,z] (finite numbers),
                         tilt: number, hasLoop?: bool } ],
        loopSegments: [ { id: string, entryPointId: string,
                          radius: number, pitch: number } ],
        isLooped: bool, hasChainLift: bool, showWoodSupports: bool }

    and the validation on import: "[name] non-empty string;
    [trackPoints] is a sequence; each point has a 3-element
    finite-number position, numeric tilt, string id; any present
    loop-descriptor fields are validated for shape (3-vectors numeric)",
    with "[pitch] defaults to 12 if absent".  The import assigns a fresh
    [id] and [timestamp], so the schema asks nothing of these two
    members. *)

Definition isBoolean (v : Json.jsval) : Prop :=
  exists b, v = Some (Json.JBool b).

Definition isText (v : Json.jsval) : Prop :=
  exists s, v = Some (Json.JStr s).

(** A 3-vector of numbers. *)
Definition isNumericTriple (v : Json.value) : Prop :=
  exists a b c, v = Json.JArr [Json.JNum a; Json.JNum b; Json.JNum c].

(** The vectors of the loop descriptor ([loopMeta]) of a track point:
    each one that is present is a 3-vector of numbers. *)
Definition loopDescriptorNumeric (pt : Json.value) : Prop :=
  forall lm key v,
    Json.prop pt "loopMeta" = Some lm ->
    In key ["entryPos"; "forward"; "up"; "right"] ->
    Json.prop lm key = Some v -> isNumericTriple v.

(** [hasLoop?: bool]. *)
Definition hasLoopOptional (pt : Json.value) : Prop :=
  Json.prop pt "hasLoop" = None \/ isBoolean (Json.prop pt "hasLoop").

(** An entry of [loopSegments]; [pitch] may be absent. *)
Definition loopSegmentMeetsSchema (seg : Json.value) : Prop :=
  isText (Json.prop seg "id") /\ isText (Json.prop seg "entryPointId") /\
  isNumber (Json.prop seg "radius") /\
  (Json.prop seg "pitch" = None \/ isNumber (Json.prop seg "pitch")).

Definition meetsInterchangeSchema (parsed : option Json.value) : Prop :=
  exists (coaster : Json.value) (name : string)
         (pts segs : list Json.value),
    parsed = Some coaster /\
    Json.prop coaster "name" = Some (Json.JStr name) /\ name <> EmptyString /\
    Json.prop coaster "trackPoints" = Some (Json.JArr pts) /\
    Forall (fun pt => pointMeetsSchema pt /\ hasLoopOptional pt /\
                      loopDescriptorNumeric pt) pts /\
    Json.prop coaster "loopSegments" = Some (Json.JArr segs) /\
    Forall loopSegmentMeetsSchema segs /\
    isBoolean (Json.prop coaster "isLooped") /\
    isBoolean (Json.prop coaster "hasChainLift") /\
    isBoolean (Json.prop coaster "showWoodSupports").

(** Inputs used as examples. *)
Definition jsonNumber (r : R) : Json.value := Json.JNum (Json.Finite r).

Definition goodPoint : Json.value :=
  Json.JObj [("id", Json.JStr "point-1");
             ("position", Json.JArr [jsonNumber 0; jsonNumber 1; jsonNumber 0]);
             ("tilt", jsonNumber 0)].



(** A coaster whose only loop segment has none of the descriptor
    fields, and whose flags are absent. *)
Definition coasterBareLoop : Json.value :=
  Json.JObj [("name", Json.JStr "Big Dipper");
             ("trackPoints", Json.JArr [goodPoint]);
             ("loopSegments", Json.JArr [Json.JObj []])].

(** A coaster whose [loopSegments] member is present and [null]. *)
Definition coasterNullLoops : Json.value :=
  Json.JObj [("name", Json.JStr "Big Dipper");
             ("trackPoints", Json.JArr [goodPoint]);
             ("loopSegments", Json.JNull)].


(** A track point whose loop descriptor has the shape [importCoaster]
    asks for, with text where the schema has numbers. *)
Definition pointTextVectors : Json.value :=
  let v := Json.JArr [Json.JStr "a"; Json.JStr "b"; Json.JStr "c"] in
  Json.JObj [("id", Json.JStr "point-1");
             ("position", Json.JArr [jsonNumber 0; jsonNumber 1; jsonNumber 0]);
             ("tilt", jsonNumber 0);
             ("loopMeta",
              Json.JObj [("entryPos", v); ("forward", v); ("up", v);
                         ("right", v); ("radius", jsonNumber 5);
                         ("theta", jsonNumber 0)])].

Definition coasterTextVectors : Json.value :=
  Json.JObj [("name", Json.JStr "Big Dipper");
             ("trackPoints", Json.JArr [pointTextVectors]);
             ("loopSegments", Json.JArr []);
             ("isLooped", Json.JBool false);
             ("hasChainLift", Json.JBool true);
             ("showWoodSupports", Json.JBool false)].

(** A name that is one no-break space (U+00A0, two bytes). *)
Definition noBreakSpace : string :=
  String (Ascii.ascii_of_nat 194) (String (Ascii.ascii_of_nat 160) EmptyString).

Definition coasterBlankName : Json.value :=
  Json.JObj [("name", Json.JStr noBreakSpace);
             ("trackPoints", Json.JArr [goodPoint])].

(** ** Notions for the propagated frame *)

Definition quatNormSq (q : Quat) : R :=
  qx q * qx q + qy q * qy q + qz q * qz q + qw q * qw q.

Definition quatAxis (q : Quat) : V3 := mkV3 (qx q) (qy q) (qz q).

(** A unit tangent with a unit up perpendicular to it. *)
Definition orthonormalPair (t u : V3) : Prop :=
  lengthSq t = 1 /\ lengthSq u = 1 /\ dot t u = 0.

(** The running frame of the section loop is an orthonormal pair and
    every loop frame built so far is orthonormal with the pitch of a
    loop segment of non-zero pitch. *)
Definition framesGood (st : BuildState) : Prop :=
  orthonormalPair (prevTangent st) (prevUp st) /\
  forall s frame, In s (sections st) -> rollFrame s = Some frame ->
                  frameOrthonormal frame /\ pitch frame <> 0.

(** No section of the list has a negative arc length. *)
Definition lengthsNonneg (secs : list TrackSection) : Prop :=
  Forall (fun s => 0 <= arcLength s) secs.

(** The section loop only appends sections, and its running total is
    the sum of their lengths. *)
Definition buildInvariant (st : BuildState) : Prop :=
  accumulatedLength st = totalLength (sections st).


(* ================================================================== *)
(** * Notions used by the further properties *)
(* ================================================================== *)

(** The track point is the entry of some loop segment. *)
Definition entersLoop (loopSegments : list LoopSegment.t) (p : TrackPoint.t)
  : bool :=
  existsb (fun seg => String.eqb (LoopSegment.entryPointId seg) (TrackPoint.id p))
          loopSegments.

(** How many track points are the entry of a loop segment. *)
Definition loopEntryCount (loopSegments : list LoopSegment.t)
    (trackPoints : list TrackPoint.t) : nat :=
  List.length (List.filter (entersLoop loopSegments) trackPoints).

(** The displacement the sampler adds to a spline point of the span
    that starts at point [pointIndex]: the forward travel of every loop
    entered at or before that point. *)
Definition offsetThrough (spline : Curve) (loopMap : gmap string LoopSegment.t)
    (totalSplineSegments pointIndex : nat) (trackPoints : list TrackPoint.t)
  : V3 :=
  accumulateRollOffset spline loopMap totalSplineSegments pointIndex zero 0
    trackPoints.

(** The forward travel of the loops entered before point [i]. *)
Definition offsetBefore (spline : Curve) (loopMap : gmap string LoopSegment.t)
    (totalSplineSegments i : nat) (trackPoints : list TrackPoint.t) : V3 :=
  match i with
  | O => zero
  | S j => offsetThrough spline loopMap totalSplineSegments j trackPoints
  end.

(** A section of the table sits where the sampler expects it: a loop
    starts at its entry point displaced by the loops before it and ends
    at that point displaced by the loops through it; a spline section
    covers the span of its point index. *)
Definition sectionJoined (spline : Curve) (loopMap : gmap string LoopSegment.t)
    (totalSplineSegments : nat) (trackPoints : list TrackPoint.t)
    (s : TrackSection) : Prop :=
  exists i, pointIndex s = Some i /\
  match type s with
  | roll =>
      exists frame, rollFrame s = Some frame /\
        entryPos frame
        = add (getPoint spline (INR i / INR totalSplineSegments))
              (offsetBefore spline loopMap totalSplineSegments i trackPoints) /\
        addScaledVector (entryPos frame) (forward frame) (pitch frame)
        = add (getPoint spline (INR i / INR totalSplineSegments))
              (offsetThrough spline loopMap totalSplineSegments i trackPoints)
  | spline =>
      rollFrame s = None /\
      splineStartT s = Some (INR i / INR totalSplineSegments) /\
      splineEndT s = Some (INR (i + 1) / INR totalSplineSegments)
  end.

(** The section loop, about to handle point [i] with [rest] left, agrees
    with the sampler's running displacement. *)
Definition joinInvariant (spline : Curve) (loopMap : gmap string LoopSegment.t)
    (totalSplineSegments : nat) (trackPoints : list TrackPoint.t)
    (st : BuildState) (i : nat) (rest : list TrackPoint.t) : Prop :=
  rollOffset st
  = offsetBefore spline loopMap totalSplineSegments i trackPoints /\
  (forall k, (i <= k)%nat ->
     offsetThrough spline loopMap totalSplineSegments k trackPoints
     = accumulateRollOffset spline loopMap totalSplineSegments k
         (rollOffset st) i rest) /\
  Forall (sectionJoined spline loopMap totalSplineSegments trackPoints)
         (sections st).

(** A straight track of three evenly spaced points from the origin to
    (10, 0, 0), with a loop (radius 5, pitch 12) at the middle point.
    The Catmull-Rom curve of tension 0.5 through evenly spaced points of
    a line is that line run at constant speed, so [lineCurve] is its
    curve. *)
Definition midLoopTrack : list TrackPoint.t :=
  [TrackPoint.mk (Store.pointId 1) (mkV3 0 0 0) 0 None;
   TrackPoint.mk (Store.pointId 2) (mkV3 5 0 0) 0 (Some true);
   TrackPoint.mk (Store.pointId 3) (mkV3 10 0 0) 0 None].

Definition midLoopSegment : LoopSegment.t :=
  LoopSegment.mk ("loop-" +:+ pretty 0%N) (Store.pointId 2) 5 12.

(** Its three sections: the first span, the loop, the second span. *)
Definition midLoopLength : R := 0 + 5 + loopArcLength + 5.

Definition firstSpan : TrackSection :=
  mkTrackSection spline (0 / midLoopLength) ((0 + 5) / midLoopLength) 5
    None (Some (INR 0 / INR 2)) (Some (INR (0 + 1) / INR 2)) (Some 0%nat).

Definition midLoop : TrackSection :=
  mkTrackSection roll ((0 + 5) / midLoopLength)
    ((0 + 5 + loopArcLength) / midLoopLength) loopArcLength
    (Some (scenarioFrame (mkV3 5 0 0))) None None (Some 1%nat).

Definition secondSpan : TrackSection :=
  mkTrackSection spline ((0 + 5 + loopArcLength) / midLoopLength)
    ((0 + 5 + loopArcLength + 5) / midLoopLength) 5
    None (Some (INR 1 / INR 2)) (Some (INR (1 + 1) / INR 2)) (Some 1%nat).


(* ================================================================== *)
(** * Saving and loading (useRollerCoaster.tsx) *)
(* ================================================================== *)

Module Saves.

(** What evaluating an expression on stored data comes to: a value of
    the type the store declares, a [TypeError] (which the [try] of
    [loadCoaster] catches), or a value outside the declared type (a
    string where a number is declared, say), which the typed store of
    this development cannot hold. *)
Inductive Decoded (A : Type) : Type :=
| Value (a : A)
| Throws
| IllTyped.
Arguments Value {A} a.
Arguments Throws {A}.
Arguments IllTyped {A}.

(** [list.map(f)] for an [f] that can throw: the first throw ends the
    whole evaluation. *)
Fixpoint sequence {A : Type} (l : list (Decoded A)) : Decoded (list A) :=
  match l with
  | [] => Value []
  | d :: rest =>
      match d, sequence rest with
      | Throws, _ => Throws
      | _, Throws => Throws
      | Value a, Value r => Value (a :: r)
      | _, _ => IllTyped
      end
  end.

(** [arr[i]] for a value that is neither [null] nor [undefined]. *)
Definition index (arr : Json.value) (i : nat) : Json.jsval :=
  match arr with
  | Json.JArr items => nth_error items i
  | Json.JObj members => Json.getMember members (pretty i)
  | Json.JStr s =>
      match String.get i s with
      | Some c => Some (Json.JStr (String c EmptyString))
      | None => None
      end
  | _ => None
  end.

(** An argument of [new THREE.Vector3(x, y, z)]: the parameters default
    to 0 when [undefined]. *)
Definition coordinate (v : Json.jsval) : Decoded R :=
  match v with
  | None => Value 0
  | Some (Json.JNum (Json.Finite r)) => Value r
  | Some _ => IllTyped
  end.

Definition numberField (v : Json.jsval) : Decoded R :=
  match v with
  | Some (Json.JNum (Json.Finite r)) => Value r
  | _ => IllTyped
  end.

Definition stringField (v : Json.jsval) : Decoded string :=
  match v with
  | Some (Json.JStr s) => Value s
  | _ => IllTyped
  end.

(** A field declared [hasLoop?: boolean]. *)
Definition optionalBooleanField (v : Json.jsval) : Decoded (option bool) :=
  match v with
  | None => Value None
  | Some (Json.JBool b) => Value (Some b)
  | Some _ => IllTyped
  end.

Definition serializeVector3 (v : V3) : Json.value :=
  Json.JArr [jsonNumber (vx v); jsonNumber (vy v); jsonNumber (vz v)].

(** [deserializeVector3(arr)]: reading [arr[0]] of [null] or
    [undefined] throws. *)
Definition deserializeVector3 (arr : Json.jsval) : Decoded V3 :=
  match arr with
  | None | Some Json.JNull => Throws
  | Some a =>
      match coordinate (index a 0), coordinate (index a 1),
            coordinate (index a 2) with
      | Value x, Value y, Value z => Value (mkV3 x y z)
      | _, _, _ => IllTyped
      end
  end.

(** [serializeTrackPoint(point)]. A member whose value is [undefined]
    ([hasLoop] of a point without a loop) is left out: reading it gives
    [undefined] either way, and [JSON.stringify] omits it. *)
Definition serializeTrackPoint (point : TrackPoint.t) : Json.value :=
  Json.JObj
    ([("id", Json.JStr (TrackPoint.id point));
      ("position", serializeVector3 (TrackPoint.position point));
      ("tilt", jsonNumber (TrackPoint.tilt point))]
     ++ match TrackPoint.hasLoop point with
        | Some b => [("hasLoop", Json.JBool b)]
        | None => []
        end).

(** [deserializeTrackPoint(serialized)], together with the
    [p.id.replace(...)] that [loadCoaster] calls on its result: that
    call throws when the id is not a string. *)
Definition deserializeTrackPoint (serialized : Json.value)
  : Decoded TrackPoint.t :=
  match serialized with
  | Json.JNull => Throws
  | _ =>
      match deserializeVector3 (Json.prop serialized "position") with
      | Throws => Throws
      | position =>
          match Json.prop serialized "id" with
          | Some (Json.JStr id) =>
              match position, numberField (Json.prop serialized "tilt"),
                    optionalBooleanField (Json.prop serialized "hasLoop") with
              | Value position, Value tilt, Value hasLoop =>
                  Value (TrackPoint.mk id position tilt hasLoop)
              | _, _, _ => IllTyped
              end
          | _ => Throws
          end
      end
  end.

Definition serializeLoopSegment (segment : LoopSegment.t) : Json.value :=
  Json.JObj
    [("id", Json.JStr (LoopSegment.id segment));
     ("entryPointId", Json.JStr (LoopSegment.entryPointId segment));
     ("radius", jsonNumber (LoopSegment.radius segment));
     ("pitch", jsonNumber (LoopSegment.pitch segment))].

(** [deserializeLoopSegment(serialized)]; [serialized.pitch ?? 12]. *)
Definition deserializeLoopSegment (serialized : Json.value)
  : Decoded LoopSegment.t :=
  match serialized with
  | Json.JNull => Throws
  | _ =>
      match stringField (Json.prop serialized "id"),
            stringField (Json.prop serialized "entryPointId"),
            numberField (Json.prop serialized "radius"),
            match Json.prop serialized "pitch" with
            | None | Some Json.JNull => Value 12
            | pitch => numberField pitch
            end with
      | Value id, Value entryPointId, Value radius, Value pitch =>
          Value (LoopSegment.mk id entryPointId radius pitch)
      | _, _, _, _ => IllTyped
      end
  end.

(** [(coaster.loopSegments || []).map(deserializeLoopSegment)]: a truthy
    value that is not an array has no [map]. *)
Definition deserializeLoopSegments (loopSegments : Json.value)
  : Decoded (list LoopSegment.t) :=
  if Json.toBoolean (Some loopSegments) then
    match loopSegments with
    | Json.JArr items => sequence (map deserializeLoopSegment items)
    | _ => Throws
    end
  else Value [].

(** What follows [pattern] in [s] when [s] starts with it. *)
Fixpoint stripPrefix (pattern s : string) : option string :=
  match pattern, s with
  | EmptyString, _ => Some s
  | String a pattern, String b rest =>
      if Ascii.eqb a b then stripPrefix pattern rest else None
  | String _ _, EmptyString => None
  end.

(** [s.replace(pattern, '')] for a string pattern: the first occurrence
    is removed. *)
Fixpoint removeFirst (pattern s : string) : string :=
  match stripPrefix pattern s with
  | Some rest => rest
  | None =>
      match s with
      | String c rest => String c (removeFirst pattern rest)
      | EmptyString => EmptyString
      end
  end.

Definition digitValue (c : Ascii.ascii) : option N :=
  let n := Ascii.N_of_ascii c in
  if ((48 <=? n) && (n <=? 57))%N then Some (n - 48)%N else None.

(** The leading decimal digits of [s], read from [acc] on; [None] while
    no digit was read. *)
Fixpoint parseDigits (s : string) (acc : option N) : option N :=
  match s with
  | String c rest =>
      match digitValue c with
      | Some d => parseDigits rest (Some (10 * default 0%N acc + d)%N)
      | None => acc
      end
  | EmptyString => acc
  end.

(** [parseInt(s, 10)]: leading white space, a sign, then digits up to
    the first other character; [None] is [NaN]. *)
Definition parseInt (s : string) : option Z :=
  let s := Json.trimStart s in
  let signed :=
    match s with
    | String c rest =>
        let n := Ascii.nat_of_ascii c in
        if Nat.eqb n 45 then (true, rest)          (* '-' *)
        else if Nat.eqb n 43 then (false, rest)    (* '+' *)
        else (false, s)
    | EmptyString => (false, s)
    end in
  match parseDigits (snd signed) None with
  | Some n => Some (if fst signed then (- Z.of_N n)%Z else Z.of_N n)
  | None => None
  end.

(** The [reduce] of [loadCoaster]: the largest number found in the ids
    of the points, 0 at least. *)
Definition maxId (trackPoints : list TrackPoint.t) : Z :=
  fold_left
    (fun max p =>
       match parseInt (removeFirst "point-" (TrackPoint.id p)) with
       | None => max
       | Some num => Z.max max num
       end)
    trackPoints 0%Z.

(** [persistSavedCoasters(coasters)] followed by a later
    [loadSavedCoasters()]: the item holds the JSON text of the list. *)
Definition persistSavedCoasters (coasters : list SavedCoaster.t)
  : option (list SavedCoaster.t) :=
  Some (map SavedCoaster.roundTrip coasters).

(** [saveCoaster(name)]; [nowId] and [nowTs] are the two readings of
    [Date.now()].  [None]: [localStorage.setItem] throws (the quota is
    exceeded), nothing catches it here, and neither the store nor the
    stored item has changed. *)
Definition saveCoaster (nowId nowTs : N) (storageWritable : bool)
    (name : string) (w : Store.World) : option Store.World :=
  let state := Store.state w in
  let id := "coaster-" +:+ pretty nowId in
  let savedCoaster :=
    SavedCoaster.mk id name nowTs
      (map serializeTrackPoint (Store.trackPoints state))
      (Json.JArr (map serializeLoopSegment (Store.loopSegments state)))
      (Store.isLooped state) (Store.hasChainLift state)
      (Store.showWoodSupports state) in
  let coasters := Store.loadSavedCoasters w ++ [savedCoaster] in
  if storageWritable then
    Some (Store.mkWorld
            (Store.mkState (Store.mode state) (Store.trackPoints state)
               (Store.loopSegments state) (Store.selectedPointId state)
               (Store.rideProgress state) (Store.isRiding state)
               (Store.rideSpeed state) (Store.isDraggingPoint state)
               (Store.isAddingPoints state) (Store.isLooped state)
               (Store.hasChainLift state) (Store.showWoodSupports state)
               (Store.isNightMode state) (Store.cameraTarget state)
               coasters (Some name))
            (Store.pointCounter w) (persistSavedCoasters coasters))
  else None.

(** [loadCoaster(id)].  [Some w']: the call returns with the world
    [w'], which is [w] itself when no coaster has the id or when the
    [try] caught a [TypeError]; [None]: the call would put values
    outside the declared types into the store.  The stored
    [trackPoints] is an array in this development, so the
    [Array.isArray] test passes. *)
Definition loadCoaster (id : string) (w : Store.World) : option Store.World :=
  let coasters := Store.loadSavedCoasters w in
  match List.find (fun c => String.eqb (SavedCoaster.id c) id) coasters with
  | None => Some w
  | Some coaster =>
      match sequence (map deserializeTrackPoint (SavedCoaster.trackPoints coaster)),
            deserializeLoopSegments (SavedCoaster.loopSegments coaster) with
      | Throws, _ => Some w
      | _, Throws => Some w
      | Value trackPoints, Value loopSegments =>
          let s := Store.state w in
          Some (Store.mkWorld
                  (Store.mkState build trackPoints loopSegments None 0 false
                     (Store.rideSpeed s) (Store.isDraggingPoint s)
                     (Store.isAddingPoints s)
                     (SavedCoaster.isLooped coaster)
                     (SavedCoaster.hasChainLift coaster)
                     (SavedCoaster.showWoodSupports coaster)
                     (Store.isNightMode s) (Store.cameraTarget s)
                     (Store.savedCoasters s)
                     (Some (if String.eqb (SavedCoaster.name coaster) EmptyString
                            then "Untitled" else SavedCoaster.name coaster)))
                  (Z.to_nat (maxId trackPoints)) (Store.localStorage w))
      | _, _ => None
      end
  end.

(** [deleteCoaster(id)]; [None] as for [saveCoaster]. *)
Definition deleteCoaster (storageWritable : bool) (id : string)
    (w : Store.World) : option Store.World :=
  let coasters :=
    List.filter (fun c => negb (String.eqb (SavedCoaster.id c) id))
                (Store.loadSavedCoasters w) in
  if storageWritable then
    Some (Store.mkWorld (Store.setSavedCoasters (Store.state w) coasters)
            (Store.pointCounter w) (persistSavedCoasters coasters))
  else None.

(** A saved coaster as a JavaScript object. *)
Definition coasterObject (c : SavedCoaster.t) : Json.value :=
  Json.JObj
    [("id", Json.JStr (SavedCoaster.id c));
     ("name", Json.JStr (SavedCoaster.name c));
     ("timestamp", jsonNumber (IZR (Z.of_N (SavedCoaster.timestamp c))));
     ("trackPoints", Json.JArr (SavedCoaster.trackPoints c));
     ("loopSegments", SavedCoaster.loopSegments c);
     ("isLooped", Json.JBool (SavedCoaster.isLooped c));
     ("hasChainLift", Json.JBool (SavedCoaster.hasChainLift c));
     ("showWoodSupports", Json.JBool (SavedCoaster.showWoodSupports c))].

(** [exportCoaster(id)]: [None] is [null]; otherwise the value that
    [JSON.parse] reads back from the returned text. *)
Definition exportCoaster (id : string) (w : Store.World) : option Json.value :=
  match List.find (fun c => String.eqb (SavedCoaster.id c) id)
                  (Store.loadSavedCoasters w) with
  | None => None
  | Some coaster => Some (Json.roundTrip (coasterObject coaster))
  end.

Definition refreshSavedCoasters (w : Store.World) : Store.World :=
  Store.withState w
    (Store.setSavedCoasters (Store.state w) (Store.loadSavedCoasters w)).

End Saves.


(** The looped straight track, saved as "Big Dipper" at clock reading 7
    (8 for the time stamp). *)
Definition savedLoopWorld : Store.World :=
  match Saves.saveCoaster 7 8 true "Big Dipper" loopWorld with
  | Some w => w
  | None => loopWorld
  end.


(* ================================================================== *)
(** * The remaining actions of the store, and its reachable states *)
(* ================================================================== *)

(** The setters [set({ field })] of the store. *)
Module Setters.

Definition setMode (mode : CoasterMode) (w : Store.World) : Store.World :=
  let s := Store.state w in
  Store.withState w
    (Store.mkState mode (Store.trackPoints s) (Store.loopSegments s)
       (Store.selectedPointId s) (Store.rideProgress s)
       (Store.isRiding s) (Store.rideSpeed s) (Store.isDraggingPoint s)
       (Store.isAddingPoints s) (Store.isLooped s) (Store.hasChainLift s)
       (Store.showWoodSupports s) (Store.isNightMode s)
       (Store.cameraTarget s) (Store.savedCoasters s)
       (Store.currentCoasterName s)).

Definition setCameraTarget (target : option V3) (w : Store.World) : Store.World :=
  let s := Store.state w in
  Store.withState w
    (Store.mkState (Store.mode s) (Store.trackPoints s)
       (Store.loopSegments s) (Store.selectedPointId s)
       (Store.rideProgress s) (Store.isRiding s) (Store.rideSpeed s)
       (Store.isDraggingPoint s) (Store.isAddingPoints s)
       (Store.isLooped s) (Store.hasChainLift s)
       (Store.showWoodSupports s) (Store.isNightMode s) target
       (Store.savedCoasters s) (Store.currentCoasterName s)).

Definition setIsDraggingPoint (dragging : bool) (w : Store.World) : Store.World :=
  let s := Store.state w in
  Store.withState w
    (Store.mkState (Store.mode s) (Store.trackPoints s)
       (Store.loopSegments s) (Store.selectedPointId s)
       (Store.rideProgress s) (Store.isRiding s) (Store.rideSpeed s)
       dragging (Store.isAddingPoints s) (Store.isLooped s)
       (Store.hasChainLift s) (Store.showWoodSupports s)
       (Store.isNightMode s) (Store.cameraTarget s)
       (Store.savedCoasters s) (Store.currentCoasterName s)).

Definition setIsAddingPoints (adding : bool) (w : Store.World) : Store.World :=
  let s := Store.state w in
  Store.withState w
    (Store.mkState (Store.mode s) (Store.trackPoints s)
       (Store.loopSegments s) (Store.selectedPointId s)
       (Store.rideProgress s) (Store.isRiding s) (Store.rideSpeed s)
       (Store.isDraggingPoint s) adding (Store.isLooped s)
       (Store.hasChainLift s) (Store.showWoodSupports s)
       (Store.isNightMode s) (Store.cameraTarget s)
       (Store.savedCoasters s) (Store.currentCoasterName s)).

Definition setIsLooped (looped : bool) (w : Store.World) : Store.World :=
  let s := Store.state w in
  Store.withState w
    (Store.mkState (Store.mode s) (Store.trackPoints s)
       (Store.loopSegments s) (Store.selectedPointId s)
       (Store.rideProgress s) (Store.isRiding s) (Store.rideSpeed s)
       (Store.isDraggingPoint s) (Store.isAddingPoints s) looped
       (Store.hasChainLift s) (Store.showWoodSupports s)
       (Store.isNightMode s) (Store.cameraTarget s)
       (Store.savedCoasters s) (Store.currentCoasterName s)).

Definition setHasChainLift (hasChain : bool) (w : Store.World) : Store.World :=
  let s := Store.state w in
  Store.withState w
    (Store.mkState (Store.mode s) (Store.trackPoints s)
       (Store.loopSegments s) (Store.selectedPointId s)
       (Store.rideProgress s) (Store.isRiding s) (Store.rideSpeed s)
       (Store.isDraggingPoint s) (Store.isAddingPoints s)
       (Store.isLooped s) hasChain (Store.showWoodSupports s)
       (Store.isNightMode s) (Store.cameraTarget s)
       (Store.savedCoasters s) (Store.currentCoasterName s)).

Definition setShowWoodSupports (show : bool) (w : Store.World) : Store.World :=
  let s := Store.state w in
  Store.withState w
    (Store.mkState (Store.mode s) (Store.trackPoints s)
       (Store.loopSegments s) (Store.selectedPointId s)
       (Store.rideProgress s) (Store.isRiding s) (Store.rideSpeed s)
       (Store.isDraggingPoint s) (Store.isAddingPoints s)
       (Store.isLooped s) (Store.hasChainLift s) show
       (Store.isNightMode s) (Store.cameraTarget s)
       (Store.savedCoasters s) (Store.currentCoasterName s)).

Definition setIsNightMode (night : bool) (w : Store.World) : Store.World :=
  let s := Store.state w in
  Store.withState w
    (Store.mkState (Store.mode s) (Store.trackPoints s)
       (Store.loopSegments s) (Store.selectedPointId s)
       (Store.rideProgress s) (Store.isRiding s) (Store.rideSpeed s)
       (Store.isDraggingPoint s) (Store.isAddingPoints s)
       (Store.isLooped s) (Store.hasChainLift s)
       (Store.showWoodSupports s) night (Store.cameraTarget s)
       (Store.savedCoasters s) (Store.currentCoasterName s)).

Definition setRideSpeed (speed : R) (w : Store.World) : Store.World :=
  let s := Store.state w in
  Store.withState w
    (Store.mkState (Store.mode s) (Store.trackPoints s)
       (Store.loopSegments s) (Store.selectedPointId s)
       (Store.rideProgress s) (Store.isRiding s) speed
       (Store.isDraggingPoint s) (Store.isAddingPoints s)
       (Store.isLooped s) (Store.hasChainLift s)
       (Store.showWoodSupports s) (Store.isNightMode s)
       (Store.cameraTarget s) (Store.savedCoasters s)
       (Store.currentCoasterName s)).

End Setters.

(** One call of an action of the store other than [loadCoaster]. *)
Inductive editStep : Store.World -> Store.World -> Prop :=
| edit_addTrackPoint position w :
    editStep w (Store.addTrackPoint position w)
| edit_updateTrackPoint id position w :
    editStep w (Store.updateTrackPoint id position w)
| edit_updateTrackPointTilt id tilt w :
    editStep w (Store.updateTrackPointTilt id tilt w)
| edit_removeTrackPoint id w :
    editStep w (Store.removeTrackPoint id w)
| edit_createLoopAtPoint now id w :
    editStep w (Store.createLoopAtPoint now id w)
| edit_selectPoint id w :
    editStep w (Store.selectPoint id w)
| edit_clearTrack w :
    editStep w (Store.clearTrack w)
| edit_setRideProgress progress w :
    editStep w (Store.setRideProgress progress w)
| edit_setIsRiding riding w :
    editStep w (Store.setIsRiding riding w)
| edit_startRide w :
    editStep w (Store.startRide w)
| edit_stopRide w :
    editStep w (Store.stopRide w)
| edit_setMode mode w :
    editStep w (Setters.setMode mode w)
| edit_setCameraTarget target w :
    editStep w (Setters.setCameraTarget target w)
| edit_setIsDraggingPoint dragging w :
    editStep w (Setters.setIsDraggingPoint dragging w)
| edit_setIsAddingPoints adding w :
    editStep w (Setters.setIsAddingPoints adding w)
| edit_setIsLooped looped w :
    editStep w (Setters.setIsLooped looped w)
| edit_setHasChainLift hasChain w :
    editStep w (Setters.setHasChainLift hasChain w)
| edit_setShowWoodSupports show w :
    editStep w (Setters.setShowWoodSupports show w)
| edit_setIsNightMode night w :
    editStep w (Setters.setIsNightMode night w)
| edit_setRideSpeed speed w :
    editStep w (Setters.setRideSpeed speed w)
| edit_saveCoaster nowId nowTs storageWritable name w w' :
    Saves.saveCoaster nowId nowTs storageWritable name w = Some w' ->
    editStep w w'
| edit_deleteCoaster storageWritable id w w' :
    Saves.deleteCoaster storageWritable id w = Some w' ->
    editStep w w'
| edit_importCoaster nowId nowTs storageWritable parsed w :
    editStep w (snd (Store.importCoaster nowId nowTs storageWritable parsed w))
| edit_refreshSavedCoasters w :
    editStep w (Saves.refreshSavedCoasters w).

(** The worlds the store reaches from its initial state, whatever the
    stored item holds, by any sequence of those actions. *)
Inductive edited : Store.World -> Prop :=
| edited_initial stored : edited (Store.initialWorld stored)
| edited_step w w' : edited w -> editStep w w' -> edited w'.

(** What those actions keep true of the track. *)
Record trackInvariant (w : Store.World) : Prop := mkTrackInvariant {
  ids_given :
    forall p, In p (Store.trackPoints (Store.state w)) ->
      exists k, (k <= Store.pointCounter w)%nat /\
                TrackPoint.id p = Store.pointId k;
  ids_distinct :
    List.NoDup (map TrackPoint.id (Store.trackPoints (Store.state w)));
  entries_given :
    forall seg, In seg (Store.loopSegments (Store.state w)) ->
      exists k, (k <= Store.pointCounter w)%nat /\
                LoopSegment.entryPointId seg = Store.pointId k;
  entries_distinct :
    List.NoDup (map LoopSegment.entryPointId
                    (Store.loopSegments (Store.state w)));
  flags_agree :
    forall p, In p (Store.trackPoints (Store.state w)) ->
      (TrackPoint.hasLoop p = Some true <->
       entersLoop (Store.loopSegments (Store.state w)) p = true)
}.


(* ================================================================== *)
(** * The rails (Track.tsx) *)
(* ================================================================== *)

Module Rail.

(** [trackPoints[i].tilt] for an integer [i]: outside the array the
    element is [undefined] and reading its [tilt] throws ([None]). *)
Definition tiltAt (trackPoints : list TrackPoint.t) (i : Z) : option R :=
  if (i <? 0)%Z then None
  else
    match nth_error trackPoints (Z.to_nat i) with
    | Some p => Some (TrackPoint.tilt p)
    | None => None
    end.

(** [interpolateTilt(trackPoints, t, isLooped)]; [Math.floor] is
    [Int_part], [%] is [Z.rem] (the sign of the dividend). *)
Definition interpolateTilt (trackPoints : list TrackPoint.t) (t : R)
    (isLooped : bool) : option R :=
  if Nat.ltb (List.length trackPoints) 2 then Some 0
  else
    let n := Z.of_nat (List.length trackPoints) in
    let scaledT := if isLooped then t * IZR n else t * IZR (n - 1) in
    let index := Int_part scaledT in
    let frac := scaledT - IZR index in
    if isLooped then
      let i0 := Z.rem index n in
      let i1 := Z.rem (index + 1) n in
      match tiltAt trackPoints i0, tiltAt trackPoints i1 with
      | Some tilt0, Some tilt1 => Some (tilt0 * (1 - frac) + tilt1 * frac)
      | _, _ => None
      end
    else if (n - 1 <=? index)%Z then tiltAt trackPoints (n - 1)
    else
      match tiltAt trackPoints index, tiltAt trackPoints (index + 1) with
      | Some tilt0, Some tilt1 => Some (tilt0 * (1 - frac) + tilt1 * frac)
      | _, _ => None
      end.

(** [getTrackTiltAtProgress]. *)
Definition getTrackTiltAtProgress (trackPoints : list TrackPoint.t)
    (progress : R) (isLooped : bool) : option R :=
  interpolateTilt trackPoints progress isLooped.

(** A sample of the rail: [{ point, tangent, normal, up, tilt }]. *)
Module RailSample.
Record t : Type := mk {
  point : V3;
  tangent : V3;
  normal : V3;
  up : V3;
  tilt : R
}.
End RailSample.

(** The [normal] that Track.tsx's [sampleBarrelRollAnalytically]
    returns beside the point, tangent and up: the entry right turned by
    theta. *)
Definition rollNormal (frame : BarrelRollFrame) (t : R) : V3 :=
  normalize
    (addScaledVector
       (addScaledVector zero (right frame) (cos (theta t)))
       (up frame) (sin (theta t))).

(** The rail sample pushed for a loop at local parameter [t]. *)
Definition rollRailSample (frame : BarrelRollFrame) (t : R) : RailSample.t :=
  RailSample.mk (rollPoint frame t) (rollTangent frame t) (rollNormal frame t)
    (rollUp frame t) 0.

(** The running variables of the rail loop. *)
Record RailState : Type := mkRailState {
  railData : list RailSample.t;
  railPrevTangent : V3;
  railPrevUp : V3;
  railRollOffset : V3
}.

Definition rollSamples : nat := 64.
Definition numSamplesPerSegment : nat := 20.

(** One turn of [for (let s = 0; s < numSamplesPerSegment; s++)];
    [None] when [interpolateTilt] throws. *)
Definition splineSampleStep (baseSpline : Curve)
    (trackPoints : list TrackPoint.t) (isLooped : bool)
    (pointIdx totalSplineSegments : nat) (st : option RailState) (s : nat)
  : option RailState :=
  match st with
  | None => None
  | Some st =>
      let localT := INR s / INR numSamplesPerSegment in
      let globalT := (INR pointIdx + localT) / INR totalSplineSegments in
      let point := add (getPoint baseSpline globalT) (railRollOffset st) in
      let tangent := normalize (getTangent baseSpline globalT) in
      match interpolateTilt trackPoints globalT isLooped with
      | None => None
      | Some tilt =>
          let up := railUp (railPrevTangent st) tangent (railPrevUp st) in
          let normal := normalize (crossVectors tangent up) in
          Some (mkRailState
                  (railData st ++ [RailSample.mk point tangent normal up tilt])
                  tangent up (railRollOffset st))
      end
  end.

(** One turn of [for (let pointIdx = 0; pointIdx < numTrackPoints;
    pointIdx++)]: the samples of the loop that starts at the point, if
    any, then those of the span that follows it. *)
Definition railPointStep (baseSpline : Curve)
    (loopMap : gmap string LoopSegment.t) (trackPoints : list TrackPoint.t)
    (isLooped : bool) (st : option RailState) (pointIdx : nat)
    (currentPoint : TrackPoint.t) : option RailState :=
  match st with
  | None => None
  | Some st =>
      let numTrackPoints := List.length trackPoints in
      let totalSplineSegments :=
        totalSplineSegmentsOf numTrackPoints isLooped in
      let st :=
        match loopMap !! TrackPoint.id currentPoint with
        | Some loopSeg =>
            let splineT := INR pointIdx / INR totalSplineSegments in
            let rollFrame :=
              computeRollFrame baseSpline splineT (railPrevTangent st)
                (railPrevUp st) (LoopSegment.radius loopSeg)
                (LoopSegment.pitch loopSeg) (railRollOffset st) in
            mkRailState
              (railData st
               ++ map (fun i => rollRailSample rollFrame (INR i / INR rollSamples))
                      (seq 0 (rollSamples + 1)))
              (forward rollFrame) (up rollFrame)
              (addScaledVector (railRollOffset st) (forward rollFrame)
                 (LoopSegment.pitch loopSeg))
        | None => st
        end in
      if (Nat.leb (numTrackPoints - 1) pointIdx && negb isLooped)%bool
      then Some st
      else
        fold_left
          (splineSampleStep baseSpline trackPoints isLooped pointIdx
             totalSplineSegments)
          (seq 0 numSamplesPerSegment) (Some st)
  end.

Fixpoint railLoop (baseSpline : Curve) (loopMap : gmap string LoopSegment.t)
    (trackPoints : list TrackPoint.t) (isLooped : bool)
    (st : option RailState) (pointIdx : nat) (points : list TrackPoint.t)
  : option RailState :=
  match points with
  | [] => st
  | currentPoint :: rest =>
      railLoop baseSpline loopMap trackPoints isLooped
        (railPointStep baseSpline loopMap trackPoints isLooped st pointIdx
           currentPoint)
        (S pointIdx) rest
  end.

(** The sample that closes the rail of an open track. *)
Definition lastRailSample (baseSpline : Curve)
    (trackPoints : list TrackPoint.t) (st : RailState) : option RailSample.t :=
  let lastPoint := add (getPoint baseSpline 1) (railRollOffset st) in
  let lastTangent := normalize (getTangent baseSpline 1) in
  match tiltAt trackPoints (Z.of_nat (List.length trackPoints) - 1) with
  | None => None
  | Some lastTilt =>
      Some (RailSample.mk lastPoint lastTangent
              (normalize (crossVectors lastTangent (railPrevUp st)))
              (railPrevUp st) lastTilt)
  end.

Section RailMemo.

Variable CatmullRomCurve3 : list V3 -> bool -> Curve.

(** The [railData] of the [useMemo] of [Track]; [None] when computing
    it throws. *)
Definition railDataMemo (trackPoints : list TrackPoint.t)
    (loopSegments : list LoopSegment.t) (isLooped : bool)
  : option (list RailSample.t) :=
  if Nat.ltb (List.length trackPoints) 2 then Some []
  else
    let baseSpline :=
      CatmullRomCurve3 (map TrackPoint.position trackPoints) isLooped in
    let loopMap := buildLoopMap loopSegments in
    match railLoop baseSpline loopMap trackPoints isLooped
            (Some (mkRailState [] (initialTangent baseSpline)
                     (initialUp baseSpline) zero))
            0 trackPoints with
    | None => None
    | Some st =>
        if (negb isLooped && Nat.leb 2 (List.length trackPoints))%bool then
          match lastRailSample baseSpline trackPoints st with
          | None => None
          | Some smp => Some (railData st ++ [smp])
          end
        else Some (railData st)
    end.

End RailMemo.

Definition railOffset : R := 0.3.

(** The points of the two rails beside a sample. *)
Definition leftRailPoint (smp : RailSample.t) : V3 :=
  mkV3 (vx (RailSample.point smp) + vx (RailSample.normal smp) * railOffset)
       (vy (RailSample.point smp) + vy (RailSample.normal smp) * railOffset)
       (vz (RailSample.point smp) + vz (RailSample.normal smp) * railOffset).

Definition rightRailPoint (smp : RailSample.t) : V3 :=
  mkV3 (vx (RailSample.point smp) - vx (RailSample.normal smp) * railOffset)
       (vy (RailSample.point smp) - vy (RailSample.normal smp) * railOffset)
       (vz (RailSample.point smp) - vz (RailSample.normal smp) * railOffset).

End Rail.

(** ** Notions for the rail *)

(** The tangent, up and normal of a rail sample are an orthonormal
    basis. *)
Definition railFrameOrthonormal (smp : Rail.RailSample.t) : Prop :=
  orthonormal (Rail.RailSample.tangent smp) (Rail.RailSample.up smp)
    (Rail.RailSample.normal smp).

(** A rail sample of a loop: the closed form evaluated on an
    orthonormal frame of non-zero pitch. *)
Definition railLoopSample (smp : Rail.RailSample.t) : Prop :=
  exists frame t,
    frameOrthonormal frame /\ pitch frame <> 0 /\
    smp = Rail.rollRailSample frame t.

(** What the rail loop pushes: span samples with an orthonormal frame,
    and loop samples. *)
Definition railSampleGood (smp : Rail.RailSample.t) : Prop :=
  railFrameOrthonormal smp \/ railLoopSample smp.

(** The running frame of the rail loop is an orthonormal pair and the
    samples pushed so far are good. *)
Definition railStateGood (st : Rail.RailState) : Prop :=
  orthonormalPair (Rail.railPrevTangent st) (Rail.railPrevUp st) /\
  Forall railSampleGood (Rail.railData st).

(** The rail of the straight track, and its first sample. *)
Definition lineRail : list Rail.RailSample.t :=
  match Rail.railDataMemo lineSpline lineTrack [] false with
  | Some railData => railData
  | None => []
  end.

Definition firstLineRailSample : Rail.RailSample.t :=
  nth 0 (removelast lineRail) (Rail.RailSample.mk zero zero zero zero 0).

(** The looped straight track after its first point, the entry of the
    loop, was removed. *)
Definition danglingWorld : Store.World :=
  Store.removeTrackPoint (Store.pointId 1) loopWorld.


(** One call of any action of the store, [loadCoaster] included (a call
    that returns, with values of the declared types in the store). *)
Inductive storeStep : Store.World -> Store.World -> Prop :=
| store_edit w w' : editStep w w' -> storeStep w w'
| store_loadCoaster id w w' :
    Saves.loadCoaster id w = Some w' -> storeStep w w'.

(** The worlds the store reaches from its initial state. *)
Inductive reachable : Store.World -> Prop :=
| reachable_initial stored : reachable (Store.initialWorld stored)
| reachable_step w w' : reachable w -> storeStep w w' -> reachable w'.

(** The list of saved coasters in the store is the stored list, up to
    what writing to JSON and reading back changes. *)
Definition savedListMirrorsStorage (w : Store.World) : Prop :=
  map SavedCoaster.roundTrip (Store.savedCoasters (Store.state w))
  = map SavedCoaster.roundTrip (Store.loadSavedCoasters w).

(** The looped straight track taken as a closed track: its loop, then
    its two spans. *)
Definition closedLoopLength : R := 0 + loopArcLength + 5 + 5.

Definition closedLoop : TrackSection :=
  mkTrackSection roll (0 / closedLoopLength)
    ((0 + loopArcLength) / closedLoopLength) loopArcLength
    (Some (scenarioFrame zero)) None None (Some 0%nat).

Definition closedFirstSpan : TrackSection :=
  mkTrackSection spline ((0 + loopArcLength) / closedLoopLength)
    ((0 + loopArcLength + 5) / closedLoopLength) 5
    None (Some (INR 0 / INR 2)) (Some (INR (0 + 1) / INR 2)) (Some 0%nat).

Definition closedLastSpan : TrackSection :=
  mkTrackSection spline ((0 + loopArcLength + 5) / closedLoopLength)
    ((0 + loopArcLength + 5 + 5) / closedLoopLength) 5
    None (Some (INR 1 / INR 2)) (Some (INR (1 + 1) / INR 2)) (Some 1%nat).

(* ================================================================== *)
(** * Vector lemmas *)
(* ================================================================== *)

Lemma V3_eq (a b : V3) :
  vx a = vx b -> vy a = vy b -> vz a = vz b -> a = b.
Proof. destruct a, b; simpl; intros -> -> ->; reflexivity. Qed.

Lemma lengthSq_nonneg (a : V3) : 0 <= lengthSq a.
Proof. unfold lengthSq, dot. nra. Qed.

Lemma length_nonneg (a : V3) : 0 <= length a.
Proof. apply sqrt_pos. Qed.

Lemma length_1_lengthSq (a : V3) : length a = 1 <-> lengthSq a = 1.
Proof.
  unfold length. split; intros H.
  - rewrite <- (sqrt_sqrt (lengthSq a)) by apply lengthSq_nonneg.
    rewrite H. lra.
  - rewrite H. apply sqrt_1.
Qed.

Lemma length_0_lengthSq (a : V3) : length a = 0 <-> lengthSq a = 0.
Proof.
  unfold length. split; intros H.
  - apply sqrt_eq_0 in H; [exact H | apply lengthSq_nonneg].
  - rewrite H. apply sqrt_0.
Qed.

Lemma length_sqr (a : V3) : length a * length a = lengthSq a.
Proof. unfold length. apply sqrt_sqrt, lengthSq_nonneg. Qed.

(** Normalizing a non-zero vector gives a unit vector. *)
Lemma normalize_unit (a : V3) : lengthSq a <> 0 -> length (normalize a) = 1.
Proof.
  intros Hnz. apply length_1_lengthSq.
  assert (Hl : length a <> 0) by (rewrite length_0_lengthSq; exact Hnz).
  unfold normalize. destruct (Req_dec_T (length a) 0) as [E|_]; [contradiction|].
  unfold divideScalar, multiplyScalar, lengthSq, dot; simpl.
  pose proof (length_sqr a) as Hs. unfold lengthSq, dot in Hs.
  set (l := length a) in *.
  replace (vx a * (1 / l) * (vx a * (1 / l)) + vy a * (1 / l) * (vy a * (1 / l))
           + vz a * (1 / l) * (vz a * (1 / l)))
    with ((vx a * vx a + vy a * vy a + vz a * vz a) / (l * l))
    by (field; exact Hl).
  rewrite <- Hs. field. exact Hl.
Qed.

(** Normalizing scales by a positive factor, so dot products keep
    their zeroes. *)
Lemma normalize_dot_l (a b : V3) :
  dot (normalize a) b =
  dot a b * (1 / (if Req_dec_T (length a) 0 then 1 else length a)).
Proof. unfold normalize, divideScalar, multiplyScalar, dot; simpl. ring. Qed.

Lemma normalize_of_unit (a : V3) : length a = 1 -> normalize a = a.
Proof.
  intros H. unfold normalize. rewrite H.
  destruct (Req_dec_T 1 0) as [E|_]; [lra|].
  apply V3_eq; simpl; field.
Qed.

(** A unit vector scaled by a positive factor normalizes back to
    itself. *)
Lemma normalize_scaled_unit (a : V3) (s : R) :
  length a = 1 -> 0 < s -> normalize (multiplyScalar a s) = a.
Proof.
  intros Hu Hs.
  assert (Hl : length (multiplyScalar a s) = s).
  { unfold length. apply length_1_lengthSq in Hu.
    replace (lengthSq (multiplyScalar a s)) with (s * s * lengthSq a)
      by (unfold lengthSq, dot, multiplyScalar; simpl; ring).
    rewrite Hu, Rmult_1_r. apply sqrt_square. lra. }
  unfold normalize. rewrite Hl.
  destruct (Req_dec_T s 0) as [E|_]; [lra|].
  apply V3_eq; simpl; field; lra.
Qed.

(* ================================================================== *)
(** * The eased angle profile *)
(* ================================================================== *)

Lemma twoPi_pos : 0 < twoPi.
Proof. unfold twoPi. pose proof PI_RGT_0. lra. Qed.

Lemma theta_0 : theta 0 = 0.
Proof. unfold theta. rewrite Rmult_0_r, sin_0. unfold Rdiv. ring. Qed.

Lemma theta_1 : theta 1 = twoPi.
Proof.
  unfold theta. rewrite Rmult_1_r.
  replace (sin twoPi) with 0
    by (unfold twoPi; rewrite Rmult_comm, sin_2PI; reflexivity).
  unfold Rdiv. ring.
Qed.

Lemma theta_half : theta (1 / 2) = PI.
Proof.
  unfold theta. replace (twoPi * (1 / 2)) with PI by (unfold twoPi; field).
  rewrite sin_PI. unfold twoPi. field. apply PI_neq0.
Qed.

Lemma dThetaDt_0 : dThetaDt 0 = 0.
Proof. unfold dThetaDt. rewrite Rmult_0_r, cos_0. ring. Qed.

Lemma dThetaDt_1 : dThetaDt 1 = 0.
Proof.
  unfold dThetaDt. rewrite Rmult_1_r.
  replace (cos twoPi) with 1
    by (unfold twoPi; rewrite Rmult_comm, cos_2PI; reflexivity).
  ring.
Qed.

Lemma dThetaDt_half : dThetaDt (1 / 2) = 2 * twoPi.
Proof.
  unfold dThetaDt. replace (twoPi * (1 / 2)) with PI by (unfold twoPi; field).
  rewrite cos_PI. ring.
Qed.

Lemma dThetaDt_nonneg (t : R) : 0 <= dThetaDt t.
Proof.
  unfold dThetaDt. pose proof twoPi_pos. pose proof (COS_bound (twoPi * t)).
  nra.
Qed.

(** The easing [c * (x - sin (c * x) / c)] has derivative
    [c * (1 - cos (c * x))], for any non-zero full-turn constant [c]. *)
Section EasedAngle.
Variable c : R.
Hypothesis c_nonzero : c <> 0.

Lemma eased_derivative (t : R) :
  derivable_pt_lim (fun x => c * (x - sin (c * x) / c)) t
                   (c * (1 - cos (c * t))).
Proof.
  assert (Hin : derivable_pt_lim (mult_real_fct c id) t (c * 1))
    by apply derivable_pt_lim_scal, derivable_pt_lim_id.
  pose proof (derivable_pt_lim_comp _ sin t _ _ Hin (derivable_pt_lim_sin _))
    as Hsin.
  pose proof (derivable_pt_lim_scal _ (/ c) t _ Hsin) as Hq.
  pose proof (derivable_pt_lim_minus _ _ t _ _ (derivable_pt_lim_id t) Hq)
    as Hd.
  pose proof (derivable_pt_lim_scal _ c t _ Hd) as Hall.
  replace (c * (1 - cos (c * t)))
    with (c * (1 - / c * (cos (mult_real_fct c id t) * (c * 1))))
    by (unfold mult_real_fct, id; field; exact c_nonzero).
  eapply derivable_pt_lim_ext; [| exact Hall].
  intros z. unfold mult_real_fct, minus_fct, comp, id.
  field. exact c_nonzero.
Qed.
End EasedAngle.

(** [dThetaDt] is the derivative of [theta]. *)
Lemma theta_derivative (t : R) : derivable_pt_lim theta t (dThetaDt t).
Proof.
  apply (eased_derivative twoPi). pose proof twoPi_pos. lra.
Qed.

(* ================================================================== *)
(** * The loop evaluator at its end points and at its apex *)
(* ================================================================== *)

Lemma distanceTo_refl (a : V3) : distanceTo a a = 0.
Proof.
  unfold distanceTo. apply length_0_lengthSq.
  unfold lengthSq, dot, sub; simpl. ring.
Qed.

(** Where the eased angle is a whole turn and its rate is zero, the
    sampled tangent and up are the frame's own. *)
Lemma roll_at_rest (frame : BarrelRollFrame) (t : R) :
  sin (theta t) = 0 -> cos (theta t) = 1 -> dThetaDt t = 0 ->
  0 < pitch frame ->
  length (forward frame) = 1 -> length (up frame) = 1 ->
  tangent (sampleBarrelRollAnalytically frame t) = forward frame /\
  sampleUp (sampleBarrelRollAnalytically frame t) = up frame.
Proof.
  intros Hs Hc Hd Hp Hf Hu. simpl. split.
  - unfold rollTangent, rollTangentRaw. rewrite Hs, Hc, Hd.
    rewrite <- (normalize_scaled_unit (forward frame) (pitch frame) Hf Hp) at 2.
    f_equal. apply V3_eq; simpl; ring.
  - unfold rollUp. rewrite Hs, Hc.
    rewrite <- (normalize_of_unit (up frame) Hu) at 2.
    f_equal. apply V3_eq; simpl; ring.
Qed.

(** C1. For every loop frame with radius > 0, pitch > 0 and an
    orthonormal entry basis, [sampleBarrelRollAnalytically] at local
    parameter 0 and at 1 returns the entry forward as tangent and the
    entry up as up (exactly, hence within 1e-3), and the eased angle
    satisfies theta(0) = 0, theta(1) = 2*pi with derivative 0 at both
    end points. *)
Theorem C1_loop_endpoints_match_entry_frame (frame : BarrelRollFrame) (t : R) :
  0 < radius frame -> 0 < pitch frame ->
  orthonormal (forward frame) (up frame) (right frame) ->
  t = 0 \/ t = 1 ->
  (tangent (sampleBarrelRollAnalytically frame t) = forward frame /\
   sampleUp (sampleBarrelRollAnalytically frame t) = up frame /\
   distanceTo (tangent (sampleBarrelRollAnalytically frame t)) (forward frame)
     <= 1 / 1000 /\
   distanceTo (sampleUp (sampleBarrelRollAnalytically frame t)) (up frame)
     <= 1 / 1000) /\
  theta 0 = 0 /\ theta 1 = 2 * PI /\
  dThetaDt 0 = 0 /\ dThetaDt 1 = 0 /\
  derivable_pt_lim theta 0 0 /\ derivable_pt_lim theta 1 0.
Proof.
  intros _ Hp (Hf & Hu & _) Ht.
  assert (Hrest : sin (theta t) = 0 /\ cos (theta t) = 1 /\ dThetaDt t = 0).
  { destruct Ht as [-> | ->].
    - rewrite theta_0, dThetaDt_0, sin_0, cos_0. auto.
    - rewrite theta_1, dThetaDt_1. unfold twoPi.
      rewrite (Rmult_comm PI 2), sin_2PI, cos_2PI. auto. }
  destruct Hrest as (Hs & Hc & Hd).
  destruct (roll_at_rest frame t Hs Hc Hd Hp Hf Hu) as [HT HU].
  split; [| repeat split].
  - rewrite HT, HU, !distanceTo_refl. repeat split; lra.
  - apply theta_0.
  - rewrite theta_1. unfold twoPi. ring.
  - apply dThetaDt_0.
  - apply dThetaDt_1.
  - pose proof (theta_derivative 0) as H. rewrite dThetaDt_0 in H. exact H.
  - pose proof (theta_derivative 1) as H. rewrite dThetaDt_1 in H. exact H.
Qed.

Lemma length_e1 : length (mkV3 1 0 0) = 1.
Proof.
  apply length_1_lengthSq. unfold lengthSq, dot; simpl. ring.
Qed.

Lemma length_e2 : length (mkV3 0 1 0) = 1.
Proof.
  apply length_1_lengthSq. unfold lengthSq, dot; simpl. ring.
Qed.

Lemma length_e3 : length (mkV3 0 0 1) = 1.
Proof.
  apply length_1_lengthSq. unfold lengthSq, dot; simpl. ring.
Qed.

Lemma scenarioFrame_orthonormal (entry : V3) :
  orthonormal (forward (scenarioFrame entry)) (up (scenarioFrame entry))
              (right (scenarioFrame entry)).
Proof.
  unfold orthonormal; simpl.
  rewrite length_e1, length_e2, length_e3.
  unfold dot; simpl. repeat split; ring.
Qed.

Lemma scenarioFrame_right (entry : V3) :
  right (scenarioFrame entry) =
  normalize (crossVectors (forward (scenarioFrame entry))
                          (up (scenarioFrame entry))).
Proof.
  assert (E : crossVectors (mkV3 1 0 0) (mkV3 0 1 0) = mkV3 0 0 1)
    by (unfold crossVectors; cbn [vx vy vz]; f_equal; ring).
  cbn [right forward up scenarioFrame]. rewrite E.
  symmetry. apply normalize_of_unit, length_e3.
Qed.

Lemma C1_witness :
  (0 < radius (scenarioFrame zero) /\ 0 < pitch (scenarioFrame zero) /\
   orthonormal (forward (scenarioFrame zero)) (up (scenarioFrame zero))
               (right (scenarioFrame zero)) /\
   ((1 : R) = 0 \/ (1 : R) = 1)) /\
  tangent (sampleBarrelRollAnalytically (scenarioFrame zero) 1)
  = forward (scenarioFrame zero).
Proof.
  assert (Hr : 0 < radius (scenarioFrame zero)) by (simpl; lra).
  assert (Hp : 0 < pitch (scenarioFrame zero)) by (simpl; lra).
  split.
  - split; [exact Hr | split; [exact Hp | split]].
    + exact (scenarioFrame_orthonormal zero).
    + right. reflexivity.
  - exact (proj1 (proj1 (C1_loop_endpoints_match_entry_frame
                           (scenarioFrame zero) 1 Hr Hp
                           (scenarioFrame_orthonormal zero)
                           (or_intror eq_refl)))).
Defined.

(** Half-way through a loop the eased angle is a half turn: the point
    has advanced by half the pitch along forward, sits two radii away
    along minus right, and is back at the entry height along up. *)
Lemma rollPoint_half (frame : BarrelRollFrame) :
  rollPoint frame (1 / 2) =
  addScaledVector
    (addScaledVector (entryPos frame) (forward frame) (pitch frame / 2))
    (right frame) (- (2 * radius frame)).
Proof.
  unfold rollPoint. rewrite theta_half, cos_PI, sin_PI.
  apply V3_eq; simpl; field.
Qed.

Lemma dot_comm (a b : V3) : dot a b = dot b a.
Proof. unfold dot. ring. Qed.

Lemma displacement_two_axes (e f r w : V3) (a b : R) :
  dot (sub (addScaledVector (addScaledVector e f a) r b) e) w =
  a * dot f w + b * dot r w.
Proof. unfold dot, sub, addScaledVector; simpl. ring. Qed.

Lemma displacement_half (frame : BarrelRollFrame) :
  orthonormal (forward frame) (up frame) (right frame) ->
  let p := point (sampleBarrelRollAnalytically frame (1 / 2)) in
  displacementAlong frame (forward frame) p = pitch frame / 2 /\
  displacementAlong frame (up frame) p = 0 /\
  displacementAlong frame (right frame) p = - (2 * radius frame).
Proof.
  intros (Hf & Hu & Hr & Hfu & Hfr & Hur). simpl.
  rewrite rollPoint_half.
  apply length_1_lengthSq in Hf, Hu, Hr. unfold lengthSq in *.
  unfold displacementAlong. rewrite !displacement_two_axes.
  rewrite Hf, Hr, Hfu, Hfr, (dot_comm (right frame) (up frame)), Hur,
    (dot_comm (right frame) (forward frame)), Hfr.
  repeat split; field.
Qed.

(** C4 (as stated, refuted). In the scenario frame the point sampled at
    s = 0.5 is not displaced upward by anything near 2 * radius = 10:
    its displacement along up is 0, so no tolerance below 10 covers
    the gap. *)
Lemma C4_counterexample :
  ~ exists tol : R,
      tol < 10 /\
      Rabs (displacementAlong (scenarioFrame zero) (up (scenarioFrame zero))
              (point (sampleBarrelRollAnalytically (scenarioFrame zero) (1 / 2)))
            - 2 * radius (scenarioFrame zero)) <= tol.
Proof.
  intros (tol & Hlt & Hle).
  destruct (displacement_half (scenarioFrame zero)
              (scenarioFrame_orthonormal zero)) as (_ & Hup & _).
  cbv zeta in Hup. rewrite Hup in Hle. simpl radius in Hle.
  replace (0 - 2 * 5) with (- (10)) in Hle by ring.
  rewrite Rabs_Ropp, Rabs_pos_eq in Hle; lra.
Qed.

(** C4 (amended). For the loop of radius 5 and pitch 12 entered with
    forward (1,0,0) and up (0,1,0), the point sampled at s = 0.5 is
    displaced forward by pitch/2 = 6, sideways by 2 * radius = 10 along
    minus right, and not at all along up; the sampled up there is the
    entry up reversed. *)
Theorem C4_loop_midpoint_displacement (entry : V3) :
  let frame := scenarioFrame entry in
  let s := sampleBarrelRollAnalytically frame (1 / 2) in
  point s = add entry (mkV3 6 0 (-10)) /\
  displacementAlong frame (forward frame) (point s) = pitch frame / 2 /\
  displacementAlong frame (right frame) (point s) = - (2 * radius frame) /\
  displacementAlong frame (up frame) (point s) = 0 /\
  sampleUp s = mkV3 0 (-1) 0.
Proof.
  intros frame s.
  destruct (displacement_half frame (scenarioFrame_orthonormal entry))
    as (Hf & Hu & Hr).
  repeat split; try assumption.
  - subst s frame. simpl point. rewrite rollPoint_half.
    apply V3_eq; simpl; field.
  - subst s frame. simpl sampleUp. unfold rollUp.
    rewrite theta_half, cos_PI, sin_PI. simpl.
    rewrite normalize_of_unit.
    + apply V3_eq; simpl; ring.
    + apply length_1_lengthSq. unfold lengthSq, dot, addScaledVector; simpl.
      ring.
Qed.

(* ================================================================== *)
(** * The section table and its progress partition *)
(* ================================================================== *)

Lemma totalLength_app (l1 l2 : list TrackSection) :
  totalLength (l1 ++ l2) = totalLength l1 + totalLength l2.
Proof.
  induction l1 as [|s l1 IH]; simpl.
  - ring.
  - rewrite IH. ring.
Qed.

Lemma buildStep_extends curve loopMap numPoints isLooped st i point :
  exists added,
    sections (buildStep curve loopMap numPoints isLooped st i point)
    = sections st ++ added.
Proof.
  unfold buildStep.
  destruct (loopMap !! TrackPoint.id point) as [seg|];
    destruct (Nat.leb (numPoints - 1) i && negb isLooped)%bool; simpl.
  - eexists. reflexivity.
  - eexists. rewrite <- app_assoc. reflexivity.
  - exists []. rewrite app_nil_r. reflexivity.
  - eexists. reflexivity.
Qed.

Lemma buildStep_invariant curve loopMap numPoints isLooped st i point :
  buildInvariant st ->
  buildInvariant (buildStep curve loopMap numPoints isLooped st i point).
Proof.
  unfold buildInvariant, buildStep. intros H.
  destruct (loopMap !! TrackPoint.id point) as [seg|];
    destruct (Nat.leb (numPoints - 1) i && negb isLooped)%bool; simpl;
    rewrite ?totalLength_app, ?H; simpl; ring.
Qed.

Lemma buildLoop_invariant curve loopMap numPoints isLooped points :
  forall st i,
    buildInvariant st ->
    buildInvariant (buildLoop curve loopMap numPoints isLooped st i points).
Proof.
  induction points as [|p rest IH]; intros st i H; simpl.
  - exact H.
  - apply IH, buildStep_invariant, H.
Qed.

Lemma buildLoop_extends curve loopMap numPoints isLooped points :
  forall st i,
    exists added,
      sections (buildLoop curve loopMap numPoints isLooped st i points)
      = sections st ++ added.
Proof.
  induction points as [|p rest IH]; intros st i; simpl.
  - exists []. rewrite app_nil_r. reflexivity.
  - destruct (IH (buildStep curve loopMap numPoints isLooped st i p) (S i))
      as [a2 E2].
    destruct (buildStep_extends curve loopMap numPoints isLooped st i p)
      as [a1 E1].
    exists (a1 ++ a2). rewrite E2, E1, app_assoc. reflexivity.
Qed.

(** The first turn of the loop on a track of two or more points adds
    the spline span that leaves the first point. *)
Lemma buildStep_first_nonempty curve loopMap numPoints isLooped st point :
  (2 <= numPoints)%nat ->
  sections (buildStep curve loopMap numPoints isLooped st 0 point) <> [].
Proof.
  intros Hn. unfold buildStep.
  replace (Nat.leb (numPoints - 1) 0) with false
    by (symmetry; apply Nat.leb_gt; lia).
  simpl. destruct (loopMap !! TrackPoint.id point); simpl;
    intros E; apply app_eq_nil in E; destruct E as [_ E]; discriminate.
Qed.

Lemma buildSections_nonempty curve trackPoints loopSegments isLooped :
  (2 <= List.length trackPoints)%nat ->
  sections (buildSections curve trackPoints loopSegments isLooped) <> [].
Proof.
  intros Hn. unfold buildSections.
  destruct trackPoints as [|p rest]; [simpl in Hn; lia|].
  cbn [buildLoop].
  match goal with
  | |- sections (buildLoop ?c ?m ?n ?l ?st ?i ?pts) <> [] =>
      destruct (buildLoop_extends c m n l pts st i) as [added E];
      pose proof (buildStep_first_nonempty c m n l
                    (mkBuildState [] 0 zero (initialTangent c) (initialUp c))
                    p Hn) as Hne
  end.
  rewrite E. intros E0. apply app_eq_nil in E0. destruct E0 as [E0 _].
  exact (Hne E0).
Qed.

(** Progress boundaries are cumulative lengths over the total. *)
Lemma assignProgress_length L run secs :
  List.length (assignProgress L run secs) = List.length secs.
Proof.
  revert run. induction secs as [|s rest IH]; intros run; simpl.
  - reflexivity.
  - rewrite IH. reflexivity.
Qed.

Lemma assignProgress_lookup L (secs : list TrackSection) :
  forall run i (s : TrackSection),
    assignProgress L run secs !! i = Some s ->
    startProgress s = (run + totalLength (take i secs)) / L /\
    endProgress s = (run + totalLength (take (S i) secs)) / L.
Proof.
  induction secs as [|s0 rest IH]; intros run i s H; simpl in H.
  - rewrite lookup_nil in H. discriminate.
  - destruct i as [|i]; simpl in H.
    + injection H as <-. cbn [withProgress startProgress endProgress].
      replace (take 1 (s0 :: rest)) with [s0]
        by (destruct rest; reflexivity).
      cbn [take totalLength fold_right]. split; f_equal; ring.
    + apply IH in H. destruct H as [Hs He].
      rewrite Hs, He.
      change (take (S i) (s0 :: rest)) with (s0 :: take i rest).
      change (take (S (S i)) (s0 :: rest)) with (s0 :: take (S i) rest).
      change (totalLength (s0 :: take i rest))
        with (arcLength s0 + totalLength (take i rest)).
      change (totalLength (s0 :: take (S i) rest))
        with (arcLength s0 + totalLength (take (S i) rest)).
      split; f_equal; ring.
Qed.

Lemma assignProgress_kept L (secs : list TrackSection) :
  forall run i (s : TrackSection),
    assignProgress L run secs !! i = Some s ->
    exists s0, secs !! i = Some s0 /\
      type s = type s0 /\ arcLength s = arcLength s0 /\
      rollFrame s = rollFrame s0 /\ splineStartT s = splineStartT s0 /\
      splineEndT s = splineEndT s0 /\ pointIndex s = pointIndex s0.
Proof.
  induction secs as [|s0 rest IH]; intros run i s H; simpl in H.
  - rewrite lookup_nil in H. discriminate.
  - destruct i as [|i]; simpl in H.
    + injection H as <-. exists s0. simpl. repeat split; reflexivity.
    + apply IH in H. exact H.
Qed.

Lemma sectionsMemo_unfold CatmullRomCurve3 trackPoints loopSegments isLooped :
  (2 <= List.length trackPoints)%nat ->
  let curve := CatmullRomCurve3 (map TrackPoint.position trackPoints) isLooped in
  let st := buildSections curve trackPoints loopSegments isLooped in
  sectionsMemo CatmullRomCurve3 trackPoints loopSegments isLooped
  = (assignProgress (accumulatedLength st) 0 (sections st),
     accumulatedLength st).
Proof.
  intros Hn. unfold sectionsMemo, getTrackCurve.
  replace (Nat.ltb (List.length trackPoints) 2) with false
    by (symmetry; apply Nat.ltb_ge; exact Hn).
  reflexivity.
Qed.

Lemma buildSections_invariant curve trackPoints loopSegments isLooped :
  buildInvariant (buildSections curve trackPoints loopSegments isLooped).
Proof.
  unfold buildSections. apply buildLoop_invariant.
  unfold buildInvariant; simpl. reflexivity.
Qed.

(** Arc lengths are sums of chord lengths, so they are not negative,
    and cumulative lengths grow along the table. *)
Lemma fold_left_nonneg_terms (g : nat -> R) (l : list nat) :
  (forall i, 0 <= g i) ->
  forall init, init <= fold_left (fun acc i => acc + g i) l init.
Proof.
  intros Hg. induction l as [|x l IH]; intros init; cbn [fold_left].
  - lra.
  - pose proof (IH (init + g x)). pose proof (Hg x). lra.
Qed.

Lemma computeRollArcLength_nonneg (rad pit : R) :
  0 <= computeRollArcLength rad pit.
Proof.
  unfold computeRollArcLength.
  apply (fold_left_nonneg_terms
           (fun i =>
              sqrt (pit / INR 100 * (pit / INR 100)
                    + rad
                      * sqrt ((theta (INR (i + 1) / INR 100)
                               - theta (INR i / INR 100))
                              * (theta (INR (i + 1) / INR 100)
                                 - theta (INR i / INR 100)))
                      * (rad
                         * sqrt ((theta (INR (i + 1) / INR 100)
                                  - theta (INR i / INR 100))
                                 * (theta (INR (i + 1) / INR 100)
                                    - theta (INR i / INR 100))))))).
  intros i. apply sqrt_pos.
Qed.

Lemma splineSegmentLength_nonneg (curve : Curve) (a b : R) :
  0 <= splineSegmentLength curve a b.
Proof.
  unfold splineSegmentLength.
  apply (fold_left_nonneg_terms
           (fun s =>
              distanceTo
                (getPoint curve (a + INR s / INR 10 * (b - a)))
                (getPoint curve (a + INR (s + 1) / INR 10 * (b - a))))).
  intros i. apply length_nonneg.
Qed.

Lemma buildStep_lengths curve loopMap numPoints isLooped st i point :
  lengthsNonneg (sections st) ->
  lengthsNonneg (sections (buildStep curve loopMap numPoints isLooped st i point)).
Proof.
  intros H. unfold buildStep, lengthsNonneg in *.
  destruct (loopMap !! TrackPoint.id point) as [seg|];
    destruct (Nat.leb (numPoints - 1) i && negb isLooped)%bool; simpl;
    repeat (apply Forall_app; split); auto;
    (constructor; [| constructor]); simpl;
    first [apply computeRollArcLength_nonneg | apply splineSegmentLength_nonneg].
Qed.

Lemma buildLoop_lengths curve loopMap numPoints isLooped points :
  forall st i,
    lengthsNonneg (sections st) ->
    lengthsNonneg (sections (buildLoop curve loopMap numPoints isLooped st i points)).
Proof.
  induction points as [|p rest IH]; intros st i H; simpl.
  - exact H.
  - apply IH, buildStep_lengths, H.
Qed.

Lemma totalLength_nonneg (secs : list TrackSection) :
  lengthsNonneg secs -> 0 <= totalLength secs.
Proof.
  induction 1 as [|s l Hs Hl IH]; simpl; lra.
Qed.

Lemma totalLength_take_mono (secs : list TrackSection) :
  lengthsNonneg secs ->
  forall i,
    0 <= totalLength (take i secs) /\
    totalLength (take i secs) <= totalLength (take (S i) secs) /\
    totalLength (take (S i) secs) <= totalLength secs.
Proof.
  induction 1 as [|s l Hs Hl IH]; intros i.
  - destruct i; simpl; lra.
  - pose proof (totalLength_nonneg l Hl) as Hn.
    destruct i as [|i].
    + change (take 0 (s :: l)) with (@nil TrackSection).
      change (take 1 (s :: l)) with (s :: take 0 l).
      replace (take 0 l) with (@nil TrackSection) by (destruct l; reflexivity).
      simpl. lra.
    + change (take (S i) (s :: l)) with (s :: take i l).
      change (take (S (S i)) (s :: l)) with (s :: take (S i) l).
      destruct (IH i) as (H1 & H2 & H3).
      change (totalLength (s :: take i l))
        with (arcLength s + totalLength (take i l)).
      change (totalLength (s :: take (S i) l))
        with (arcLength s + totalLength (take (S i) l)).
      change (totalLength (s :: l)) with (arcLength s + totalLength l).
      lra.
Qed.

Lemma buildSections_lengths curve trackPoints loopSegments isLooped :
  lengthsNonneg (sections (buildSections curve trackPoints loopSegments isLooped)).
Proof.
  unfold buildSections. apply buildLoop_lengths. constructor.
Qed.

(** C2. For every track with at least 2 control points whose section
    table has positive total arc length, the progress ranges partition
    [0, 1]: the table is not empty, the first section starts at 0, the
    last ends at 1, each section ends where the next starts, and every
    range lies in [0, 1] with its start not after its end. *)
Theorem C2_progress_ranges_partition
    (CatmullRomCurve3 : list V3 -> bool -> Curve)
    (trackPoints : list TrackPoint.t) (loopSegments : list LoopSegment.t)
    (isLooped : bool) :
  (2 <= List.length trackPoints)%nat ->
  0 < snd (sectionsMemo CatmullRomCurve3 trackPoints loopSegments isLooped) ->
  let secs := trackSections CatmullRomCurve3 trackPoints loopSegments isLooped in
  secs <> [] /\
  (forall s, head secs = Some s -> startProgress s = 0) /\
  (forall s, last secs = Some s -> endProgress s = 1) /\
  (forall (i : nat) s1 s2,
      secs !! i = Some s1 -> secs !! S i = Some s2 ->
      endProgress s1 = startProgress s2) /\
  (forall (i : nat) s,
      secs !! i = Some s ->
      0 <= startProgress s /\ startProgress s <= endProgress s /\
      endProgress s <= 1).
Proof.
  intros Hn Hpos secs. subst secs. unfold trackSections.
  rewrite (sectionsMemo_unfold _ _ _ _ Hn) in *. cbn [fst snd] in *.
  set (curve := CatmullRomCurve3 (map TrackPoint.position trackPoints) isLooped)
    in *.
  set (st := buildSections curve trackPoints loopSegments isLooped) in *.
  pose proof (buildSections_invariant curve trackPoints loopSegments isLooped)
    as Hinv. fold st in Hinv. unfold buildInvariant in Hinv.
  pose proof (buildSections_nonempty curve trackPoints loopSegments isLooped Hn)
    as Hne. fold st in Hne.
  set (L := accumulatedLength st) in *.
  split; [| split; [| split; [| split]]].
  - intros E. apply (f_equal (@List.length _)) in E.
    rewrite assignProgress_length in E.
    destruct (sections st); [congruence | discriminate].
  - intros s Hs. rewrite head_lookup in Hs.
    apply assignProgress_lookup in Hs. destruct Hs as [Hs _].
    rewrite Hs. replace (take 0 (sections st)) with (@nil TrackSection)
      by (destruct (sections st); reflexivity).
    simpl. field. lra.
  - intros s Hs. rewrite last_lookup, assignProgress_length in Hs.
    apply assignProgress_lookup in Hs. destruct Hs as [_ He].
    rewrite He.
    replace (S (Nat.pred (List.length (sections st))))
      with (List.length (sections st))
      by (destruct (sections st); [congruence | reflexivity]).
    rewrite firstn_all, <- Hinv. field. lra.
  - intros i s1 s2 H1 H2.
    apply assignProgress_lookup in H1, H2.
    destruct H1 as [_ H1]. destruct H2 as [H2 _]. rewrite H1, H2. reflexivity.
  - intros i s Hs. apply assignProgress_lookup in Hs. destruct Hs as [Hs He].
    destruct (totalLength_take_mono (sections st)
                (buildSections_lengths curve trackPoints loopSegments isLooped) i)
      as (H0 & H1 & H2).
    rewrite Hs, He, Rplus_0_l, Rplus_0_l. rewrite <- Hinv in H2.
    assert (HL : 0 < / L) by (apply Rinv_0_lt_compat; exact Hpos).
    unfold Rdiv. repeat split.
    + apply Rmult_le_pos; lra.
    + apply Rmult_le_compat_r; lra.
    + apply Rmult_le_reg_r with L; [exact Hpos|].
      rewrite Rmult_assoc, Rinv_l by lra. lra.
Qed.

(* ================================================================== *)
(** * The straight two-point track *)
(* ================================================================== *)

Lemma fold_left_constant_terms (g : nat -> R) (c : R) (l : list nat) :
  (forall i, g i = c) ->
  forall init,
    fold_left (fun acc s => acc + g s) l init = init + INR (List.length l) * c.
Proof.
  intros Hg. induction l as [|x l IH]; intros init.
  - simpl. ring.
  - cbn [fold_left]. rewrite IH, Hg.
    change (List.length (x :: l)) with (S (List.length l)).
    rewrite S_INR. ring.
Qed.

Lemma distanceTo_on_x_axis (x1 x2 : R) :
  distanceTo (mkV3 x1 0 0) (mkV3 x2 0 0) = Rabs (x1 - x2).
Proof.
  unfold distanceTo, length, lengthSq, dot, sub; simpl.
  replace ((x1 - x2) * (x1 - x2) + (0 - 0) * (0 - 0) + (0 - 0) * (0 - 0))
    with ((x1 - x2)²) by (unfold Rsqr; ring).
  apply sqrt_Rsqr_abs.
Qed.

Lemma INR_10 : INR 10 = 10.
Proof. simpl. ring. Qed.

Lemma splineSegmentLength_line (a b : R) :
  a <= b -> splineSegmentLength lineCurve a b = 10 * (b - a).
Proof.
  intros Hab. unfold splineSegmentLength.
  rewrite (fold_left_constant_terms
             (fun s =>
                distanceTo
                  (getPoint lineCurve (a + INR s / INR 10 * (b - a)))
                  (getPoint lineCurve (a + INR (s + 1) / INR 10 * (b - a))))
             (b - a)).
  - rewrite length_seq, INR_10. ring.
  - intros i. cbn [getPoint lineCurve]. rewrite distanceTo_on_x_axis.
    rewrite plus_INR, INR_10. simpl (INR 1).
    replace (10 * (a + INR i / 10 * (b - a))
             - 10 * (a + (INR i + 1) / 10 * (b - a)))
      with (- (b - a)) by field.
    rewrite Rabs_Ropp. apply Rabs_pos_eq. lra.
Qed.

Lemma normalize_e1 : normalize (mkV3 1 0 0) = mkV3 1 0 0.
Proof. apply normalize_of_unit, length_e1. Qed.

(** A turn of the section loop at a point without a loop. *)
Lemma buildStep_no_loop curve (loopMap : gmap string LoopSegment.t) numPoints
    isLooped st i point :
  loopMap !! TrackPoint.id point = None ->
  buildStep curve loopMap numPoints isLooped st i point =
  if (Nat.leb (numPoints - 1) i && negb isLooped)%bool then st
  else
    let total := totalSplineSegmentsOf numPoints isLooped in
    let splineStartT := INR i / INR total in
    let splineEndT := INR (i + 1) / INR total in
    let segmentLength := splineSegmentLength curve splineStartT splineEndT in
    let endTangent := normalize (getTangent curve splineEndT) in
    mkBuildState
      (sections st
       ++ [mkTrackSection spline 0 0 segmentLength None
             (Some splineStartT) (Some splineEndT) (Some i)])
      (accumulatedLength st + segmentLength)
      (rollOffset st) endTangent
      (transportAcrossSpan (prevTangent st) endTangent (prevUp st)).
Proof. intros H. unfold buildStep. rewrite H. reflexivity. Qed.

(** The section table of the straight track: one spline span over the
    whole progress range, of length 10. *)
Lemma lineTrack_memo (C : list V3 -> bool -> Curve) :
  C (map TrackPoint.position lineTrack) false = lineCurve ->
  sectionsMemo C lineTrack [] false
  = ([mkTrackSection spline 0 1 10 None (Some 0) (Some 1) (Some 0%nat)], 10).
Proof.
  intros HC. rewrite sectionsMemo_unfold by (simpl; lia).
  cbv zeta. rewrite HC. unfold buildSections, lineTrack, buildLoopMap.
  cbn [buildLoop fold_left List.length].
  rewrite !buildStep_no_loop by apply lookup_empty.
  cbn [Nat.sub Nat.leb negb andb totalSplineSegmentsOf sections
       accumulatedLength rollOffset prevTangent prevUp app].
  assert (E0 : INR 0 / INR 1 = 0) by (simpl; field).
  assert (E1 : INR (0 + 1) / INR 1 = 1) by (simpl; field).
  rewrite E0, E1, splineSegmentLength_line by lra.
  cbn [assignProgress withProgress type arcLength rollFrame splineStartT
       splineEndT pointIndex].
  unfold withProgress; cbn [type arcLength rollFrame splineStartT splineEndT
                             pointIndex].
  replace (10 * (1 - 0)) with 10 by ring.
  replace (0 / (0 + 10)) with 0 by field.
  replace ((0 + 10) / (0 + 10)) with 1 by field.
  replace (0 + 10) with 10 by ring.
  reflexivity.
Qed.

Lemma C2_witness :
  (2 <= List.length lineTrack)%nat /\
  0 < snd (sectionsMemo lineSpline lineTrack [] false) /\
  forall s, last (trackSections lineSpline lineTrack [] false) = Some s ->
            endProgress s = 1.
Proof.
  assert (Hn : (2 <= List.length lineTrack)%nat) by (simpl; lia).
  assert (Hpos : 0 < snd (sectionsMemo lineSpline lineTrack [] false))
    by (rewrite (lineTrack_memo lineSpline eq_refl); simpl; lra).
  split; [exact Hn | split; [exact Hpos |]].
  exact (proj1 (proj2 (proj2
           (C2_progress_ranges_partition lineSpline lineTrack [] false
              Hn Hpos)))).
Defined.

(* ================================================================== *)
(** * The path sampler: clamp, scan, fall back *)
(* ================================================================== *)

Lemma clampProgress_range (p : R) : 0 <= clampProgress p <= 0.9999.
Proof.
  unfold clampProgress, Rmax, Rmin.
  destruct (Rle_dec p 0.9999); destruct (Rle_dec 0 _); lra.
Qed.

Lemma clampProgress_fixed (p : R) : 0 <= p <= 0.9999 -> clampProgress p = p.
Proof.
  intros H. unfold clampProgress, Rmax, Rmin.
  destruct (Rle_dec p 0.9999); destruct (Rle_dec 0 _); lra.
Qed.




Lemma Rltb_true (a b : R) : Rltb a b = true <-> a < b.
Proof.
  unfold Rltb. destruct (Rlt_dec a b); split; intros H;
    try discriminate; try reflexivity; try lra.
Qed.

Lemma Rltb_false (a b : R) : Rltb a b = false <-> b <= a.
Proof.
  unfold Rltb. destruct (Rlt_dec a b); split; intros H;
    try discriminate; try reflexivity; try lra.
Qed.

Lemma Rleb_true (a b : R) : Rleb a b = true <-> a <= b.
Proof.
  unfold Rleb. destruct (Rle_dec a b); split; intros H;
    try discriminate; try reflexivity; try lra.
Qed.

Lemma Rleb_false (a b : R) : Rleb a b = false <-> b < a.
Proof.
  unfold Rleb. destruct (Rle_dec a b); split; intros H;
    try discriminate; try reflexivity; try lra.
Qed.

Lemma Rltb_lt (a b : R) : a < b -> Rltb a b = true.
Proof. apply Rltb_true. Qed.

Lemma Rltb_ge (a b : R) : b <= a -> Rltb a b = false.
Proof. apply Rltb_false. Qed.

Lemma inSection_inRange (p : R) (s : TrackSection) :
  inSection p s = true <-> inRange p s.
Proof.
  unfold inSection, inRange. rewrite andb_true_iff, Rleb_true, Rltb_true.
  reflexivity.
Qed.

Lemma inSection_not_inRange (p : R) (s : TrackSection) :
  inSection p s = false <-> ~ inRange p s.
Proof.
  rewrite <- inSection_inRange.
  destruct (inSection p s); split; intros H; congruence.
Qed.

(** [List.find] returns the first element that passes the test. *)
Lemma find_first {A} (f : A -> bool) (l : list A) (x : A) :
  List.find f l = Some x ->
  exists before after,
    l = before ++ x :: after /\ f x = true /\
    Forall (fun y => f y = false) before.
Proof.
  induction l as [|a l IH]; simpl; intros H; [discriminate|].
  destruct (f a) eqn:Ea.
  - injection H as <-. exists [], l. repeat split; auto.
  - destruct (IH H) as (before & after & -> & Hx & Hb).
    exists (a :: before), after. repeat split; auto.
Qed.

Lemma find_none_all {A} (f : A -> bool) (l : list A) :
  List.find f l = None -> Forall (fun y => f y = false) l.
Proof.
  induction l as [|a l IH]; simpl; intros H; [constructor|].
  destruct (f a) eqn:Ea; [discriminate|]. constructor; auto.
Qed.

Lemma locateSection_some (p : R) (sections : list TrackSection) :
  sections <> [] -> exists s, locateSection p sections = Some s /\ In s sections.
Proof.
  intros Hne. unfold locateSection.
  destruct (List.find (inSection p) sections) as [s|] eqn:E.
  - exists s. split; [reflexivity|]. apply find_some in E. tauto.
  - destruct (last sections) as [s|] eqn:El.
    + exists s. split; [reflexivity|].
      rewrite last_lookup in El. apply list_elem_of_In.
      eapply list_elem_of_lookup_2; exact El.
    + apply last_None in El. contradiction.
Qed.

(** The scan returns the first section whose range holds the progress,
    and the last section when no range does. *)
Lemma locateSection_spec (p : R) (sections : list TrackSection) s :
  locateSection p sections = Some s ->
  (exists before after,
      sections = before ++ s :: after /\ inRange p s /\
      Forall (fun s' => ~ inRange p s') before)
  \/ (Forall (fun s' => ~ inRange p s') sections /\ last sections = Some s).
Proof.
  unfold locateSection.
  destruct (List.find (inSection p) sections) as [s'|] eqn:E; intros H.
  - injection H as <-. left.
    destruct (find_first _ _ _ E) as (before & after & -> & Hx & Hb).
    exists before, after. split; [reflexivity|].
    split; [apply inSection_inRange, Hx|].
    eapply Forall_impl; [exact Hb |].
    intros a Ha. apply inSection_not_inRange, Ha.
  - right. split; [| exact H].
    apply find_none_all in E. eapply Forall_impl; [exact E |].
    intros a Ha. apply inSection_not_inRange, Ha.
Qed.

Lemma sampleInSection_complete (p : R) section spline loopSegments
    trackPoints isLooped :
  sectionComplete section ->
  exists smp,
    sampleInSection p section spline loopSegments trackPoints isLooped
    = Some smp.
Proof.
  unfold sectionComplete, sampleInSection. intros H.
  destruct (type section).
  - destruct H as [Hs He].
    destruct (splineStartT section); [|congruence].
    destruct (splineEndT section); [|congruence].
    eexists. reflexivity.
  - destruct (rollFrame section); [|congruence].
    eexists. reflexivity.
Qed.

Lemma sampleHybridTrack_nonempty (p : R) sections spline loopSegments
    trackPoints isLooped :
  sections <> [] ->
  sampleHybridTrack p sections spline loopSegments trackPoints isLooped =
  match locateSection (clampProgress p) sections with
  | Some section =>
      sampleInSection (clampProgress p) section spline loopSegments
        trackPoints isLooped
  | None => None
  end.
Proof.
  intros Hne. unfold sampleHybridTrack.
  destruct sections; [congruence | reflexivity].
Qed.


(** Every section the section loop builds carries the parameters of its
    kind. *)
Lemma buildStep_complete curve loopMap numPoints isLooped st i point :
  Forall sectionComplete (sections st) ->
  Forall sectionComplete
    (sections (buildStep curve loopMap numPoints isLooped st i point)).
Proof.
  intros H. unfold buildStep.
  destruct (loopMap !! TrackPoint.id point) as [seg|];
    destruct (Nat.leb (numPoints - 1) i && negb isLooped)%bool; simpl;
    repeat (apply Forall_app; split); auto;
    repeat constructor; unfold sectionComplete; simpl; congruence.
Qed.

Lemma buildLoop_complete curve loopMap numPoints isLooped points :
  forall st i,
    Forall sectionComplete (sections st) ->
    Forall sectionComplete
      (sections (buildLoop curve loopMap numPoints isLooped st i points)).
Proof.
  induction points as [|p rest IH]; intros st i H; simpl.
  - exact H.
  - apply IH, buildStep_complete, H.
Qed.

Lemma assignProgress_complete L (secs : list TrackSection) :
  forall run,
    Forall sectionComplete secs ->
    Forall sectionComplete (assignProgress L run secs).
Proof.
  induction secs as [|s rest IH]; intros run H; simpl.
  - constructor.
  - inversion H; subst. constructor; [| apply IH; assumption].
    unfold sectionComplete, withProgress in *; simpl. assumption.
Qed.

Lemma trackSections_complete CatmullRomCurve3 trackPoints loopSegments isLooped :
  Forall sectionComplete
    (trackSections CatmullRomCurve3 trackPoints loopSegments isLooped).
Proof.
  unfold trackSections, sectionsMemo, getTrackCurve.
  destruct (Nat.ltb (List.length trackPoints) 2); simpl; [constructor|].
  apply assignProgress_complete. unfold buildSections.
  apply buildLoop_complete. constructor.
Qed.

(** The dispatch does not reach the final [return null] on a
    non-empty table of complete sections. *)
Lemma sampleHybridTrack_some (p : R) sections spline loopSegments
    trackPoints isLooped :
  sections <> [] -> Forall sectionComplete sections ->
  exists section smp,
    locateSection (clampProgress p) sections = Some section /\
    sampleInSection (clampProgress p) section spline loopSegments
      trackPoints isLooped = Some smp /\
    sampleHybridTrack p sections spline loopSegments trackPoints isLooped
    = Some smp.
Proof.
  intros Hne Hall.
  destruct (locateSection_some (clampProgress p) sections Hne)
    as (section & Hloc & Hin).
  assert (Hc : sectionComplete section).
  { rewrite List.Forall_forall in Hall. apply Hall, Hin. }
  destruct (sampleInSection_complete (clampProgress p) section spline
              loopSegments trackPoints isLooped Hc) as [smp Hsmp].
  exists section, smp. split; [exact Hloc|]. split; [exact Hsmp|].
  rewrite sampleHybridTrack_nonempty, Hloc by exact Hne. exact Hsmp.
Qed.

(** On a list of sections of non-negative length whose lengths add up
    to a positive total, the assigned ranges cover [run / L, 1). *)
Lemma assignProgress_covers (L : R) (secs : list TrackSection) :
  0 < L -> lengthsNonneg secs ->
  forall run q,
    run + totalLength secs = L -> run / L <= q < 1 ->
    exists s, In s (assignProgress L run secs) /\ inRange q s.
Proof.
  intros HL. induction secs as [|s rest IH]; intros Hnn run q Hsum Hq.
  - exfalso. simpl in Hsum. rewrite Rplus_0_r in Hsum. subst run.
    unfold Rdiv in Hq. rewrite Rinv_r in Hq by lra. lra.
  - unfold lengthsNonneg in Hnn. apply Forall_cons in Hnn as [Hs Hrest].
    cbn [assignProgress]. cbn [totalLength fold_right] in Hsum.
    destruct (Rlt_dec q ((run + arcLength s) / L)) as [Hlt|Hge].
    + eexists. split; [left; reflexivity|].
      unfold inRange, withProgress; cbn [startProgress endProgress]. lra.
    + destruct (IH Hrest (run + arcLength s) q) as (s' & Hin & Hr).
      * unfold totalLength. lra.
      * lra.
      * exists s'. split; [right; exact Hin | exact Hr].
Qed.

Lemma trackSections_covers CatmullRomCurve3 trackPoints loopSegments isLooped q :
  0 < snd (sectionsMemo CatmullRomCurve3 trackPoints loopSegments isLooped) ->
  0 <= q < 1 ->
  exists s,
    In s (trackSections CatmullRomCurve3 trackPoints loopSegments isLooped) /\
    inRange q s.
Proof.
  intros Hpos Hq. unfold trackSections.
  destruct (Nat.ltb (List.length trackPoints) 2) eqn:En.
  - exfalso. unfold sectionsMemo in Hpos. rewrite En in Hpos. simpl in Hpos. lra.
  - apply Nat.ltb_ge in En.
    rewrite (sectionsMemo_unfold _ _ _ _ En) in *. cbn [fst snd] in *.
    set (curve := CatmullRomCurve3 (map TrackPoint.position trackPoints) isLooped)
      in *.
    pose proof (buildSections_invariant curve trackPoints loopSegments isLooped)
      as Hinv. unfold buildInvariant in Hinv.
    apply assignProgress_covers.
    + exact Hpos.
    + apply buildSections_lengths.
    + rewrite Hinv. lra.
    + unfold Rdiv. rewrite Rmult_0_l. lra.
Qed.

Lemma positive_length_nonempty CatmullRomCurve3 trackPoints loopSegments isLooped :
  0 < snd (sectionsMemo CatmullRomCurve3 trackPoints loopSegments isLooped) ->
  trackSections CatmullRomCurve3 trackPoints loopSegments isLooped <> [].
Proof.
  intros Hpos E.
  destruct (trackSections_covers CatmullRomCurve3 trackPoints loopSegments
              isLooped 0 Hpos ltac:(lra)) as (s & Hin & _).
  rewrite E in Hin. exact Hin.
Qed.

(** The local parameter of a progress in the range of a section. *)
Lemma localT_range (q : R) (s : TrackSection) :
  inRange q s ->
  0 <= (q - startProgress s) / (endProgress s - startProgress s) < 1.
Proof.
  unfold inRange. intros [H1 H2].
  assert (Hw : 0 < endProgress s - startProgress s) by lra.
  split.
  - apply Rmult_le_pos; [lra | left; apply Rinv_0_lt_compat, Hw].
  - apply Rmult_lt_reg_r with (endProgress s - startProgress s); [exact Hw|].
    unfold Rdiv. rewrite Rmult_assoc, Rinv_l by lra. lra.
Qed.

(** On the table built for a track of positive length the scan always
    finds a section, and the sampler returns the frame of that section
    at a local parameter in [0, 1). *)
Lemma sampleHybridTrack_built (CatmullRomCurve3 : list V3 -> bool -> Curve)
    (trackPoints : list TrackPoint.t) (loopSegments : list LoopSegment.t)
    (isLooped : bool) (p : R) :
  let spline :=
    CatmullRomCurve3 (map TrackPoint.position trackPoints) isLooped in
  let sections :=
    trackSections CatmullRomCurve3 trackPoints loopSegments isLooped in
  let q := clampProgress p in
  0 < snd (sectionsMemo CatmullRomCurve3 trackPoints loopSegments isLooped) ->
  sections <> [] /\
  exists section smp,
    sampleHybridTrack p sections spline loopSegments trackPoints isLooped
    = Some smp /\
    sampleInSection q section spline loopSegments trackPoints isLooped
    = Some smp /\
    (exists before after,
        sections = before ++ section :: after /\ inRange q section /\
        Forall (fun s => ~ inRange q s) before) /\
    0 <= (q - startProgress section)
         / (endProgress section - startProgress section) < 1.
Proof.
  intros spline sections q Hpos.
  pose proof (positive_length_nonempty _ _ _ _ Hpos) as Hne. fold sections in Hne.
  split; [exact Hne|].
  destruct (sampleHybridTrack_some p sections spline loopSegments trackPoints
              isLooped Hne (trackSections_complete _ _ _ _))
    as (section & smp & Hloc & Hsmp & Hs).
  exists section, smp. split; [exact Hs|]. split; [exact Hsmp|].
  apply locateSection_spec in Hloc.
  destruct Hloc as [(before & after & E & Hr & Hb) | [Hnone _]].
  - split; [exists before, after; auto | apply localT_range, Hr].
  - exfalso.
    pose proof (clampProgress_range p) as Hq. fold q in Hq, Hnone.
    destruct (trackSections_covers CatmullRomCurve3 trackPoints loopSegments
                isLooped q Hpos ltac:(lra)) as (s & Hin & Hr).
    fold sections in Hin. rewrite List.Forall_forall in Hnone.
    exact (Hnone s Hin Hr).
Qed.

Lemma lineTrack_sections :
  trackSections lineSpline lineTrack [] false = lineSections.
Proof.
  unfold trackSections. rewrite (lineTrack_memo lineSpline eq_refl). reflexivity.
Qed.




(** Two control points at the same place, no loop: the section table
    has its one spline span, of length zero, and the total arc length
    is zero. *)
Lemma stillTrack_memo (C : list V3 -> bool -> Curve) :
  C (map TrackPoint.position stillTrack) false = stillCurve ->
  trackSections C stillTrack [] false <> [] /\
  snd (sectionsMemo C stillTrack [] false) = 0.
Proof.
  intros HC. unfold trackSections.
  rewrite sectionsMemo_unfold by (simpl; lia).
  cbv zeta. rewrite HC. unfold buildSections, stillTrack, buildLoopMap.
  cbn [buildLoop fold_left List.length].
  rewrite !buildStep_no_loop by apply lookup_empty.
  cbn [Nat.sub Nat.leb negb andb totalSplineSegmentsOf sections
       accumulatedLength rollOffset prevTangent prevUp app fst snd].
  split; [discriminate|].
  assert (E : splineSegmentLength stillCurve (INR 0 / INR 1)
                (INR (0 + 1) / INR 1) = 0).
  { unfold splineSegmentLength. cbn [getPoint stillCurve].
    rewrite distanceTo_refl. cbn [seq fold_left]. ring. }
  rewrite E. ring.
Qed.

Lemma still_track_zero_length :
  trackSections stillSpline stillTrack [] false <> [] /\
  snd (sectionsMemo stillSpline stillTrack [] false) = 0.
Proof. apply stillTrack_memo. reflexivity. Qed.


Lemma lineSections_complete : Forall sectionComplete lineSections.
Proof.
  rewrite <- lineTrack_sections. apply trackSections_complete.
Qed.

(* ================================================================== *)
(** * The orientation of the sampled frames *)
(* ================================================================== *)

Lemma dot_rejectFrom (v t : V3) :
  lengthSq t = 1 -> dot (rejectFrom v t) t = 0.
Proof.
  unfold lengthSq. intros H.
  replace (dot (rejectFrom v t) t) with (dot v t - dot v t * dot t t)
    by (unfold rejectFrom, dot, sub, multiplyScalar; simpl; ring).
  rewrite H. ring.
Qed.

Lemma lengthSq_rejectFrom (v t : V3) :
  lengthSq t = 1 ->
  lengthSq (rejectFrom v t) = lengthSq v - dot v t * dot v t.
Proof.
  unfold lengthSq. intros H.
  replace (dot (rejectFrom v t) (rejectFrom v t))
    with (dot v v - 2 * (dot v t * dot v t) + dot v t * dot v t * dot t t)
    by (unfold rejectFrom, dot, sub, multiplyScalar; simpl; ring).
  rewrite H. ring.
Qed.

Lemma normalize_perpendicular (a b : V3) :
  dot a b = 0 -> dot (normalize a) b = 0.
Proof. intros H. rewrite normalize_dot_l, H. ring. Qed.

(** The up of a spline sample is a unit vector perpendicular to a unit
    tangent. *)
Lemma splineUp_orthonormal (t : V3) :
  length t = 1 -> length (splineUp t) = 1 /\ dot t (splineUp t) = 0.
Proof.
  intros Ht. apply length_1_lengthSq in Ht.
  pose proof (lengthSq_rejectFrom worldUp t Ht) as HU.
  pose proof (lengthSq_rejectFrom worldX t Ht) as HX.
  unfold splineUp. destruct (Rltb 0.001 (lengthSq (rejectFrom worldUp t))) eqn:E.
  - apply Rltb_true in E. split.
    + apply normalize_unit. lra.
    + rewrite dot_comm. apply normalize_perpendicular, dot_rejectFrom, Ht.
  - apply Rltb_false in E. split.
    + apply normalize_unit. rewrite HX. rewrite HU in E.
      unfold lengthSq, dot, worldUp, worldX in *; simpl in *. nra.
    + rewrite dot_comm. apply normalize_perpendicular, dot_rejectFrom, Ht.
Qed.

Lemma sin2_cos2_mult (x : R) : sin x * sin x + cos x * cos x = 1.
Proof. pose proof (sin2_cos2 x) as H. unfold Rsqr in H. exact H. Qed.

Lemma lengthSq_three_axes (f r u : V3) (p a b : R) :
  lengthSq (addScaledVector (addScaledVector (multiplyScalar f p) r a) u b)
  = p * p * dot f f + a * a * dot r r + b * b * dot u u
    + 2 * p * a * dot f r + 2 * p * b * dot f u + 2 * a * b * dot u r.
Proof.
  unfold lengthSq, dot, addScaledVector, multiplyScalar; simpl. ring.
Qed.

Lemma dot_three_axes_two_axes (f r u : V3) (p a b c d : R) :
  dot (addScaledVector (addScaledVector (multiplyScalar f p) r a) u b)
      (addScaledVector (addScaledVector zero u c) r d)
  = p * c * dot f u + p * d * dot f r
    + a * c * dot u r + a * d * dot r r
    + b * c * dot u u + b * d * dot u r.
Proof.
  unfold dot, addScaledVector, multiplyScalar, zero; simpl. ring.
Qed.

Lemma lengthSq_two_axes (r u : V3) (c d : R) :
  lengthSq (addScaledVector (addScaledVector zero u c) r d)
  = c * c * dot u u + d * d * dot r r + 2 * c * d * dot u r.
Proof.
  unfold lengthSq, dot, addScaledVector, zero; simpl. ring.
Qed.

Lemma dot_axis_two_axes (f r u : V3) (c d : R) :
  dot f (addScaledVector (addScaledVector zero u c) r d)
  = c * dot f u + d * dot f r.
Proof.
  unfold dot, addScaledVector, zero; simpl. ring.
Qed.

Section RollFrame.
Variable frame : BarrelRollFrame.
Hypothesis frame_orthonormal : frameOrthonormal frame.
Variable t : R.

Lemma frame_dots :
  dot (forward frame) (forward frame) = 1 /\
  dot (up frame) (up frame) = 1 /\
  dot (right frame) (right frame) = 1 /\
  dot (forward frame) (up frame) = 0 /\
  dot (forward frame) (right frame) = 0 /\
  dot (up frame) (right frame) = 0.
Proof.
  destruct frame_orthonormal as (Hf & Hu & Hr & Hfu & Hfr & Hur).
  apply length_1_lengthSq in Hf, Hu, Hr. unfold lengthSq in *. tauto.
Qed.

Lemma rollUpRaw_lengthSq :
  lengthSq (addScaledVector (addScaledVector zero (up frame) (cos (theta t)))
                            (right frame) (- sin (theta t))) = 1.
Proof.
  destruct frame_dots as (Hf & Hu & Hr & Hfu & Hfr & Hur).
  rewrite lengthSq_two_axes, Hu, Hr, Hur.
  pose proof (sin2_cos2_mult (theta t)). nra.
Qed.

(** The sampled up is the entry up turned by theta about forward: a
    unit vector perpendicular to forward. *)
Lemma rollUp_unit : length (rollUp frame t) = 1.
Proof.
  unfold rollUp. apply normalize_unit. rewrite rollUpRaw_lengthSq. lra.
Qed.

Lemma rollUp_raw :
  rollUp frame t =
  addScaledVector (addScaledVector zero (up frame) (cos (theta t)))
                  (right frame) (- sin (theta t)).
Proof.
  unfold rollUp. apply normalize_of_unit, length_1_lengthSq, rollUpRaw_lengthSq.
Qed.

Lemma rollUp_perpendicular_to_forward : dot (forward frame) (rollUp frame t) = 0.
Proof.
  destruct frame_dots as (Hf & Hu & Hr & Hfu & Hfr & Hur).
  rewrite rollUp_raw, dot_axis_two_axes, Hfu, Hfr. ring.
Qed.

Lemma rollTangentRaw_lengthSq :
  lengthSq (rollTangentRaw frame t)
  = pitch frame * pitch frame
    + (radius frame * dThetaDt t) * (radius frame * dThetaDt t).
Proof.
  destruct frame_dots as (Hf & Hu & Hr & Hfu & Hfr & Hur).
  unfold rollTangentRaw.
  rewrite lengthSq_three_axes, Hf, Hu, Hr, Hfu, Hfr, Hur.
  pose proof (sin2_cos2_mult (theta t)) as Hsc.
  replace (pitch frame * pitch frame
           + radius frame * dThetaDt t * (radius frame * dThetaDt t))
    with (pitch frame * pitch frame
          + radius frame * dThetaDt t * (radius frame * dThetaDt t)
            * (sin (theta t) * sin (theta t) + cos (theta t) * cos (theta t)))
    by (rewrite Hsc; ring).
  ring.
Qed.

Lemma rollTangent_unit : pitch frame <> 0 -> length (rollTangent frame t) = 1.
Proof.
  intros Hp. unfold rollTangent. apply normalize_unit.
  rewrite rollTangentRaw_lengthSq. nra.
Qed.

Lemma rollTangentRaw_dot_up :
  dot (rollTangentRaw frame t) (rollUp frame t) = radius frame * dThetaDt t.
Proof.
  destruct frame_dots as (Hf & Hu & Hr & Hfu & Hfr & Hur).
  rewrite rollUp_raw. unfold rollTangentRaw.
  rewrite dot_three_axes_two_axes, Hu, Hr, Hfu, Hfr, Hur.
  pose proof (sin2_cos2_mult (theta t)) as Hsc.
  replace (radius frame * dThetaDt t)
    with (radius frame * dThetaDt t
          * (sin (theta t) * sin (theta t) + cos (theta t) * cos (theta t)))
    by (rewrite Hsc; ring).
  ring.
Qed.

(** The sampled tangent leans on the sampled up by the turning rate:
    they are perpendicular exactly where [radius * dThetaDt] is zero. *)
Lemma rollTangent_dot_up :
  pitch frame <> 0 ->
  dot (rollTangent frame t) (rollUp frame t)
  = radius frame * dThetaDt t / length (rollTangentRaw frame t).
Proof.
  intros Hp. unfold rollTangent.
  rewrite normalize_dot_l, rollTangentRaw_dot_up.
  destruct (Req_dec_T (length (rollTangentRaw frame t)) 0) as [E|_].
  - apply length_0_lengthSq in E. rewrite rollTangentRaw_lengthSq in E. nra.
  - unfold Rdiv. ring.
Qed.

End RollFrame.

(* ================================================================== *)
(** * Minimal rotation of the propagated up *)
(* ================================================================== *)

Lemma applyQuaternion_dot_general (v w : V3) (q : Quat) :
  dot (applyQuaternion v q) (applyQuaternion w q)
  = dot v w
    + 4 * (1 - quatNormSq q)
      * dot v (crossVectors (quatAxis q) (crossVectors (quatAxis q) w)).
Proof.
  unfold dot, applyQuaternion, crossVectors, quatNormSq, quatAxis; simpl. ring.
Qed.

Lemma applyQuaternion_dot (v w : V3) (q : Quat) :
  quatNormSq q = 1 ->
  dot (applyQuaternion v q) (applyQuaternion w q) = dot v w.
Proof. intros H. rewrite applyQuaternion_dot_general, H. ring. Qed.

Lemma setFromAxisAngle_unit (axis : V3) (angle : R) :
  lengthSq axis = 1 -> quatNormSq (setFromAxisAngle axis angle) = 1.
Proof.
  unfold lengthSq, dot, quatNormSq, setFromAxisAngle; simpl. intros H.
  pose proof (sin2_cos2_mult (angle / 2)) as Hsc.
  replace (vx axis * sin (angle / 2) * (vx axis * sin (angle / 2))
           + vy axis * sin (angle / 2) * (vy axis * sin (angle / 2))
           + vz axis * sin (angle / 2) * (vz axis * sin (angle / 2))
           + cos (angle / 2) * cos (angle / 2))
    with ((vx axis * vx axis + vy axis * vy axis + vz axis * vz axis)
          * (sin (angle / 2) * sin (angle / 2))
          + cos (angle / 2) * cos (angle / 2)) by ring.
  rewrite H. lra.
Qed.

(** Lagrange's identity. *)
Lemma lengthSq_cross (a b : V3) :
  lengthSq (crossVectors a b) = dot a a * dot b b - dot a b * dot a b.
Proof. unfold lengthSq, dot, crossVectors; simpl. ring. Qed.

Lemma dot_cross_l (a b : V3) : dot a (crossVectors a b) = 0.
Proof. unfold dot, crossVectors; simpl. ring. Qed.

Lemma dot_cross_r (a b : V3) : dot b (crossVectors a b) = 0.
Proof. unfold dot, crossVectors; simpl. ring. Qed.

Lemma unit_dot_bounds (t e : V3) :
  lengthSq t = 1 -> lengthSq e = 1 -> -1 <= dot t e <= 1.
Proof.
  intros Ht He. pose proof (lengthSq_nonneg (crossVectors t e)) as H.
  rewrite lengthSq_cross in H. unfold lengthSq in *. rewrite Ht, He in H. nra.
Qed.

(** Bessel's inequality for an orthonormal pair. *)
Lemma bessel_pair (t u e : V3) :
  lengthSq t = 1 -> lengthSq u = 1 -> dot t u = 0 -> lengthSq e = 1 ->
  dot t e * dot t e + dot u e * dot u e <= 1.
Proof.
  intros Ht Hu Htu He.
  pose proof (lengthSq_nonneg
                (sub (sub e (multiplyScalar t (dot t e)))
                     (multiplyScalar u (dot u e)))) as H.
  replace (lengthSq (sub (sub e (multiplyScalar t (dot t e)))
                         (multiplyScalar u (dot u e))))
    with (dot e e - 2 * (dot t e * dot t e) - 2 * (dot u e * dot u e)
          + dot t e * dot t e * dot t t + dot u e * dot u e * dot u u
          + 2 * (dot t e * dot u e) * dot t u) in H
    by (unfold lengthSq, dot, sub, multiplyScalar; simpl; ring).
  unfold lengthSq in *. rewrite Ht, Hu, Htu, He in H. lra.
Qed.

Lemma half_angle_products (phi : R) :
  2 * sin (phi / 2) * cos (phi / 2) = sin phi /\
  1 - 2 * sin (phi / 2) * sin (phi / 2) = cos phi.
Proof.
  split.
  - rewrite <- sin_2a. f_equal. field.
  - rewrite <- cos_2a_sin. f_equal. field.
Qed.

(** The rotation about [t x e] by the angle between the unit vectors
    [t] and [e] carries [t] to [e]. *)
Lemma rotation_carries_tangent (t e : V3) :
  lengthSq t = 1 -> lengthSq e = 1 -> -1 < dot t e < 1 ->
  applyQuaternion t
    (setFromAxisAngle (normalize (crossVectors t e)) (acos (dot t e))) = e.
Proof.
  intros Ht He Hd. set (d := dot t e) in *.
  assert (HL2 : lengthSq (crossVectors t e) = 1 - d * d).
  { rewrite lengthSq_cross. unfold lengthSq in Ht, He. rewrite Ht, He.
    unfold d. ring. }
  assert (Hpos : 0 < 1 - d * d) by nra.
  set (L := length (crossVectors t e)).
  assert (HLL : L * L = 1 - d * d) by (unfold L; rewrite length_sqr; exact HL2).
  assert (HL0 : 0 < L).
  { unfold L, length. apply sqrt_lt_R0. rewrite HL2. exact Hpos. }
  destruct (half_angle_products (acos d)) as [Hs Hc].
  rewrite sin_acos in Hs by lra. rewrite cos_acos in Hc by lra.
  assert (HsL : sqrt (1 - d²) = L).
  { unfold L, length. rewrite HL2. unfold Rsqr. reflexivity. }
  rewrite HsL in Hs.
  unfold normalize. fold L. destruct (Req_dec_T L 0) as [E|_]; [lra|].
  set (s := sin (acos d / 2)) in *. set (c := cos (acos d / 2)) in *.
  unfold lengthSq in Ht, He.
  apply V3_eq.
  all: unfold applyQuaternion, setFromAxisAngle, divideScalar, multiplyScalar,
         crossVectors; cbn [vx vy vz qx qy qz qw]; fold s c.
  - transitivity (vx t + (2 * s * c) * / L * (vx e * dot t t - vx t * dot t e)
        + (2 * s * s) * / (L * L) * (dot t t * (dot t e * vx e - vx t * dot e e) - dot t e * (vx e * dot t t - vx t * dot t e))).
    + unfold dot. field. lra.
    + rewrite Ht, He. fold d. rewrite Hs, HLL.
      replace (2 * s * s) with (1 - d) by lra. field. split; lra.
  - transitivity (vy t + (2 * s * c) * / L * (vy e * dot t t - vy t * dot t e)
        + (2 * s * s) * / (L * L) * (dot t t * (dot t e * vy e - vy t * dot e e) - dot t e * (vy e * dot t t - vy t * dot t e))).
    + unfold dot. field. lra.
    + rewrite Ht, He. fold d. rewrite Hs, HLL.
      replace (2 * s * s) with (1 - d) by lra. field. split; lra.
  - transitivity (vz t + (2 * s * c) * / L * (vz e * dot t t - vz t * dot t e)
        + (2 * s * s) * / (L * L) * (dot t t * (dot t e * vz e - vz t * dot e e) - dot t e * (vz e * dot t t - vz t * dot t e))).
    + unfold dot. field. lra.
    + rewrite Ht, He. fold d. rewrite Hs, HLL.
      replace (2 * s * s) with (1 - d) by lra. field. split; lra.
Qed.

Lemma clamp_unit_range (d : R) : -1 <= d <= 1 -> Rmax (-1) (Rmin 1 d) = d.
Proof.
  intros H. unfold Rmax, Rmin.
  destruct (Rle_dec 1 d); destruct (Rle_dec (-1) _); lra.
Qed.

Lemma length_gt_of_lengthSq (v : V3) (b : R) :
  0 <= b -> b * b < lengthSq v -> b < length v.
Proof.
  intros Hb H. destruct (Rlt_le_dec b (length v)) as [Hlt|Hle]; [exact Hlt|].
  pose proof (length_sqr v) as Hs. pose proof (length_nonneg v). nra.
Qed.

(** The rotated up stays a unit vector and is perpendicular to the new
    tangent. *)
Lemma rotated_up (t u e : V3) :
  orthonormalPair t u -> lengthSq e = 1 -> -1 < dot t e < 1 ->
  let x := applyQuaternion u
             (setFromAxisAngle (normalize (crossVectors t e)) (acos (dot t e))) in
  lengthSq x = 1 /\ dot x e = 0.
Proof.
  intros (Ht & Hu & Htu) He Hd x.
  assert (Hax : lengthSq (crossVectors t e) <> 0).
  { rewrite lengthSq_cross. unfold lengthSq in Ht, He. rewrite Ht, He. nra. }
  assert (Hq : quatNormSq (setFromAxisAngle (normalize (crossVectors t e))
                                            (acos (dot t e))) = 1).
  { apply setFromAxisAngle_unit, length_1_lengthSq, normalize_unit, Hax. }
  split.
  - unfold x, lengthSq. rewrite applyQuaternion_dot by exact Hq. exact Hu.
  - pose proof (rotation_carries_tangent t e Ht He Hd) as Hrt.
    unfold x.
    set (q := setFromAxisAngle (normalize (crossVectors t e)) (acos (dot t e)))
      in *.
    transitivity (dot (applyQuaternion u q) (applyQuaternion t q));
      [rewrite Hrt; reflexivity|].
    rewrite applyQuaternion_dot by exact Hq. rewrite dot_comm. exact Htu.
Qed.

(** Re-orthogonalizing a unit vector that is nearly perpendicular to a
    unit tangent: the length test passes and the result is a unit
    vector perpendicular to the tangent. *)
Lemma reorthogonalize (x e alt : V3) :
  lengthSq e = 1 -> lengthSq x = 1 -> dot x e * dot x e <= 0.0002 ->
  let y := rejectFrom x e in
  (if Rltb 0.001 (length y) then normalize y else alt) = normalize y /\
  orthonormalPair e (normalize y).
Proof.
  intros He Hx Hd y.
  assert (Hy : lengthSq y = 1 - dot x e * dot x e).
  { unfold y. rewrite lengthSq_rejectFrom by exact He. rewrite Hx. ring. }
  split.
  - rewrite Rltb_lt; [reflexivity|]. apply length_gt_of_lengthSq; lra.
  - split; [exact He|]. split.
    + apply length_1_lengthSq, normalize_unit. lra.
    + rewrite dot_comm. apply normalize_perpendicular, dot_rejectFrom, He.
Qed.

Lemma kept_up_nearly_perpendicular (t u e : V3) :
  orthonormalPair t u -> lengthSq e = 1 ->
  0.9999 <= dot t e \/ dot t e <= -0.9999 ->
  dot u e * dot u e <= 0.0002.
Proof.
  intros (Ht & Hu & Htu) He Hd.
  pose proof (bessel_pair t u e Ht Hu Htu He). nra.
Qed.

Lemma axis_long_enough (t e : V3) :
  lengthSq t = 1 -> lengthSq e = 1 -> -0.9999 <= dot t e <= 0.9999 ->
  Rltb 0.0001 (length (crossVectors t e)) = true.
Proof.
  intros Ht He Hd. apply Rltb_lt, length_gt_of_lengthSq; [lra|].
  rewrite lengthSq_cross. unfold lengthSq in Ht, He. rewrite Ht, He. nra.
Qed.

(** Carrying the up across a spline span keeps the running frame an
    orthonormal pair. *)
Lemma transportAcrossSpan_pair (t u e : V3) :
  orthonormalPair t u -> lengthSq e = 1 ->
  orthonormalPair e (transportAcrossSpan t e u).
Proof.
  intros Hp He. pose proof Hp as (Ht & Hu & Htu).
  pose proof (unit_dot_bounds t e Ht He) as Hb.
  unfold transportAcrossSpan. rewrite clamp_unit_range by exact Hb.
  destruct (Rltb (dot t e) 0.9999 && Rltb (-0.9999) (dot t e))%bool eqn:Ec.
  - apply andb_true_iff in Ec. destruct Ec as [E1 E2].
    apply Rltb_true in E1, E2.
    rewrite axis_long_enough by (try assumption; lra).
    destruct (rotated_up t u e Hp He ltac:(lra)) as [Hx Hxe]. cbv zeta in *.
    match goal with
    | |- orthonormalPair e (if Rltb 0.001 (length (rejectFrom ?x e)) then _ else ?a) =>
        destruct (reorthogonalize x e a He Hx ltac:(rewrite Hxe; lra)) as [-> H]
    end.
    exact H.
  - apply andb_false_iff in Ec.
    assert (Hd : 0.9999 <= dot t e \/ dot t e <= -0.9999).
    { destruct Ec as [E|E]; apply Rltb_false in E; [left | right]; lra. }
    pose proof (kept_up_nearly_perpendicular t u e Hp He Hd) as Hk.
    match goal with
    | |- orthonormalPair e (if Rltb 0.001 (length (rejectFrom ?x e)) then _ else ?a) =>
        destruct (reorthogonalize x e a He Hu Hk) as [-> H]
    end.
    exact H.
Qed.

Lemma cross_of_pair (f u : V3) :
  orthonormalPair f u ->
  normalize (crossVectors f u) = crossVectors f u /\
  orthonormal f u (crossVectors f u).
Proof.
  intros (Hf & Hu & Hfu).
  assert (Hc : lengthSq (crossVectors f u) = 1).
  { rewrite lengthSq_cross. unfold lengthSq in Hf, Hu. rewrite Hf, Hu, Hfu. ring. }
  split.
  - apply normalize_of_unit, length_1_lengthSq, Hc.
  - unfold orthonormal. rewrite !length_1_lengthSq.
    repeat split; try assumption.
    + apply dot_cross_l.
    + apply dot_cross_r.
Qed.

(** The rotated or kept up is a unit vector nearly perpendicular to the
    new tangent. *)
Lemma rotateUpTo_near (t u e : V3) :
  orthonormalPair t u -> lengthSq e = 1 ->
  lengthSq (rotateUpTo t e u) = 1 /\
  dot (rotateUpTo t e u) e * dot (rotateUpTo t e u) e <= 0.0002.
Proof.
  intros Hp He. pose proof Hp as (Ht & Hu & Htu).
  pose proof (unit_dot_bounds t e Ht He) as Hb.
  unfold rotateUpTo. rewrite clamp_unit_range by exact Hb. cbv zeta.
  destruct (Rltb 0.9999 (dot t e)) eqn:E1.
  - apply Rltb_true in E1. split; [exact Hu|].
    apply (kept_up_nearly_perpendicular t u e Hp He). left. lra.
  - apply Rltb_false in E1. destruct (Rltb (dot t e) (-0.9999)) eqn:E2.
    + apply Rltb_true in E2. split; [exact Hu|].
      apply (kept_up_nearly_perpendicular t u e Hp He). right. lra.
    + apply Rltb_false in E2.
      rewrite axis_long_enough by (try assumption; lra).
      destruct (rotated_up t u e Hp He ltac:(lra)) as [Hx Hxe].
      cbv zeta in *. split; [exact Hx|]. rewrite Hxe. lra.
Qed.

(** [computeRollFrame] turns an orthonormal running pair into an
    orthonormal loop frame whose forward is the curve's unit tangent. *)
Lemma computeRollFrame_orthonormal (spline : Curve) (splineT : R)
    (t u : V3) (rad pit : R) (rollOffset : V3) :
  orthonormalPair t u -> lengthSq (getTangent spline splineT) <> 0 ->
  let frame := computeRollFrame spline splineT t u rad pit rollOffset in
  frameOrthonormal frame /\ orthonormalPair (forward frame) (up frame) /\
  pitch frame = pit /\ radius frame = rad.
Proof.
  intros Hp Hnz.
  set (e := normalize (getTangent spline splineT)).
  assert (He : lengthSq e = 1)
    by (apply length_1_lengthSq, normalize_unit, Hnz).
  unfold computeRollFrame. fold e. cbv zeta.
  destruct (rotateUpTo_near t u e Hp He) as [Hx Hxe].
  destruct (reorthogonalize (rotateUpTo t e u) e
              (normalize (rejectFrom worldUp e)) He Hx Hxe) as [-> Hpair].
  destruct (cross_of_pair _ _ Hpair) as [-> Hortho].
  cbn [forward up right pitch radius].
  unfold frameOrthonormal. cbn [forward up right].
  repeat split; try apply Hortho; try apply Hpair.
Qed.

(** The rail loop of Track.tsx keeps its running frame an orthonormal
    pair as well. *)
Lemma railUp_pair (t u e : V3) :
  orthonormalPair t u -> lengthSq e = 1 -> orthonormalPair e (railUp t e u).
Proof.
  intros Hp He. unfold railUp. cbv zeta.
  destruct (rotateUpTo_near t u e Hp He) as [Hx Hxe].
  destruct (reorthogonalize (rotateUpTo t e u) e u He Hx Hxe) as [-> Hpair].
  exact Hpair.
Qed.

(** The frame the section loop starts from is an orthonormal pair. *)
Lemma initial_pair (curve : Curve) :
  lengthSq (getTangent curve 0) <> 0 ->
  orthonormalPair (initialTangent curve) (initialUp curve).
Proof.
  intros Hnz.
  assert (Ht : lengthSq (initialTangent curve) = 1)
    by (apply length_1_lengthSq, normalize_unit, Hnz).
  pose proof (lengthSq_rejectFrom worldUp _ Ht) as HU.
  pose proof (lengthSq_rejectFrom worldX _ Ht) as HX.
  unfold initialUp. cbv zeta.
  set (T := initialTangent curve) in *.
  split; [exact Ht|].
  destruct (Rltb (length (rejectFrom worldUp T)) 0.01) eqn:E.
  - apply Rltb_true in E.
    assert (Hsmall : lengthSq (rejectFrom worldUp T) < 0.0001).
    { rewrite <- length_sqr. pose proof (length_nonneg (rejectFrom worldUp T)).
      nra. }
    assert (Hbig : lengthSq (rejectFrom worldX T) <> 0).
    { rewrite HX. rewrite HU in Hsmall.
      unfold lengthSq, dot, worldUp, worldX in *; cbn [vx vy vz] in *. nra. }
    split.
    + apply length_1_lengthSq, normalize_unit, Hbig.
    + rewrite dot_comm. apply normalize_perpendicular, dot_rejectFrom, Ht.
  - apply Rltb_false in E.
    assert (Hbig : lengthSq (rejectFrom worldUp T) <> 0).
    { rewrite <- length_sqr. nra. }
    split.
    + apply length_1_lengthSq, normalize_unit, Hbig.
    + rewrite dot_comm. apply normalize_perpendicular, dot_rejectFrom, Ht.
Qed.

(** Every value of the loop map is one of the loop segments. *)
Lemma fold_insert_lookup (segs : list LoopSegment.t) :
  forall (m : gmap string LoopSegment.t) (k : string) (seg : LoopSegment.t),
    fold_left (fun m seg => <[LoopSegment.entryPointId seg := seg]> m) segs m
    !! k = Some seg ->
    In seg segs \/ m !! k = Some seg.
Proof.
  induction segs as [|s segs IH]; intros m k seg H; cbn [fold_left] in H.
  - right. exact H.
  - apply IH in H. destruct H as [H|H]; [left; right; exact H|].
    destruct (decide (LoopSegment.entryPointId s = k)) as [E|E].
    + rewrite E, lookup_insert_eq in H. injection H as <-. left. left.
      reflexivity.
    + rewrite lookup_insert_ne in H by exact E. right. exact H.
Qed.

Lemma buildLoopMap_lookup_in (segs : list LoopSegment.t) k seg :
  buildLoopMap segs !! k = Some seg -> In seg segs.
Proof.
  intros H. apply fold_insert_lookup in H. destruct H as [H|H]; [exact H|].
  rewrite lookup_empty in H. discriminate.
Qed.

Section BuiltFrames.
Variable curve : Curve.
Variable loopMap : gmap string LoopSegment.t.
Hypothesis tangent_nonzero : forall t, lengthSq (getTangent curve t) <> 0.
Hypothesis pitch_nonzero :
  forall k seg, loopMap !! k = Some seg -> LoopSegment.pitch seg <> 0.

Lemma buildStep_framesGood numPoints isLooped st i point :
  framesGood st ->
  framesGood (buildStep curve loopMap numPoints isLooped st i point).
Proof.
  intros [Hpair Hframes]. unfold buildStep.
  set (total := totalSplineSegmentsOf numPoints isLooped).
  assert (Hroll :
    forall seg, loopMap !! TrackPoint.id point = Some seg ->
      framesGood
        (mkBuildState
           (sections st
            ++ [mkTrackSection roll 0 0
                  (computeRollArcLength (LoopSegment.radius seg)
                                        (LoopSegment.pitch seg))
                  (Some (computeRollFrame curve (INR i / INR total)
                           (prevTangent st) (prevUp st)
                           (LoopSegment.radius seg) (LoopSegment.pitch seg)
                           (rollOffset st)))
                  None None (Some i)])
           (accumulatedLength st
            + computeRollArcLength (LoopSegment.radius seg)
                                   (LoopSegment.pitch seg))
           (addScaledVector (rollOffset st)
              (forward (computeRollFrame curve (INR i / INR total)
                          (prevTangent st) (prevUp st)
                          (LoopSegment.radius seg) (LoopSegment.pitch seg)
                          (rollOffset st)))
              (LoopSegment.pitch seg))
           (forward (computeRollFrame curve (INR i / INR total)
                       (prevTangent st) (prevUp st)
                       (LoopSegment.radius seg) (LoopSegment.pitch seg)
                       (rollOffset st)))
           (up (computeRollFrame curve (INR i / INR total)
                  (prevTangent st) (prevUp st)
                  (LoopSegment.radius seg) (LoopSegment.pitch seg)
                  (rollOffset st))))).
  { intros seg Hseg.
    destruct (computeRollFrame_orthonormal curve (INR i / INR total)
                (prevTangent st) (prevUp st) (LoopSegment.radius seg)
                (LoopSegment.pitch seg) (rollOffset st) Hpair
                (tangent_nonzero _)) as (Ho & Hp & Hpitch & _).
    cbv zeta in *. split; [exact Hp|].
    intros s frame Hin Hf. cbn [sections] in Hin.
    apply in_app_or in Hin. destruct Hin as [Hin | [<- | []]].
    - exact (Hframes s frame Hin Hf).
    - cbn [rollFrame] in Hf. injection Hf as <-.
      split; [exact Ho|]. rewrite Hpitch. exact (pitch_nonzero _ _ Hseg). }
  assert (Hspline :
    forall st0, framesGood st0 ->
      framesGood
        (mkBuildState
           (sections st0
            ++ [mkTrackSection spline 0 0
                  (splineSegmentLength curve (INR i / INR total)
                                       (INR (i + 1) / INR total))
                  None (Some (INR i / INR total))
                  (Some (INR (i + 1) / INR total)) (Some i)])
           (accumulatedLength st0
            + splineSegmentLength curve (INR i / INR total)
                                  (INR (i + 1) / INR total))
           (rollOffset st0)
           (normalize (getTangent curve (INR (i + 1) / INR total)))
           (transportAcrossSpan (prevTangent st0)
              (normalize (getTangent curve (INR (i + 1) / INR total)))
              (prevUp st0)))).
  { intros st0 [Hpair0 Hframes0]. split.
    - apply transportAcrossSpan_pair; [exact Hpair0|].
      apply length_1_lengthSq, normalize_unit, tangent_nonzero.
    - intros s frame Hin Hf. cbn [sections] in Hin.
      apply in_app_or in Hin. destruct Hin as [Hin | [<- | []]].
      + exact (Hframes0 s frame Hin Hf).
      + discriminate. }
  destruct (loopMap !! TrackPoint.id point) as [seg|] eqn:El;
    destruct (Nat.leb (numPoints - 1) i && negb isLooped)%bool.
  - apply Hroll. reflexivity.
  - apply Hspline, Hroll. reflexivity.
  - split; assumption.
  - apply Hspline. split; assumption.
Qed.

Lemma buildLoop_framesGood numPoints isLooped points :
  forall st i,
    framesGood st ->
    framesGood (buildLoop curve loopMap numPoints isLooped st i points).
Proof.
  induction points as [|p rest IH]; intros st i H; simpl.
  - exact H.
  - apply IH, buildStep_framesGood, H.
Qed.

End BuiltFrames.

Lemma assignProgress_in L (secs : list TrackSection) :
  forall run s,
    In s (assignProgress L run secs) ->
    exists s0, In s0 secs /\ type s = type s0 /\ rollFrame s = rollFrame s0.
Proof.
  induction secs as [|s0 rest IH]; intros run s H; simpl in H; [contradiction|].
  destruct H as [<- | H].
  - exists s0. split; [left; reflexivity | split; reflexivity].
  - destruct (IH _ _ H) as (s1 & Hin & Ht & Hf).
    exists s1. split; [right; exact Hin | split; assumption].
Qed.

(** Every loop frame of a built section table is orthonormal, when the
    curve's tangent never vanishes and no loop segment has zero pitch. *)
Lemma trackSections_frames CatmullRomCurve3 trackPoints loopSegments isLooped :
  (forall t,
      lengthSq (getTangent
                  (CatmullRomCurve3 (map TrackPoint.position trackPoints)
                     isLooped) t) <> 0) ->
  (forall seg, In seg loopSegments -> LoopSegment.pitch seg <> 0) ->
  forall s frame,
    In s (trackSections CatmullRomCurve3 trackPoints loopSegments isLooped) ->
    rollFrame s = Some frame ->
    frameOrthonormal frame /\ pitch frame <> 0.
Proof.
  intros Hnz Hpitch s frame Hin Hf.
  unfold trackSections, sectionsMemo, getTrackCurve in Hin.
  destruct (Nat.ltb (List.length trackPoints) 2); [contradiction|].
  cbn [fst] in Hin. apply assignProgress_in in Hin.
  destruct Hin as (s0 & Hin & _ & Hf0). rewrite Hf0 in Hf.
  unfold buildSections in Hin.
  match type of Hin with
  | In s0 (sections (buildLoop ?c ?m ?n ?l ?st ?i ?pts)) =>
      assert (Hgood : framesGood (buildLoop c m n l st i pts))
  end.
  { apply buildLoop_framesGood.
    - exact Hnz.
    - intros k seg Hk. apply Hpitch. eapply buildLoopMap_lookup_in, Hk.
    - split; [apply initial_pair, Hnz|]. intros ? ? []. }
  exact (proj2 Hgood s0 frame Hin Hf).
Qed.

(* ================================================================== *)
(** * The straight track with a loop at its first point *)
(* ================================================================== *)

Lemma pointId_2_1 : String.eqb (Store.pointId 2) (Store.pointId 1) = false.
Proof. vm_compute. reflexivity. Qed.

Lemma pointId_1_ne_2 : Store.pointId 1 <> Store.pointId 2.
Proof.
  intros E. pose proof pointId_2_1 as H. rewrite E, String.eqb_refl in H.
  discriminate.
Qed.

Lemma loopWorld_track :
  Store.trackPoints (Store.state loopWorld) = loopTrack /\
  Store.loopSegments (Store.state loopWorld) = [loopSegment1].
Proof.
  unfold loopWorld, Store.createLoopAtPoint, Store.addTrackPoint,
    Store.initialWorld, Store.initialState.
  cbn [Store.state Store.trackPoints Store.loopSegments Store.pointCounter
       Store.setTrack app List.find TrackPoint.id].
  rewrite String.eqb_refl.
  cbn [TrackPoint.hasLoop Store.withState Store.state Store.setTrack
       Store.trackPoints Store.loopSegments map TrackPoint.id app].
  rewrite String.eqb_refl, pointId_2_1. split; reflexivity.
Qed.

Lemma rejectFrom_e2_e1 : rejectFrom (mkV3 0 1 0) (mkV3 1 0 0) = mkV3 0 1 0.
Proof.
  unfold rejectFrom, sub, multiplyScalar, dot. cbn [vx vy vz].
  apply V3_eq; cbn [vx vy vz]; ring.
Qed.

Lemma normalize_e2 : normalize (mkV3 0 1 0) = mkV3 0 1 0.
Proof. apply normalize_of_unit, length_e2. Qed.

Lemma normalize_e3 : normalize (mkV3 0 0 1) = mkV3 0 0 1.
Proof. apply normalize_of_unit, length_e3. Qed.

Lemma cross_e1_e2 : crossVectors (mkV3 1 0 0) (mkV3 0 1 0) = mkV3 0 0 1.
Proof. unfold crossVectors. cbn [vx vy vz]. apply V3_eq; cbn [vx vy vz]; ring. Qed.

Lemma initialTangent_line : initialTangent lineCurve = mkV3 1 0 0.
Proof. unfold initialTangent. cbn [getTangent lineCurve]. apply normalize_e1. Qed.

Lemma initialUp_line : initialUp lineCurve = mkV3 0 1 0.
Proof.
  unfold initialUp. rewrite initialTangent_line. unfold worldUp.
  rewrite rejectFrom_e2_e1, length_e2.
  rewrite Rltb_ge by lra. apply normalize_e2.
Qed.

(** On the straight track a loop entered with the initial frame gets
    the scenario frame: forward (1,0,0), up (0,1,0), right (0,0,1). *)
Lemma computeRollFrame_line (splineT radius pitch : R) (rollOffset : V3) :
  computeRollFrame lineCurve splineT (mkV3 1 0 0) (mkV3 0 1 0) radius pitch
                   rollOffset
  = mkBarrelRollFrame (add (mkV3 (10 * splineT) 0 0) rollOffset)
      (mkV3 1 0 0) (mkV3 0 1 0) (mkV3 0 0 1) radius pitch.
Proof.
  unfold computeRollFrame, rotateUpTo. cbn [getTangent getPoint lineCurve].
  rewrite normalize_e1.
  replace (dot (mkV3 1 0 0) (mkV3 1 0 0)) with 1
    by (unfold dot; cbn [vx vy vz]; ring).
  replace (Rmax (-1) (Rmin 1 1)) with 1
    by (unfold Rmax, Rmin; destruct (Rle_dec 1 1); destruct (Rle_dec (-1) 1);
        lra).
  rewrite (Rltb_lt 0.9999 1) by lra.
  rewrite rejectFrom_e2_e1, length_e2, (Rltb_lt 0.001 1) by lra.
  rewrite normalize_e2, cross_e1_e2, normalize_e3. reflexivity.
Qed.

Lemma fold_left_positive_terms (g : nat -> R) (l : list nat) :
  (forall i, 0 < g i) -> l <> [] ->
  forall init, init < fold_left (fun acc i => acc + g i) l init.
Proof.
  intros Hg. induction l as [|x l IH]; intros Hne init; [congruence|].
  cbn [fold_left]. destruct l as [|y l].
  - simpl. pose proof (Hg x). lra.
  - pose proof (IH ltac:(discriminate) (init + g x)). pose proof (Hg x). lra.
Qed.

(** The arc length of a loop is positive when its pitch is not zero. *)
Lemma computeRollArcLength_pos (radius pitch : R) :
  pitch <> 0 -> 0 < computeRollArcLength radius pitch.
Proof.
  intros Hp. unfold computeRollArcLength.
  apply (fold_left_positive_terms
           (fun i =>
              sqrt (pitch / INR 100 * (pitch / INR 100)
                    + radius
                      * sqrt ((theta (INR (i + 1) / INR 100)
                               - theta (INR i / INR 100))
                              * (theta (INR (i + 1) / INR 100)
                                 - theta (INR i / INR 100)))
                      * (radius
                         * sqrt ((theta (INR (i + 1) / INR 100)
                                  - theta (INR i / INR 100))
                                 * (theta (INR (i + 1) / INR 100)
                                    - theta (INR i / INR 100))))))).
  - intros i. apply sqrt_lt_R0.
    assert (H100 : INR 100 <> 0) by (apply not_0_INR; lia).
    assert (Hq : pitch / INR 100 <> 0).
    { unfold Rdiv. apply Rmult_integral_contrapositive_currified;
        [exact Hp | apply Rinv_neq_0_compat, H100]. }
    nra.
  - discriminate.
Qed.

Lemma loopArcLength_pos : 0 < loopArcLength.
Proof. apply computeRollArcLength_pos. lra. Qed.

Lemma buildLoopMap_loopSegment1 :
  buildLoopMap [loopSegment1] !! Store.pointId 1 = Some loopSegment1 /\
  buildLoopMap [loopSegment1] !! Store.pointId 2 = None.
Proof.
  unfold buildLoopMap. cbn [fold_left]. cbn [LoopSegment.entryPointId loopSegment1].
  split.
  - apply lookup_insert_eq.
  - rewrite lookup_insert_ne by apply pointId_1_ne_2. apply lookup_empty.
Qed.

(** The section table of the looped straight track: the loop, then the
    spline span, sharing the progress range by their lengths. *)
Lemma loopTrack_sections :
  trackSections lineSpline loopTrack [loopSegment1] false
  = [mkTrackSection roll (0 / (0 + loopArcLength + 10))
       ((0 + loopArcLength) / (0 + loopArcLength + 10)) loopArcLength
       (Some (scenarioFrame zero)) None None (Some 0%nat);
     mkTrackSection spline ((0 + loopArcLength) / (0 + loopArcLength + 10))
       ((0 + loopArcLength + 10) / (0 + loopArcLength + 10)) 10
       None (Some 0) (Some 1) (Some 0%nat)].
Proof.
  unfold trackSections. rewrite sectionsMemo_unfold by (simpl; lia).
  cbv zeta. unfold lineSpline, buildSections, loopTrack.
  destruct buildLoopMap_loopSegment1 as [H1 H2].
  cbn [buildLoop List.length].
  rewrite (buildStep_no_loop _ _ _ _ _ 1%nat) by exact H2.
  cbn [Nat.sub Nat.leb negb andb].
  unfold buildStep. cbn [TrackPoint.id]. rewrite H1.
  cbn [Nat.sub Nat.leb negb andb totalSplineSegmentsOf sections
       accumulatedLength rollOffset prevTangent prevUp app
       LoopSegment.radius LoopSegment.pitch loopSegment1].
  rewrite initialTangent_line, initialUp_line.
  assert (E0 : INR 0 / INR 1 = 0) by (simpl; field).
  assert (E1 : INR (0 + 1) / INR 1 = 1) by (simpl; field).
  rewrite E0, E1, splineSegmentLength_line, computeRollFrame_line by lra.
  fold loopArcLength.
  replace (add (mkV3 (10 * 0) 0 0) zero) with zero
    by (apply V3_eq; simpl; ring).
  replace (10 * (1 - 0)) with 10 by ring.
  cbn [fst assignProgress withProgress type arcLength rollFrame splineStartT
       splineEndT pointIndex app].
  reflexivity.
Qed.

Lemma loopMidProgress_range :
  0 < loopMidProgress < loopArcLength / (loopArcLength + 10) /\
  loopMidProgress < 1 / 2.
Proof.
  pose proof loopArcLength_pos as HA. unfold loopMidProgress.
  set (A := loopArcLength) in *.
  assert (Hq : 0 < A / (A + 10) < 1).
  { split.
    - apply Rdiv_lt_0_compat; lra.
    - apply Rmult_lt_reg_r with (A + 10); [lra|].
      unfold Rdiv. rewrite Rmult_assoc, Rinv_l by lra. lra. }
  lra.
Qed.

(** Half-way through the loop of the looped straight track the sampler
    returns the closed form of the scenario frame at 1/2. *)
Lemma sample_loopMidProgress :
  sampleHybridTrack loopMidProgress
    (trackSections lineSpline loopTrack [loopSegment1] false)
    lineCurve [loopSegment1] loopTrack false
  = Some (sampleBarrelRollAnalytically (scenarioFrame zero) (1 / 2)).
Proof.
  pose proof loopArcLength_pos as HA.
  destruct loopMidProgress_range as [[H0 H1] H2].
  rewrite loopTrack_sections.
  rewrite sampleHybridTrack_nonempty by discriminate.
  rewrite clampProgress_fixed by lra.
  unfold locateSection. cbn [List.find].
  replace (inSection loopMidProgress _) with true.
  2:{ symmetry. apply inSection_inRange. unfold inRange.
      cbn [startProgress endProgress].
      replace (0 / (0 + loopArcLength + 10)) with 0 by (field; lra).
      replace ((0 + loopArcLength) / (0 + loopArcLength + 10))
        with (loopArcLength / (loopArcLength + 10)) by (field; lra).
      lra. }
  unfold sampleInSection. cbn [type rollFrame startProgress endProgress].
  do 2 f_equal. unfold loopMidProgress. field. lra.
Qed.

Lemma scenario_tangent_dot_up :
  dot (tangent (sampleBarrelRollAnalytically (scenarioFrame zero) (1 / 2)))
      (sampleUp (sampleBarrelRollAnalytically (scenarioFrame zero) (1 / 2)))
  = 5 * (2 * twoPi) / length (rollTangentRaw (scenarioFrame zero) (1 / 2)).
Proof.
  cbn [tangent sampleUp sampleBarrelRollAnalytically].
  rewrite rollTangent_dot_up.
  - rewrite dThetaDt_half. reflexivity.
  - apply scenarioFrame_orthonormal.
  - simpl. lra.
Qed.

(* ================================================================== *)
(** * The arc length of a loop *)
(* ================================================================== *)

(** The eased angle never decreases. *)
Lemma theta_increasing (a b : R) : a <= b -> theta a <= theta b.
Proof.
  set (pr := fun x => exist (fun l => derivable_pt_abs theta x l)
                            (dThetaDt x) (theta_derivative x)).
  apply (nonneg_derivative_1 theta pr).
  intros x. cbn. apply dThetaDt_nonneg.
Qed.

Lemma fold_left_le_terms (g h : nat -> R) (l : list nat) :
  (forall i, g i <= h i) ->
  forall a b, a <= b ->
    fold_left (fun acc i => acc + g i) l a
    <= fold_left (fun acc i => acc + h i) l b.
Proof.
  intros Hgh. induction l as [|x l IH]; intros a b Hab; cbn [fold_left].
  - exact Hab.
  - apply IH. pose proof (Hgh x). lra.
Qed.

(** A sum of constant terms plus scaled differences telescopes. *)
Lemma fold_left_telescope (f : nat -> R) (c k : R) (n : nat) :
  forall a init,
    fold_left (fun acc i => acc + (c + k * (f (i + 1)%nat - f i))) (seq a n) init
    = init + INR n * c + k * (f (a + n)%nat - f a).
Proof.
  induction n as [|n IH]; intros a init.
  - cbn [seq fold_left]. rewrite Nat.add_0_r. simpl. ring.
  - cbn [seq fold_left]. rewrite IH, S_INR.
    replace (S a + n)%nat with (a + S n)%nat by lia.
    replace (a + 1)%nat with (S a) by lia. ring.
Qed.

Lemma sqrt_lower (m x : R) : 0 <= m -> m * m <= x -> m <= sqrt x.
Proof.
  intros Hm Hx. rewrite <- (sqrt_square m Hm). apply sqrt_le_1_alt, Hx.
Qed.

Lemma sqrt_upper (m x : R) : 0 <= m -> x <= m * m -> sqrt x <= m.
Proof.
  intros Hm Hx. rewrite <- (sqrt_square m Hm). apply sqrt_le_1_alt, Hx.
Qed.

Lemma Rabs_sqr_mult (x : R) : Rabs x * Rabs x = x * x.
Proof. unfold Rabs. destruct (Rcase_abs x); ring. Qed.

(** The chord of one step of [computeRollArcLength]. *)
Lemma roll_chord_bounds (radius pitch : R) (i : nat) :
  let dTheta := theta (INR (i + 1) / INR 100) - theta (INR i / INR 100) in
  let chord :=
    sqrt (pitch / INR 100 * (pitch / INR 100)
          + radius * sqrt (dTheta * dTheta)
            * (radius * sqrt (dTheta * dTheta))) in
  0 <= dTheta /\
  Rabs pitch / 100 <= chord /\
  Rabs radius * dTheta <= chord /\
  chord <= Rabs pitch / 100 + Rabs radius * dTheta.
Proof.
  cbv zeta.
  set (d := theta (INR (i + 1) / INR 100) - theta (INR i / INR 100)).
  assert (H100 : INR 100 = 100) by (simpl; lra).
  assert (Hd : 0 <= d).
  { unfold d. rewrite H100.
    assert (INR i / 100 <= INR (i + 1) / 100).
    { rewrite plus_INR. simpl. lra. }
    pose proof (theta_increasing _ _ H). lra. }
  rewrite (sqrt_square d Hd), H100.
  pose proof (Rabs_pos pitch) as Hp. pose proof (Rabs_pos radius) as Hr.
  pose proof (Rabs_sqr_mult pitch) as Hp2.
  pose proof (Rabs_sqr_mult radius) as Hr2.
  assert (Hrd : 0 <= Rabs radius * d) by (apply Rmult_le_pos; assumption).
  split; [exact Hd|]. split; [|split].
  - apply sqrt_lower; [lra|]. nra.
  - apply sqrt_lower; [exact Hrd|]. nra.
  - apply sqrt_upper; [lra|]. nra.
Qed.

(** The arc length computed for a loop: at least its forward travel,
    at least its turn, at most their sum. *)
Lemma computeRollArcLength_bounds (radius pitch : R) :
  Rabs pitch <= computeRollArcLength radius pitch /\
  twoPi * Rabs radius <= computeRollArcLength radius pitch /\
  computeRollArcLength radius pitch <= Rabs pitch + twoPi * Rabs radius.
Proof.
  unfold computeRollArcLength. cbv zeta.
  set (f := fun i : nat => theta (INR i / INR 100)).
  set (g := fun i : nat =>
              sqrt (pitch / INR 100 * (pitch / INR 100)
                    + radius * sqrt ((f (i + 1)%nat - f i) * (f (i + 1)%nat - f i))
                      * (radius
                         * sqrt ((f (i + 1)%nat - f i) * (f (i + 1)%nat - f i))))).
  change (Rabs pitch <= fold_left (fun acc i => acc + g i) (seq 0 100) 0 /\
          twoPi * Rabs radius <= fold_left (fun acc i => acc + g i) (seq 0 100) 0 /\
          fold_left (fun acc i => acc + g i) (seq 0 100) 0
          <= Rabs pitch + twoPi * Rabs radius).
  assert (Hb : forall i,
             Rabs pitch / 100 + 0 * (f (i + 1)%nat - f i) <= g i /\
             0 + Rabs radius * (f (i + 1)%nat - f i) <= g i /\
             g i <= Rabs pitch / 100 + Rabs radius * (f (i + 1)%nat - f i)).
  { intros i. pose proof (roll_chord_bounds radius pitch i) as H.
    cbv zeta in H. unfold g, f. lra. }
  assert (Hends : f (0 + 100)%nat - f 0%nat = twoPi).
  { unfold f. replace (INR (0 + 100) / INR 100) with 1
      by (simpl; field).
    replace (INR 0 / INR 100) with 0 by (simpl; field).
    rewrite theta_0, theta_1. ring. }
  assert (H100 : INR 100 = 100) by (simpl; lra).
  split; [|split].
  - pose proof (fold_left_le_terms
                  (fun i => Rabs pitch / 100 + 0 * (f (i + 1)%nat - f i)) g
                  (seq 0 100) (fun i => proj1 (Hb i)) 0 0 (Rle_refl 0)) as H.
    cbv beta in H. rewrite (fold_left_telescope f (Rabs pitch / 100) 0 100 0 0), H100 in H.
    lra.
  - pose proof (fold_left_le_terms
                  (fun i => 0 + Rabs radius * (f (i + 1)%nat - f i)) g
                  (seq 0 100) (fun i => proj1 (proj2 (Hb i))) 0 0 (Rle_refl 0))
      as H.
    cbv beta in H. rewrite (fold_left_telescope f 0 (Rabs radius) 100 0 0), Hends, H100 in H.
    lra.
  - pose proof (fold_left_le_terms g
                  (fun i => Rabs pitch / 100
                            + Rabs radius * (f (i + 1)%nat - f i))
                  (seq 0 100) (fun i => proj2 (proj2 (Hb i))) 0 0 (Rle_refl 0))
      as H.
    cbv beta in H. rewrite (fold_left_telescope f (Rabs pitch / 100) (Rabs radius) 100 0 0),
      Hends, H100 in H.
    lra.
Qed.

(* ================================================================== *)
(** * A loop at the first point of a track, on any curve *)
(* ================================================================== *)

Lemma buildLoopMap_loopSegmentOf (radius pitch : R) :
  buildLoopMap [loopSegmentOf radius pitch] !! Store.pointId 1
  = Some (loopSegmentOf radius pitch) /\
  buildLoopMap [loopSegmentOf radius pitch] !! Store.pointId 2 = None.
Proof.
  unfold buildLoopMap. cbn [fold_left].
  cbn [LoopSegment.entryPointId loopSegmentOf].
  split.
  - apply lookup_insert_eq.
  - rewrite lookup_insert_ne by apply pointId_1_ne_2. apply lookup_empty.
Qed.

(** The memo of a two-point track with a loop at its first point. *)
Lemma firstLoop_memo (C : list V3 -> bool -> Curve) (a b : V3)
    (radius pitch : R) :
  let curve := C (map TrackPoint.position (loopTrackAt a b)) false in
  let A := computeRollArcLength radius pitch in
  let span := splineSegmentLength curve (INR 0 / INR 1) (INR (0 + 1) / INR 1) in
  sectionsMemo C (loopTrackAt a b) [loopSegmentOf radius pitch] false
  = ([mkTrackSection roll (0 / (0 + A + span)) ((0 + A) / (0 + A + span)) A
        (Some (firstLoopFrame curve radius pitch)) None None (Some 0%nat);
      mkTrackSection spline ((0 + A) / (0 + A + span))
        ((0 + A + span) / (0 + A + span)) span
        None (Some (INR 0 / INR 1)) (Some (INR (0 + 1) / INR 1)) (Some 0%nat)],
     0 + A + span).
Proof.
  intros curve A span.
  rewrite sectionsMemo_unfold by (simpl; lia).
  cbv zeta. fold curve. unfold buildSections, loopTrackAt.
  destruct (buildLoopMap_loopSegmentOf radius pitch) as [H1 H2].
  cbn [buildLoop List.length].
  rewrite (buildStep_no_loop _ _ _ _ _ 1%nat) by exact H2.
  cbn [Nat.sub Nat.leb negb andb].
  unfold buildStep. cbn [TrackPoint.id]. rewrite H1.
  cbn [Nat.sub Nat.leb negb andb totalSplineSegmentsOf sections
       accumulatedLength rollOffset prevTangent prevUp app
       LoopSegment.radius LoopSegment.pitch loopSegmentOf].
  fold (firstLoopFrame curve radius pitch). fold A. fold span.
  cbn [fst assignProgress withProgress type arcLength rollFrame splineStartT
       splineEndT pointIndex app].
  reflexivity.
Qed.

Lemma firstLoop_total_pos (C : list V3 -> bool -> Curve) (a b : V3)
    (radius pitch : R) :
  0 < computeRollArcLength radius pitch ->
  0 < snd (sectionsMemo C (loopTrackAt a b) [loopSegmentOf radius pitch] false).
Proof.
  intros HA. rewrite firstLoop_memo. cbv zeta. cbn [snd].
  pose proof (splineSegmentLength_nonneg
                (C (map TrackPoint.position (loopTrackAt a b)) false)
                (INR 0 / INR 1) (INR (0 + 1) / INR 1)).
  lra.
Qed.

(** The section table of a two-point track with a loop at its first
    point, whatever the curve: the loop, then the spline span. *)
Lemma firstLoop_sections (C : list V3 -> bool -> Curve) (a b : V3)
    (radius pitch : R) :
  let curve := C (map TrackPoint.position (loopTrackAt a b)) false in
  let A := computeRollArcLength radius pitch in
  let span := splineSegmentLength curve (INR 0 / INR 1) (INR (0 + 1) / INR 1) in
  trackSections C (loopTrackAt a b) [loopSegmentOf radius pitch] false
  = [mkTrackSection roll (0 / (0 + A + span)) ((0 + A) / (0 + A + span)) A
       (Some (firstLoopFrame curve radius pitch)) None None (Some 0%nat);
     mkTrackSection spline ((0 + A) / (0 + A + span))
       ((0 + A + span) / (0 + A + span)) span
       None (Some (INR 0 / INR 1)) (Some (INR (0 + 1) / INR 1)) (Some 0%nat)].
Proof.
  intros curve A span. unfold trackSections.
  rewrite firstLoop_memo. reflexivity.
Qed.

(** While the ride is in the first half of that loop, the sampler
    returns the closed form of the loop's frame. *)
Lemma firstLoop_sample (C : list V3 -> bool -> Curve) (a b : V3)
    (radius pitch localT : R) :
  let curve := C (map TrackPoint.position (loopTrackAt a b)) false in
  let A := computeRollArcLength radius pitch in
  let span := splineSegmentLength curve (INR 0 / INR 1) (INR (0 + 1) / INR 1) in
  0 < A -> 0 <= localT <= 1 / 2 ->
  sampleHybridTrack (localT * (A / (A + span)))
    (trackSections C (loopTrackAt a b) [loopSegmentOf radius pitch] false)
    curve [loopSegmentOf radius pitch] (loopTrackAt a b) false
  = Some (sampleBarrelRollAnalytically (firstLoopFrame curve radius pitch)
            localT).
Proof.
  intros curve A span HA Ht.
  assert (Hspan : 0 <= span) by apply splineSegmentLength_nonneg.
  assert (Hq : 0 < A / (A + span) <= 1).
  { split.
    - apply Rdiv_lt_0_compat; lra.
    - apply Rmult_le_reg_r with (A + span); [lra|].
      unfold Rdiv. rewrite Rmult_assoc, Rinv_l by lra. lra. }
  set (e := A / (A + span)) in *.
  assert (Hp : 0 <= localT * e < e /\ localT * e <= 1 / 2) by nra.
  rewrite (firstLoop_sections C a b radius pitch). cbv zeta.
  fold curve. fold A. fold span.
  rewrite sampleHybridTrack_nonempty by discriminate.
  rewrite clampProgress_fixed by lra.
  replace (0 / (0 + A + span)) with 0 by (field; lra).
  replace ((0 + A) / (0 + A + span)) with e by (unfold e; field; lra).
  unfold locateSection. cbn [List.find].
  replace (inSection (localT * e) _) with true.
  2:{ symmetry. apply inSection_inRange. unfold inRange.
      cbn [startProgress endProgress]. lra. }
  unfold sampleInSection. cbn [type rollFrame startProgress endProgress].
  do 2 f_equal. field. lra.
Qed.

Lemma lengthSq_0_zero (v : V3) : lengthSq v = 0 -> v = zero.
Proof.
  unfold lengthSq, dot. intros H.
  apply V3_eq; unfold zero; cbn [vx vy vz]; nra.
Qed.

Lemma length_zero : length zero = 0.
Proof.
  unfold length, lengthSq, dot, zero; cbn [vx vy vz].
  replace (0 * 0 + 0 * 0 + 0 * 0) with 0 by ring. apply sqrt_0.
Qed.

Lemma normalize_zero : normalize zero = zero.
Proof.
  unfold normalize. rewrite length_zero.
  destruct (Req_dec_T 0 0) as [_|E]; [|contradiction].
  apply V3_eq; unfold divideScalar, multiplyScalar, zero; cbn [vx vy vz]; field.
Qed.

Lemma rejectFrom_zero (v : V3) : rejectFrom v zero = v.
Proof.
  unfold rejectFrom, sub, multiplyScalar, dot, zero.
  apply V3_eq; cbn [vx vy vz]; ring.
Qed.

Lemma INR_0_1 : INR 0 / INR 1 = 0.
Proof. simpl. field. Qed.

(** Where the curve has no tangent at its start, the frame of a loop
    entered there has no forward and no right axis: only its up. *)
Lemma firstLoopFrame_still (curve : Curve) (radius pitch : R) :
  lengthSq (getTangent curve 0) = 0 ->
  firstLoopFrame curve radius pitch
  = mkBarrelRollFrame (add (getPoint curve 0) zero) zero worldUp zero
      radius pitch.
Proof.
  intros H. apply lengthSq_0_zero in H.
  assert (Hup : length worldUp = 1) by apply length_e2.
  assert (Hit : initialTangent curve = zero).
  { unfold initialTangent. rewrite H. apply normalize_zero. }
  assert (Hiu : initialUp curve = worldUp).
  { unfold initialUp. rewrite Hit. cbv zeta. rewrite rejectFrom_zero, Hup.
    rewrite Rltb_ge by lra. apply normalize_of_unit, Hup. }
  unfold firstLoopFrame, computeRollFrame. rewrite INR_0_1, H, Hit, Hiu.
  rewrite normalize_zero. cbv zeta.
  assert (Hrot : rotateUpTo zero zero worldUp = worldUp).
  { unfold rotateUpTo.
    replace (dot zero zero) with 0
      by (unfold dot, zero; cbn [vx vy vz]; ring).
    replace (Rmax (-1) (Rmin 1 0)) with 0
      by (unfold Rmax, Rmin; destruct (Rle_dec 1 0); destruct (Rle_dec (-1) _);
          lra).
    rewrite (Rltb_ge 0.9999 0), (Rltb_ge 0 (-0.9999)) by lra.
    replace (crossVectors zero zero) with zero
      by (apply V3_eq; unfold crossVectors, zero; cbn [vx vy vz]; ring).
    rewrite length_zero, Rltb_ge by lra. reflexivity. }
  rewrite Hrot, rejectFrom_zero, Hup, Rltb_lt by lra.
  rewrite (normalize_of_unit worldUp Hup).
  replace (crossVectors zero worldUp) with zero
    by (apply V3_eq; unfold crossVectors, zero, worldUp; cbn [vx vy vz]; ring).
  rewrite normalize_zero. reflexivity.
Qed.

Lemma cos_theta_half : cos (theta (1 / 2)) = -1.
Proof. rewrite theta_half. apply cos_PI. Qed.

Lemma sin_theta_half : sin (theta (1 / 2)) = 0.
Proof. rewrite theta_half. apply sin_PI. Qed.

(** Half-way through a loop of radius 5 and pitch 12 entered at the
    start of any curve, the sampled up is not perpendicular to the
    sampled tangent. *)
Lemma firstLoop_half_not_perpendicular (curve : Curve) :
  let smp := sampleBarrelRollAnalytically (firstLoopFrame curve 5 12) (1 / 2) in
  dot (tangent smp) (sampleUp smp) <> 0.
Proof.
  cbv zeta. cbn [tangent sampleUp sampleBarrelRollAnalytically].
  pose proof twoPi_pos as Hpi.
  destruct (Req_dec_T (lengthSq (getTangent curve 0)) 0) as [Hz|Hnz].
  - rewrite (firstLoopFrame_still curve 5 12 Hz).
    unfold rollTangent, rollUp, rollTangentRaw.
    cbn [forward up right radius pitch].
    rewrite cos_theta_half, sin_theta_half, dThetaDt_half.
    replace (addScaledVector
               (addScaledVector (multiplyScalar zero 12) zero
                  (- (5) * 0 * (2 * twoPi)))
               worldUp (5 * -1 * (2 * twoPi)))
      with (multiplyScalar (mkV3 0 (-1) 0) (10 * twoPi))
      by (apply V3_eq;
          unfold addScaledVector, multiplyScalar, zero, worldUp;
          cbn [vx vy vz]; ring).
    replace (addScaledVector (addScaledVector zero worldUp (-1)) zero (- 0))
      with (mkV3 0 (-1) 0)
      by (apply V3_eq;
          unfold addScaledVector, zero, worldUp; cbn [vx vy vz]; ring).
    assert (Hu : length (mkV3 0 (-1) 0) = 1).
    { apply length_1_lengthSq. unfold lengthSq, dot; cbn [vx vy vz]. ring. }
    rewrite normalize_scaled_unit by (try exact Hu; lra).
    rewrite (normalize_of_unit _ Hu).
    unfold dot; cbn [vx vy vz]. lra.
  - assert (Hnz' : lengthSq (getTangent curve (INR 0 / INR 1)) <> 0)
      by (rewrite INR_0_1; exact Hnz).
    destruct (computeRollFrame_orthonormal curve (INR 0 / INR 1)
                (initialTangent curve) (initialUp curve) 5 12 zero
                (initial_pair curve Hnz) Hnz') as (Ho & _ & Hp & Hr).
    fold (firstLoopFrame curve 5 12) in Ho, Hp, Hr.
    rewrite (rollTangent_dot_up _ Ho) by (rewrite Hp; lra).
    rewrite Hr, dThetaDt_half.
    assert (Hl : 0 < length (rollTangentRaw (firstLoopFrame curve 5 12) (1 / 2))).
    { apply sqrt_lt_R0. rewrite rollTangentRaw_lengthSq by exact Ho.
      rewrite Hp. nra. }
    apply Rgt_not_eq. apply Rdiv_lt_0_compat; lra.
Qed.

(** The turning rate is positive strictly inside the loop. *)
Lemma dThetaDt_pos (t : R) : 0 < t < 1 -> 0 < dThetaDt t.
Proof.
  intros Ht. unfold dThetaDt, twoPi.
  replace (PI * 2 * t) with (2 * (PI * t)) by ring.
  rewrite cos_2a_sin.
  pose proof PI_RGT_0 as Hpi. destruct Ht as [H0 H1].
  assert (Hs : 0 < sin (PI * t)).
  { apply sin_gt_0.
    - apply Rmult_lt_0_compat; assumption.
    - rewrite <- (Rmult_1_r PI) at 2. apply Rmult_lt_compat_l; assumption. }
  assert (Hss : 0 < sin (PI * t) * sin (PI * t))
    by (apply Rmult_lt_0_compat; assumption).
  apply Rmult_lt_0_compat; lra.
Qed.

(** The tangent of the closed form at the start of a loop that has no
    forward travel (zero pitch, or no forward axis) is the zero vector:
    [normalize] leaves it as it is. *)
Lemma rollTangent_at_rest (frame : BarrelRollFrame) :
  multiplyScalar (forward frame) (pitch frame) = zero ->
  rollTangent frame 0 = zero.
Proof.
  intros H. unfold rollTangent, rollTangentRaw. rewrite H, dThetaDt_0.
  replace (addScaledVector
             (addScaledVector zero (right frame)
                (- radius frame * sin (theta 0) * 0))
             (up frame) (radius frame * cos (theta 0) * 0))
    with zero
    by (apply V3_eq; unfold addScaledVector, zero; cbn [vx vy vz]; ring).
  apply normalize_zero.
Qed.

Lemma length_zero_not_1 : length zero <> 1.
Proof. rewrite length_zero. lra. Qed.

(** A loop segment of zero pitch: the frame sampled at the start of the
    loop has the zero vector for tangent, on every curve. *)
Lemma zero_pitch_tangent_not_unit (C : list V3 -> bool -> Curve) (a b : V3) :
  exists smp,
    sampleHybridTrack 0
      (trackSections C (loopTrackAt a b) [loopSegmentOf 5 0] false)
      (C (map TrackPoint.position (loopTrackAt a b)) false)
      [loopSegmentOf 5 0] (loopTrackAt a b) false = Some smp /\
    tangent smp = zero /\ length (tangent smp) <> 1.
Proof.
  set (curve := C (map TrackPoint.position (loopTrackAt a b)) false).
  assert (HA : 0 < computeRollArcLength 5 0).
  { pose proof (proj1 (proj2 (computeRollArcLength_bounds 5 0))) as H. pose proof twoPi_pos.
    rewrite (Rabs_pos_eq 5) in H by lra. lra. }
  pose proof (firstLoop_sample C a b 5 0 0 HA ltac:(lra)) as Hs.
  cbv zeta in Hs. fold curve in Hs. rewrite Rmult_0_l in Hs.
  eexists. split; [exact Hs|].
  cbn [tangent sampleBarrelRollAnalytically].
  assert (E : rollTangent (firstLoopFrame curve 5 0) 0 = zero).
  { apply rollTangent_at_rest.
    unfold firstLoopFrame, computeRollFrame. cbn [forward pitch].
    apply V3_eq; unfold multiplyScalar, zero; cbn [vx vy vz]; ring. }
  rewrite E. split; [reflexivity | exact length_zero_not_1].
Qed.

(** A curve without a tangent at its start (as the curve through
    control points that coincide): the frame sampled at the start of a
    loop entered there has the zero vector for tangent. *)
Lemma zero_tangent_not_unit (C : list V3 -> bool -> Curve) (a b : V3) :
  lengthSq (getTangent (C (map TrackPoint.position (loopTrackAt a b)) false) 0)
  = 0 ->
  exists smp,
    sampleHybridTrack 0
      (trackSections C (loopTrackAt a b) [loopSegmentOf 5 12] false)
      (C (map TrackPoint.position (loopTrackAt a b)) false)
      [loopSegmentOf 5 12] (loopTrackAt a b) false = Some smp /\
    tangent smp = zero /\ length (tangent smp) <> 1.
Proof.
  set (curve := C (map TrackPoint.position (loopTrackAt a b)) false).
  intros Hz.
  pose proof (firstLoop_sample C a b 5 12 0 loopArcLength_pos ltac:(lra)) as Hs.
  cbv zeta in Hs. fold curve in Hs. rewrite Rmult_0_l in Hs.
  eexists. split; [exact Hs|].
  cbn [tangent sampleBarrelRollAnalytically].
  assert (E : rollTangent (firstLoopFrame curve 5 12) 0 = zero).
  { apply rollTangent_at_rest. rewrite (firstLoopFrame_still curve 5 12 Hz).
    cbn [forward pitch].
    apply V3_eq; unfold multiplyScalar, zero; cbn [vx vy vz]; ring. }
  rewrite E. split; [reflexivity | exact length_zero_not_1].
Qed.

(** Two control points at the same place with the scenario's loop at
    the first: the frame sampled at the start of the loop has the zero
    vector for tangent. *)
Lemma still_loop_tangent_not_unit :
  lengthSq (getTangent
              (stillSpline (map TrackPoint.position (loopTrackAt zero zero))
                 false) 0) = 0 /\
  exists smp,
    sampleHybridTrack 0
      (trackSections stillSpline (loopTrackAt zero zero) [loopSegmentOf 5 12]
         false)
      stillCurve [loopSegmentOf 5 12] (loopTrackAt zero zero) false = Some smp /\
    tangent smp = zero /\ length (tangent smp) <> 1.
Proof.
  assert (H : lengthSq (getTangent
                          (stillSpline
                             (map TrackPoint.position (loopTrackAt zero zero))
                             false) 0) = 0).
  { cbn [getTangent stillSpline stillCurve]. unfold lengthSq, dot, zero.
    cbn [vx vy vz]. ring. }
  split; [exact H|].
  exact (zero_tangent_not_unit stillSpline zero zero H).
Qed.

(** C3 (as stated, refuted). Half-way through the loop of the
    specification's scenario (radius 5, pitch 12, forward (1,0,0), up
    (0,1,0)) the closed form returns an up that leans on the tangent by
    20 pi / |(12, -20 pi, 0)|; and on the two-point track with that loop
    at its first point, whatever curve runs through the two points, the
    sampler returns at some progress a loop frame whose up is not
    perpendicular to its tangent. *)
Lemma C3_counterexample :
  (let smp := sampleBarrelRollAnalytically (scenarioFrame zero) (1 / 2) in
   dot (tangent smp) (sampleUp smp)
   = 5 * (2 * twoPi) / length (rollTangentRaw (scenarioFrame zero) (1 / 2)) /\
   0 < dot (tangent smp) (sampleUp smp)) /\
  (forall CatmullRomCurve3 : list V3 -> bool -> Curve,
     exists progress smp,
       sampleHybridTrack progress
         (trackSections CatmullRomCurve3 loopTrack [loopSegment1] false)
         (CatmullRomCurve3 (map TrackPoint.position loopTrack) false)
         [loopSegment1] loopTrack false = Some smp /\
       inRoll smp = true /\
       dot (tangent smp) (sampleUp smp) <> 0).
Proof.
  split.
  - cbv zeta. rewrite scenario_tangent_dot_up. split; [reflexivity|].
    assert (Hl : 0 < length (rollTangentRaw (scenarioFrame zero) (1 / 2))).
    { apply sqrt_lt_R0.
      rewrite rollTangentRaw_lengthSq by apply scenarioFrame_orthonormal.
      simpl. nra. }
    pose proof twoPi_pos as Hp. apply Rdiv_lt_0_compat; lra.
  - intros C.
    pose proof (firstLoop_sample C (mkV3 0 0 0) (mkV3 10 0 0) 5 12 (1 / 2)
                  loopArcLength_pos ltac:(lra)) as Hs.
    cbv zeta in Hs.
    eexists. eexists. split; [exact Hs|]. split; [reflexivity|].
    apply firstLoop_half_not_perpendicular.
Qed.

(** How the up of the closed form leans on its tangent, for an
    orthonormal frame of non-zero pitch. *)
Lemma roll_lean (frame : BarrelRollFrame) (t : R) :
  frameOrthonormal frame -> pitch frame <> 0 ->
  let lean := dot (rollTangent frame t) (rollUp frame t) in
  lean = radius frame * dThetaDt t / length (rollTangentRaw frame t) /\
  (lean = 0 <-> radius frame * dThetaDt t = 0) /\
  (t = 0 \/ t = 1 -> lean = 0) /\
  (radius frame = 0 -> lean = 0) /\
  (radius frame <> 0 -> 0 < t < 1 -> lean <> 0).
Proof.
  intros Ho Hp. cbv zeta.
  pose proof (rollTangent_dot_up frame Ho t Hp) as Hdot.
  assert (Hlen : 0 < length (rollTangentRaw frame t)).
  { apply sqrt_lt_R0. rewrite rollTangentRaw_lengthSq by exact Ho. nra. }
  assert (Hiff : dot (rollTangent frame t) (rollUp frame t) = 0 <->
                 radius frame * dThetaDt t = 0).
  { rewrite Hdot. split.
    - intros H0. unfold Rdiv in H0.
      apply Rmult_integral in H0. destruct H0 as [H0|H0]; [exact H0|].
      exfalso. apply (Rinv_neq_0_compat _ (Rgt_not_eq _ _ Hlen)), H0.
    - intros ->. unfold Rdiv. ring. }
  split; [exact Hdot|]. split; [exact Hiff|]. split; [|split].
  - intros [-> | ->]; apply Hiff;
      [rewrite dThetaDt_0 | rewrite dThetaDt_1]; ring.
  - intros Hr. apply Hiff. rewrite Hr. ring.
  - intros Hr Ht H0. apply Hiff in H0.
    pose proof (dThetaDt_pos t Ht) as Hd.
    apply Rmult_integral in H0. destruct H0 as [H0|H0]; [exact (Hr H0) | lra].
Qed.

(** The frame a section hands back: unit tangent, unit up; the up is
    perpendicular to the tangent on a spline span, and on a loop it is
    perpendicular to the loop's forward axis and leans on the tangent
    by the turning rate. *)
Lemma sampleInSection_frame (p : R) section spline loopSegments trackPoints
    isLooped smp :
  (forall t, lengthSq (getTangent spline t) <> 0) ->
  (forall frame, rollFrame section = Some frame ->
                 frameOrthonormal frame /\ pitch frame <> 0) ->
  sampleInSection p section spline loopSegments trackPoints isLooped = Some smp ->
  length (tangent smp) = 1 /\ length (sampleUp smp) = 1 /\
  (inRoll smp = false -> dot (tangent smp) (sampleUp smp) = 0) /\
  (inRoll smp = true ->
   exists frame,
     rollFrame section = Some frame /\
     let localT := (p - startProgress section)
                   / (endProgress section - startProgress section) in
     smp = sampleBarrelRollAnalytically frame localT /\
     dot (forward frame) (sampleUp smp) = 0).
Proof.
  intros Hnz Hframe. unfold sampleInSection.
  set (localT := (p - startProgress section)
                 / (endProgress section - startProgress section)).
  assert (Hspline :
    forall a b,
      Some (mkSample
              (add (getPoint spline (a + localT * (b - a)))
                 (accumulateRollOffset spline (buildLoopMap loopSegments)
                    (totalSplineSegmentsOf (List.length trackPoints) isLooped)
                    (default 0%nat (pointIndex section)) zero 0 trackPoints))
              (normalize (getTangent spline (a + localT * (b - a))))
              (splineUp (normalize (getTangent spline (a + localT * (b - a)))))
              false) = Some smp ->
      length (tangent smp) = 1 /\ length (sampleUp smp) = 1 /\
      (inRoll smp = false -> dot (tangent smp) (sampleUp smp) = 0) /\
      (inRoll smp = true ->
       exists frame,
         rollFrame section = Some frame /\
         smp = sampleBarrelRollAnalytically frame localT /\
         dot (forward frame) (sampleUp smp) = 0)).
  { intros a b H. injection H as <-. cbn [tangent sampleUp inRoll].
    assert (Hu : length (normalize (getTangent spline (a + localT * (b - a)))) = 1)
      by apply normalize_unit, Hnz.
    destruct (splineUp_orthonormal _ Hu) as [H1 H2].
    split; [exact Hu|]. split; [exact H1|].
    split; [intros _; exact H2 | discriminate]. }
  destruct (type section) eqn:Ety.
  - destruct (splineStartT section) as [a|]; [|discriminate].
    destruct (splineEndT section) as [b|]; [|discriminate].
    apply Hspline.
  - destruct (rollFrame section) as [frame|] eqn:Ef.
    + intros H. injection H as <-.
      destruct (Hframe frame eq_refl) as [Ho Hp].
      cbn [tangent sampleUp inRoll sampleBarrelRollAnalytically].
      split; [apply rollTangent_unit; assumption|].
      split; [apply rollUp_unit; assumption|].
      split; [discriminate|]. intros _.
      exists frame. split; [reflexivity|]. split; [reflexivity|].
      apply rollUp_perpendicular_to_forward; assumption.
    + destruct (splineStartT section) as [a|]; [|discriminate].
      destruct (splineEndT section) as [b|]; [|discriminate].
      apply Hspline.
Qed.

(** C3 (amended). On the section table built for a track whose curve
    has a tangent everywhere and whose loops have non-zero pitch, every
    frame returned by [sampleHybridTrack] has a unit tangent and a unit
    up.  On a spline section the up is perpendicular to the tangent.
    On a loop section the frame is the closed form of the section's
    orthonormal loop frame at the local parameter of the clamped
    progress; its up is perpendicular to the loop's forward axis, and
    its dot product with the tangent is
    radius * dtheta/dt / |tangent before normalization|.  That is zero
    at local parameter 0 and 1, zero throughout for a loop of radius
    zero, and not zero at any local parameter strictly between 0 and 1
    for a loop of non-zero radius. *)
Theorem C3_sampled_frame_orientation
    (CatmullRomCurve3 : list V3 -> bool -> Curve)
    (trackPoints : list TrackPoint.t) (loopSegments : list LoopSegment.t)
    (isLooped : bool) (progress : R) (smp : Sample) :
  let curve :=
    CatmullRomCurve3 (map TrackPoint.position trackPoints) isLooped in
  let sections :=
    trackSections CatmullRomCurve3 trackPoints loopSegments isLooped in
  (forall t, lengthSq (getTangent curve t) <> 0) ->
  (forall seg, In seg loopSegments -> LoopSegment.pitch seg <> 0) ->
  sampleHybridTrack progress sections curve loopSegments trackPoints isLooped
  = Some smp ->
  length (tangent smp) = 1 /\ length (sampleUp smp) = 1 /\
  (inRoll smp = false -> dot (tangent smp) (sampleUp smp) = 0) /\
  (inRoll smp = true ->
   exists section frame,
     In section sections /\ rollFrame section = Some frame /\
     frameOrthonormal frame /\
     let localT := (clampProgress progress - startProgress section)
                   / (endProgress section - startProgress section) in
     let lean := dot (tangent smp) (sampleUp smp) in
     smp = sampleBarrelRollAnalytically frame localT /\
     dot (forward frame) (sampleUp smp) = 0 /\
     lean = radius frame * dThetaDt localT
            / length (rollTangentRaw frame localT) /\
     (lean = 0 <-> radius frame * dThetaDt localT = 0) /\
     (localT = 0 \/ localT = 1 -> lean = 0) /\
     (radius frame = 0 -> lean = 0) /\
     (radius frame <> 0 -> 0 < localT < 1 -> lean <> 0)).
Proof.
  intros curve sections Hnz Hpitch Hs. subst sections.
  set (secs := trackSections CatmullRomCurve3 trackPoints loopSegments isLooped)
    in *.
  destruct secs as [|s0 rest] eqn:Esecs; [discriminate|].
  rewrite sampleHybridTrack_nonempty in Hs by discriminate.
  destruct (locateSection_some (clampProgress progress) (s0 :: rest)
              ltac:(discriminate)) as (section & Hloc & Hin).
  rewrite Hloc in Hs.
  assert (Hframe : forall frame, rollFrame section = Some frame ->
                                 frameOrthonormal frame /\ pitch frame <> 0).
  { intros frame Hf.
    apply (trackSections_frames CatmullRomCurve3 trackPoints loopSegments
             isLooped Hnz Hpitch section frame); [| exact Hf].
    fold secs. rewrite Esecs. exact Hin. }
  destruct (sampleInSection_frame _ _ _ _ _ _ _ Hnz Hframe Hs)
    as (Ht & Hu & Hsp & Hroll).
  split; [exact Ht|]. split; [exact Hu|]. split; [exact Hsp|].
  intros Hr. destruct (Hroll Hr) as (frame & Hf & Hsmp & Hfwd).
  cbv zeta in Hsmp.
  destruct (Hframe frame Hf) as [Ho Hp].
  exists section, frame.
  split; [exact Hin|]. split; [exact Hf|]. split; [exact Ho|].
  cbv zeta. split; [exact Hsmp|]. split; [exact Hfwd|].
  rewrite Hsmp. cbn [tangent sampleUp sampleBarrelRollAnalytically].
  apply (roll_lean frame _ Ho Hp).
Qed.

Lemma lineCurve_tangent_nonzero (t : R) : lengthSq (getTangent lineCurve t) <> 0.
Proof.
  cbn [getTangent lineCurve]. unfold lengthSq, dot; cbn [vx vy vz]. lra.
Qed.

Lemma C3_witness :
  (forall t, lengthSq (getTangent lineCurve t) <> 0) /\
  (forall seg, In seg [loopSegment1] -> LoopSegment.pitch seg <> 0) /\
  sampleHybridTrack loopMidProgress
    (trackSections lineSpline loopTrack [loopSegment1] false)
    lineCurve [loopSegment1] loopTrack false
  = Some (sampleBarrelRollAnalytically (scenarioFrame zero) (1 / 2)) /\
  length (tangent (sampleBarrelRollAnalytically (scenarioFrame zero) (1 / 2))) = 1
  /\ length (sampleUp (sampleBarrelRollAnalytically (scenarioFrame zero) (1 / 2)))
     = 1.
Proof.
  assert (Hp : forall seg, In seg [loopSegment1] -> LoopSegment.pitch seg <> 0).
  { intros seg [<- | []]. cbn [LoopSegment.pitch loopSegment1]. lra. }
  split; [exact lineCurve_tangent_nonzero | split; [exact Hp |]].
  split; [exact sample_loopMidProgress |].
  pose proof (C3_sampled_frame_orientation lineSpline loopTrack [loopSegment1]
                false loopMidProgress _ lineCurve_tangent_nonzero Hp
                sample_loopMidProgress) as H.
  exact (conj (proj1 H) (proj1 (proj2 H))).
Defined.

(* ================================================================== *)
(** * The traversal driver at the end of the path *)
(* ================================================================== *)

Lemma remainderOne_range (x : R) : 0 <= x -> 0 <= remainderOne x < 1.
Proof.
  intros H. unfold remainderOne. destruct (Rle_dec 0 x); [|contradiction].
  destruct (base_fp x). lra.
Qed.

Lemma stopRide_state (w : Store.World) :
  Store.isRiding (Store.state (Store.stopRide w)) = false /\
  Store.mode (Store.state (Store.stopRide w)) = build /\
  Store.rideProgress (Store.state (Store.stopRide w)) = 0.
Proof. repeat split. Qed.

(** What a tick that reaches the end of the path does to the store and
    to the climb-height tracker. *)
Lemma rideTick_at_end (memo : RideMemo) (delta : R) (r : Ride) (curve : Curve) :
  tickRuns memo r curve ->
  1 <= advancedProgress memo delta (Store.state (world r)) ->
  let s := Store.state (world r) in
  let r' := rideTick memo delta r in
  let s' := Store.state (world r') in
  (Store.isLooped s = true ->
     Store.rideProgress s' = remainderOne (advancedProgress memo delta s) /\
     Store.isRiding s' = true /\ Store.mode s' = Store.mode s /\
     (Store.hasChainLift s = true ->
        maxHeightReached (refs r') = vy (getPoint curve 0))) /\
  (Store.isLooped s = false -> world r' = Store.stopRide (world r)).
Proof.
  intros (Hriding & Hcurve & Hne & Hsample) Hadv. cbv zeta.
  unfold rideTick. rewrite Hcurve, Hriding.
  replace (Nat.eqb (List.length (memoSections memo)) 0) with false
    by (destruct (memoSections memo); [congruence | reflexivity]).
  cbn [negb orb].
  destruct (sampleHybridTrack (Store.rideProgress (Store.state (world r))) _ _ _ _ _)
    as [currentSample|] eqn:Ecur; [|congruence].
  apply Rleb_true in Hadv.
  split; intros Hl; rewrite Hl in *; cbn [negb andb].
  - destruct (climbing memo (Store.state (world r))) eqn:Eclimb;
      rewrite Hadv; cbn [andb];
      match goal with
      | |- context [match sampleHybridTrack ?p ?a ?b ?c ?d ?e with _ => _ end] =>
          destruct (sampleHybridTrack p a b c d e)
      end;
      (split; [reflexivity|]; split; [exact Hriding|];
       split; [reflexivity|];
       intros Hc; rewrite Hc in *; cbn [andb]; reflexivity).
  - destruct (climbing memo (Store.state (world r)));
      rewrite Hadv; cbn [andb]; reflexivity.
Qed.

Lemma lineRideWorld_fields :
  let s := Store.state lineRideWorld in
  Store.isRiding s = true /\ Store.mode s = ride /\
  Store.rideProgress s = 0.95 /\ Store.rideSpeed s = 1 /\
  Store.hasChainLift s = true /\ Store.isLooped s = false /\
  Store.trackPoints s = lineTrack /\ Store.loopSegments s = [].
Proof. cbv zeta. repeat split. Qed.

Lemma lineRide_advancedProgress :
  advancedProgress lineMemo 0.05 (Store.state lineRideWorld) = 1.01.
Proof.
  unfold advancedProgress, tickSpeed, climbing.
  destruct lineRideWorld_fields as (_ & _ & Hp & Hs & Hc & _).
  cbv zeta in Hp, Hs, Hc. rewrite Hp, Hs, Hc.
  cbn [lineMemo firstPeakProgress totalArcLength andb].
  rewrite (Rltb_ge 0.95 0.2) by lra. lra.
Qed.

Lemma lineRide_runs : tickRuns lineMemo lineRide lineCurve.
Proof.
  unfold tickRuns. cbv zeta.
  split; [reflexivity|]. split; [reflexivity|].
  split; [discriminate|].
  cbn [lineMemo memoSections].
  destruct (sampleHybridTrack_some
              (Store.rideProgress (Store.state (world lineRide)))
              lineSections lineCurve
              (Store.loopSegments (Store.state (world lineRide)))
              (Store.trackPoints (Store.state (world lineRide)))
              (Store.isLooped (Store.state (world lineRide)))
              ltac:(discriminate) lineSections_complete)
    as (sec & smp & _ & _ & Hs).
  rewrite Hs. discriminate.
Qed.

(** C5 (as stated, refuted). On the straight open track, a tick that
    carries the progress from 0.95 past 1 does not leave the progress
    at 0.95: [stopRide] sets it back to 0. *)
Lemma C5_counterexample :
  Store.isLooped (Store.state (world lineRide)) = false /\
  1 <= advancedProgress lineMemo 0.05 (Store.state (world lineRide)) /\
  Store.rideProgress (Store.state (world lineRide)) = 0.95 /\
  Store.rideProgress (Store.state (world (rideTick lineMemo 0.05 lineRide))) = 0 /\
  Store.rideProgress (Store.state (world (rideTick lineMemo 0.05 lineRide)))
  <> Store.rideProgress (Store.state (world lineRide)).
Proof.
  assert (Hadv : 1 <= advancedProgress lineMemo 0.05
                        (Store.state (world lineRide)))
    by (cbn [world lineRide]; rewrite lineRide_advancedProgress; lra).
  destruct (rideTick_at_end lineMemo 0.05 lineRide lineCurve lineRide_runs Hadv)
    as [_ Hopen].
  cbv zeta in Hopen. rewrite (Hopen eq_refl).
  split; [reflexivity|]. split; [exact Hadv|]. split; [reflexivity|].
  split; [reflexivity|].
  cbn [Store.stopRide Store.withState Store.state Store.setRide
       Store.rideProgress].
  change (Store.rideProgress (Store.state (world lineRide))) with 0.95. lra.
Qed.

(** C5 (amended). When a tick advances the progress to a value >= 1:
    on a closed path the progress wraps to its remainder modulo 1 and
    the ride goes on, and if the chain lift is enabled the climb-height
    tracker is reset to the height of the path's start; on an open path
    the ride is stopped by [stopRide], which leaves riding mode and
    resets the progress to 0. *)
Theorem C5_tick_at_end_of_path
    (memo : RideMemo) (delta : R) (r : Ride) (curve : Curve) :
  tickRuns memo r curve ->
  1 <= advancedProgress memo delta (Store.state (world r)) ->
  let s := Store.state (world r) in
  let r' := rideTick memo delta r in
  let s' := Store.state (world r') in
  (Store.isLooped s = true ->
     Store.rideProgress s' = remainderOne (advancedProgress memo delta s) /\
     0 <= Store.rideProgress s' < 1 /\
     Store.isRiding s' = true /\
     (Store.hasChainLift s = true ->
        maxHeightReached (refs r') = vy (getPoint curve 0))) /\
  (Store.isLooped s = false ->
     Store.isRiding s' = false /\ Store.mode s' = build /\
     Store.rideProgress s' = 0).
Proof.
  intros Hruns Hadv. cbv zeta.
  destruct (rideTick_at_end memo delta r curve Hruns Hadv) as [Hclosed Hopen].
  cbv zeta in Hclosed, Hopen. split; intros Hl.
  - destruct (Hclosed Hl) as (Hp & Hr & _ & Hh).
    split; [exact Hp|]. split; [| split; [exact Hr | exact Hh]].
    rewrite Hp. apply remainderOne_range. lra.
  - rewrite (Hopen Hl). apply stopRide_state.
Qed.

Lemma C5_witness :
  tickRuns lineMemo lineRide lineCurve /\
  1 <= advancedProgress lineMemo 0.05 (Store.state (world lineRide)) /\
  (Store.isLooped (Store.state (world lineRide)) = false ->
   Store.isRiding (Store.state (world (rideTick lineMemo 0.05 lineRide))) = false
   /\ Store.mode (Store.state (world (rideTick lineMemo 0.05 lineRide))) = build
   /\ Store.rideProgress (Store.state (world (rideTick lineMemo 0.05 lineRide)))
      = 0).
Proof.
  assert (Hadv : 1 <= advancedProgress lineMemo 0.05
                        (Store.state (world lineRide)))
    by (cbn [world lineRide]; rewrite lineRide_advancedProgress; lra).
  split; [exact lineRide_runs | split; [exact Hadv |]].
  exact (proj2 (C5_tick_at_end_of_path lineMemo 0.05 lineRide lineCurve
                  lineRide_runs Hadv)).
Defined.

(* ================================================================== *)
(** * Removing a track point that carries a loop *)
(* ================================================================== *)

Lemma removeTrackPoint_keeps_loopSegments (id : string) (w : Store.World) :
  Store.loopSegments (Store.state (Store.removeTrackPoint id w))
  = Store.loopSegments (Store.state w).
Proof. reflexivity. Qed.

Lemma removeTrackPoint_removes_point (id : string) (w : Store.World) :
  forall p, In p (Store.trackPoints (Store.state (Store.removeTrackPoint id w))) ->
            TrackPoint.id p <> id.
Proof.
  intros p Hin. cbn in Hin. apply filter_In in Hin. destruct Hin as [_ H].
  intros E. rewrite E, String.eqb_refl in H. discriminate.
Qed.

(** [clearTrack] empties the loop segments together with the points. *)
Lemma clearTrack_clears_loops (w : Store.World) :
  Store.trackPoints (Store.state (Store.clearTrack w)) = [] /\
  Store.loopSegments (Store.state (Store.clearTrack w)) = [].
Proof. split; reflexivity. Qed.

(** Every action of the editor other than [removeTrackPoint] keeps the
    loop entries live. *)
Lemma initialWorld_entries_live stored :
  loopEntriesLive (Store.state (Store.initialWorld stored)).
Proof. intros seg []. Qed.

Lemma addTrackPoint_entries_live position w :
  loopEntriesLive (Store.state w) ->
  loopEntriesLive (Store.state (Store.addTrackPoint position w)).
Proof.
  intros H seg Hin. cbn in Hin. destruct (H seg Hin) as (p & Hp & Hid).
  exists p. split; [| exact Hid]. cbn. apply in_or_app. left. exact Hp.
Qed.

Lemma map_keeps_ids (f : TrackPoint.t -> TrackPoint.t) (pts : list TrackPoint.t) :
  (forall p, TrackPoint.id (f p) = TrackPoint.id p) ->
  forall id, (exists p, In p pts /\ TrackPoint.id p = id) ->
             exists p, In p (map f pts) /\ TrackPoint.id p = id.
Proof.
  intros Hf id (p & Hin & Hid). exists (f p). split.
  - apply in_map, Hin.
  - rewrite Hf. exact Hid.
Qed.

Lemma updateTrackPoint_entries_live id position w :
  loopEntriesLive (Store.state w) ->
  loopEntriesLive (Store.state (Store.updateTrackPoint id position w)).
Proof.
  intros H seg Hin. cbn in Hin. cbn. apply map_keeps_ids.
  - intros p. destruct (String.eqb (TrackPoint.id p) id); reflexivity.
  - exact (H seg Hin).
Qed.

Lemma updateTrackPointTilt_entries_live id tilt w :
  loopEntriesLive (Store.state w) ->
  loopEntriesLive (Store.state (Store.updateTrackPointTilt id tilt w)).
Proof.
  intros H seg Hin. cbn in Hin. cbn. apply map_keeps_ids.
  - intros p. destruct (String.eqb (TrackPoint.id p) id); reflexivity.
  - exact (H seg Hin).
Qed.

Lemma clearTrack_entries_live w :
  loopEntriesLive (Store.state (Store.clearTrack w)).
Proof. intros seg []. Qed.

Lemma createLoopAtPoint_entries_live now id w :
  loopEntriesLive (Store.state w) ->
  loopEntriesLive (Store.state (Store.createLoopAtPoint now id w)).
Proof.
  intros H. unfold Store.createLoopAtPoint.
  destruct (find _ _) as [entryPoint|] eqn:Ef; [| exact H].
  destruct (TrackPoint.hasLoop entryPoint) as [[|]|]; try exact H.
  all: intros seg Hin; cbn in Hin; cbn; apply map_keeps_ids;
    [ intros p; destruct (String.eqb (TrackPoint.id p) id); reflexivity | ];
    apply in_app_or in Hin; destruct Hin as [Hin | [<- | []]];
    [ exact (H seg Hin)
    | apply find_some in Ef; destruct Ef as [Hp He];
      apply String.eqb_eq in He; exists entryPoint; split; assumption ].
Qed.

Lemma loopWorld_entries_live : loopEntriesLive (Store.state loopWorld).
Proof.
  apply createLoopAtPoint_entries_live, addTrackPoint_entries_live,
    addTrackPoint_entries_live, initialWorld_entries_live.
Qed.

(** C6 (the code at the failing input). After [removeTrackPoint] of the
    first point of the looped straight track, the loop segment created
    at that point is still in the store, and no track point has the id
    it names as its entry: the invariant that held before the removal
    is broken. *)
Theorem C6_removeTrackPoint_leaves_dangling_loop :
  let w' := Store.removeTrackPoint (Store.pointId 1) loopWorld in
  loopEntriesLive (Store.state loopWorld) /\
  Store.loopSegments (Store.state w') = [loopSegment1] /\
  LoopSegment.entryPointId loopSegment1 = Store.pointId 1 /\
  (forall p, In p (Store.trackPoints (Store.state w')) ->
             TrackPoint.id p <> Store.pointId 1) /\
  ~ loopEntriesLive (Store.state w').
Proof.
  cbv zeta. destruct loopWorld_track as [Ht Hl].
  split; [exact loopWorld_entries_live|].
  split; [rewrite removeTrackPoint_keeps_loopSegments; exact Hl|].
  split; [reflexivity|].
  split; [apply removeTrackPoint_removes_point|].
  intros Hlive. destruct (Hlive loopSegment1) as (p & Hin & Hid).
  - rewrite removeTrackPoint_keeps_loopSegments, Hl. left. reflexivity.
  - exact (removeTrackPoint_removes_point _ _ p Hin Hid).
Qed.

(* ================================================================== *)
(** * Import of a saved coaster *)
(* ================================================================== *)

Lemma isFiniteNumber_true (v : Json.value) :
  Store.isFiniteNumber v = true -> exists r, v = Json.JNum (Json.Finite r).
Proof.
  destruct v as [| | n | | |]; simpl; try discriminate.
  destruct n; simpl; try discriminate. intros _. eexists. reflexivity.
Qed.

Lemma validTrackPoint_meets (pt : Json.value) :
  Store.validTrackPoint pt = true -> pointMeetsSchema pt.
Proof.
  unfold Store.validTrackPoint. rewrite !andb_true_iff.
  intros ((((((_ & _) & Hlen) & Hfin) & Htilt) & Hid) & _).
  unfold pointMeetsSchema.
  destruct (Json.prop pt "position") as [[| | | | items |]|]; try discriminate.
  destruct items as [|a [|b [|c [|d rest]]]]; try discriminate.
  simpl in Hfin. rewrite !andb_true_iff in Hfin.
  destruct Hfin as (Ha & Hb & Hc & _).
  apply isFiniteNumber_true in Ha, Hb, Hc.
  destruct Ha as [x ->], Hb as [y ->], Hc as [z ->].
  destruct (Json.prop pt "tilt") as [[| | tilt | | |]|]; try discriminate.
  destruct (Json.prop pt "id") as [[| | | id | |]|]; try discriminate.
  exists x, y, z, tilt, id. repeat split; reflexivity.
Qed.

Lemma trim_nonempty (s : string) : Json.trim s <> EmptyString -> s <> EmptyString.
Proof. intros H E. subst s. apply H. reflexivity. Qed.

(** Whatever passes the checks of [importCoaster] meets the schema's
    clauses on the name and on the position, tilt and id of the
    points. *)
Lemma validateCoaster_meets (coaster : Json.value) name pts :
  Store.validateCoaster coaster = Some (name, pts) ->
  meetsImportSchema (Some coaster) /\
  Json.prop coaster "trackPoints" = Some (Json.JArr pts) /\
  exists raw, Json.prop coaster "name" = Some (Json.JStr raw) /\
              name = Json.trim raw.
Proof.
  unfold Store.validateCoaster.
  destruct (negb _); [discriminate|].
  destruct (Json.prop coaster "name") as [[| | | raw | |]|] eqn:En;
    try discriminate.
  destruct (String.eqb (Json.trim raw) EmptyString) eqn:Et; [discriminate|].
  destruct (Json.prop coaster "trackPoints") as [[| | | | pts0 |]|] eqn:Ep;
    try discriminate.
  destruct (forallb Store.validTrackPoint pts0) eqn:Ef; [|discriminate].
  intros H. injection H as <- <-.
  split; [| split; [first [exact Ep | reflexivity]
                   | exists raw; split; first [exact En | reflexivity]]].
  exists coaster, raw, pts0. split; [reflexivity|].
  split; [first [exact En | reflexivity]|].
  split.
  - apply trim_nonempty. intros E. rewrite E in Et. discriminate.
  - split; [first [exact Ep | reflexivity]|].
    rewrite forallb_forall in Ef. apply List.Forall_forall.
    intros pt Hin. apply validTrackPoint_meets, Ef, Hin.
Qed.


Lemma isArrayOfLength_3 (v : Json.jsval) :
  Json.isArrayOfLength v 3 = true <-> isTriple v.
Proof.
  unfold isTriple. split.
  - destruct v as [[| | | | items |]|]; try discriminate.
    destruct items as [|a [|b [|c [|d rest]]]]; try discriminate.
    intros _. exists a, b, c. reflexivity.
  - intros (a & b & c & ->). reflexivity.
Qed.

Lemma typeofNumber_isNumber (v : Json.jsval) :
  Json.typeofNumber v = true <-> isNumber v.
Proof.
  unfold isNumber. split.
  - destruct v as [[| | n | | |]|]; try discriminate. intros _. eexists. reflexivity.
  - intros (n & ->). reflexivity.
Qed.

Lemma validLoopMeta_spec (lm : Json.value) :
  Store.validLoopMeta lm = true <->
  isTriple (Json.prop lm "entryPos") /\ isTriple (Json.prop lm "forward") /\
  isTriple (Json.prop lm "up") /\ isTriple (Json.prop lm "right") /\
  isNumber (Json.prop lm "radius") /\ isNumber (Json.prop lm "theta").
Proof.
  unfold Store.validLoopMeta. rewrite !andb_true_iff, !isArrayOfLength_3,
    !typeofNumber_isNumber. tauto.
Qed.

Lemma validTrackPoint_spec (pt : Json.value) :
  Store.validTrackPoint pt = true <->
  pointMeetsSchema pt /\ loopMetaWellFormed pt.
Proof.
  split.
  - intros H. split; [apply validTrackPoint_meets, H|].
    unfold Store.validTrackPoint in H. rewrite !andb_true_iff in H.
    destruct H as (_ & Hlm). intros lm E Ht. rewrite E, Ht in Hlm.
    apply validLoopMeta_spec, Hlm.
  - intros [(x & y & z & tilt & id & Hpos & Htilt & Hid) Hlm].
    unfold Store.validTrackPoint. rewrite Hpos, Htilt, Hid.
    assert (Hl : match Json.prop pt "loopMeta" with
                 | Some lm => if Json.toBoolean (Some lm)
                              then Store.validLoopMeta lm else true
                 | None => true
                 end = true).
    { destruct (Json.prop pt "loopMeta") as [lm|] eqn:E; [|reflexivity].
      destruct (Json.toBoolean (Some lm)) eqn:Et; [|reflexivity].
      apply validLoopMeta_spec, (Hlm lm E Et). }
    rewrite Hl.
    destruct pt as [| | | | |members]; try discriminate Hpos.
    reflexivity.
Qed.

Lemma validateCoaster_spec (coaster : Json.value) :
  is_Some (Store.validateCoaster coaster) <-> importable (Some coaster).
Proof.
  split.
  - intros [[name pts] H]. pose proof H as H0.
    apply validateCoaster_meets in H0.
    destruct H0 as (_ & Hpts & raw & Hname & ->).
    unfold Store.validateCoaster in H. rewrite Hname, Hpts in H.
    destruct (negb _); [discriminate|].
    destruct (String.eqb (Json.trim raw) EmptyString) eqn:Et; [discriminate|].
    destruct (forallb Store.validTrackPoint pts) eqn:Ef; [|discriminate].
    exists coaster, raw, pts. repeat split; try assumption.
    + apply String.eqb_neq, Et.
    + rewrite forallb_forall in Ef. apply List.Forall_forall.
      intros pt Hin. apply validTrackPoint_spec, Ef, Hin.
  - intros (c & name & pts & Hc & Hname & Htrim & Hpts & Hall).
    injection Hc as <-. unfold Store.validateCoaster.
    rewrite Hname, Hpts.
    destruct coaster as [| | | | |members]; try discriminate Hname.
    cbn [Json.toBoolean Json.typeofObject andb negb].
    apply String.eqb_neq in Htrim. rewrite Htrim.
    replace (forallb Store.validTrackPoint pts) with true; [eexists; reflexivity|].
    symmetry. apply forallb_forall. intros pt Hin.
    apply validTrackPoint_spec. rewrite List.Forall_forall in Hall.
    apply Hall, Hin.
Qed.


Lemma name_not_nonempty_string_violates (coaster : Json.value) :
  (forall s, Json.prop coaster "name" = Some (Json.JStr s) -> s = EmptyString) ->
  ~ meetsImportSchema (Some coaster).
Proof.
  intros Hn (c & name & pts & Hc & Hname & Hne & _).
  injection Hc as <-. exact (Hne (Hn name Hname)).
Qed.






(** The schema contains the clauses on the name and on the position,
    tilt and id of the track points. *)
Lemma interchangeSchema_core (parsed : option Json.value) :
  meetsInterchangeSchema parsed -> meetsImportSchema parsed.
Proof.
  intros (coaster & name & pts & segs & Hc & Hn & Hne & Hp & Hall & _).
  exists coaster, name, pts. repeat split; try assumption.
  eapply Forall_impl; [exact Hall|]. intros pt H. apply H.
Qed.






(** The elements of the loop descriptor's vectors are not looked at:
    an input with text in them violates the schema and is accepted. *)
Lemma coasterTextVectors_accepted :
  ~ meetsInterchangeSchema (Some coasterTextVectors) /\
  fst (Store.importCoaster 7 8 true (Some coasterTextVectors) loopWorld) = true.
Proof.
  split.
  - intros (coaster & name & pts & segs & Hc & _ & _ & Hp & Hall & _).
    injection Hc as <-. cbv in Hp. injection Hp as <-.
    apply Forall_cons in Hall as [(_ & _ & Hl) _].
    destruct (Hl _ "entryPos"
                (Json.JArr [Json.JStr "a"; Json.JStr "b"; Json.JStr "c"])
                eq_refl ltac:(left; reflexivity) eq_refl)
      as (a & b & c & E).
    discriminate.
  - unfold Store.importCoaster.
    assert (Hpt : Store.validTrackPoint pointTextVectors = true)
      by reflexivity.
    assert (Hv : Store.validateCoaster coasterTextVectors
                 = Some ("Big Dipper", [pointTextVectors])).
    { unfold Store.validateCoaster.
      cbn [Json.toBoolean Json.typeofObject andb negb coasterTextVectors].
      replace (Json.prop _ "name") with (Some (Json.JStr "Big Dipper"))
        by reflexivity.
      replace (Json.trim "Big Dipper") with "Big Dipper" by reflexivity.
      replace (Json.prop _ "trackPoints")
        with (Some (Json.JArr [pointTextVectors])) by reflexivity.
      cbn [forallb]. rewrite Hpt. reflexivity. }
    rewrite Hv. reflexivity.
Qed.



(** An accepted import appends exactly the coaster it built, to the
    store's list and (through JSON) to the stored item. *)
Lemma importCoaster_accepted nowId nowTs writable coaster w w' :
  Store.importCoaster nowId nowTs writable (Some coaster) w = (true, w') ->
  exists name pts,
    Store.validateCoaster coaster = Some (name, pts) /\
    let c := Store.buildValidCoaster nowId nowTs coaster name pts in
    Store.savedCoasters (Store.state w') = Store.loadSavedCoasters w ++ [c] /\
    Store.localStorage w'
    = Some (map SavedCoaster.roundTrip (Store.loadSavedCoasters w ++ [c])).
Proof.
  unfold Store.importCoaster.
  destruct (Store.validateCoaster coaster) as [[name pts]|]; [|discriminate].
  destruct writable; [|discriminate].
  intros H. injection H as <-. exists name, pts.
  split; [reflexivity|]. split; reflexivity.
Qed.

Lemma notStrictlyFalse_false (v : Json.jsval) :
  Json.notStrictlyFalse v = false <-> v = Some (Json.JBool false).
Proof.
  split.
  - destruct v as [[| [|] | | | |]|]; simpl; intros H; try discriminate.
    reflexivity.
  - intros ->. reflexivity.
Qed.

(** C9. On every successful import the stored coaster's [hasChainLift]
    is true unless the input's [hasChainLift] is exactly the boolean
    false, and [isLooped] and [showWoodSupports] are the [Boolean]
    coercions of the input's fields, false when the field is absent;
    the copy written to storage carries the same flags. *)
Theorem C9_import_flag_defaults
    (nowId nowTs : N) (writable : bool) (coaster : Json.value)
    (w w' : Store.World) :
  Store.importCoaster nowId nowTs writable (Some coaster) w = (true, w') ->
  exists c,
    Store.savedCoasters (Store.state w') = Store.loadSavedCoasters w ++ [c] /\
    Store.localStorage w'
    = Some (map SavedCoaster.roundTrip (Store.loadSavedCoasters w ++ [c])) /\
    (SavedCoaster.hasChainLift c = false <->
     Json.prop coaster "hasChainLift" = Some (Json.JBool false)) /\
    (Json.prop coaster "hasChainLift" <> Some (Json.JBool false) ->
     SavedCoaster.hasChainLift c = true) /\
    SavedCoaster.isLooped c = Json.toBoolean (Json.prop coaster "isLooped") /\
    SavedCoaster.showWoodSupports c
    = Json.toBoolean (Json.prop coaster "showWoodSupports") /\
    (Json.prop coaster "isLooped" = None -> SavedCoaster.isLooped c = false) /\
    (Json.prop coaster "showWoodSupports" = None ->
     SavedCoaster.showWoodSupports c = false) /\
    SavedCoaster.hasChainLift (SavedCoaster.roundTrip c)
    = SavedCoaster.hasChainLift c /\
    SavedCoaster.isLooped (SavedCoaster.roundTrip c) = SavedCoaster.isLooped c /\
    SavedCoaster.showWoodSupports (SavedCoaster.roundTrip c)
    = SavedCoaster.showWoodSupports c.
Proof.
  intros H.
  destruct (importCoaster_accepted _ _ _ _ _ _ H) as (name & pts & _ & Hs & Hl).
  cbv zeta in Hs, Hl.
  exists (Store.buildValidCoaster nowId nowTs coaster name pts).
  split; [exact Hs|]. split; [exact Hl|].
  cbn [Store.buildValidCoaster SavedCoaster.hasChainLift SavedCoaster.isLooped
       SavedCoaster.showWoodSupports SavedCoaster.roundTrip].
  split; [apply notStrictlyFalse_false|].
  split.
  { intros Hne. destruct (Json.notStrictlyFalse _) eqn:E; [reflexivity|].
    apply notStrictlyFalse_false in E. contradiction. }
  split; [reflexivity|]. split; [reflexivity|].
  split; [intros ->; reflexivity|].
  split; [intros ->; reflexivity|].
  repeat split.
Qed.

Lemma coasterBareLoop_valid :
  Store.validateCoaster coasterBareLoop = Some ("Big Dipper", [goodPoint]).
Proof. reflexivity. Qed.

Lemma coasterBareLoop_accepted :
  Store.importCoaster 7 8 true (Some coasterBareLoop) loopWorld
  = (true,
     Store.mkWorld
       (Store.setSavedCoasters (Store.state loopWorld)
          [Store.buildValidCoaster 7 8 coasterBareLoop "Big Dipper" [goodPoint]])
       (Store.pointCounter loopWorld)
       (Some [SavedCoaster.roundTrip
                (Store.buildValidCoaster 7 8 coasterBareLoop "Big Dipper"
                   [goodPoint])])).
Proof.
  unfold Store.importCoaster. rewrite coasterBareLoop_valid. reflexivity.
Qed.

Lemma C9_witness :
  exists w',
    Store.importCoaster 7 8 true (Some coasterBareLoop) loopWorld = (true, w') /\
    exists c,
      Store.savedCoasters (Store.state w')
      = Store.loadSavedCoasters loopWorld ++ [c] /\
      SavedCoaster.hasChainLift c = true /\ SavedCoaster.isLooped c = false.
Proof.
  eexists. split; [exact coasterBareLoop_accepted|].
  destruct (C9_import_flag_defaults 7 8 true coasterBareLoop loopWorld _
              coasterBareLoop_accepted)
    as (c & Hs & _ & _ & Hc & _ & _ & Hl & _).
  exists c. split; [exact Hs|]. split.
  - apply Hc. discriminate.
  - apply Hl. reflexivity.
Defined.

Lemma coasterNullLoops_accepted :
  Store.importCoaster 7 8 true (Some coasterNullLoops) loopWorld
  = (true,
     Store.mkWorld
       (Store.setSavedCoasters (Store.state loopWorld)
          [Store.buildValidCoaster 7 8 coasterNullLoops "Big Dipper" [goodPoint]])
       (Store.pointCounter loopWorld)
       (Some [SavedCoaster.roundTrip
                (Store.buildValidCoaster 7 8 coasterNullLoops "Big Dipper"
                   [goodPoint])])).
Proof.
  unfold Store.importCoaster.
  replace (Store.validateCoaster coasterNullLoops)
    with (Some ("Big Dipper"%string, [goodPoint])) by reflexivity.
  reflexivity.
Qed.

(** C10 (as stated, refuted in its last clause). An input whose
    [loopSegments] member is present and [null] is accepted, and what
    is stored is the empty array, not the member as it is: the empty
    array is substituted although the field is not absent. *)
Lemma C10_counterexample :
  exists w' c,
    Store.importCoaster 7 8 true (Some coasterNullLoops) loopWorld = (true, w') /\
    Store.savedCoasters (Store.state w') = [c] /\
    Json.prop coasterNullLoops "loopSegments" = Some Json.JNull /\
    SavedCoaster.loopSegments c = Json.JArr [] /\
    SavedCoaster.loopSegments c <> Json.JNull.
Proof.
  eexists. eexists. split; [exact coasterNullLoops_accepted|].
  split; [reflexivity|]. split; [reflexivity|]. split; [reflexivity|].
  discriminate.
Qed.

Lemma loopSegmentsOrEmpty_spec (coaster : Json.value) :
  (forall v, Json.prop coaster "loopSegments" = Some v ->
             Json.toBoolean (Some v) = true ->
             Store.loopSegmentsOrEmpty coaster = v) /\
  (forall v, Json.prop coaster "loopSegments" = Some v ->
             Json.toBoolean (Some v) = false ->
             Store.loopSegmentsOrEmpty coaster = Json.JArr []) /\
  (Json.prop coaster "loopSegments" = None ->
   Store.loopSegmentsOrEmpty coaster = Json.JArr []).
Proof.
  unfold Store.loopSegmentsOrEmpty.
  repeat split; [intros v -> -> | intros v -> -> | intros ->]; reflexivity.
Qed.

(** C10 (amended). There is an input accepted by [importCoaster] whose
    [loopSegments] entry has no numeric radius, no numeric pitch and no
    string entryPointId; and for every accepted input the stored
    [loopSegments] is the input's member as it is when that member is
    truthy, and the empty array when the member is absent or falsy
    (null, false, 0, the empty string). *)
Theorem C10_import_stores_loopSegments_unvalidated :
  (exists w' c entry,
      Store.importCoaster 7 8 true (Some coasterBareLoop) loopWorld
      = (true, w') /\
      Store.savedCoasters (Store.state w') = [c] /\
      SavedCoaster.loopSegments c = Json.JArr [entry] /\
      Json.typeofNumber (Json.prop entry "radius") = false /\
      Json.typeofNumber (Json.prop entry "pitch") = false /\
      Json.typeofString (Json.prop entry "entryPointId") = false) /\
  (forall nowId nowTs writable coaster w w',
      Store.importCoaster nowId nowTs writable (Some coaster) w = (true, w') ->
      exists c,
        Store.savedCoasters (Store.state w') = Store.loadSavedCoasters w ++ [c] /\
        (forall v, Json.prop coaster "loopSegments" = Some v ->
                   Json.toBoolean (Some v) = true ->
                   SavedCoaster.loopSegments c = v) /\
        (forall v, Json.prop coaster "loopSegments" = Some v ->
                   Json.toBoolean (Some v) = false ->
                   SavedCoaster.loopSegments c = Json.JArr []) /\
        (Json.prop coaster "loopSegments" = None ->
         SavedCoaster.loopSegments c = Json.JArr [])).
Proof.
  split.
  - eexists. eexists. exists (Json.JObj []).
    split; [exact coasterBareLoop_accepted|].
    repeat split; reflexivity.
  - intros nowId nowTs writable coaster w w' H.
    destruct (importCoaster_accepted _ _ _ _ _ _ H) as (name & pts & _ & Hs & _).
    cbv zeta in Hs.
    exists (Store.buildValidCoaster nowId nowTs coaster name pts).
    split; [exact Hs|]. exact (loopSegmentsOrEmpty_spec coaster).
Qed.

Lemma C10_witness :
  exists w',
    Store.importCoaster 7 8 true (Some coasterNullLoops) loopWorld = (true, w') /\
    exists c,
      Store.savedCoasters (Store.state w')
      = Store.loadSavedCoasters loopWorld ++ [c] /\
      SavedCoaster.loopSegments c = Json.JArr [].
Proof.
  eexists. split; [exact coasterNullLoops_accepted|].
  destruct (proj2 C10_import_stores_loopSegments_unvalidated 7%N 8%N true
              coasterNullLoops loopWorld _ coasterNullLoops_accepted)
    as (c & Hs & _ & Hfalsy & _).
  exists c. split; [exact Hs|].
  apply (Hfalsy Json.JNull); reflexivity.
Defined.


(* ================================================================== *)
(** * Further properties: the section table *)
(* ================================================================== *)

(** X1. Every loop frame of the section table built for a track is an
    orthonormal basis with [right = forward x up], and its pitch is not
    zero, when the curve's tangent vanishes nowhere and no loop segment
    has zero pitch. *)
Theorem X1_built_loop_frames_orthonormal
    (CatmullRomCurve3 : list V3 -> bool -> Curve)
    (trackPoints : list TrackPoint.t) (loopSegments : list LoopSegment.t)
    (isLooped : bool) (s : TrackSection) (frame : BarrelRollFrame) :
  (forall t,
      lengthSq (getTangent
                  (CatmullRomCurve3 (map TrackPoint.position trackPoints)
                     isLooped) t) <> 0) ->
  (forall seg, In seg loopSegments -> LoopSegment.pitch seg <> 0) ->
  In s (trackSections CatmullRomCurve3 trackPoints loopSegments isLooped) ->
  rollFrame s = Some frame ->
  orthonormal (forward frame) (up frame) (right frame) /\ pitch frame <> 0.
Proof.
  intros Hnz Hpitch Hin Hf.
  exact (trackSections_frames CatmullRomCurve3 trackPoints loopSegments
           isLooped Hnz Hpitch s frame Hin Hf).
Qed.

Lemma X1_witness :
  orthonormal (forward (scenarioFrame zero)) (up (scenarioFrame zero))
    (right (scenarioFrame zero)) /\
  pitch (scenarioFrame zero) <> 0.
Proof.
  apply (X1_built_loop_frames_orthonormal lineSpline loopTrack [loopSegment1]
           false
           (mkTrackSection roll (0 / (0 + loopArcLength + 10))
              ((0 + loopArcLength) / (0 + loopArcLength + 10)) loopArcLength
              (Some (scenarioFrame zero)) None None (Some 0%nat))).
  - exact lineCurve_tangent_nonzero.
  - intros seg [<- | []]. cbn [LoopSegment.pitch loopSegment1]. lra.
  - rewrite loopTrack_sections. left. reflexivity.
  - reflexivity.
Defined.


Lemma buildLoopMap_lookup_some (segs : list LoopSegment.t) (k : string) :
  is_Some (buildLoopMap segs !! k) <->
  existsb (fun seg => String.eqb (LoopSegment.entryPointId seg) k) segs = true.
Proof.
  unfold buildLoopMap.
  assert (G : forall (m : gmap string LoopSegment.t),
             is_Some (fold_left
                        (fun m seg => <[LoopSegment.entryPointId seg := seg]> m)
                        segs m !! k) <->
             is_Some (m !! k) \/
             existsb (fun seg => String.eqb (LoopSegment.entryPointId seg) k)
                     segs = true).
  { induction segs as [|seg rest IH]; intros m; cbn [fold_left existsb].
    - split; [tauto | intros [H|H]; [exact H | discriminate]].
    - rewrite IH. rewrite orb_true_iff.
      destruct (String.eqb (LoopSegment.entryPointId seg) k) eqn:E.
      + apply String.eqb_eq in E. rewrite E, lookup_insert_eq.
        split; intros _; [right; left; reflexivity | left; eexists; reflexivity].
      + apply String.eqb_neq in E. rewrite lookup_insert_ne by exact E.
        split; intros [H|H]; try tauto. destruct H as [H|H]; [discriminate|tauto]. }
  rewrite G, lookup_empty. split; [intros [[x H]|H]; [discriminate | exact H] | tauto].
Qed.

Lemma buildStep_length curve segs numPoints isLooped st i point :
  List.length (sections (buildStep curve (buildLoopMap segs) numPoints isLooped
                           st i point))
  = (List.length (sections st)
     + (if entersLoop segs point then 1 else 0)
     + (if (Nat.leb (numPoints - 1) i && negb isLooped)%bool then 0 else 1))%nat.
Proof.
  unfold buildStep, entersLoop.
  pose proof (buildLoopMap_lookup_some segs (TrackPoint.id point)) as Hs.
  destruct (buildLoopMap segs !! TrackPoint.id point) as [seg|] eqn:E.
  - replace (existsb _ segs) with true
      by (symmetry; apply Hs; eexists; reflexivity).
    destruct (Nat.leb (numPoints - 1) i && negb isLooped)%bool;
      cbn [sections]; rewrite ?length_app; cbn [List.length]; lia.
  - destruct (existsb _ segs) eqn:Ex.
    { destruct (proj2 Hs eq_refl) as [x Hx]. discriminate. }
    destruct (Nat.leb (numPoints - 1) i && negb isLooped)%bool;
      cbn [sections]; rewrite ?length_app; cbn [List.length]; lia.
Qed.

Lemma buildLoop_length curve segs numPoints isLooped points :
  forall st i, (i + List.length points = numPoints)%nat ->
  List.length (sections (buildLoop curve (buildLoopMap segs) numPoints isLooped
                           st i points))
  = (List.length (sections st) + loopEntryCount segs points
     + (if isLooped then List.length points else List.length points - 1))%nat.
Proof.
  unfold loopEntryCount.
  induction points as [|p rest IH]; intros st i Hi; cbn [buildLoop].
  - cbn. destruct isLooped; lia.
  - rewrite IH by (cbn [List.length] in Hi; lia).
    rewrite buildStep_length. cbn [List.filter List.length] in *.
    destruct (entersLoop segs p); cbn [List.length];
      destruct isLooped; cbn [negb]; rewrite ?andb_false_r, ?andb_true_r;
      try lia.
    + destruct (Nat.leb (numPoints - 1) i) eqn:E;
        [apply Nat.leb_le in E | apply Nat.leb_gt in E]; lia.
    + destruct (Nat.leb (numPoints - 1) i) eqn:E;
        [apply Nat.leb_le in E | apply Nat.leb_gt in E]; lia.
Qed.

Lemma trackSections_length CatmullRomCurve3 trackPoints loopSegments isLooped :
  List.length (trackSections CatmullRomCurve3 trackPoints loopSegments isLooped)
  = if Nat.ltb (List.length trackPoints) 2 then 0%nat
    else (totalSplineSegmentsOf (List.length trackPoints) isLooped
          + loopEntryCount loopSegments trackPoints)%nat.
Proof.
  unfold trackSections, sectionsMemo, getTrackCurve.
  destruct (Nat.ltb (List.length trackPoints) 2); [reflexivity|].
  cbn [fst]. rewrite assignProgress_length. unfold buildSections.
  rewrite buildLoop_length by lia. cbn [sections List.length].
  unfold totalSplineSegmentsOf. lia.
Qed.

(** X2. The section table has one spline section per span of the curve
    (as many as points on a closed track, one fewer on an open one) and
    one loop section per track point that is the entry of a loop
    segment; a track of fewer than two points has no section. *)
Theorem X2_section_count
    (CatmullRomCurve3 : list V3 -> bool -> Curve)
    (trackPoints : list TrackPoint.t) (loopSegments : list LoopSegment.t)
    (isLooped : bool) :
  List.length (trackSections CatmullRomCurve3 trackPoints loopSegments isLooped)
  = if Nat.ltb (List.length trackPoints) 2 then 0%nat
    else ((if isLooped then List.length trackPoints
           else List.length trackPoints - 1)
          + loopEntryCount loopSegments trackPoints)%nat.
Proof. apply trackSections_length. Qed.

(* ================================================================== *)
(** * Further properties: the traversal driver *)
(* ================================================================== *)

(** X3. A tick keeps the progress in [0, 1): from a progress in that
    range and a step that does not go backwards, the progress the tick
    leaves in the store is again in the range, whether it advanced,
    wrapped, stopped the ride or did nothing.  The tick never edits the
    track. *)
Theorem X3_tick_keeps_progress_in_range
    (memo : RideMemo) (delta : R) (r : Ride) :
  let s := Store.state (world r) in
  let s' := Store.state (world (rideTick memo delta r)) in
  0 <= Store.rideProgress s < 1 ->
  0 <= tickSpeed memo s * delta / totalArcLength memo ->
  0 <= Store.rideProgress s' < 1 /\
  Store.trackPoints s' = Store.trackPoints s /\
  Store.loopSegments s' = Store.loopSegments s /\
  Store.isLooped s' = Store.isLooped s.
Proof.
  cbv zeta. intros Hp Hstep. unfold rideTick.
  destruct (curveRef (refs r)) as [curve|]; [|tauto].
  destruct (negb _ || _)%bool; [tauto|].
  destruct (sampleHybridTrack (Store.rideProgress _) _ _ _ _ _); [|tauto].
  assert (Hadv : 0 <= advancedProgress memo delta (Store.state (world r))).
  { unfold advancedProgress. lra. }
  destruct (Rleb 1 (advancedProgress memo delta (Store.state (world r))))
    eqn:E1.
  - destruct (Store.isLooped (Store.state (world r))) eqn:El;
      cbn [negb andb].
    + pose proof (remainderOne_range _ Hadv) as Hr.
      match goal with
      | |- context [match sampleHybridTrack ?p ?a ?b ?c ?d ?e with _ => _ end] =>
          destruct (sampleHybridTrack p a b c d e)
      end; cbn; rewrite ?El; tauto.
    + cbn. rewrite El. repeat split; lra.
  - apply Rleb_false in E1. cbn [andb].
    match goal with
    | |- context [match sampleHybridTrack ?p ?a ?b ?c ?d ?e with _ => _ end] =>
        destruct (sampleHybridTrack p a b c d e)
    end; cbn; repeat split; lra.
Qed.

Lemma lineRide_step :
  0 <= tickSpeed lineMemo (Store.state (world lineRide)) * 1
       / totalArcLength lineMemo.
Proof.
  unfold tickSpeed, climbing. cbn [lineRide world lineRideWorld].
  cbn -[Rltb]. destruct (Rltb _ _); lra.
Qed.

Lemma X3_witness :
  0 <= Store.rideProgress (Store.state (world (rideTick lineMemo 1 lineRide))) < 1.
Proof.
  apply (X3_tick_keeps_progress_in_range lineMemo 1 lineRide).
  - cbn. lra.
  - exact lineRide_step.
Defined.


(* ================================================================== *)
(** * Further properties: import *)
(* ================================================================== *)

(** X4. [importCoaster] returns true exactly when the store can be
    written and the parsed text is an object with a string [name] that
    is not empty once trimmed and an array [trackPoints] of points that
    each have a position of three finite numbers, a numeric tilt, a
    string id and, when a truthy [loopMeta] is there, a well-formed one.
    A name of white space only is therefore rejected. *)
Theorem X4_import_accepts_exactly
    (nowId nowTs : N) (storageWritable : bool) (parsed : option Json.value)
    (w : Store.World) :
  fst (Store.importCoaster nowId nowTs storageWritable parsed w) = true <->
  storageWritable = true /\ importable parsed.
Proof.
  unfold Store.importCoaster. destruct parsed as [coaster|].
  - pose proof (validateCoaster_spec coaster) as Hs.
    destruct (Store.validateCoaster coaster) as [[name pts]|].
    + destruct storageWritable; cbn [fst].
      * split; [intros _; split; [reflexivity | apply Hs; eexists; reflexivity]
               | reflexivity].
      * split; [discriminate | intros [H _]; discriminate].
    + cbn [fst]. split; [discriminate|]. intros [_ H].
      apply Hs in H. destruct H as [x H]. discriminate.
  - cbn [fst]. split; [discriminate|].
    intros [_ (c & _ & _ & H & _)]. discriminate.
Qed.

Lemma coasterBareLoop_importable : importable (Some coasterBareLoop).
Proof.
  apply validateCoaster_spec. rewrite coasterBareLoop_valid.
  eexists. reflexivity.
Qed.

Lemma X4_witness :
  fst (Store.importCoaster 7 8 true (Some coasterBareLoop) loopWorld) = true.
Proof.
  apply (proj2 (X4_import_accepts_exactly 7 8 true (Some coasterBareLoop)
                  loopWorld)).
  split; [reflexivity | exact coasterBareLoop_importable].
Defined.

(** A name of one no-break space is blank: the import refuses it. *)
Lemma blank_name_rejected :
  Json.trim noBreakSpace = EmptyString /\
  Store.importCoaster 7 8 true (Some coasterBlankName) loopWorld
  = (false, loopWorld).
Proof. split; reflexivity. Qed.


(* ================================================================== *)
(** * Further properties: the closed-form loop *)
(* ================================================================== *)

(** One coordinate of the loop's point, and its derivative. *)
Lemma roll_coordinate_derivative (e f r u rad pit t : R) :
  derivable_pt_lim
    (fun s => e + f * (pit * s) + r * (rad * (cos (theta s) - 1))
              + u * (rad * sin (theta s)))
    t
    (f * pit + r * (- rad * sin (theta t) * dThetaDt t)
     + u * (rad * cos (theta t) * dThetaDt t)).
Proof.
  pose proof (theta_derivative t) as Hth.
  pose proof (derivable_pt_lim_comp _ cos t _ _ Hth (derivable_pt_lim_cos _))
    as Hcos.
  pose proof (derivable_pt_lim_comp _ sin t _ _ Hth (derivable_pt_lim_sin _))
    as Hsin.
  pose proof (derivable_pt_lim_scal _ (r * rad) t _ Hcos) as Hc.
  pose proof (derivable_pt_lim_scal _ (u * rad) t _ Hsin) as Hs.
  pose proof (derivable_pt_lim_scal _ (f * pit) t _ (derivable_pt_lim_id t))
    as Hf.
  pose proof (derivable_pt_lim_const (e - r * rad) t) as He.
  pose proof (derivable_pt_lim_plus _ _ t _ _
                (derivable_pt_lim_plus _ _ t _ _
                   (derivable_pt_lim_plus _ _ t _ _ He Hf) Hc) Hs) as Hall.
  match type of Hall with
  | derivable_pt_lim _ _ ?l =>
      replace (f * pit + r * (- rad * sin (theta t) * dThetaDt t)
               + u * (rad * cos (theta t) * dThetaDt t)) with l by ring
  end.
  eapply derivable_pt_lim_ext; [| exact Hall].
  intros z. unfold plus_fct, mult_real_fct, fct_cte, comp, id. ring.
Qed.

(** X5. The tangent the loop sampler normalizes is the derivative of
    the loop's point with respect to the local parameter, coordinate by
    coordinate, at every parameter and for every frame. *)
Theorem X5_roll_tangent_is_derivative_of_point
    (frame : BarrelRollFrame) (t : R) :
  derivable_pt_lim (fun s => vx (rollPoint frame s)) t
                   (vx (rollTangentRaw frame t)) /\
  derivable_pt_lim (fun s => vy (rollPoint frame s)) t
                   (vy (rollTangentRaw frame t)) /\
  derivable_pt_lim (fun s => vz (rollPoint frame s)) t
                   (vz (rollTangentRaw frame t)).
Proof.
  unfold rollPoint, rollTangentRaw, addScaledVector, multiplyScalar, add.
  cbn [vx vy vz].
  repeat split.
  - eapply derivable_pt_lim_ext;
      [| apply (roll_coordinate_derivative
                  (vx (entryPos frame)) (vx (forward frame)) (vx (right frame))
                  (vx (up frame)) (radius frame) (pitch frame) t)].
    intros z. cbv beta. ring.
  - eapply derivable_pt_lim_ext;
      [| apply (roll_coordinate_derivative
                  (vy (entryPos frame)) (vy (forward frame)) (vy (right frame))
                  (vy (up frame)) (radius frame) (pitch frame) t)].
    intros z. cbv beta. ring.
  - eapply derivable_pt_lim_ext;
      [| apply (roll_coordinate_derivative
                  (vz (entryPos frame)) (vz (forward frame)) (vz (right frame))
                  (vz (up frame)) (radius frame) (pitch frame) t)].
    intros z. cbv beta. ring.
Qed.


(* ================================================================== *)
(** * Further properties: the arc length of a loop *)
(* ================================================================== *)

(** X6. The arc length computed for a loop lies between the larger of
    its forward travel |pitch| and its turn 2 pi |radius|, and their
    sum. *)
Theorem X6_roll_arc_length_bounds (radius pitch : R) :
  Rabs pitch <= computeRollArcLength radius pitch /\
  twoPi * Rabs radius <= computeRollArcLength radius pitch /\
  computeRollArcLength radius pitch <= Rabs pitch + twoPi * Rabs radius.
Proof. apply computeRollArcLength_bounds. Qed.


(* ================================================================== *)
(** * Further properties: where loops join the curve *)
(* ================================================================== *)

Lemma accumulateRollOffset_past spline loopMap total k off i rest :
  (k < i)%nat ->
  accumulateRollOffset spline loopMap total k off i rest = off.
Proof.
  intros H. destruct rest as [|p rest]; [reflexivity|].
  cbn [accumulateRollOffset].
  replace (Nat.leb i k) with false by (symmetry; apply Nat.leb_gt; lia).
  reflexivity.
Qed.

Lemma rollPoint_0 (frame : BarrelRollFrame) : rollPoint frame 0 = entryPos frame.
Proof.
  unfold rollPoint. rewrite theta_0, cos_0, sin_0.
  apply V3_eq; simpl; ring.
Qed.

Lemma rollPoint_1 (frame : BarrelRollFrame) :
  rollPoint frame 1
  = addScaledVector (entryPos frame) (forward frame) (pitch frame).
Proof.
  unfold rollPoint. rewrite theta_1. unfold twoPi.
  replace (PI * 2) with (2 * PI) by ring. rewrite cos_2PI, sin_2PI.
  apply V3_eq; simpl; ring.
Qed.

Section Joins.
Variable curve : Curve.
Variable loopMap : gmap string LoopSegment.t.
Variable numPoints : nat.
Variable isLooped : bool.
Variable trackPoints : list TrackPoint.t.

Lemma buildStep_joined st i point rest :
  joinInvariant curve loopMap (totalSplineSegmentsOf numPoints isLooped)
    trackPoints st i (point :: rest) ->
  joinInvariant curve loopMap (totalSplineSegmentsOf numPoints isLooped)
    trackPoints (buildStep curve loopMap numPoints isLooped st i point)
    (S i) rest.
Proof.
  intros (Ha & Hb & Hc).
  set (total := totalSplineSegmentsOf numPoints isLooped) in *.
  (* the state after the loop branch *)
  set (st1 :=
         match loopMap !! TrackPoint.id point with
         | Some loopSeg =>
             let rollFrame :=
               computeRollFrame curve (INR i / INR total) (prevTangent st)
                 (prevUp st) (LoopSegment.radius loopSeg)
                 (LoopSegment.pitch loopSeg) (rollOffset st) in
             mkBuildState
               (sections st
                ++ [mkTrackSection roll 0 0
                      (computeRollArcLength (LoopSegment.radius loopSeg)
                         (LoopSegment.pitch loopSeg))
                      (Some rollFrame) None None (Some i)])
               (accumulatedLength st
                + computeRollArcLength (LoopSegment.radius loopSeg)
                    (LoopSegment.pitch loopSeg))
               (addScaledVector (rollOffset st) (forward rollFrame)
                  (LoopSegment.pitch loopSeg))
               (forward rollFrame) (up rollFrame)
         | None => st
         end).
  assert (Hoff : forall k, (i <= k)%nat ->
             offsetThrough curve loopMap total k trackPoints
             = accumulateRollOffset curve loopMap total k (rollOffset st1)
                 (S i) rest).
  { intros k Hk. rewrite (Hb k Hk). cbn [accumulateRollOffset].
    replace (Nat.leb i k) with true by (symmetry; apply Nat.leb_le; exact Hk).
    unfold st1. destruct (loopMap !! TrackPoint.id point); reflexivity. }
  assert (Hthrough : rollOffset st1
                     = offsetThrough curve loopMap total i trackPoints).
  { rewrite (Hoff i (Nat.le_refl i)).
    symmetry. apply accumulateRollOffset_past. lia. }
  assert (H1 : Forall (sectionJoined curve loopMap total trackPoints)
                      (sections st1)).
  { unfold st1 in *. destruct (loopMap !! TrackPoint.id point) as [seg|];
      [|exact Hc].
    cbn [sections rollOffset] in *. apply Forall_app. split; [exact Hc|].
    constructor; [|constructor].
    exists i. split; [reflexivity|]. cbn [type rollFrame].
    eexists. split; [reflexivity|].
    cbn [computeRollFrame entryPos forward pitch]. split.
    - rewrite Ha. reflexivity.
    - rewrite <- Hthrough. apply V3_eq; simpl; ring. }
  assert (Hstep : buildStep curve loopMap numPoints isLooped st i point
                  = if (Nat.leb (numPoints - 1) i && negb isLooped)%bool
                    then st1
                    else mkBuildState
                           (sections st1
                            ++ [mkTrackSection spline 0 0
                                  (splineSegmentLength curve
                                     (INR i / INR total)
                                     (INR (i + 1) / INR total))
                                  None (Some (INR i / INR total))
                                  (Some (INR (i + 1) / INR total)) (Some i)])
                           (accumulatedLength st1
                            + splineSegmentLength curve (INR i / INR total)
                                (INR (i + 1) / INR total))
                           (rollOffset st1)
                           (normalize (getTangent curve (INR (i + 1) / INR total)))
                           (transportAcrossSpan (prevTangent st1)
                              (normalize
                                 (getTangent curve (INR (i + 1) / INR total)))
                              (prevUp st1))).
  { unfold buildStep, st1, total. reflexivity. }
  rewrite Hstep.
  destruct (Nat.leb (numPoints - 1) i && negb isLooped)%bool.
  - split; [exact Hthrough|]. split; [|exact H1].
    intros k Hk. apply Hoff. lia.
  - cbn [rollOffset sections]. split; [exact Hthrough|]. split.
    + intros k Hk. apply Hoff. lia.
    + apply Forall_app. split; [exact H1|].
      constructor; [|constructor].
      exists i. split; [reflexivity|]. cbn [type rollFrame splineStartT splineEndT].
      repeat split.
Qed.

Lemma buildLoop_joined points :
  forall st i,
    joinInvariant curve loopMap (totalSplineSegmentsOf numPoints isLooped)
      trackPoints st i points ->
    Forall (sectionJoined curve loopMap
              (totalSplineSegmentsOf numPoints isLooped) trackPoints)
           (sections (buildLoop curve loopMap numPoints isLooped st i points)).
Proof.
  induction points as [|p rest IH]; intros st i H; cbn [buildLoop].
  - exact (proj2 (proj2 H)).
  - apply IH, buildStep_joined, H.
Qed.

End Joins.

Lemma assignProgress_fields L (secs : list TrackSection) :
  forall run s,
    In s (assignProgress L run secs) ->
    exists s0, In s0 secs /\ type s = type s0 /\ rollFrame s = rollFrame s0 /\
               splineStartT s = splineStartT s0 /\
               splineEndT s = splineEndT s0 /\ pointIndex s = pointIndex s0.
Proof.
  induction secs as [|s0 rest IH]; intros run s H; simpl in H; [contradiction|].
  destruct H as [<- | H].
  - exists s0. split; [left; reflexivity | repeat split].
  - destruct (IH _ _ H) as (s1 & Hin & Hrest).
    exists s1. split; [right; exact Hin | exact Hrest].
Qed.

(** Every section of a built table sits where the sampler expects it. *)
Lemma trackSections_joined CatmullRomCurve3 trackPoints loopSegments isLooped s :
  In s (trackSections CatmullRomCurve3 trackPoints loopSegments isLooped) ->
  sectionJoined
    (CatmullRomCurve3 (map TrackPoint.position trackPoints) isLooped)
    (buildLoopMap loopSegments)
    (totalSplineSegmentsOf (List.length trackPoints) isLooped) trackPoints s.
Proof.
  intros Hin. unfold trackSections, sectionsMemo, getTrackCurve in Hin.
  destruct (Nat.ltb (List.length trackPoints) 2); [contradiction|].
  cbn [fst] in Hin. apply assignProgress_fields in Hin.
  destruct Hin as (s0 & Hin & Ht & Hf & Hs & He & Hi).
  unfold buildSections in Hin.
  pose proof (buildLoop_joined
                (CatmullRomCurve3 (map TrackPoint.position trackPoints) isLooped)
                (buildLoopMap loopSegments) (List.length trackPoints) isLooped
                trackPoints trackPoints
                (mkBuildState [] 0 zero
                   (initialTangent
                      (CatmullRomCurve3 (map TrackPoint.position trackPoints)
                         isLooped))
                   (initialUp
                      (CatmullRomCurve3 (map TrackPoint.position trackPoints)
                         isLooped))) 0%nat) as H.
  assert (H0 : Forall
                 (sectionJoined
                    (CatmullRomCurve3 (map TrackPoint.position trackPoints)
                       isLooped)
                    (buildLoopMap loopSegments)
                    (totalSplineSegmentsOf (List.length trackPoints) isLooped)
                    trackPoints)
                 (sections
                    (buildLoop
                       (CatmullRomCurve3 (map TrackPoint.position trackPoints)
                          isLooped)
                       (buildLoopMap loopSegments) (List.length trackPoints)
                       isLooped
                       (mkBuildState [] 0 zero
                          (initialTangent
                             (CatmullRomCurve3
                                (map TrackPoint.position trackPoints) isLooped))
                          (initialUp
                             (CatmullRomCurve3
                                (map TrackPoint.position trackPoints) isLooped)))
                       0 trackPoints))).
  { apply H. split; [reflexivity|]. split; [|constructor].
    intros k _. reflexivity. }
  rewrite List.Forall_forall in H0. specialize (H0 s0 Hin).
  unfold sectionJoined in *. rewrite Ht, Hf, Hs, He, Hi. exact H0.
Qed.


(** X7. Where a loop ends, the track goes on without a gap: the point
    the loop's closed form gives at the end of its progress range is the
    point the sampler gives at the start of the spline section of the
    same track point.  Both progress ranges are taken not to be empty,
    so that the local parameter (a quotient by the width of the range)
    is a number. *)
Theorem X7_loop_exit_meets_span
    (CatmullRomCurve3 : list V3 -> bool -> Curve)
    (trackPoints : list TrackPoint.t) (loopSegments : list LoopSegment.t)
    (isLooped : bool) (loopSec splineSec : TrackSection) :
  let curve := CatmullRomCurve3 (map TrackPoint.position trackPoints) isLooped in
  let table := trackSections CatmullRomCurve3 trackPoints loopSegments isLooped in
  In loopSec table -> In splineSec table ->
  type loopSec = roll -> type splineSec = spline ->
  pointIndex loopSec = pointIndex splineSec ->
  startProgress loopSec <> endProgress loopSec ->
  startProgress splineSec <> endProgress splineSec ->
  exists a b,
    sampleInSection (endProgress loopSec) loopSec curve loopSegments
      trackPoints isLooped = Some a /\
    sampleInSection (startProgress splineSec) splineSec curve loopSegments
      trackPoints isLooped = Some b /\
    point a = point b.
Proof.
  cbv zeta. intros HinR HinS HtR HtS Hidx HneR HneS.
  apply trackSections_joined in HinR, HinS.
  destruct HinR as (i & HiR & HR). destruct HinS as (i' & HiS & HS).
  rewrite HtR in HR. rewrite HtS in HS.
  destruct HR as (frame & Hf & _ & Hexit).
  destruct HS as (HfS & Hstart & Hend).
  assert (i' = i) by congruence. subst i'.
  unfold sampleInSection. rewrite HtR, Hf, HtS, Hstart, Hend, HiS.
  do 2 eexists. split; [reflexivity|]. split; [reflexivity|].
  cbn [point sampleBarrelRollAnalytically default].
  replace ((endProgress loopSec - startProgress loopSec)
           / (endProgress loopSec - startProgress loopSec)) with 1
    by (field; intros E; apply HneR; lra).
  rewrite rollPoint_1, Hexit. unfold offsetThrough.
  f_equal. f_equal. unfold Rdiv. ring.
Qed.

(** X8. Where a loop starts, the track arrives without a gap: the point
    the sampler gives at the end of the spline section of the preceding
    track point is the point the loop's closed form starts from (both
    progress ranges not empty, as for the exit). *)
Theorem X8_span_meets_loop_entry
    (CatmullRomCurve3 : list V3 -> bool -> Curve)
    (trackPoints : list TrackPoint.t) (loopSegments : list LoopSegment.t)
    (isLooped : bool) (splineSec loopSec : TrackSection) (j : nat) :
  let curve := CatmullRomCurve3 (map TrackPoint.position trackPoints) isLooped in
  let table := trackSections CatmullRomCurve3 trackPoints loopSegments isLooped in
  In splineSec table -> In loopSec table ->
  type splineSec = spline -> type loopSec = roll ->
  pointIndex splineSec = Some j -> pointIndex loopSec = Some (S j) ->
  startProgress splineSec <> endProgress splineSec ->
  startProgress loopSec <> endProgress loopSec ->
  exists a b,
    sampleInSection (endProgress splineSec) splineSec curve loopSegments
      trackPoints isLooped = Some a /\
    sampleInSection (startProgress loopSec) loopSec curve loopSegments
      trackPoints isLooped = Some b /\
    point a = point b.
Proof.
  cbv zeta. intros HinS HinR HtS HtR HjS HjR HneS HneR.
  apply trackSections_joined in HinR, HinS.
  destruct HinR as (i & HiR & HR). destruct HinS as (i' & HiS & HS).
  rewrite HtR in HR. rewrite HtS in HS.
  destruct HR as (frame & Hf & Hentry & _).
  destruct HS as (HfS & Hstart & Hend).
  assert (i' = j) by congruence. assert (i = S j) by congruence. subst i' i.
  unfold sampleInSection. rewrite HtR, Hf, HtS, Hstart, Hend, HiS.
  do 2 eexists. split; [reflexivity|]. split; [reflexivity|].
  cbn [point sampleBarrelRollAnalytically default].
  replace ((startProgress loopSec - startProgress loopSec)
           / (endProgress loopSec - startProgress loopSec)) with 0
    by (unfold Rdiv; ring).
  replace ((endProgress splineSec - startProgress splineSec)
           / (endProgress splineSec - startProgress splineSec)) with 1
    by (field; intros E; apply HneS; lra).
  rewrite rollPoint_0, Hentry. unfold offsetBefore, offsetThrough.
  replace (j + 1)%nat with (S j) by lia.
  f_equal. f_equal. unfold Rdiv. ring.
Qed.


(** Distinct counters give distinct point ids. *)
Lemma pointId_inj (a b : nat) : Store.pointId a = Store.pointId b -> a = b.
Proof.
  unfold Store.pointId. intros H.
  apply (inj (String.app "point-")) in H.
  apply (inj pretty) in H. exact H.
Qed.


Lemma transportAcrossSpan_line :
  transportAcrossSpan (mkV3 1 0 0) (mkV3 1 0 0) (mkV3 0 1 0) = mkV3 0 1 0.
Proof.
  unfold transportAcrossSpan.
  replace (dot (mkV3 1 0 0) (mkV3 1 0 0)) with 1
    by (unfold dot; cbn [vx vy vz]; ring).
  replace (Rmax (-1) (Rmin 1 1)) with 1
    by (unfold Rmax, Rmin; destruct (Rle_dec 1 1); destruct (Rle_dec (-1) 1);
        lra).
  rewrite (Rltb_ge 1 0.9999) by lra. cbn [andb].
  rewrite rejectFrom_e2_e1, length_e2, (Rltb_lt 0.001 1) by lra.
  apply normalize_e2.
Qed.

Lemma buildLoopMap_midLoopSegment :
  buildLoopMap [midLoopSegment] !! Store.pointId 1 = None /\
  buildLoopMap [midLoopSegment] !! Store.pointId 2 = Some midLoopSegment /\
  buildLoopMap [midLoopSegment] !! Store.pointId 3 = None.
Proof.
  unfold buildLoopMap. cbn [fold_left].
  cbn [LoopSegment.entryPointId midLoopSegment].
  split; [|split].
  - rewrite lookup_insert_ne; [apply lookup_empty|].
    intros H. apply pointId_inj in H. discriminate.
  - apply lookup_insert_eq.
  - rewrite lookup_insert_ne; [apply lookup_empty|].
    intros H. apply pointId_inj in H. discriminate.
Qed.

(** The section table of the straight track with a loop at its middle
    point. *)
Lemma midLoopTrack_sections :
  trackSections lineSpline midLoopTrack [midLoopSegment] false
  = [firstSpan; midLoop; secondSpan].
Proof.
  unfold trackSections. rewrite sectionsMemo_unfold by (simpl; lia).
  cbv zeta. unfold lineSpline, buildSections, midLoopTrack.
  destruct buildLoopMap_midLoopSegment as (H1 & H2 & H3).
  cbn [buildLoop List.length].
  rewrite (buildStep_no_loop _ _ _ _ _ 0%nat) by exact H1.
  rewrite (buildStep_no_loop _ _ _ _ _ 2%nat) by exact H3.
  cbn [Nat.sub Nat.leb negb andb].
  unfold buildStep. cbn [TrackPoint.id]. rewrite H2.
  cbn [Nat.sub Nat.leb negb andb totalSplineSegmentsOf sections
       accumulatedLength rollOffset prevTangent prevUp app
       LoopSegment.radius LoopSegment.pitch midLoopSegment].
  rewrite initialTangent_line, initialUp_line.
  cbn [getTangent lineCurve]. rewrite normalize_e1, transportAcrossSpan_line.
  rewrite computeRollFrame_line.
  assert (E0 : INR 0 / INR 2 = 0) by (simpl; field).
  assert (E1 : INR (0 + 1) / INR 2 = 1 / 2) by (simpl; field).
  assert (E1' : INR 1 / INR 2 = 1 / 2) by (simpl; field).
  assert (E2 : INR (1 + 1) / INR 2 = 1) by (simpl; field).
  rewrite (splineSegmentLength_line (INR 0 / INR 2))
    by (rewrite E0, E1; lra).
  rewrite (splineSegmentLength_line (INR 1 / INR 2))
    by (rewrite E1', E2; lra).
  replace (10 * (INR (0 + 1) / INR 2 - INR 0 / INR 2)) with 5
    by (rewrite E0, E1; field).
  replace (10 * (INR (1 + 1) / INR 2 - INR 1 / INR 2)) with 5
    by (rewrite E1', E2; field).
  replace (add (mkV3 (10 * (INR 1 / INR 2)) 0 0) zero) with (mkV3 5 0 0)
    by (rewrite E1'; apply V3_eq; simpl; field).
  fold loopArcLength.
  cbn [fst assignProgress withProgress type arcLength rollFrame splineStartT
       splineEndT pointIndex app].
  reflexivity.
Qed.

Lemma midLoopLength_pos : 0 < midLoopLength.
Proof. unfold midLoopLength. pose proof loopArcLength_pos. lra. Qed.

Lemma quotients_differ (a b L : R) : 0 < L -> a < b -> a / L <> b / L.
Proof.
  intros HL Hab H. apply (Rmult_eq_compat_r L) in H.
  unfold Rdiv in H. rewrite !Rmult_assoc, Rinv_l in H by lra. lra.
Qed.

Lemma X7_witness :
  exists a b,
    sampleInSection (endProgress midLoop) midLoop lineCurve [midLoopSegment]
      midLoopTrack false = Some a /\
    sampleInSection (startProgress secondSpan) secondSpan lineCurve
      [midLoopSegment] midLoopTrack false = Some b /\
    point a = point b.
Proof.
  pose proof loopArcLength_pos as HL. pose proof midLoopLength_pos as HM.
  apply (X7_loop_exit_meets_span lineSpline midLoopTrack [midLoopSegment] false
           midLoop secondSpan).
  - rewrite midLoopTrack_sections. right. left. reflexivity.
  - rewrite midLoopTrack_sections. right. right. left. reflexivity.
  - reflexivity.
  - reflexivity.
  - reflexivity.
  - apply quotients_differ; [exact HM | lra].
  - apply quotients_differ; [exact HM | lra].
Defined.

Lemma X8_witness :
  exists a b,
    sampleInSection (endProgress firstSpan) firstSpan lineCurve [midLoopSegment]
      midLoopTrack false = Some a /\
    sampleInSection (startProgress midLoop) midLoop lineCurve
      [midLoopSegment] midLoopTrack false = Some b /\
    point a = point b.
Proof.
  pose proof loopArcLength_pos as HL. pose proof midLoopLength_pos as HM.
  apply (X8_span_meets_loop_entry lineSpline midLoopTrack [midLoopSegment] false
           firstSpan midLoop 0).
  - rewrite midLoopTrack_sections. left. reflexivity.
  - rewrite midLoopTrack_sections. right. left. reflexivity.
  - reflexivity.
  - reflexivity.
  - reflexivity.
  - reflexivity.
  - apply quotients_differ; [exact HM | lra].
  - apply quotients_differ; [exact HM | lra].
Defined.


(* ================================================================== *)
(** * Further properties: the length of a spline section *)
(* ================================================================== *)

Lemma dot_le_lengths (u v : V3) : dot u v <= length u * length v.
Proof.
  pose proof (length_nonneg u) as Hu. pose proof (length_nonneg v) as Hv.
  pose proof (length_sqr u) as Hu2. pose proof (length_sqr v) as Hv2.
  pose proof (lengthSq_cross u v) as Hc.
  pose proof (lengthSq_nonneg (crossVectors u v)) as Hc0.
  unfold lengthSq in Hu2, Hv2.
  destruct (Rle_dec (dot u v) 0) as [Hneg|Hpos].
  - pose proof (Rmult_le_pos _ _ Hu Hv). lra.
  - apply Rnot_le_lt in Hpos.
    assert (Hsq : dot u v * dot u v
                  <= (length u * length v) * (length u * length v)) by nra.
    pose proof (Rmult_le_pos _ _ Hu Hv) as Hprod.
    nra.
Qed.

Lemma length_add_le (u v : V3) : length (add u v) <= length u + length v.
Proof.
  pose proof (length_nonneg u) as Hu. pose proof (length_nonneg v) as Hv.
  unfold length at 1. apply sqrt_upper; [lra|].
  pose proof (dot_le_lengths u v) as Hd.
  pose proof (length_sqr u) as Hu2. pose proof (length_sqr v) as Hv2.
  replace (lengthSq (add u v)) with (lengthSq u + 2 * dot u v + lengthSq v)
    by (unfold lengthSq, dot, add; simpl; ring).
  nra.
Qed.

(** The triangle inequality of [distanceTo]. *)
Lemma distanceTo_triangle (a b c : V3) :
  distanceTo a c <= distanceTo a b + distanceTo b c.
Proof.
  unfold distanceTo.
  replace (sub a c) with (add (sub a b) (sub b c))
    by (apply V3_eq; simpl; ring).
  apply length_add_le.
Qed.

Lemma fold_left_chords (p : nat -> V3) (n : nat) :
  forall a init,
    init + distanceTo (p a) (p (a + n)%nat)
    <= fold_left (fun acc s => acc + distanceTo (p s) (p (s + 1)%nat))
                 (seq a n) init.
Proof.
  induction n as [|n IH]; intros a init.
  - cbn [seq fold_left]. rewrite Nat.add_0_r, distanceTo_refl. lra.
  - cbn [seq fold_left].
    pose proof (IH (S a) (init + distanceTo (p a) (p (a + 1)%nat))) as H.
    replace (S a + n)%nat with (a + S n)%nat in H by lia.
    replace (a + 1)%nat with (S a) in * by lia.
    pose proof (distanceTo_triangle (p a) (p (S a)) (p (a + S n)%nat)). lra.
Qed.

(** X9. The length the section table gives a spline span is at least
    the straight-line distance between the curve points at the span's
    two ends. *)
Theorem X9_span_length_at_least_chord (curve : Curve) (splineStartT splineEndT : R) :
  distanceTo (getPoint curve splineStartT) (getPoint curve splineEndT)
  <= splineSegmentLength curve splineStartT splineEndT.
Proof.
  unfold splineSegmentLength. cbv zeta.
  pose proof (fold_left_chords
                (fun s => getPoint curve
                            (splineStartT
                             + INR s / INR 10 * (splineEndT - splineStartT)))
                10 0 0) as H.
  cbv beta in H.
  replace (splineStartT + INR 0 / INR 10 * (splineEndT - splineStartT))
    with splineStartT in H by (simpl; field).
  replace (splineStartT + INR (0 + 10) / INR 10 * (splineEndT - splineStartT))
    with splineEndT in H by (simpl; field).
  lra.
Qed.


(* ================================================================== *)
(** * Further properties: saving and loading *)
(* ================================================================== *)

Lemma trackPoint_round_trip (p : TrackPoint.t) :
  Saves.deserializeTrackPoint (Json.roundTrip (Saves.serializeTrackPoint p))
  = Saves.Value p.
Proof.
  destruct p as [id [x y z] tilt [b|]]; reflexivity.
Qed.

Lemma loopSegment_round_trip (seg : LoopSegment.t) :
  Saves.deserializeLoopSegment (Json.roundTrip (Saves.serializeLoopSegment seg))
  = Saves.Value seg.
Proof. destruct seg as [id entry radius pitch]; reflexivity. Qed.

Lemma sequence_values {A B : Type} (f : B -> Saves.Decoded A) (g : B -> A)
    (l : list B) :
  (forall b, f b = Saves.Value (g b)) ->
  Saves.sequence (map f l) = Saves.Value (map g l).
Proof.
  intros H. induction l as [|b l IH]; [reflexivity|].
  cbn [map Saves.sequence]. rewrite H, IH. reflexivity.
Qed.

Lemma trackPoints_round_trip (tps : list TrackPoint.t) :
  Saves.sequence
    (map Saves.deserializeTrackPoint
       (map Json.roundTrip (map Saves.serializeTrackPoint tps)))
  = Saves.Value tps.
Proof.
  rewrite !map_map.
  rewrite (sequence_values _ (fun p => p)); [rewrite map_id; reflexivity|].
  apply trackPoint_round_trip.
Qed.

Lemma loopSegments_round_trip (segs : list LoopSegment.t) :
  Saves.deserializeLoopSegments
    (Json.roundTrip (Json.JArr (map Saves.serializeLoopSegment segs)))
  = Saves.Value segs.
Proof.
  cbn [Json.roundTrip Saves.deserializeLoopSegments Json.toBoolean].
  rewrite !map_map.
  rewrite (sequence_values _ (fun p => p)); [rewrite map_id; reflexivity|].
  apply loopSegment_round_trip.
Qed.

Lemma find_map_roundTrip (id : string) (l : list SavedCoaster.t) :
  List.find (fun c => String.eqb (SavedCoaster.id c) id)
            (map SavedCoaster.roundTrip l)
  = option_map SavedCoaster.roundTrip
      (List.find (fun c => String.eqb (SavedCoaster.id c) id) l).
Proof.
  induction l as [|c l IH]; [reflexivity|].
  cbn [map List.find]. cbn [SavedCoaster.roundTrip SavedCoaster.id].
  destruct (String.eqb (SavedCoaster.id c) id); [reflexivity | exact IH].
Qed.

Lemma find_app_fresh (id : string) (l : list SavedCoaster.t) (c : SavedCoaster.t) :
  (forall c0, In c0 l -> SavedCoaster.id c0 <> id) ->
  SavedCoaster.id c = id ->
  List.find (fun c => String.eqb (SavedCoaster.id c) id) (l ++ [c]) = Some c.
Proof.
  intros Hfresh Hid. induction l as [|c0 l IH]; cbn [app List.find].
  - rewrite Hid, String.eqb_refl. reflexivity.
  - replace (String.eqb (SavedCoaster.id c0) id) with false
      by (symmetry; apply String.eqb_neq, Hfresh; left; reflexivity).
    apply IH. intros c1 H1. apply Hfresh. right. exact H1.
Qed.

(** Saving, then loading the saved coaster from any world that has the
    stored item the save left. *)
Lemma saveCoaster_loadCoaster
    (nowId nowTs : N) (name : string) (w w1 w2 : Store.World) :
  Saves.saveCoaster nowId nowTs true name w = Some w1 ->
  (forall c, In c (Store.loadSavedCoasters w) ->
             SavedCoaster.id c <> "coaster-" +:+ pretty nowId) ->
  Store.localStorage w2 = Store.localStorage w1 ->
  Saves.loadCoaster ("coaster-" +:+ pretty nowId) w2
  = Some (Store.mkWorld
            (Store.mkState build (Store.trackPoints (Store.state w))
               (Store.loopSegments (Store.state w)) None 0 false
               (Store.rideSpeed (Store.state w2))
               (Store.isDraggingPoint (Store.state w2))
               (Store.isAddingPoints (Store.state w2))
               (Store.isLooped (Store.state w))
               (Store.hasChainLift (Store.state w))
               (Store.showWoodSupports (Store.state w))
               (Store.isNightMode (Store.state w2))
               (Store.cameraTarget (Store.state w2))
               (Store.savedCoasters (Store.state w2))
               (Some (if String.eqb name EmptyString then "Untitled" else name)))
            (Z.to_nat (Saves.maxId (Store.trackPoints (Store.state w))))
            (Store.localStorage w2)).
Proof.
  intros Hsave Hfresh Hstore.
  unfold Saves.saveCoaster in Hsave. injection Hsave as <-.
  cbn [Store.localStorage] in Hstore. unfold Saves.persistSavedCoasters in Hstore.
  unfold Saves.loadCoaster, Store.loadSavedCoasters at 1. rewrite Hstore.
  cbv beta iota zeta.
  rewrite find_map_roundTrip, find_app_fresh; [| exact Hfresh | reflexivity].
  cbn [option_map SavedCoaster.roundTrip SavedCoaster.trackPoints
       SavedCoaster.loopSegments SavedCoaster.isLooped SavedCoaster.hasChainLift
       SavedCoaster.showWoodSupports SavedCoaster.name].
  rewrite trackPoints_round_trip, loopSegments_round_trip.
  rewrite <- Hstore. reflexivity.
Qed.

(** X10. Saving a track and loading the saved coaster gives the track
    back: the same track points (ids, positions, tilts, loop flags), the
    same loop segments and the same three flags, whatever was edited in
    between, provided no coaster stored earlier carries the id the save
    took from the clock.  An empty name comes back as "Untitled". *)
Theorem X10_save_then_load_restores_track
    (nowId nowTs : N) (name : string) (w w1 w2 : Store.World) :
  let id := "coaster-" +:+ pretty nowId in
  Saves.saveCoaster nowId nowTs true name w = Some w1 ->
  (forall c, In c (Store.loadSavedCoasters w) -> SavedCoaster.id c <> id) ->
  Store.localStorage w2 = Store.localStorage w1 ->
  exists w3,
    Saves.loadCoaster id w2 = Some w3 /\
    Store.trackPoints (Store.state w3) = Store.trackPoints (Store.state w) /\
    Store.loopSegments (Store.state w3) = Store.loopSegments (Store.state w) /\
    Store.isLooped (Store.state w3) = Store.isLooped (Store.state w) /\
    Store.hasChainLift (Store.state w3) = Store.hasChainLift (Store.state w) /\
    Store.showWoodSupports (Store.state w3)
    = Store.showWoodSupports (Store.state w) /\
    Store.currentCoasterName (Store.state w3)
    = Some (if String.eqb name EmptyString then "Untitled" else name) /\
    Store.mode (Store.state w3) = build /\
    Store.isRiding (Store.state w3) = false /\
    Store.selectedPointId (Store.state w3) = None.
Proof.
  cbv zeta. intros Hsave Hfresh Hstore.
  eexists. split.
  - exact (saveCoaster_loadCoaster nowId nowTs name w w1 w2 Hsave Hfresh Hstore).
  - cbn. repeat split.
Qed.


Lemma digitValue_pretty (d : N) :
  (d < 10)%N -> Saves.digitValue (pretty_N_char d) = Some d.
Proof.
  intros H.
  assert (Hc : (d = 0 \/ d = 1 \/ d = 2 \/ d = 3 \/ d = 4 \/ d = 5 \/ d = 6
                \/ d = 7 \/ d = 8 \/ d = 9)%N) by lia.
  destruct Hc as [->|[->|[->|[->|[->|[->|[->|[->|[->| ->]]]]]]]]];
    reflexivity.
Qed.

Lemma parseDigits_pretty_go (x : N) :
  forall s, (0 < x)%N ->
    Saves.parseDigits (pretty_N_go x s) None = Saves.parseDigits s (Some x).
Proof.
  induction (N.lt_wf_0 x) as [x _ IH]. intros s Hx.
  rewrite pretty_N_go_step by exact Hx.
  assert (Hd : (x `mod` 10 < 10)%N) by (apply N.mod_lt; lia).
  destruct (N.eq_dec (x `div` 10)%N 0%N) as [E|E].
  - rewrite E, pretty_N_go_0. cbn [Saves.parseDigits].
    rewrite (digitValue_pretty _ Hd). cbn [default].
    f_equal. f_equal. pose proof (N.div_mod x 10 ltac:(discriminate)) as H.
    rewrite E in H. symmetry. exact H.
  - rewrite IH.
    + cbn [Saves.parseDigits]. rewrite (digitValue_pretty _ Hd). cbn [default].
      f_equal. f_equal. symmetry. apply N.div_mod. discriminate.
    + apply N.div_lt; [exact Hx | reflexivity].
    + apply N.neq_0_lt_0. exact E.
Qed.

Lemma parseDigits_pretty (x : N) :
  Saves.parseDigits (pretty x) None = Some x.
Proof.
  unfold pretty, pretty_N. destruct (decide (x = 0%N)) as [->|Hx].
  - reflexivity.
  - rewrite parseDigits_pretty_go by lia. reflexivity.
Qed.

(** The first character of a printed number is a digit. *)
Lemma pretty_go_head (x : N) :
  forall s, (0 < x)%N ->
    exists d rest, (d < 10)%N /\ pretty_N_go x s = String (pretty_N_char d) rest.
Proof.
  induction (N.lt_wf_0 x) as [x _ IH]. intros s Hx.
  rewrite pretty_N_go_step by exact Hx.
  destruct (N.eq_dec (x `div` 10)%N 0%N) as [E|E].
  - rewrite E, pretty_N_go_0. exists (x `mod` 10)%N, s.
    split; [apply N.mod_lt; lia | reflexivity].
  - apply IH; [apply N.div_lt; [exact Hx | reflexivity]
             | apply N.neq_0_lt_0; exact E].
Qed.

Lemma pretty_head (x : N) :
  exists d rest, (d < 10)%N /\ pretty x = String (pretty_N_char d) rest.
Proof.
  unfold pretty, pretty_N. destruct (decide (x = 0%N)) as [->|Hx].
  - exists 0%N, EmptyString. split; [lia | reflexivity].
  - apply pretty_go_head. lia.
Qed.

Lemma parseInt_digit_head (d : N) (rest : string) :
  (d < 10)%N ->
  Saves.parseInt (String (pretty_N_char d) rest)
  = match Saves.parseDigits (String (pretty_N_char d) rest) None with
    | Some n => Some (Z.of_N n)
    | None => None
    end.
Proof.
  intros H.
  assert (Hc : (d = 0 \/ d = 1 \/ d = 2 \/ d = 3 \/ d = 4 \/ d = 5 \/ d = 6
                \/ d = 7 \/ d = 8 \/ d = 9)%N) by lia.
  destruct Hc as [->|[->|[->|[->|[->|[->|[->|[->|[->| ->]]]]]]]]];
    destruct rest as [|b [|c rest]]; reflexivity.
Qed.

Lemma parseInt_pretty (k : nat) :
  Saves.parseInt (pretty k) = Some (Z.of_nat k).
Proof.
  change (pretty k) with (pretty (N.of_nat k)).
  destruct (pretty_head (N.of_nat k)) as (d & rest & Hd & E).
  rewrite E, (parseInt_digit_head d rest Hd), <- E, parseDigits_pretty.
  f_equal. lia.
Qed.

Lemma removeFirst_pointId (k : nat) :
  Saves.removeFirst "point-" (Store.pointId k) = pretty k.
Proof.
  unfold Store.pointId. generalize (pretty k). intros s. reflexivity.
Qed.

(** The number [loadCoaster] reads in the id of a point made by
    [addTrackPoint]. *)
Lemma pointId_number (k : nat) :
  Saves.parseInt (Saves.removeFirst "point-" (Store.pointId k))
  = Some (Z.of_nat k).
Proof. rewrite removeFirst_pointId. apply parseInt_pretty. Qed.

Lemma maxId_fold_ge (tps : list TrackPoint.t) :
  forall init,
    (init <= fold_left
               (fun max p =>
                  match Saves.parseInt
                          (Saves.removeFirst "point-" (TrackPoint.id p)) with
                  | None => max
                  | Some num => Z.max max num
                  end) tps init)%Z.
Proof.
  induction tps as [|p tps IH]; intros init; cbn [fold_left]; [lia|].
  destruct (Saves.parseInt _) as [num|]; [|apply IH].
  pose proof (IH (Z.max init num)). lia.
Qed.

Lemma maxId_bounds (tps : list TrackPoint.t) (p : TrackPoint.t) (k : nat) :
  In p tps -> TrackPoint.id p = Store.pointId k ->
  (Z.of_nat k <= Saves.maxId tps)%Z.
Proof.
  unfold Saves.maxId. generalize 0%Z.
  induction tps as [|q tps IH]; intros init Hin Hid; [contradiction|].
  cbn [fold_left]. destruct Hin as [-> | Hin].
  - rewrite Hid, pointId_number.
    pose proof (maxId_fold_ge tps (Z.max init (Z.of_nat k))). lia.
  - apply IH; assumption.
Qed.


Lemma savedLoopWorld_saved :
  Saves.saveCoaster 7 8 true "Big Dipper" loopWorld = Some savedLoopWorld.
Proof. reflexivity. Qed.

Lemma loopWorld_nothing_stored :
  forall c, In c (Store.loadSavedCoasters loopWorld) ->
            SavedCoaster.id c <> "coaster-" +:+ pretty 7%N.
Proof. intros c []. Qed.

Lemma X10_witness :
  exists w3,
    Saves.loadCoaster ("coaster-" +:+ pretty 7%N) (Store.clearTrack savedLoopWorld)
    = Some w3 /\
    Store.trackPoints (Store.state w3) = Store.trackPoints (Store.state loopWorld) /\
    Store.loopSegments (Store.state w3)
    = Store.loopSegments (Store.state loopWorld).
Proof.
  destruct (X10_save_then_load_restores_track 7 8 "Big Dipper" loopWorld
              savedLoopWorld (Store.clearTrack savedLoopWorld)
              savedLoopWorld_saved loopWorld_nothing_stored eq_refl)
    as (w3 & H1 & H2 & H3 & _).
  exists w3. split; [exact H1 | split; [exact H2 | exact H3]].
Defined.

Lemma maxId_nonneg (tps : list TrackPoint.t) : (0 <= Saves.maxId tps)%Z.
Proof. apply maxId_fold_ge. Qed.

(** What a load that finds its coaster and decodes it leaves. *)
Lemma loadCoaster_outcome (id : string) (w w' : Store.World) :
  Saves.loadCoaster id w = Some w' ->
  w' = w \/
  Store.pointCounter w'
  = Z.to_nat (Saves.maxId (Store.trackPoints (Store.state w'))).
Proof.
  unfold Saves.loadCoaster.
  destruct (List.find _ _) as [coaster|];
    [| intros H; injection H as <-; left; reflexivity].
  destruct (Saves.sequence
              (map Saves.deserializeTrackPoint (SavedCoaster.trackPoints coaster)))
    as [tps| |];
    destruct (Saves.deserializeLoopSegments (SavedCoaster.loopSegments coaster))
      as [segs| |];
    intros H; try discriminate; injection H as <-;
    first [left; reflexivity | right; reflexivity].
Qed.

(** X11. After a load that changes the world, and as long as the
    counter stays below 2^53 (every number read in the loaded ids is
    below it, so that the code's counter, a double, holds them
    exactly), the id the next [addTrackPoint] will use differs from the
    id of every loaded track point: the counter is set to the largest
    number found in the loaded ids. *)
Theorem X11_next_point_id_fresh_after_load
    (id : string) (w w' : Store.World) (p : TrackPoint.t) :
  Saves.loadCoaster id w = Some w' -> w' <> w ->
  (N.of_nat (Store.pointCounter w') < 2 ^ 53)%N ->
  In p (Store.trackPoints (Store.state w')) ->
  TrackPoint.id p <> Store.pointId (S (Store.pointCounter w')).
Proof.
  intros Hload Hne _ Hin Hid.
  destruct (loadCoaster_outcome id w w' Hload) as [E|E]; [contradiction|].
  pose proof (maxId_bounds _ p _ Hin Hid) as Hb.
  pose proof (maxId_nonneg (Store.trackPoints (Store.state w'))) as H0.
  rewrite E in Hb. lia.
Qed.

Lemma X11_witness :
  exists w3,
    Saves.loadCoaster ("coaster-" +:+ pretty 7%N) (Store.clearTrack savedLoopWorld)
    = Some w3 /\
    (N.of_nat (Store.pointCounter w3) < 2 ^ 53)%N /\
    forall p, In p (Store.trackPoints (Store.state w3)) ->
              TrackPoint.id p <> Store.pointId (S (Store.pointCounter w3)).
Proof.
  pose proof (saveCoaster_loadCoaster 7 8 "Big Dipper" loopWorld savedLoopWorld
                (Store.clearTrack savedLoopWorld) savedLoopWorld_saved
                loopWorld_nothing_stored eq_refl) as H.
  eexists. split; [exact H|].
  assert (Hc : (N.of_nat
                  (Z.to_nat
                     (Saves.maxId (Store.trackPoints (Store.state loopWorld))))
                < 2 ^ 53)%N).
  { rewrite (proj1 loopWorld_track). reflexivity. }
  split; [exact Hc|].
  intros p Hin.
    apply (X11_next_point_id_fresh_after_load _ _ _ p H); [| exact Hc |exact Hin].
    intros E.
    apply (f_equal (fun w => List.length (Store.trackPoints (Store.state w)))) in E.
    cbn [Store.state Store.trackPoints] in E.
    rewrite (proj1 loopWorld_track) in E. discriminate E.
Defined.


Lemma serializeTrackPoint_normal (p : TrackPoint.t) :
  Json.roundTrip (Saves.serializeTrackPoint p) = Saves.serializeTrackPoint p.
Proof. destruct p as [id [x y z] tilt [b|]]; reflexivity. Qed.

Lemma serializeLoopSegment_normal (seg : LoopSegment.t) :
  Json.roundTrip (Saves.serializeLoopSegment seg) = Saves.serializeLoopSegment seg.
Proof. destruct seg; reflexivity. Qed.

Lemma map_fixed {A : Type} (f : A -> A) (l : list A) :
  (forall a, In a l -> f a = a) -> map f l = l.
Proof.
  induction l as [|a l IH]; intros H; [reflexivity|].
  cbn [map]. rewrite H by (left; reflexivity).
  rewrite IH; [reflexivity|]. intros b Hb. apply H. right. exact Hb.
Qed.

Lemma serialized_track_normal (tps : list TrackPoint.t) :
  map Json.roundTrip (map Saves.serializeTrackPoint tps)
  = map Saves.serializeTrackPoint tps.
Proof.
  apply map_fixed. intros v Hv. apply in_map_iff in Hv.
  destruct Hv as (p & <- & _). apply serializeTrackPoint_normal.
Qed.

Lemma serialized_loops_normal (segs : list LoopSegment.t) :
  map Json.roundTrip (map Saves.serializeLoopSegment segs)
  = map Saves.serializeLoopSegment segs.
Proof.
  apply map_fixed. intros v Hv. apply in_map_iff in Hv.
  destruct Hv as (p & <- & _). apply serializeLoopSegment_normal.
Qed.

Lemma serialized_point_valid (p : TrackPoint.t) :
  Store.validTrackPoint (Saves.serializeTrackPoint p) = true.
Proof. destruct p as [id [x y z] tilt [b|]]; reflexivity. Qed.

Lemma serialized_track_valid (tps : list TrackPoint.t) :
  forallb Store.validTrackPoint (map Saves.serializeTrackPoint tps) = true.
Proof.
  apply forallb_forall. intros v Hv. apply in_map_iff in Hv.
  destruct Hv as (p & <- & _). apply serialized_point_valid.
Qed.

(** What [exportCoaster] hands out for a coaster that was just saved. *)
Lemma saveCoaster_exportCoaster
    (nowId nowTs : N) (name : string) (w w1 : Store.World) :
  Saves.saveCoaster nowId nowTs true name w = Some w1 ->
  (forall c, In c (Store.loadSavedCoasters w) ->
             SavedCoaster.id c <> "coaster-" +:+ pretty nowId) ->
  Saves.exportCoaster ("coaster-" +:+ pretty nowId) w1
  = Some (Json.JObj
            [("id", Json.JStr ("coaster-" +:+ pretty nowId));
             ("name", Json.JStr name);
             ("timestamp", jsonNumber (IZR (Z.of_N nowTs)));
             ("trackPoints",
              Json.JArr (map Saves.serializeTrackPoint
                           (Store.trackPoints (Store.state w))));
             ("loopSegments",
              Json.JArr (map Saves.serializeLoopSegment
                           (Store.loopSegments (Store.state w))));
             ("isLooped", Json.JBool (Store.isLooped (Store.state w)));
             ("hasChainLift", Json.JBool (Store.hasChainLift (Store.state w)));
             ("showWoodSupports",
              Json.JBool (Store.showWoodSupports (Store.state w)))]).
Proof.
  intros Hsave Hfresh.
  unfold Saves.saveCoaster in Hsave. injection Hsave as <-.
  unfold Saves.exportCoaster, Store.loadSavedCoasters at 1.
  cbn [Store.localStorage]. unfold Saves.persistSavedCoasters.
  rewrite find_map_roundTrip, find_app_fresh; [| exact Hfresh | reflexivity].
  cbn [option_map]. unfold SavedCoaster.roundTrip, Saves.coasterObject, jsonNumber.
  cbn [SavedCoaster.id SavedCoaster.name SavedCoaster.timestamp
       SavedCoaster.trackPoints SavedCoaster.loopSegments SavedCoaster.isLooped
       SavedCoaster.hasChainLift SavedCoaster.showWoodSupports].
  cbn [Json.roundTrip map fst snd Json.isFinite].
  rewrite !serialized_track_normal, !serialized_loops_normal. reflexivity.
Qed.

(** X12. A saved coaster that is exported and imported again is stored
    a second time with the same track points, loop segments and flags,
    under a new id and with its name trimmed; the import refuses it
    exactly when the name it was saved under is blank. *)
Theorem X12_export_then_import
    (nowId nowTs importId importTs : N) (name : string) (w w1 : Store.World) :
  let id := "coaster-" +:+ pretty nowId in
  Saves.saveCoaster nowId nowTs true name w = Some w1 ->
  (forall c, In c (Store.loadSavedCoasters w) -> SavedCoaster.id c <> id) ->
  exists exported,
    Saves.exportCoaster id w1 = Some exported /\
    (Json.trim name = EmptyString ->
     Store.importCoaster importId importTs true (Some exported) w1 = (false, w1)) /\
    (Json.trim name <> EmptyString ->
     exists w2,
       Store.importCoaster importId importTs true (Some exported) w1 = (true, w2) /\
       last (Store.loadSavedCoasters w2)
       = Some (SavedCoaster.mk ("coaster-" +:+ pretty importId) (Json.trim name)
                 importTs
                 (map Saves.serializeTrackPoint (Store.trackPoints (Store.state w)))
                 (Json.JArr (map Saves.serializeLoopSegment
                               (Store.loopSegments (Store.state w))))
                 (Store.isLooped (Store.state w))
                 (Store.hasChainLift (Store.state w))
                 (Store.showWoodSupports (Store.state w)))).
Proof.
  cbv zeta. intros Hsave Hfresh.
  eexists. split; [exact (saveCoaster_exportCoaster _ _ _ _ _ Hsave Hfresh)|].
  unfold Store.importCoaster, Store.validateCoaster.
  cbn [Json.toBoolean Json.typeofObject andb negb].
  change (Json.prop (Json.JObj ?m) "name") with (Some (Json.JStr name)).
  split.
  - intros Hblank. rewrite Hblank. reflexivity.
  - intros Hname. apply String.eqb_neq in Hname. rewrite Hname.
    cbn [Json.prop Json.getMember fold_left fst snd String.eqb Ascii.eqb
         Bool.eqb andb].
    rewrite serialized_track_valid.
    eexists. split; [reflexivity|].
    unfold Store.loadSavedCoasters at 1. cbn [Store.localStorage].
    rewrite map_app. cbn [map]. rewrite last_snoc.
    unfold Store.buildValidCoaster, Store.loopSegmentsOrEmpty.
    cbn [Json.prop Json.getMember fold_left fst snd String.eqb Ascii.eqb
         Bool.eqb andb Json.toBoolean Json.notStrictlyFalse
         SavedCoaster.roundTrip SavedCoaster.id SavedCoaster.name
         SavedCoaster.timestamp SavedCoaster.trackPoints
         SavedCoaster.loopSegments SavedCoaster.isLooped
         SavedCoaster.hasChainLift SavedCoaster.showWoodSupports Json.roundTrip].
    unfold SavedCoaster.roundTrip.
    cbn [SavedCoaster.id SavedCoaster.name SavedCoaster.timestamp
         SavedCoaster.trackPoints SavedCoaster.loopSegments
         SavedCoaster.isLooped SavedCoaster.hasChainLift
         SavedCoaster.showWoodSupports Json.roundTrip].
    rewrite serialized_track_normal, serialized_loops_normal.
    destruct (Store.hasChainLift (Store.state w)); reflexivity.
Qed.

Lemma bigDipper_not_blank : Json.trim "Big Dipper" <> EmptyString.
Proof. discriminate. Qed.

Lemma X12_witness :
  exists exported w2,
    Saves.exportCoaster ("coaster-" +:+ pretty 7%N) savedLoopWorld
    = Some exported /\
    Store.importCoaster 9 10 true (Some exported) savedLoopWorld = (true, w2).
Proof.
  destruct (X12_export_then_import 7 8 9 10 "Big Dipper" loopWorld
              savedLoopWorld savedLoopWorld_saved loopWorld_nothing_stored)
    as (exported & Hexp & _ & Himp).
  destruct (Himp bigDipper_not_blank) as (w2 & H & _).
  exists exported, w2. split; [exact Hexp | exact H].
Defined.


(* ================================================================== *)
(** * Further properties: what the editing actions keep true *)
(* ================================================================== *)

Lemma trackInvariant_same_track (w w' : Store.World) :
  Store.trackPoints (Store.state w') = Store.trackPoints (Store.state w) ->
  Store.loopSegments (Store.state w') = Store.loopSegments (Store.state w) ->
  Store.pointCounter w' = Store.pointCounter w ->
  trackInvariant w -> trackInvariant w'.
Proof.
  intros Ht Hl Hc [H1 H2 H3 H4 H5].
  constructor; rewrite ?Ht, ?Hl, ?Hc; assumption.
Qed.

Lemma nodup_snoc {A : Type} (l : list A) (x : A) :
  List.NoDup l -> ~ In x l -> List.NoDup (l ++ [x]).
Proof.
  intros Hl Hx. induction Hl as [|y l Hy Hl IH]; cbn [app].
  - constructor; [intros [] | constructor].
  - constructor.
    + intros Hin. apply in_app_or in Hin. destruct Hin as [Hin | [E | []]].
      * exact (Hy Hin).
      * apply Hx. left. symmetry. exact E.
    + apply IH. intros Hin. apply Hx. right. exact Hin.
Qed.

Lemma nodup_map_filter {A B : Type} (f : A -> B) (g : A -> bool) (l : list A) :
  List.NoDup (map f l) -> List.NoDup (map f (List.filter g l)).
Proof.
  induction l as [|a l IH]; cbn [map List.filter]; intros H; [constructor|].
  inversion H as [|? ? Hn Hl]; subst.
  destruct (g a); [|apply IH, Hl].
  cbn [map]. constructor; [|apply IH, Hl].
  intros Hin. apply Hn. apply in_map_iff in Hin.
  destruct Hin as (b & Hb & Hin). apply List.filter_In in Hin.
  apply in_map_iff. exists b. split; [exact Hb | exact (proj1 Hin)].
Qed.

Lemma map_id_kept (f : TrackPoint.t -> TrackPoint.t) (pts : list TrackPoint.t) :
  (forall p, TrackPoint.id (f p) = TrackPoint.id p) ->
  map TrackPoint.id (map f pts) = map TrackPoint.id pts.
Proof.
  intros Hf. rewrite map_map. apply map_ext. exact Hf.
Qed.

Lemma entersLoop_snoc (segs : list LoopSegment.t) (seg : LoopSegment.t)
    (p : TrackPoint.t) :
  entersLoop (segs ++ [seg]) p
  = (entersLoop segs p
     || String.eqb (LoopSegment.entryPointId seg) (TrackPoint.id p))%bool.
Proof.
  unfold entersLoop. rewrite existsb_app. cbn [existsb].
  rewrite orb_false_r. reflexivity.
Qed.

Lemma entersLoop_true (segs : list LoopSegment.t) (p : TrackPoint.t) :
  entersLoop segs p = true <->
  exists seg, In seg segs /\ LoopSegment.entryPointId seg = TrackPoint.id p.
Proof.
  unfold entersLoop. rewrite existsb_exists.
  split; intros (seg & Hin & H); exists seg; (split; [exact Hin|]);
    apply String.eqb_eq; exact H.
Qed.

(** A map that rewrites the points of one id and keeps ids and flags. *)
Lemma trackInvariant_remap (g : TrackPoint.t -> TrackPoint.t) (w : Store.World) :
  (forall p, TrackPoint.id (g p) = TrackPoint.id p) ->
  (forall p, TrackPoint.hasLoop (g p) = TrackPoint.hasLoop p) ->
  trackInvariant w ->
  trackInvariant
    (Store.withState w
       (Store.setTrack (Store.state w) (map g (Store.trackPoints (Store.state w)))
          (Store.loopSegments (Store.state w))
          (Store.selectedPointId (Store.state w)))).
Proof.
  intros Hid Hflag [H1 H2 H3 H4 H5].
  constructor; cbn [Store.withState Store.state Store.pointCounter
                    Store.setTrack Store.trackPoints Store.loopSegments].
  - intros p Hin. apply in_map_iff in Hin. destruct Hin as (q & <- & Hq).
    rewrite Hid. apply H1, Hq.
  - rewrite map_id_kept by exact Hid. exact H2.
  - exact H3.
  - exact H4.
  - intros p Hin. apply in_map_iff in Hin. destruct Hin as (q & <- & Hq).
    rewrite Hflag. unfold entersLoop. rewrite Hid. apply (H5 q Hq).
Qed.

Lemma addTrackPoint_invariant position w :
  trackInvariant w -> trackInvariant (Store.addTrackPoint position w).
Proof.
  intros [H1 H2 H3 H4 H5].
  assert (Hfresh : ~ In (Store.pointId (S (Store.pointCounter w)))
                        (map TrackPoint.id (Store.trackPoints (Store.state w)))).
  { intros Hin. apply in_map_iff in Hin. destruct Hin as (p & Hp & Hin).
    destruct (H1 p Hin) as (k & Hk & E). rewrite E in Hp.
    apply pointId_inj in Hp. lia. }
  assert (Hnoloop : entersLoop (Store.loopSegments (Store.state w))
                      (TrackPoint.mk (Store.pointId (S (Store.pointCounter w)))
                         position 0 None) = false).
  { destruct (entersLoop _ _) eqn:E; [|reflexivity].
    apply entersLoop_true in E. destruct E as (seg & Hin & E).
    destruct (H3 seg Hin) as (k & Hk & E'). rewrite E' in E.
    cbn [TrackPoint.id] in E. apply pointId_inj in E. lia. }
  constructor; cbn [Store.addTrackPoint Store.state Store.pointCounter
                    Store.setTrack Store.trackPoints Store.loopSegments].
  - intros p Hin. apply in_app_or in Hin. destruct Hin as [Hin | [<- | []]].
    + destruct (H1 p Hin) as (k & Hk & E). exists k. split; [lia | exact E].
    + exists (S (Store.pointCounter w)). split; [lia | reflexivity].
  - rewrite map_app. cbn [map TrackPoint.id]. apply nodup_snoc; assumption.
  - intros seg Hin. destruct (H3 seg Hin) as (k & Hk & E).
    exists k. split; [lia | exact E].
  - exact H4.
  - intros p Hin. apply in_app_or in Hin. destruct Hin as [Hin | [<- | []]].
    + apply H5, Hin.
    + rewrite Hnoloop. cbn [TrackPoint.hasLoop]. split; discriminate.
Qed.

Lemma removeTrackPoint_invariant id w :
  trackInvariant w -> trackInvariant (Store.removeTrackPoint id w).
Proof.
  intros [H1 H2 H3 H4 H5].
  constructor; cbn [Store.removeTrackPoint Store.withState Store.state
                    Store.pointCounter Store.setTrack Store.trackPoints
                    Store.loopSegments].
  - intros p Hin. apply List.filter_In in Hin. apply H1, (proj1 Hin).
  - apply nodup_map_filter, H2.
  - exact H3.
  - exact H4.
  - intros p Hin. apply List.filter_In in Hin. apply H5, (proj1 Hin).
Qed.

Lemma clearTrack_invariant w : trackInvariant (Store.clearTrack w).
Proof.
  constructor; cbn;
    [intros ? [] | constructor | intros ? [] | constructor | intros ? []].
Qed.

Lemma initialWorld_invariant stored : trackInvariant (Store.initialWorld stored).
Proof.
  constructor; cbn;
    [intros ? [] | constructor | intros ? [] | constructor | intros ? []].
Qed.

Lemma find_unique (pts : list TrackPoint.t) (id : string) (p q : TrackPoint.t) :
  List.NoDup (map TrackPoint.id pts) ->
  List.find (fun p => String.eqb (TrackPoint.id p) id) pts = Some p ->
  In q pts -> TrackPoint.id q = id -> q = p.
Proof.
  induction pts as [|a pts IH]; cbn [List.find map]; intros Hnd Hf Hin Hq;
    [contradiction|].
  inversion Hnd as [|? ? Hn Hl]; subst.
  destruct (String.eqb (TrackPoint.id a) (TrackPoint.id q)) eqn:E.
  - injection Hf as <-. destruct Hin as [E' | Hin]; [symmetry; exact E'|].
    exfalso. apply Hn. apply String.eqb_eq in E. rewrite E.
    apply in_map, Hin.
  - destruct Hin as [-> | Hin].
    + rewrite String.eqb_refl in E. discriminate.
    + apply IH; [exact Hl | exact Hf | exact Hin | reflexivity].
Qed.

Lemma createLoopAtPoint_invariant now id w :
  trackInvariant w -> trackInvariant (Store.createLoopAtPoint now id w).
Proof.
  intros Hinv. pose proof Hinv as [H1 H2 H3 H4 H5].
  unfold Store.createLoopAtPoint.
  destruct (find _ _) as [entryPoint|] eqn:Ef; [| exact Hinv].
  pose proof (find_some _ _ Ef) as [Hentry Heq]. apply String.eqb_eq in Heq.
  assert (Hnew :
            TrackPoint.hasLoop entryPoint <> Some true ->
            trackInvariant
              (Store.withState w
                 (Store.setTrack (Store.state w)
                    (map (fun p =>
                            if String.eqb (TrackPoint.id p) id
                            then TrackPoint.mk (TrackPoint.id p)
                                   (TrackPoint.position p) (TrackPoint.tilt p)
                                   (Some true)
                            else p)
                         (Store.trackPoints (Store.state w)))
                    (Store.loopSegments (Store.state w)
                     ++ [LoopSegment.mk ("loop-" +:+ pretty now) id 5 12])
                    (Store.selectedPointId (Store.state w))))).
  { intros Hflag.
    assert (Hno : ~ In id (map LoopSegment.entryPointId
                             (Store.loopSegments (Store.state w)))).
    { intros Hin. apply in_map_iff in Hin. destruct Hin as (seg & Hs & Hin).
      apply Hflag. apply (H5 entryPoint Hentry). apply entersLoop_true.
      exists seg. split; [exact Hin | congruence]. }
    constructor; cbn [Store.withState Store.state Store.pointCounter
                      Store.setTrack Store.trackPoints Store.loopSegments].
    - intros p Hin. apply in_map_iff in Hin. destruct Hin as (q & <- & Hq).
      destruct (H1 q Hq) as (k & Hk & E). exists k. split; [exact Hk|].
      destruct (String.eqb (TrackPoint.id q) id); exact E.
    - rewrite map_id_kept; [exact H2|].
      intros p. destruct (String.eqb (TrackPoint.id p) id); reflexivity.
    - intros seg Hin. apply in_app_or in Hin.
      destruct Hin as [Hin | [<- | []]]; [apply H3, Hin|].
      cbn [LoopSegment.entryPointId]. rewrite <- Heq. apply H1, Hentry.
    - rewrite map_app. cbn [map LoopSegment.entryPointId].
      apply nodup_snoc; assumption.
    - intros p Hin. apply in_map_iff in Hin. destruct Hin as (q & <- & Hq).
      rewrite entersLoop_snoc. cbn [LoopSegment.entryPointId].
      destruct (String.eqb (TrackPoint.id q) id) eqn:E.
      + cbn [TrackPoint.hasLoop TrackPoint.id].
        apply String.eqb_eq in E. rewrite E, String.eqb_refl, orb_true_r.
        split; reflexivity.
      + rewrite (String.eqb_sym id), E, orb_false_r.
        replace (entersLoop (Store.loopSegments (Store.state w)) q)
          with (entersLoop (Store.loopSegments (Store.state w)) q) by reflexivity.
        apply H5, Hq. }
  destruct (TrackPoint.hasLoop entryPoint) as [[|]|];
    [exact Hinv | apply Hnew; discriminate | apply Hnew; discriminate].
Qed.

Lemma importCoaster_track nowId nowTs writable parsed w :
  let w' := snd (Store.importCoaster nowId nowTs writable parsed w) in
  Store.trackPoints (Store.state w') = Store.trackPoints (Store.state w) /\
  Store.loopSegments (Store.state w') = Store.loopSegments (Store.state w) /\
  Store.pointCounter w' = Store.pointCounter w.
Proof.
  cbv zeta. unfold Store.importCoaster.
  destruct parsed as [coaster|]; [|repeat split].
  destruct (Store.validateCoaster coaster) as [[name pts]|]; [|repeat split].
  destruct writable; repeat split.
Qed.

(** Every action but [loadCoaster] keeps the invariant of the track. *)
Lemma editStep_invariant (w w' : Store.World) :
  editStep w w' -> trackInvariant w -> trackInvariant w'.
Proof.
  intros Hstep Hinv.
  destruct Hstep;
    try (apply (trackInvariant_same_track w); [reflexivity .. | exact Hinv]).
  - apply addTrackPoint_invariant, Hinv.
  - apply (trackInvariant_remap
             (fun point =>
                if String.eqb (TrackPoint.id point) id
                then TrackPoint.mk (TrackPoint.id point) position
                       (TrackPoint.tilt point) (TrackPoint.hasLoop point)
                else point)); [| | exact Hinv];
      intros p; destruct (String.eqb (TrackPoint.id p) id); reflexivity.
  - apply (trackInvariant_remap
             (fun point =>
                if String.eqb (TrackPoint.id point) id
                then TrackPoint.mk (TrackPoint.id point)
                       (TrackPoint.position point) tilt (TrackPoint.hasLoop point)
                else point)); [| | exact Hinv];
      intros p; destruct (String.eqb (TrackPoint.id p) id); reflexivity.
  - apply removeTrackPoint_invariant, Hinv.
  - apply createLoopAtPoint_invariant, Hinv.
  - apply clearTrack_invariant.
  - unfold Store.startRide.
    destruct (Nat.leb 2 _); [|exact Hinv].
    apply (trackInvariant_same_track w); [reflexivity .. | exact Hinv].
  - unfold Saves.saveCoaster in H. destruct storageWritable; [|discriminate].
    injection H as <-.
    apply (trackInvariant_same_track w); [reflexivity .. | exact Hinv].
  - unfold Saves.deleteCoaster in H. destruct storageWritable; [|discriminate].
    injection H as <-.
    apply (trackInvariant_same_track w); [reflexivity .. | exact Hinv].
  - destruct (importCoaster_track nowId nowTs storageWritable parsed w)
      as (Ht & Hl & Hc).
    apply (trackInvariant_same_track w); assumption.
Qed.

Lemma edited_invariant (w : Store.World) : edited w -> trackInvariant w.
Proof.
  induction 1 as [stored | w w' _ IH Hstep].
  - apply initialWorld_invariant.
  - exact (editStep_invariant w w' Hstep IH).
Qed.


Lemma loopWorld_edited : edited loopWorld.
Proof.
  unfold loopWorld.
  apply (edited_step _ _ (edited_step _ _ (edited_step _ _
           (edited_initial None) (edit_addTrackPoint _ _))
           (edit_addTrackPoint _ _)) (edit_createLoopAtPoint _ _ _)).
Qed.

(** X13. However the track is edited (by any sequence of the store's
    actions other than [loadCoaster]), no two track points share an id,
    and every id is ["point-" k] for a [k] up to the counter, so that
    the next added point gets an id no point has. *)
Theorem X13_track_point_ids_unique (w : Store.World) :
  edited w ->
  List.NoDup (map TrackPoint.id (Store.trackPoints (Store.state w))) /\
  (forall p, In p (Store.trackPoints (Store.state w)) ->
     exists k, (k <= Store.pointCounter w)%nat /\
               TrackPoint.id p = Store.pointId k) /\
  (forall p, In p (Store.trackPoints (Store.state w)) ->
     TrackPoint.id p <> Store.pointId (S (Store.pointCounter w))).
Proof.
  intros H. destruct (edited_invariant w H) as [H1 H2 _ _ _].
  split; [exact H2 | split; [exact H1|]].
  intros p Hin E. destruct (H1 p Hin) as (k & Hk & E').
  rewrite E' in E. apply pointId_inj in E. lia.
Qed.

Lemma X13_witness :
  List.NoDup (map TrackPoint.id (Store.trackPoints (Store.state loopWorld))).
Proof.
  exact (proj1 (X13_track_point_ids_unique loopWorld loopWorld_edited)).
Defined.

(** X14. However the track is edited (without [loadCoaster]), the loop
    flag of a track point is set exactly when a loop segment names the
    point as its entry, and no two loop segments have the same entry
    point. *)
Theorem X14_loop_flags_agree_with_segments (w : Store.World) :
  edited w ->
  (forall p, In p (Store.trackPoints (Store.state w)) ->
     (TrackPoint.hasLoop p = Some true <->
      exists seg, In seg (Store.loopSegments (Store.state w)) /\
                  LoopSegment.entryPointId seg = TrackPoint.id p)) /\
  List.NoDup (map LoopSegment.entryPointId
                (Store.loopSegments (Store.state w))).
Proof.
  intros H. destruct (edited_invariant w H) as [_ _ _ H4 H5].
  split; [|exact H4].
  intros p Hin. rewrite (H5 p Hin). apply entersLoop_true.
Qed.

Lemma X14_witness :
  List.NoDup (map LoopSegment.entryPointId
                (Store.loopSegments (Store.state loopWorld))).
Proof.
  exact (proj2 (X14_loop_flags_agree_with_segments loopWorld loopWorld_edited)).
Defined.

(** X15. A loop segment whose entry point was removed stays without a
    point: however the track is edited (without [loadCoaster]), the
    point that [addTrackPoint] appends is not the entry of any loop
    segment of the store. *)
Theorem X15_added_point_enters_no_loop
    (w : Store.World) (position : V3) (seg : LoopSegment.t) (p : TrackPoint.t) :
  edited w ->
  In seg (Store.loopSegments (Store.state (Store.addTrackPoint position w))) ->
  last (Store.trackPoints (Store.state (Store.addTrackPoint position w)))
  = Some p ->
  LoopSegment.entryPointId seg <> TrackPoint.id p.
Proof.
  intros H Hin Hlast E. destruct (edited_invariant w H) as [_ _ H3 _ _].
  cbn [Store.addTrackPoint Store.state Store.trackPoints Store.loopSegments
       Store.setTrack] in Hin, Hlast.
  rewrite last_snoc in Hlast. injection Hlast as <-.
  destruct (H3 seg Hin) as (k & Hk & E'). rewrite E' in E.
  cbn [TrackPoint.id] in E. apply pointId_inj in E. lia.
Qed.

Lemma X15_witness :
  LoopSegment.entryPointId loopSegment1 <> Store.pointId 3.
Proof.
  apply (X15_added_point_enters_no_loop
           (Store.removeTrackPoint (Store.pointId 1) loopWorld) zero
           loopSegment1
           (TrackPoint.mk (Store.pointId 3) zero 0 None)).
  - exact (edited_step _ _ loopWorld_edited (edit_removeTrackPoint _ _)).
  - cbn [Store.addTrackPoint Store.state Store.loopSegments Store.setTrack].
    rewrite removeTrackPoint_keeps_loopSegments, (proj2 loopWorld_track).
    left. reflexivity.
  - cbn [Store.addTrackPoint Store.state Store.trackPoints Store.setTrack].
    apply last_snoc.
Defined.


(* ================================================================== *)
(** * Further properties: the interpolated tilt *)
(* ================================================================== *)

Lemma Int_part_bounds (x : R) : IZR (Int_part x) <= x < IZR (Int_part x) + 1.
Proof. destruct (base_Int_part x). lra. Qed.

Lemma Int_part_nonneg (x : R) : 0 <= x -> (0 <= Int_part x)%Z.
Proof.
  intros Hx. pose proof (Int_part_bounds x) as [_ H].
  assert (H1 : IZR (-1) < IZR (Int_part x)) by (simpl; lra).
  apply lt_IZR in H1. lia.
Qed.

Lemma Int_part_negative (x : R) : x < 0 -> (Int_part x < 0)%Z.
Proof.
  intros Hx. pose proof (Int_part_bounds x) as [H _].
  apply lt_IZR. simpl. lra.
Qed.

Lemma Int_part_IZR (z : Z) : Int_part (IZR z) = z.
Proof.
  symmetry. apply Int_part_spec. lra.
Qed.

Lemma tiltAt_in_range (trackPoints : list TrackPoint.t) (i : Z) :
  (0 <= i < Z.of_nat (List.length trackPoints))%Z ->
  exists p, In p trackPoints /\
            nth_error trackPoints (Z.to_nat i) = Some p /\
            Rail.tiltAt trackPoints i = Some (TrackPoint.tilt p).
Proof.
  intros Hi. unfold Rail.tiltAt.
  replace (i <? 0)%Z with false by (symmetry; apply Z.ltb_ge; lia).
  destruct (nth_error trackPoints (Z.to_nat i)) as [p|] eqn:E.
  - exists p. split; [eapply nth_error_In, E | split; reflexivity].
  - apply nth_error_None in E. lia.
Qed.

Lemma tiltAt_outside (trackPoints : list TrackPoint.t) (i : Z) :
  (i < 0)%Z -> Rail.tiltAt trackPoints i = None.
Proof.
  intros Hi. unfold Rail.tiltAt.
  replace (i <? 0)%Z with true by (symmetry; apply Z.ltb_lt; lia).
  reflexivity.
Qed.

Lemma convex_between (a b f lo hi : R) :
  lo <= a <= hi -> lo <= b <= hi -> 0 <= f <= 1 ->
  lo <= a * (1 - f) + b * f <= hi.
Proof. intros Ha Hb Hf. nra. Qed.

(** A negative parameter makes [interpolateTilt] read outside the
    array. *)
Lemma interpolateTilt_negative (trackPoints : list TrackPoint.t) (t : R)
    (isLooped : bool) :
  (2 <= List.length trackPoints)%nat -> t < 0 ->
  Rail.interpolateTilt trackPoints t isLooped = None.
Proof.
  unfold Rail.interpolateTilt. cbv zeta.
  set (n := Z.of_nat (List.length trackPoints)).
  intros Hn Ht.
    replace (Nat.ltb _ 2) with false by (symmetry; apply Nat.ltb_ge; exact Hn).
    assert (Hn2 : (2 <= n)%Z) by (unfold n; lia).
    destruct isLooped.
    + assert (Hidx : (Int_part (t * IZR n) < 0)%Z).
      { apply Int_part_negative.
        assert (0 < IZR n) by (apply IZR_lt; lia). nra. }
      set (index := Int_part (t * IZR n)) in *.
      destruct (Z.eq_dec (Z.rem index n) 0%Z) as [E0|E0].
      * (* index is a multiple of n: the second read is out of range *)
        assert (H1 : (Z.rem (index + 1) n < 0)%Z).
        { pose proof (Z.rem_bound_pos_neg index n ltac:(lia) ltac:(lia)).
          pose proof (Z.rem_bound_pos_neg (index + 1) n) as Hb.
          destruct (Z.eq_dec index (-1)%Z) as [Em|Em].
          - rewrite Em in E0.
            assert (Z.rem (-1) n = -1)%Z by (apply Z.rem_small_iff; lia).
            lia.
          - specialize (Hb ltac:(lia) ltac:(lia)).
            destruct (Z.eq_dec (Z.rem (index + 1) n) 0%Z) as [E1|E1]; [|lia].
            exfalso.
            pose proof (Z.quot_rem' index n) as Q0.
            pose proof (Z.quot_rem' (index + 1) n) as Q1.
            rewrite E0 in Q0. rewrite E1 in Q1.
            assert (n * (Z.quot (index + 1) n - Z.quot index n) = 1)%Z by lia.
            assert (Hd : (n | 1)%Z)
              by (exists (Z.quot (index + 1) n - Z.quot index n)%Z; lia).
            apply Z.divide_1_r_nonneg in Hd; lia. }
        rewrite (tiltAt_outside _ _ H1).
        destruct (Rail.tiltAt trackPoints (Z.rem index n)); reflexivity.
      * pose proof (Z.rem_bound_pos_neg index n ltac:(lia) ltac:(lia)).
        rewrite (tiltAt_outside _ (Z.rem index n)) by lia. reflexivity.
    + assert (Hidx : (Int_part (t * IZR (n - 1)) < 0)%Z).
      { apply Int_part_negative.
        assert (0 < IZR (n - 1)) by (apply IZR_lt; lia). nra. }
      replace (n - 1 <=? Int_part (t * IZR (n - 1)))%Z with false
        by (symmetry; apply Z.leb_gt; lia).
      rewrite (tiltAt_outside _ _ Hidx). reflexivity.
Qed.

(** From 0 on, [interpolateTilt] returns a value between the bounds of
    the tilts. *)
Lemma interpolateTilt_between (trackPoints : list TrackPoint.t) (t : R)
    (isLooped : bool) (lo hi : R) :
  (2 <= List.length trackPoints)%nat -> 0 <= t ->
  (forall p, In p trackPoints -> lo <= TrackPoint.tilt p <= hi) ->
  exists tilt, Rail.interpolateTilt trackPoints t isLooped = Some tilt /\
               lo <= tilt <= hi.
Proof.
  unfold Rail.interpolateTilt. cbv zeta.
  set (n := Z.of_nat (List.length trackPoints)).
  intros Hn Ht Hb.
    replace (Nat.ltb _ 2) with false by (symmetry; apply Nat.ltb_ge; exact Hn).
    assert (Hn2 : (2 <= n)%Z) by (unfold n; lia).
    destruct isLooped.
    + assert (Hidx : (0 <= Int_part (t * IZR n))%Z).
      { apply Int_part_nonneg.
        assert (0 < IZR n) by (apply IZR_lt; lia). nra. }
      pose proof (Int_part_bounds (t * IZR n)) as Hf.
      set (index := Int_part (t * IZR n)) in *.
      pose proof (Z.rem_bound_pos index n ltac:(lia) ltac:(lia)) as H0.
      pose proof (Z.rem_bound_pos (index + 1) n ltac:(lia) ltac:(lia)) as H1.
      destruct (tiltAt_in_range trackPoints _ H0) as (p0 & Hp0 & _ & ->).
      destruct (tiltAt_in_range trackPoints _ H1) as (p1 & Hp1 & _ & ->).
      eexists. split; [reflexivity|].
      apply convex_between; [apply Hb, Hp0 | apply Hb, Hp1 | lra].
    + assert (Hidx : (0 <= Int_part (t * IZR (n - 1)))%Z).
      { apply Int_part_nonneg.
        assert (0 < IZR (n - 1)) by (apply IZR_lt; lia). nra. }
      pose proof (Int_part_bounds (t * IZR (n - 1))) as Hf.
      set (index := Int_part (t * IZR (n - 1))) in *.
      destruct (n - 1 <=? index)%Z eqn:E.
      * destruct (tiltAt_in_range trackPoints (n - 1)%Z ltac:(lia))
          as (p & Hp & _ & ->).
        eexists. split; [reflexivity | apply Hb, Hp].
      * apply Z.leb_gt in E.
        destruct (tiltAt_in_range trackPoints index ltac:(lia))
          as (p0 & Hp0 & _ & ->).
        destruct (tiltAt_in_range trackPoints (index + 1)%Z ltac:(lia))
          as (p1 & Hp1 & _ & ->).
        eexists. split; [reflexivity|].
        apply convex_between; [apply Hb, Hp0 | apply Hb, Hp1 | lra].
Qed.

(** X16. [interpolateTilt] gives 0 for fewer than two points. For two
    points or more it throws for every negative parameter, and for
    every parameter from 0 on (beyond 1 too) it returns a value that
    lies between any two bounds of the tilts of the track points. *)
Theorem X16_interpolated_tilt_domain_and_bounds
    (trackPoints : list TrackPoint.t) (t : R) (isLooped : bool) (lo hi : R) :
  ((List.length trackPoints < 2)%nat ->
   Rail.interpolateTilt trackPoints t isLooped = Some 0) /\
  ((2 <= List.length trackPoints)%nat -> t < 0 ->
   Rail.interpolateTilt trackPoints t isLooped = None) /\
  ((2 <= List.length trackPoints)%nat -> 0 <= t ->
   (forall p, In p trackPoints -> lo <= TrackPoint.tilt p <= hi) ->
   exists tilt, Rail.interpolateTilt trackPoints t isLooped = Some tilt /\
                lo <= tilt <= hi).
Proof.
  split; [|split].
  - intros H. unfold Rail.interpolateTilt.
    replace (Nat.ltb _ 2) with true
      by (symmetry; apply Nat.ltb_lt; exact H). reflexivity.
  - apply interpolateTilt_negative.
  - apply interpolateTilt_between.
Qed.


Lemma X16_witness :
  exists tilt, Rail.interpolateTilt lineTrack (1 / 2) false = Some tilt /\
               0 <= tilt <= 0.
Proof.
  apply (proj2 (proj2 (X16_interpolated_tilt_domain_and_bounds
                         lineTrack (1 / 2) false 0 0))).
  - simpl. lia.
  - lra.
  - intros p [<- | [<- | []]]; simpl; lra.
Defined.

Lemma tiltAt_nth (trackPoints : list TrackPoint.t) (k : nat) (p : TrackPoint.t) :
  nth_error trackPoints k = Some p ->
  Rail.tiltAt trackPoints (Z.of_nat k) = Some (TrackPoint.tilt p).
Proof.
  intros H. unfold Rail.tiltAt.
  replace (Z.of_nat k <? 0)%Z with false by (symmetry; apply Z.ltb_ge; lia).
  rewrite Nat2Z.id, H. reflexivity.
Qed.

(** X17. At the parameter of a track point the interpolated tilt is the
    tilt of that point: at [k / (n - 1)] on an open track of [n] points,
    at [k / n] on a closed one. *)
Theorem X17_interpolated_tilt_at_track_points
    (trackPoints : list TrackPoint.t) (isLooped : bool) (k : nat)
    (p : TrackPoint.t) :
  (2 <= List.length trackPoints)%nat ->
  nth_error trackPoints k = Some p ->
  Rail.interpolateTilt trackPoints
    (INR k / INR (totalSplineSegmentsOf (List.length trackPoints) isLooped))
    isLooped
  = Some (TrackPoint.tilt p).
Proof.
  intros Hn Hk.
  assert (Hkn : (k < List.length trackPoints)%nat)
    by (apply nth_error_Some; congruence).
  unfold Rail.interpolateTilt. cbv zeta.
  replace (Nat.ltb _ 2) with false by (symmetry; apply Nat.ltb_ge; exact Hn).
  set (n := List.length trackPoints) in *.
  unfold totalSplineSegmentsOf.
  destruct isLooped.
  - assert (Hs : INR k / INR n * IZR (Z.of_nat n) = IZR (Z.of_nat k)).
    { rewrite <- !INR_IZR_INZ. field. apply not_0_INR. lia. }
    rewrite Hs, Int_part_IZR.
    rewrite Z.rem_small by lia.
    rewrite (tiltAt_nth _ _ _ Hk).
    assert (H1 : (0 <= Z.rem (Z.of_nat k + 1) (Z.of_nat n) < Z.of_nat n)%Z)
      by (apply Z.rem_bound_pos; lia).
    destruct (tiltAt_in_range trackPoints _ H1) as (p1 & _ & _ & ->).
    f_equal. ring.
  - assert (Hs : INR k / INR (n - 1) * IZR (Z.of_nat n - 1) = IZR (Z.of_nat k)).
    { replace (Z.of_nat n - 1)%Z with (Z.of_nat (n - 1)) by lia.
      rewrite <- !INR_IZR_INZ. field. apply not_0_INR. lia. }
    rewrite Hs, Int_part_IZR.
    destruct (Z.of_nat n - 1 <=? Z.of_nat k)%Z eqn:E.
    + apply Z.leb_le in E.
      replace (Z.of_nat n - 1)%Z with (Z.of_nat k) by lia.
      apply tiltAt_nth, Hk.
    + apply Z.leb_gt in E. rewrite (tiltAt_nth _ _ _ Hk).
      destruct (tiltAt_in_range trackPoints (Z.of_nat k + 1)%Z ltac:(lia))
        as (p1 & _ & _ & ->).
      f_equal. ring.
Qed.

Lemma X17_witness :
  Rail.interpolateTilt loopTrack (INR 1 / INR 1) false = Some 0.
Proof.
  apply (X17_interpolated_tilt_at_track_points loopTrack false 1
           (TrackPoint.mk (Store.pointId 2) (mkV3 10 0 0) 0 None)).
  - simpl. lia.
  - reflexivity.
Defined.


(* ================================================================== *)
(** * Further properties: the rail samples *)
(* ================================================================== *)

Lemma tilts_bounded (trackPoints : list TrackPoint.t) :
  exists lo hi, forall p, In p trackPoints -> lo <= TrackPoint.tilt p <= hi.
Proof.
  induction trackPoints as [|q l (lo & hi & IH)].
  - exists 0, 0. intros p [].
  - exists (Rmin lo (TrackPoint.tilt q)), (Rmax hi (TrackPoint.tilt q)).
    intros p [<- | Hin].
    + split; [apply Rmin_r | apply Rmax_r].
    + pose proof (IH p Hin). pose proof (Rmin_l lo (TrackPoint.tilt q)).
      pose proof (Rmax_l hi (TrackPoint.tilt q)). lra.
Qed.

Lemma interpolateTilt_defined (trackPoints : list TrackPoint.t) (t : R)
    (isLooped : bool) :
  (2 <= List.length trackPoints)%nat -> 0 <= t ->
  exists tilt, Rail.interpolateTilt trackPoints t isLooped = Some tilt.
Proof.
  intros Hn Ht. destruct (tilts_bounded trackPoints) as (lo & hi & Hb).
  destruct (interpolateTilt_between trackPoints t isLooped lo hi Hn Ht Hb)
    as (tilt & H & _).
  exists tilt. exact H.
Qed.

Lemma globalT_nonneg (pointIdx s total : nat) :
  0 <= (INR pointIdx + INR s / INR Rail.numSamplesPerSegment) / INR total.
Proof.
  pose proof (pos_INR pointIdx). pose proof (pos_INR s).
  pose proof (pos_INR total) as Ht.
  assert (H20 : INR Rail.numSamplesPerSegment = 20) by (simpl; lra).
  rewrite H20.
  assert (0 <= INR pointIdx + INR s / 20) by lra.
  destruct Ht as [Ht | <-].
  - apply Rmult_le_pos; [assumption|].
    left. apply Rinv_0_lt_compat, Ht.
  - unfold Rdiv at 1. rewrite Rinv_0. lra.
Qed.

Section RailLoop.
Variable baseSpline : Curve.
Variable loopSegments : list LoopSegment.t.
Variable trackPoints : list TrackPoint.t.
Variable isLooped : bool.
Hypothesis enough_points : (2 <= List.length trackPoints)%nat.

(** The samples of a span: none throws, and each turn pushes one. *)
Lemma splineSamples_defined pointIdx total (l : list nat) :
  forall st,
  exists st',
    fold_left (Rail.splineSampleStep baseSpline trackPoints isLooped pointIdx
                 total) l (Some st) = Some st' /\
    List.length (Rail.railData st')
    = (List.length (Rail.railData st) + List.length l)%nat /\
    Rail.railRollOffset st' = Rail.railRollOffset st.
Proof.
  induction l as [|s l IH]; intros st; cbn [fold_left].
  - exists st. repeat split. cbn. lia.
  - unfold Rail.splineSampleStep at 2. cbv zeta.
    destruct (interpolateTilt_defined trackPoints
                ((INR pointIdx + INR s / INR Rail.numSamplesPerSegment)
                 / INR total) isLooped enough_points
                (globalT_nonneg pointIdx s total)) as (tilt & ->).
    match goal with
    | |- context [fold_left _ l (Some ?s1)] =>
        destruct (IH s1) as (st' & H1 & H2 & H3)
    end.
    exists st'. split; [exact H1|]. split.
    + rewrite H2. cbn [Rail.railData]. rewrite length_app. cbn. lia.
    + rewrite H3. reflexivity.
Qed.

Lemma railPointStep_defined st pointIdx currentPoint :
  exists st',
    Rail.railPointStep baseSpline (buildLoopMap loopSegments) trackPoints
      isLooped (Some st) pointIdx currentPoint = Some st' /\
    List.length (Rail.railData st')
    = (List.length (Rail.railData st)
       + (if entersLoop loopSegments currentPoint then 65 else 0)
       + (if (Nat.leb (List.length trackPoints - 1) pointIdx
              && negb isLooped)%bool then 0 else 20))%nat.
Proof.
  unfold Rail.railPointStep. cbv zeta.
  pose proof (buildLoopMap_lookup_some loopSegments (TrackPoint.id currentPoint))
    as Hs.
  fold (entersLoop loopSegments currentPoint) in Hs.
  match goal with
  | |- context [if ?c then Some ?s1 else _] => set (st1 := s1); set (cond := c)
  end.
  assert (H1 : List.length (Rail.railData st1)
               = (List.length (Rail.railData st)
                  + (if entersLoop loopSegments currentPoint then 65 else 0))%nat).
  { unfold st1.
    destruct (buildLoopMap loopSegments !! TrackPoint.id currentPoint) as [seg|].
    - replace (entersLoop loopSegments currentPoint) with true
        by (symmetry; apply Hs; eexists; reflexivity).
      cbn [Rail.railData]. rewrite length_app, length_map, length_seq.
      reflexivity.
    - destruct (entersLoop loopSegments currentPoint).
      + destruct (proj2 Hs eq_refl) as [x Hx]. discriminate.
      + lia. }
  destruct cond.
  - exists st1. split; [reflexivity | lia].
  - destruct (splineSamples_defined pointIdx
                (totalSplineSegmentsOf (List.length trackPoints) isLooped)
                (seq 0 Rail.numSamplesPerSegment) st1) as (st' & H2 & H3 & _).
    exists st'. split; [exact H2|]. rewrite H3, H1, length_seq. reflexivity.
Qed.

Lemma railLoop_defined (points : list TrackPoint.t) :
  forall st pointIdx,
    (pointIdx + List.length points = List.length trackPoints)%nat ->
    exists st',
      Rail.railLoop baseSpline (buildLoopMap loopSegments) trackPoints isLooped
        (Some st) pointIdx points = Some st' /\
      List.length (Rail.railData st')
      = (List.length (Rail.railData st)
         + 65 * loopEntryCount loopSegments points
         + 20 * (if isLooped then List.length points
                 else List.length points - 1))%nat.
Proof.
  unfold loopEntryCount.
  induction points as [|p rest IH]; intros st i Hi; cbn [Rail.railLoop].
  - exists st. split; [reflexivity|]. cbn. destruct isLooped; lia.
  - destruct (railPointStep_defined st i p) as (st1 & -> & H1).
    destruct (IH st1 (S i)) as (st' & H2 & H3);
      [cbn [List.length] in Hi; lia|].
    exists st'. split; [exact H2|]. rewrite H3, H1.
    cbn [List.filter List.length] in *.
    destruct (entersLoop loopSegments p); cbn [List.length];
      destruct isLooped; cbn [negb]; rewrite ?andb_false_r, ?andb_true_r;
      try lia.
    + destruct (Nat.leb (List.length trackPoints - 1) i) eqn:E;
        [apply Nat.leb_le in E | apply Nat.leb_gt in E]; lia.
    + destruct (Nat.leb (List.length trackPoints - 1) i) eqn:E;
        [apply Nat.leb_le in E | apply Nat.leb_gt in E]; lia.
Qed.

End RailLoop.

(** The rail is computed without a throw, and has as many samples as
    the loops and spans ask for. *)
Lemma railDataMemo_defined
    (CatmullRomCurve3 : list V3 -> bool -> Curve)
    (trackPoints : list TrackPoint.t) (loopSegments : list LoopSegment.t)
    (isLooped : bool) :
  exists railData,
    Rail.railDataMemo CatmullRomCurve3 trackPoints loopSegments isLooped
    = Some railData /\
    List.length railData
    = if Nat.ltb (List.length trackPoints) 2 then 0%nat
      else (65 * loopEntryCount loopSegments trackPoints
            + 20 * (if isLooped then List.length trackPoints
                    else List.length trackPoints - 1)
            + (if isLooped then 0 else 1))%nat.
Proof.
  unfold Rail.railDataMemo.
  destruct (Nat.ltb (List.length trackPoints) 2) eqn:En.
  - exists []. split; reflexivity.
  - apply Nat.ltb_ge in En. cbv zeta.
    match goal with
    | |- context [Rail.railLoop ?c ?m ?tps ?l (Some ?s0) 0 ?pts] =>
        destruct (railLoop_defined c loopSegments trackPoints isLooped En
                    trackPoints s0 0%nat eq_refl) as (st & -> & Hlen)
    end.
    cbn [Rail.railData List.length] in Hlen.
    replace (Nat.leb 2 (List.length trackPoints)) with true
      by (symmetry; apply Nat.leb_le; exact En).
    destruct isLooped; cbn [negb andb].
    + exists (Rail.railData st). split; [reflexivity | lia].
    + unfold Rail.lastRailSample. cbv zeta.
      destruct (tiltAt_in_range trackPoints
                  (Z.of_nat (List.length trackPoints) - 1)%Z ltac:(lia))
        as (p & _ & _ & ->).
      eexists. split; [reflexivity|]. rewrite length_app. cbn [List.length]. lia.
Qed.

(** X18. Computing the rail never throws, and it gives 65 samples for
    every track point that is the entry of a loop segment, 20 for every
    span of the curve, and one closing sample on an open track; fewer
    than two points give no sample. *)
Theorem X18_rail_sample_count
    (CatmullRomCurve3 : list V3 -> bool -> Curve)
    (trackPoints : list TrackPoint.t) (loopSegments : list LoopSegment.t)
    (isLooped : bool) :
  exists railData,
    Rail.railDataMemo CatmullRomCurve3 trackPoints loopSegments isLooped
    = Some railData /\
    List.length railData
    = if Nat.ltb (List.length trackPoints) 2 then 0%nat
      else (65 * loopEntryCount loopSegments trackPoints
            + 20 * (if isLooped then List.length trackPoints
                    else List.length trackPoints - 1)
            + (if isLooped then 0 else 1))%nat.
Proof. apply railDataMemo_defined. Qed.


Lemma rollNormal_raw (frame : BarrelRollFrame) (t : R) :
  frameOrthonormal frame ->
  Rail.rollNormal frame t
  = addScaledVector (addScaledVector zero (right frame) (cos (theta t)))
                    (up frame) (sin (theta t)) /\
  lengthSq (Rail.rollNormal frame t) = 1.
Proof.
  intros Hf. destruct (frame_dots frame Hf) as (_ & Hu & Hr & _ & _ & Hur).
  assert (H1 : lengthSq (addScaledVector
                           (addScaledVector zero (right frame) (cos (theta t)))
                           (up frame) (sin (theta t))) = 1).
  { rewrite lengthSq_two_axes, Hu, Hr. rewrite (dot_comm (right frame)), Hur.
    pose proof (sin2_cos2_mult (theta t)). nra. }
  assert (H2 : Rail.rollNormal frame t
               = addScaledVector
                   (addScaledVector zero (right frame) (cos (theta t)))
                   (up frame) (sin (theta t))).
  { unfold Rail.rollNormal. apply normalize_of_unit, length_1_lengthSq, H1. }
  split; [exact H2 | rewrite H2; exact H1].
Qed.

(** The normal of every good rail sample is a unit vector. *)
Lemma railSampleGood_normal (smp : Rail.RailSample.t) :
  railSampleGood smp -> lengthSq (Rail.RailSample.normal smp) = 1.
Proof.
  intros [(_ & _ & Hn & _) | (frame & t & Hf & _ & ->)].
  - apply length_1_lengthSq, Hn.
  - cbn [Rail.rollRailSample Rail.RailSample.normal].
    apply (rollNormal_raw frame t Hf).
Qed.

(** Tangent, up and normal of a good rail sample are unit vectors, and
    its up is perpendicular to its normal. *)
Lemma railSampleGood_units (smp : Rail.RailSample.t) :
  railSampleGood smp ->
  length (Rail.RailSample.tangent smp) = 1 /\
  length (Rail.RailSample.up smp) = 1 /\
  length (Rail.RailSample.normal smp) = 1 /\
  dot (Rail.RailSample.up smp) (Rail.RailSample.normal smp) = 0.
Proof.
  intros [(Ht & Hu & Hn & _ & _ & Hun) | (frame & t & Hf & Hp & ->)].
  - repeat split; assumption.
  - cbn [Rail.rollRailSample Rail.RailSample.normal Rail.RailSample.tangent
         Rail.RailSample.up].
    destruct (rollNormal_raw frame t Hf) as [Hraw Hn].
    split; [apply rollTangent_unit; assumption|].
    split; [apply rollUp_unit; assumption|].
    split; [apply length_1_lengthSq, Hn|].
    rewrite Hraw, (rollUp_raw frame Hf).
    destruct (frame_dots frame Hf) as (_ & Hu & Hr & _ & _ & Hur).
    unfold dot in *. unfold addScaledVector, zero. cbn [vx vy vz].
    cbn [vx vy vz] in Hu, Hr, Hur.
    set (c := cos (theta t)). set (s := sin (theta t)).
    transitivity
      (c * s * (vx (up frame) * vx (up frame) + vy (up frame) * vy (up frame)
                + vz (up frame) * vz (up frame))
       - c * s * (vx (right frame) * vx (right frame)
                  + vy (right frame) * vy (right frame)
                  + vz (right frame) * vz (right frame))
       + (c * c - s * s)
         * (vx (up frame) * vx (right frame) + vy (up frame) * vy (right frame)
            + vz (up frame) * vz (right frame)));
      [ring | rewrite Hu, Hr, Hur; ring].
Qed.

Section RailFrames.
Variable baseSpline : Curve.
Variable loopMap : gmap string LoopSegment.t.
Variable trackPoints : list TrackPoint.t.
Variable isLooped : bool.
Hypothesis tangent_nonzero : forall t, lengthSq (getTangent baseSpline t) <> 0.
Hypothesis pitch_nonzero :
  forall k seg, loopMap !! k = Some seg -> LoopSegment.pitch seg <> 0.

Lemma splineSampleStep_good pointIdx total st s st' :
  railStateGood st ->
  Rail.splineSampleStep baseSpline trackPoints isLooped pointIdx total
    (Some st) s = Some st' ->
  railStateGood st'.
Proof.
  intros [Hpair Hall]. unfold Rail.splineSampleStep. cbv zeta.
  destruct (Rail.interpolateTilt _ _ _) as [tilt|]; [|discriminate].
  set (e := normalize
              (getTangent baseSpline
                 ((INR pointIdx + INR s / INR Rail.numSamplesPerSegment)
                  / INR total))).
  intros H. injection H as <-.
  assert (He : lengthSq e = 1)
    by (apply length_1_lengthSq, normalize_unit, tangent_nonzero).
  pose proof (railUp_pair _ _ e Hpair He) as Hnew.
  split; [exact Hnew|]. cbn [Rail.railData].
  apply Forall_app. split; [exact Hall|].
  constructor; [|constructor]. left.
  unfold railFrameOrthonormal.
  cbn [Rail.RailSample.tangent Rail.RailSample.up Rail.RailSample.normal].
  destruct (cross_of_pair _ _ Hnew) as [-> Hortho]. exact Hortho.
Qed.

Lemma splineSamples_good pointIdx total (l : list nat) :
  forall st st',
    railStateGood st ->
    fold_left (Rail.splineSampleStep baseSpline trackPoints isLooped pointIdx
                 total) l (Some st) = Some st' ->
    railStateGood st'.
Proof.
  induction l as [|s l IH]; intros st st' Hg; cbn [fold_left].
  - intros H. injection H as <-. exact Hg.
  - destruct (Rail.splineSampleStep baseSpline trackPoints isLooped pointIdx
                total (Some st) s) as [st1|] eqn:E.
    + apply IH. eapply splineSampleStep_good; [exact Hg | exact E].
    + intros H. exfalso. clear -H.
      induction l as [|x l IHl]; cbn [fold_left] in H; [discriminate|].
      apply IHl. exact H.
Qed.

Lemma railPointStep_good st pointIdx currentPoint st' :
  railStateGood st ->
  Rail.railPointStep baseSpline loopMap trackPoints isLooped (Some st) pointIdx
    currentPoint = Some st' ->
  railStateGood st'.
Proof.
  intros [Hpair Hall]. unfold Rail.railPointStep. cbv zeta.
  match goal with
  | |- (if ?c then Some ?s1 else _) = _ -> _ => set (st1 := s1); set (cond := c)
  end.
  assert (H1 : railStateGood st1).
  { unfold st1. destruct (loopMap !! TrackPoint.id currentPoint) as [seg|] eqn:E;
      [|split; assumption].
    destruct (computeRollFrame_orthonormal baseSpline
                (INR pointIdx
                 / INR (totalSplineSegmentsOf (List.length trackPoints) isLooped))
                _ _ (LoopSegment.radius seg) (LoopSegment.pitch seg)
                (Rail.railRollOffset st) Hpair (tangent_nonzero _))
      as (Hframe & Hpair' & Hpit & _).
    split; [exact Hpair'|]. cbn [Rail.railData].
    apply Forall_app. split; [exact Hall|].
    apply List.Forall_forall. intros smp Hin. apply in_map_iff in Hin.
    destruct Hin as (i & <- & _). right.
    eexists _, _. split; [exact Hframe|]. split; [|reflexivity].
    rewrite Hpit. exact (pitch_nonzero _ _ E). }
  destruct cond.
  - intros H. injection H as <-. exact H1.
  - apply splineSamples_good, H1.
Qed.

Lemma railLoop_none (points : list TrackPoint.t) :
  forall pointIdx,
    Rail.railLoop baseSpline loopMap trackPoints isLooped None pointIdx points
    = None.
Proof.
  induction points as [|p rest IH]; intros i; cbn [Rail.railLoop];
    [reflexivity|].
  apply IH.
Qed.

Lemma railLoop_good (points : list TrackPoint.t) :
  forall st pointIdx st',
    railStateGood st ->
    Rail.railLoop baseSpline loopMap trackPoints isLooped (Some st) pointIdx
      points = Some st' ->
    railStateGood st'.
Proof.
  induction points as [|p rest IH]; intros st i st' Hg; cbn [Rail.railLoop].
  - intros H. injection H as <-. exact Hg.
  - destruct (Rail.railPointStep baseSpline loopMap trackPoints isLooped
                (Some st) i p) as [st1|] eqn:E.
    + apply IH. eapply railPointStep_good; [exact Hg | exact E].
    + rewrite railLoop_none. discriminate.
Qed.

End RailFrames.

(** The samples the rail loop pushes are good; on an open track the
    closing sample comes after them. *)
Lemma railDataMemo_good CatmullRomCurve3 trackPoints loopSegments isLooped
    railData :
  (forall t,
      lengthSq (getTangent
                  (CatmullRomCurve3 (map TrackPoint.position trackPoints)
                     isLooped) t) <> 0) ->
  (forall seg, In seg loopSegments -> LoopSegment.pitch seg <> 0) ->
  Rail.railDataMemo CatmullRomCurve3 trackPoints loopSegments isLooped
  = Some railData ->
  Forall railSampleGood (if isLooped then railData else removelast railData).
Proof.
  intros Hnz Hpitch. unfold Rail.railDataMemo.
  destruct (Nat.ltb (List.length trackPoints) 2) eqn:En.
  - intros H. injection H as <-. destruct isLooped; constructor.
  - cbv zeta.
    destruct (Rail.railLoop _ _ _ _ _ _ _) as [st|] eqn:E; [|discriminate].
    assert (Hg : railStateGood st).
    { eapply railLoop_good; [exact Hnz | | | exact E].
      - intros k seg Hk. apply Hpitch. eapply buildLoopMap_lookup_in, Hk.
      - split; [apply initial_pair, Hnz | constructor]. }
    apply Nat.ltb_ge in En.
    replace (Nat.leb 2 (List.length trackPoints)) with true
      by (symmetry; apply Nat.leb_le; exact En).
    destruct isLooped; cbn [negb andb].
    + intros H. injection H as <-. exact (proj2 Hg).
    + destruct (Rail.lastRailSample _ _ _) as [smp|]; [|discriminate].
      intros H. injection H as <-. rewrite removelast_last. exact (proj2 Hg).
Qed.

(** X19. When the curve's tangent vanishes nowhere and no loop segment
    has zero pitch, every rail sample (the closing sample of an open
    track apart) has a unit tangent, a unit up and a unit normal, with
    the up perpendicular to the normal; a span sample has moreover an
    orthonormal frame, and a loop sample is the closed form evaluated on
    an orthonormal loop frame. *)
Theorem X19_rail_frames
    (CatmullRomCurve3 : list V3 -> bool -> Curve)
    (trackPoints : list TrackPoint.t) (loopSegments : list LoopSegment.t)
    (isLooped : bool) (railData : list Rail.RailSample.t)
    (smp : Rail.RailSample.t) :
  (forall t,
      lengthSq (getTangent
                  (CatmullRomCurve3 (map TrackPoint.position trackPoints)
                     isLooped) t) <> 0) ->
  (forall seg, In seg loopSegments -> LoopSegment.pitch seg <> 0) ->
  Rail.railDataMemo CatmullRomCurve3 trackPoints loopSegments isLooped
  = Some railData ->
  In smp (if isLooped then railData else removelast railData) ->
  (length (Rail.RailSample.tangent smp) = 1 /\
   length (Rail.RailSample.up smp) = 1 /\
   length (Rail.RailSample.normal smp) = 1 /\
   dot (Rail.RailSample.up smp) (Rail.RailSample.normal smp) = 0) /\
  (railFrameOrthonormal smp \/ railLoopSample smp).
Proof.
  intros Hnz Hpitch Hmemo Hin.
  pose proof (railDataMemo_good _ _ _ _ _ Hnz Hpitch Hmemo) as Hall.
  rewrite List.Forall_forall in Hall. specialize (Hall smp Hin).
  split; [apply railSampleGood_units, Hall | exact Hall].
Qed.

(** X20. Under the same conditions the two rails run 0.6 apart: at
    every rail sample (the closing sample of an open track apart) the
    left and the right rail point are at distance 0.6. *)
Theorem X20_rail_gauge
    (CatmullRomCurve3 : list V3 -> bool -> Curve)
    (trackPoints : list TrackPoint.t) (loopSegments : list LoopSegment.t)
    (isLooped : bool) (railData : list Rail.RailSample.t)
    (smp : Rail.RailSample.t) :
  (forall t,
      lengthSq (getTangent
                  (CatmullRomCurve3 (map TrackPoint.position trackPoints)
                     isLooped) t) <> 0) ->
  (forall seg, In seg loopSegments -> LoopSegment.pitch seg <> 0) ->
  Rail.railDataMemo CatmullRomCurve3 trackPoints loopSegments isLooped
  = Some railData ->
  In smp (if isLooped then railData else removelast railData) ->
  distanceTo (Rail.leftRailPoint smp) (Rail.rightRailPoint smp) = 0.6.
Proof.
  intros Hnz Hpitch Hmemo Hin.
  pose proof (railDataMemo_good _ _ _ _ _ Hnz Hpitch Hmemo) as Hall.
  rewrite List.Forall_forall in Hall. specialize (Hall smp Hin).
  pose proof (railSampleGood_normal smp Hall) as Hn.
  unfold distanceTo, length.
  assert (E : lengthSq (sub (Rail.leftRailPoint smp) (Rail.rightRailPoint smp))
              = (2 * Rail.railOffset) * (2 * Rail.railOffset)
                * lengthSq (Rail.RailSample.normal smp)).
  { unfold lengthSq, dot, sub, Rail.leftRailPoint, Rail.rightRailPoint.
    cbn [vx vy vz]. ring. }
  rewrite E, Hn, Rmult_1_r, sqrt_square; unfold Rail.railOffset; lra.
Qed.


Lemma lineRail_memo :
  Rail.railDataMemo lineSpline lineTrack [] false = Some lineRail /\
  List.length lineRail = 21%nat.
Proof.
  destruct (railDataMemo_defined lineSpline lineTrack [] false)
    as (railData & H & Hlen).
  unfold lineRail. rewrite H. split; [reflexivity | exact Hlen].
Qed.

Lemma firstLineRailSample_in : In firstLineRailSample (removelast lineRail).
Proof.
  apply nth_In.
  destruct lineRail_memo as [_ Hlen].
  assert (Hne : lineRail <> []) by (intros E; rewrite E in Hlen; discriminate).
  pose proof (app_removelast_last (Rail.RailSample.mk zero zero zero zero 0) Hne)
    as E.
  apply (f_equal (@List.length _)) in E. rewrite length_app in E.
  cbn [List.length] in E. lia.
Qed.

Lemma no_loop_segment :
  forall seg : LoopSegment.t, In seg [] -> LoopSegment.pitch seg <> 0.
Proof. intros seg []. Qed.

Lemma X19_witness :
  length (Rail.RailSample.normal firstLineRailSample) = 1.
Proof.
  exact (proj1 (proj2 (proj2 (proj1
           (X19_rail_frames lineSpline lineTrack [] false lineRail
              firstLineRailSample lineCurve_tangent_nonzero no_loop_segment
              (proj1 lineRail_memo) firstLineRailSample_in))))).
Defined.

Lemma X20_witness :
  distanceTo (Rail.leftRailPoint firstLineRailSample)
             (Rail.rightRailPoint firstLineRailSample) = 0.6.
Proof.
  exact (X20_rail_gauge lineSpline lineTrack [] false lineRail
           firstLineRailSample lineCurve_tangent_nonzero no_loop_segment
           (proj1 lineRail_memo) firstLineRailSample_in).
Defined.


(* ================================================================== *)
(** * Further properties: the camera's up *)
(* ================================================================== *)

(** X21. The up that the camera carries from one spline sample to the
    next is perpendicular to the new (unit) tangent, and it is a unit
    vector unless the tangent is vertical. *)
Theorem X21_camera_up_perpendicular_to_tangent
    (prevTangent tangent transportedUp : V3) :
  lengthSq tangent = 1 ->
  dot (transportCameraUp prevTangent tangent transportedUp) tangent = 0 /\
  (vx tangent <> 0 \/ vz tangent <> 0 ->
   length (transportCameraUp prevTangent tangent transportedUp) = 1).
Proof.
  intros Ht. unfold transportCameraUp. cbv zeta.
  match goal with
  | |- context [rejectFrom ?x tangent] =>
      match x with
      | worldUp => fail 1
      | _ => set (carried := x)
      end
  end.
  destruct (Rltb 0.0001 (lengthSq (rejectFrom carried tangent))) eqn:E.
  - apply Rltb_true in E. split.
    + apply normalize_perpendicular, dot_rejectFrom, Ht.
    + intros _. apply normalize_unit. lra.
  - split.
    + apply normalize_perpendicular, dot_rejectFrom, Ht.
    + intros Hv. apply normalize_unit.
      rewrite lengthSq_rejectFrom by exact Ht.
      unfold lengthSq, dot, worldUp in *. cbn [vx vy vz] in *.
      assert (0 < vx tangent * vx tangent + vz tangent * vz tangent)
        by (destruct Hv; nra).
      nra.
Qed.

Lemma X21_witness :
  dot (transportCameraUp (mkV3 1 0 0) (mkV3 1 0 0) (mkV3 0 1 0)) (mkV3 1 0 0) = 0.
Proof.
  apply (X21_camera_up_perpendicular_to_tangent (mkV3 1 0 0) (mkV3 1 0 0)
           (mkV3 0 1 0)).
  unfold lengthSq, dot. cbn [vx vy vz]. ring.
Defined.


(* ================================================================== *)
(** * Further properties: loop segments without a track point *)
(* ================================================================== *)

(** The loop map gives a key its last segment. *)
Lemma buildLoopMap_lookup (segs : list LoopSegment.t) (k : string) :
  buildLoopMap segs !! k
  = List.find (fun seg => String.eqb (LoopSegment.entryPointId seg) k)
              (rev segs).
Proof.
  unfold buildLoopMap.
  induction segs as [|seg segs IH] using rev_ind.
  - cbn. apply lookup_empty.
  - rewrite fold_left_app, rev_app_distr. cbn [fold_left rev app List.find].
    destruct (String.eqb (LoopSegment.entryPointId seg) k) eqn:E.
    + apply String.eqb_eq in E. rewrite E. apply lookup_insert_eq.
    + apply String.eqb_neq in E. rewrite lookup_insert_ne by exact E. exact IH.
Qed.

Lemma find_app_general {A : Type} (f : A -> bool) (l1 l2 : list A) :
  List.find f (l1 ++ l2)
  = match List.find f l1 with
    | Some x => Some x
    | None => List.find f l2
    end.
Proof.
  induction l1 as [|a l1 IH]; [reflexivity|].
  cbn [app List.find]. destruct (f a); [reflexivity | exact IH].
Qed.

(** A segment does not show in the lookups of other keys. *)
Lemma buildLoopMap_without (segs1 segs2 : list LoopSegment.t)
    (seg : LoopSegment.t) (k : string) :
  k <> LoopSegment.entryPointId seg ->
  buildLoopMap (segs1 ++ seg :: segs2) !! k = buildLoopMap (segs1 ++ segs2) !! k.
Proof.
  intros Hk. rewrite !buildLoopMap_lookup, !rev_app_distr. cbn [rev].
  rewrite <- app_assoc, !find_app_general. cbn [app List.find].
  replace (String.eqb (LoopSegment.entryPointId seg) k) with false
    by (symmetry; apply String.eqb_neq; congruence).
  reflexivity.
Qed.

Section SameLookups.
Variable curve : Curve.
Variables loopMap loopMap' : gmap string LoopSegment.t.
Variable isLooped : bool.

Lemma buildLoop_same_lookups numPoints (points : list TrackPoint.t) :
  (forall p, In p points ->
             loopMap !! TrackPoint.id p = loopMap' !! TrackPoint.id p) ->
  forall st i,
    buildLoop curve loopMap numPoints isLooped st i points
    = buildLoop curve loopMap' numPoints isLooped st i points.
Proof.
  induction points as [|p rest IH]; intros H st i; cbn [buildLoop];
    [reflexivity|].
  replace (buildStep curve loopMap numPoints isLooped st i p)
    with (buildStep curve loopMap' numPoints isLooped st i p)
    by (unfold buildStep; rewrite (H p (or_introl eq_refl)); reflexivity).
  apply IH. intros q Hq. apply H. right. exact Hq.
Qed.

Lemma accumulateRollOffset_same_lookups total pointIndex
    (points : list TrackPoint.t) :
  (forall p, In p points ->
             loopMap !! TrackPoint.id p = loopMap' !! TrackPoint.id p) ->
  forall off i,
    accumulateRollOffset curve loopMap total pointIndex off i points
    = accumulateRollOffset curve loopMap' total pointIndex off i points.
Proof.
  induction points as [|p rest IH]; intros H off i;
    cbn [accumulateRollOffset]; [reflexivity|].
  rewrite (H p (or_introl eq_refl)).
  destruct (Nat.leb i pointIndex); [|reflexivity].
  apply IH. intros q Hq. apply H. right. exact Hq.
Qed.

Lemma railLoop_same_lookups trackPoints (points : list TrackPoint.t) :
  (forall p, In p points ->
             loopMap !! TrackPoint.id p = loopMap' !! TrackPoint.id p) ->
  forall st i,
    Rail.railLoop curve loopMap trackPoints isLooped st i points
    = Rail.railLoop curve loopMap' trackPoints isLooped st i points.
Proof.
  induction points as [|p rest IH]; intros H st i; cbn [Rail.railLoop];
    [reflexivity|].
  replace (Rail.railPointStep curve loopMap trackPoints isLooped st i p)
    with (Rail.railPointStep curve loopMap' trackPoints isLooped st i p)
    by (unfold Rail.railPointStep; rewrite (H p (or_introl eq_refl));
        reflexivity).
  apply IH. intros q Hq. apply H. right. exact Hq.
Qed.

End SameLookups.

(** X22. A loop segment whose entry is not the id of any track point
    (as [removeTrackPoint] leaves one behind) changes nothing: the
    section table, every sample of the path and the rail are what they
    are without it. *)
Theorem X22_segment_without_point_is_ignored
    (CatmullRomCurve3 : list V3 -> bool -> Curve)
    (trackPoints : list TrackPoint.t) (segs1 segs2 : list LoopSegment.t)
    (seg : LoopSegment.t) (isLooped : bool) :
  (forall p, In p trackPoints ->
             TrackPoint.id p <> LoopSegment.entryPointId seg) ->
  trackSections CatmullRomCurve3 trackPoints (segs1 ++ seg :: segs2) isLooped
  = trackSections CatmullRomCurve3 trackPoints (segs1 ++ segs2) isLooped /\
  (forall progress sections spline,
     sampleHybridTrack progress sections spline (segs1 ++ seg :: segs2)
       trackPoints isLooped
     = sampleHybridTrack progress sections spline (segs1 ++ segs2)
         trackPoints isLooped) /\
  Rail.railDataMemo CatmullRomCurve3 trackPoints (segs1 ++ seg :: segs2) isLooped
  = Rail.railDataMemo CatmullRomCurve3 trackPoints (segs1 ++ segs2) isLooped.
Proof.
  intros Hfree.
  assert (Hsame : forall p, In p trackPoints ->
            buildLoopMap (segs1 ++ seg :: segs2) !! TrackPoint.id p
            = buildLoopMap (segs1 ++ segs2) !! TrackPoint.id p).
  { intros p Hp. apply buildLoopMap_without, Hfree, Hp. }
  split; [|split].
  - unfold trackSections, sectionsMemo, getTrackCurve, buildSections.
    destruct (Nat.ltb (List.length trackPoints) 2); [reflexivity|].
    rewrite (buildLoop_same_lookups _ _ _ _ _ _ Hsame). reflexivity.
  - intros progress sections spline. unfold sampleHybridTrack.
    destruct (Nat.eqb (List.length sections) 0); [reflexivity|].
    destruct (locateSection (clampProgress progress) sections) as [s|];
      [|reflexivity].
    unfold sampleInSection. cbv zeta.
    rewrite (accumulateRollOffset_same_lookups _ _ _ _ _ _ Hsame).
    reflexivity.
  - unfold Rail.railDataMemo.
    destruct (Nat.ltb (List.length trackPoints) 2); [reflexivity|]. cbv zeta.
    rewrite (railLoop_same_lookups _ _ _ _ _ _ Hsame). reflexivity.
Qed.

Lemma X22_witness :
  trackSections lineSpline (Store.trackPoints (Store.state danglingWorld))
    ([] ++ loopSegment1 :: []) false
  = trackSections lineSpline (Store.trackPoints (Store.state danglingWorld))
      ([] ++ []) false.
Proof.
  apply (X22_segment_without_point_is_ignored lineSpline
           (Store.trackPoints (Store.state danglingWorld)) [] [] loopSegment1
           false).
  intros p Hp. exact (removeTrackPoint_removes_point _ _ p Hp).
Defined.


(* ================================================================== *)
(** * Further properties: a track without loops *)
(* ================================================================== *)

Lemma buildLoop_no_frames curve loopMap numPoints isLooped
    (points : list TrackPoint.t) :
  (forall p, In p points -> loopMap !! TrackPoint.id p = None) ->
  forall st i,
    Forall (fun s => rollFrame s = None) (sections st) ->
    Forall (fun s => rollFrame s = None)
           (sections (buildLoop curve loopMap numPoints isLooped st i points)).
Proof.
  induction points as [|p rest IH]; intros H st i Hst; cbn [buildLoop];
    [exact Hst|].
  apply IH; [intros q Hq; apply H; right; exact Hq|].
  rewrite buildStep_no_loop by (apply H; left; reflexivity).
  destruct (Nat.leb (numPoints - 1) i && negb isLooped)%bool; [exact Hst|].
  cbn [sections]. apply Forall_app. split; [exact Hst|].
  constructor; [reflexivity | constructor].
Qed.

Lemma accumulateRollOffset_no_loops spline loopMap total pointIndex
    (points : list TrackPoint.t) :
  (forall p, In p points -> loopMap !! TrackPoint.id p = None) ->
  forall off i,
    accumulateRollOffset spline loopMap total pointIndex off i points = off.
Proof.
  induction points as [|p rest IH]; intros H off i;
    cbn [accumulateRollOffset]; [reflexivity|].
  rewrite (H p (or_introl eq_refl)).
  destruct (Nat.leb i pointIndex); [|reflexivity].
  apply IH. intros q Hq. apply H. right. exact Hq.
Qed.

Lemma not_entered_lookup (loopSegments : list LoopSegment.t) (p : TrackPoint.t) :
  entersLoop loopSegments p = false ->
  buildLoopMap loopSegments !! TrackPoint.id p = None.
Proof.
  intros H. destruct (buildLoopMap loopSegments !! TrackPoint.id p) eqn:E;
    [|reflexivity].
  assert (Hs : is_Some (buildLoopMap loopSegments !! TrackPoint.id p))
    by (rewrite E; eexists; reflexivity).
  apply buildLoopMap_lookup_some in Hs.
  unfold entersLoop in H. congruence.
Qed.

(** X23. On a track none of whose points is the entry of a loop
    segment, every sample the path sampler returns is a point of the
    curve, with the curve's normalized tangent there and the up of a
    spline sample, and is not flagged as in a roll. *)
Theorem X23_track_without_loops_follows_curve
    (CatmullRomCurve3 : list V3 -> bool -> Curve)
    (trackPoints : list TrackPoint.t) (loopSegments : list LoopSegment.t)
    (isLooped : bool) (progress : R) (smp : Sample) :
  let spline := CatmullRomCurve3 (map TrackPoint.position trackPoints) isLooped in
  (forall p, In p trackPoints -> entersLoop loopSegments p = false) ->
  sampleHybridTrack progress
    (trackSections CatmullRomCurve3 trackPoints loopSegments isLooped)
    spline loopSegments trackPoints isLooped = Some smp ->
  exists t,
    point smp = getPoint spline t /\
    tangent smp = normalize (getTangent spline t) /\
    sampleUp smp = splineUp (tangent smp) /\
    inRoll smp = false.
Proof.
  cbv zeta. intros Hfree Hsmp.
  assert (Hnone : forall p, In p trackPoints ->
                    buildLoopMap loopSegments !! TrackPoint.id p = None)
    by (intros p Hp; apply not_entered_lookup, Hfree, Hp).
  assert (Hframes :
            Forall (fun s => rollFrame s = None)
              (trackSections CatmullRomCurve3 trackPoints loopSegments isLooped)).
  { unfold trackSections, sectionsMemo, getTrackCurve, buildSections.
    destruct (Nat.ltb (List.length trackPoints) 2); [constructor|].
    cbn [fst]. apply List.Forall_forall. intros s Hin.
    apply assignProgress_in in Hin. destruct Hin as (s0 & Hin & _ & ->).
    pose proof (buildLoop_no_frames
                  (CatmullRomCurve3 (map TrackPoint.position trackPoints) isLooped)
                  (buildLoopMap loopSegments) (List.length trackPoints) isLooped
                  trackPoints Hnone
                  (mkBuildState [] 0 zero
                     (initialTangent
                        (CatmullRomCurve3 (map TrackPoint.position trackPoints)
                           isLooped))
                     (initialUp
                        (CatmullRomCurve3 (map TrackPoint.position trackPoints)
                           isLooped))) 0%nat ltac:(constructor)) as H.
    rewrite List.Forall_forall in H. apply H, Hin. }
  unfold sampleHybridTrack in Hsmp.
  destruct (Nat.eqb _ 0); [discriminate|].
  destruct (locateSection _ _) as [s|] eqn:Eloc; [|discriminate].
  assert (Hin : In s (trackSections CatmullRomCurve3 trackPoints loopSegments
                        isLooped)).
  { unfold locateSection in Eloc.
    destruct (List.find _ _) as [s'|] eqn:Ef.
    - injection Eloc as <-. apply find_some in Ef. tauto.
    - rewrite last_lookup in Eloc. apply list_elem_of_In.
      eapply list_elem_of_lookup_2; exact Eloc. }
  rewrite List.Forall_forall in Hframes. pose proof (Hframes s Hin) as Hf.
  unfold sampleInSection in Hsmp. rewrite Hf in Hsmp.
  assert (Hbranch :
            match splineStartT s, splineEndT s with
            | Some startT, Some endT =>
                Some (mkSample
                        (add (getPoint
                                (CatmullRomCurve3
                                   (map TrackPoint.position trackPoints) isLooped)
                                (startT
                                 + (clampProgress progress - startProgress s)
                                   / (endProgress s - startProgress s)
                                   * (endT - startT)))
                             (accumulateRollOffset
                                (CatmullRomCurve3
                                   (map TrackPoint.position trackPoints) isLooped)
                                (buildLoopMap loopSegments)
                                (totalSplineSegmentsOf (List.length trackPoints)
                                   isLooped)
                                (default 0%nat (pointIndex s)) zero 0 trackPoints))
                        (normalize
                           (getTangent
                              (CatmullRomCurve3
                                 (map TrackPoint.position trackPoints) isLooped)
                              (startT
                               + (clampProgress progress - startProgress s)
                                 / (endProgress s - startProgress s)
                                 * (endT - startT))))
                        (splineUp
                           (normalize
                              (getTangent
                                 (CatmullRomCurve3
                                    (map TrackPoint.position trackPoints)
                                    isLooped)
                                 (startT
                                  + (clampProgress progress - startProgress s)
                                    / (endProgress s - startProgress s)
                                    * (endT - startT)))))
                        false)
            | _, _ => None
            end = Some smp).
  { destruct (type s); exact Hsmp. }
  destruct (splineStartT s) as [startT|]; [|discriminate].
  destruct (splineEndT s) as [endT|]; [|discriminate].
  injection Hbranch as <-.
  rewrite accumulateRollOffset_no_loops by exact Hnone.
  eexists. cbn [point tangent sampleUp inRoll].
  split; [|split; [reflexivity | split; reflexivity]].
  apply V3_eq; simpl; ring.
Qed.

Lemma X23_witness :
  exists smp t,
    sampleHybridTrack (1 / 2) (trackSections lineSpline lineTrack [] false)
      lineCurve [] lineTrack false = Some smp /\
    point smp = getPoint lineCurve t.
Proof.
  destruct (sampleHybridTrack_some (1 / 2)
              (trackSections lineSpline lineTrack [] false) lineCurve []
              lineTrack false)
    as (section & smp & _ & _ & H).
  - rewrite lineTrack_sections. discriminate.
  - apply trackSections_complete.
  - destruct (X23_track_without_loops_follows_curve lineSpline lineTrack []
                false (1 / 2) smp (fun p _ => eq_refl) H) as (t & Hp & _).
    exists smp, t. split; [exact H | exact Hp].
Defined.


(* ================================================================== *)
(** * Further properties: the list of saved coasters *)
(* ================================================================== *)

(** Writing to JSON and reading back a second time changes nothing. *)
Lemma roundTrip_idempotent :
  forall v, Json.roundTrip (Json.roundTrip v) = Json.roundTrip v.
Proof.
  fix IH 1. intros [| b | n | s | items | members]; cbn [Json.roundTrip];
    try reflexivity.
  - destruct (Json.isFinite n) eqn:E; cbn [Json.roundTrip]; [rewrite E|];
      reflexivity.
  - f_equal. rewrite map_map.
    induction items as [|a items IHitems]; [reflexivity|].
    cbn [map]. rewrite IH, IHitems. reflexivity.
  - f_equal. rewrite map_map. cbn [fst snd].
    induction members as [|[k a] members IHmembers]; [reflexivity|].
    cbn [map fst snd]. rewrite IH. f_equal. exact IHmembers.
Qed.

Lemma coaster_roundTrip_idempotent (c : SavedCoaster.t) :
  SavedCoaster.roundTrip (SavedCoaster.roundTrip c) = SavedCoaster.roundTrip c.
Proof.
  unfold SavedCoaster.roundTrip.
  cbn [SavedCoaster.id SavedCoaster.name SavedCoaster.timestamp
       SavedCoaster.trackPoints SavedCoaster.loopSegments SavedCoaster.isLooped
       SavedCoaster.hasChainLift SavedCoaster.showWoodSupports].
  rewrite roundTrip_idempotent, map_map.
  f_equal. apply map_ext. intros v. apply roundTrip_idempotent.
Qed.

Lemma persisted_mirrors (coasters : list SavedCoaster.t) :
  map SavedCoaster.roundTrip coasters
  = map SavedCoaster.roundTrip (map SavedCoaster.roundTrip coasters).
Proof.
  rewrite map_map. apply map_ext. intros c. symmetry.
  apply coaster_roundTrip_idempotent.
Qed.

Lemma mirror_same (w w' : Store.World) :
  Store.savedCoasters (Store.state w') = Store.savedCoasters (Store.state w) ->
  Store.localStorage w' = Store.localStorage w ->
  savedListMirrorsStorage w -> savedListMirrorsStorage w'.
Proof.
  unfold savedListMirrorsStorage, Store.loadSavedCoasters.
  intros -> ->. tauto.
Qed.

Lemma editStep_mirror (w w' : Store.World) :
  editStep w w' -> savedListMirrorsStorage w -> savedListMirrorsStorage w'.
Proof.
  intros Hstep Hinv.
  destruct Hstep;
    try (apply (mirror_same w); [reflexivity | reflexivity | exact Hinv]).
  - unfold Store.createLoopAtPoint.
    destruct (find _ _) as [entryPoint|]; [|exact Hinv].
    destruct (TrackPoint.hasLoop entryPoint) as [[|]|];
      first [exact Hinv
            | apply (mirror_same w); [reflexivity | reflexivity | exact Hinv]].
  - unfold Store.startRide. destruct (Nat.leb 2 _); [|exact Hinv].
    apply (mirror_same w); [reflexivity | reflexivity | exact Hinv].
  - unfold Saves.saveCoaster in H. destruct storageWritable; [|discriminate].
    injection H as <-. unfold savedListMirrorsStorage.
    cbn [Store.state Store.savedCoasters]. unfold Store.loadSavedCoasters at 2.
    cbn [Store.localStorage Saves.persistSavedCoasters].
    apply persisted_mirrors.
  - unfold Saves.deleteCoaster in H. destruct storageWritable; [|discriminate].
    injection H as <-. unfold savedListMirrorsStorage.
    cbn [Store.state Store.savedCoasters Store.setSavedCoasters].
    unfold Store.loadSavedCoasters at 2.
    cbn [Store.localStorage Saves.persistSavedCoasters].
    apply persisted_mirrors.
  - unfold Store.importCoaster.
    destruct parsed as [coaster|]; [|exact Hinv].
    destruct (Store.validateCoaster coaster) as [[name pts]|]; [|exact Hinv].
    destruct storageWritable; [|exact Hinv].
    unfold savedListMirrorsStorage.
    cbn [snd Store.state Store.savedCoasters Store.setSavedCoasters].
    unfold Store.loadSavedCoasters at 2. cbn [Store.localStorage].
    apply persisted_mirrors.
  - unfold savedListMirrorsStorage, Saves.refreshSavedCoasters.
    cbn [Store.withState Store.state Store.savedCoasters Store.setSavedCoasters].
    unfold Store.loadSavedCoasters at 2. cbn [Store.localStorage].
    reflexivity.
Qed.

Lemma loadCoaster_mirror id (w w' : Store.World) :
  Saves.loadCoaster id w = Some w' ->
  savedListMirrorsStorage w -> savedListMirrorsStorage w'.
Proof.
  unfold Saves.loadCoaster.
  destruct (List.find _ _) as [coaster|];
    [| intros H; injection H as <-; tauto].
  destruct (Saves.sequence
              (map Saves.deserializeTrackPoint (SavedCoaster.trackPoints coaster)))
    as [tps| |];
    destruct (Saves.deserializeLoopSegments (SavedCoaster.loopSegments coaster))
      as [segs| |];
    intros H; try discriminate; injection H as <-;
    first [tauto | apply mirror_same; reflexivity].
Qed.

Lemma reachable_mirror (w : Store.World) :
  reachable w -> savedListMirrorsStorage w.
Proof.
  induction 1 as [stored | w w' _ IH Hstep].
  - unfold savedListMirrorsStorage, Store.initialWorld, Store.loadSavedCoasters.
    cbn. destruct stored; reflexivity.
  - destruct Hstep as [w w' He | id w w' Hl].
    + exact (editStep_mirror w w' He IH).
    + exact (loadCoaster_mirror id w w' Hl IH).
Qed.

Lemma map_roundTrip_ids (l : list SavedCoaster.t) :
  map SavedCoaster.id (map SavedCoaster.roundTrip l) = map SavedCoaster.id l.
Proof. rewrite map_map. reflexivity. Qed.

Lemma map_roundTrip_names (l : list SavedCoaster.t) :
  map SavedCoaster.name (map SavedCoaster.roundTrip l) = map SavedCoaster.name l.
Proof. rewrite map_map. reflexivity. Qed.

(** X24. Whatever actions were called, the list of saved coasters the
    store shows is the stored list: the same coasters in the same order,
    equal up to what writing to JSON and reading back changes (a
    non-finite number becomes null), with the same ids and names. *)
Theorem X24_saved_list_mirrors_storage (w : Store.World) :
  reachable w ->
  map SavedCoaster.roundTrip (Store.savedCoasters (Store.state w))
  = map SavedCoaster.roundTrip (Store.loadSavedCoasters w) /\
  map SavedCoaster.id (Store.savedCoasters (Store.state w))
  = map SavedCoaster.id (Store.loadSavedCoasters w) /\
  map SavedCoaster.name (Store.savedCoasters (Store.state w))
  = map SavedCoaster.name (Store.loadSavedCoasters w).
Proof.
  intros H. pose proof (reachable_mirror w H) as Hm.
  unfold savedListMirrorsStorage in Hm.
  split; [exact Hm|]. split.
  - rewrite <- (map_roundTrip_ids (Store.savedCoasters _)), Hm.
    apply map_roundTrip_ids.
  - rewrite <- (map_roundTrip_names (Store.savedCoasters _)), Hm.
    apply map_roundTrip_names.
Qed.

Lemma edited_reachable (w : Store.World) : edited w -> reachable w.
Proof.
  induction 1 as [stored | w w' _ IH Hstep].
  - apply reachable_initial.
  - exact (reachable_step w w' IH (store_edit w w' Hstep)).
Qed.

Lemma savedLoopWorld_reachable : reachable savedLoopWorld.
Proof.
  apply (reachable_step loopWorld).
  - apply edited_reachable, loopWorld_edited.
  - apply store_edit.
    exact (edit_saveCoaster 7 8 true "Big Dipper" loopWorld savedLoopWorld
             savedLoopWorld_saved).
Qed.

Lemma X24_witness :
  map SavedCoaster.id (Store.savedCoasters (Store.state savedLoopWorld))
  = map SavedCoaster.id (Store.loadSavedCoasters savedLoopWorld).
Proof.
  exact (proj1 (proj2 (X24_saved_list_mirrors_storage savedLoopWorld
                         savedLoopWorld_reachable))).
Defined.


(* ================================================================== *)
(** * Further properties: a closed track with loops *)
(* ================================================================== *)

Lemma buildLoop_snoc curve loopMap numPoints isLooped (points : list TrackPoint.t)
    (p : TrackPoint.t) :
  forall st i,
    buildLoop curve loopMap numPoints isLooped st i (points ++ [p])
    = buildStep curve loopMap numPoints isLooped
        (buildLoop curve loopMap numPoints isLooped st i points)
        (i + List.length points) p.
Proof.
  induction points as [|q rest IH]; intros st i; cbn [app buildLoop List.length].
  - rewrite Nat.add_0_r. reflexivity.
  - rewrite IH. f_equal. lia.
Qed.

(** On a closed track the section loop ends with the span that leaves
    the last point. *)
Lemma buildLoop_last_closed curve loopMap numPoints
    (points : list TrackPoint.t) st :
  points <> [] ->
  exists before s,
    sections (buildLoop curve loopMap numPoints true st 0 points)
    = before ++ [s] /\
    type s = spline /\ pointIndex s = Some (List.length points - 1)%nat.
Proof.
  intros Hne.
  destruct (exists_last Hne) as (pre & pl & ->).
  rewrite buildLoop_snoc. unfold buildStep.
  rewrite andb_false_r. cbn [sections].
  eexists _, _. split; [reflexivity|]. split; [reflexivity|].
  cbn [pointIndex]. f_equal. rewrite length_app. cbn [List.length]. lia.
Qed.

(** The section loop starts with a section of the first point: its
    loop, or the span that leaves it when it has none. *)
Lemma buildLoop_head curve loopMap numPoints isLooped (p0 : TrackPoint.t)
    (rest : list TrackPoint.t) tangent0 up0 :
  (2 <= numPoints)%nat ->
  exists s after,
    sections (buildLoop curve loopMap numPoints isLooped
                (mkBuildState [] 0 zero tangent0 up0) 0 (p0 :: rest))
    = s :: after /\
    pointIndex s = Some 0%nat /\
    (type s = spline -> loopMap !! TrackPoint.id p0 = None).
Proof.
  intros Hn. cbn [buildLoop].
  match goal with
  | |- context [buildLoop ?c ?m ?n ?l ?st1 1 rest] =>
      destruct (buildLoop_extends c m n l rest st1 1%nat) as [added ->]
  end.
  unfold buildStep.
  replace (Nat.leb (numPoints - 1) 0) with false
    by (symmetry; apply Nat.leb_gt; lia).
  cbn [andb].
  destruct (loopMap !! TrackPoint.id p0) as [seg|]; cbn [sections app].
  - eexists _, _. split; [reflexivity|]. split; [reflexivity|]. discriminate.
  - eexists _, _. split; [reflexivity|]. split; reflexivity.
Qed.

Lemma assignProgress_app L (l1 l2 : list TrackSection) :
  forall run,
    assignProgress L run (l1 ++ l2)
    = assignProgress L run l1 ++ assignProgress L (run + totalLength l1) l2.
Proof.
  induction l1 as [|s l1 IH]; intros run; cbn [app assignProgress].
  - unfold totalLength. cbn [fold_right]. rewrite Rplus_0_r. reflexivity.
  - rewrite IH.
    change (totalLength (s :: l1)) with (arcLength s + totalLength l1).
    replace (run + (arcLength s + totalLength l1))
      with (run + arcLength s + totalLength l1) by ring.
    reflexivity.
Qed.

(** X25. On a closed track the lap does not close when there are
    loops: the point sampled at the start of the first section is the
    curve's point at 0, the point sampled at the end of the last section
    is the curve's point at 1 displaced by the forward travel of all the
    loops of the track; where the curve closes
    ([getPoint 1 = getPoint 0]) the lap therefore ends that far from
    where it started. *)
Theorem X25_closed_track_lap_is_displaced_by_loops
    (CatmullRomCurve3 : list V3 -> bool -> Curve)
    (trackPoints : list TrackPoint.t) (loopSegments : list LoopSegment.t)
    (first lastSec : TrackSection) :
  let curve := CatmullRomCurve3 (map TrackPoint.position trackPoints) true in
  let table := trackSections CatmullRomCurve3 trackPoints loopSegments true in
  head table = Some first -> last table = Some lastSec ->
  startProgress first <> endProgress first ->
  startProgress lastSec <> endProgress lastSec ->
  exists a b,
    sampleInSection (startProgress first) first curve loopSegments
      trackPoints true = Some a /\
    sampleInSection (endProgress lastSec) lastSec curve loopSegments
      trackPoints true = Some b /\
    point a = getPoint curve 0 /\
    point b
    = add (getPoint curve 1)
          (offsetThrough curve (buildLoopMap loopSegments)
             (List.length trackPoints) (List.length trackPoints - 1)
             trackPoints) /\
    (getPoint curve 1 = getPoint curve 0 ->
     point b
     = add (point a)
           (offsetThrough curve (buildLoopMap loopSegments)
              (List.length trackPoints) (List.length trackPoints - 1)
              trackPoints)).
Proof.
  cbv zeta. intros Hhead Hlast Hne1 Hne2.
  set (curve := CatmullRomCurve3 (map TrackPoint.position trackPoints) true) in *.
  assert (Hin1 : In first (trackSections CatmullRomCurve3 trackPoints
                             loopSegments true)).
  { destruct (trackSections _ _ _ _) as [|x l]; [discriminate|].
    injection Hhead as ->. left. reflexivity. }
  assert (Hin2 : In lastSec (trackSections CatmullRomCurve3 trackPoints
                               loopSegments true)).
  { rewrite last_lookup in Hlast. apply list_elem_of_In.
    eapply list_elem_of_lookup_2; exact Hlast. }
  pose proof (trackSections_joined _ _ _ _ _ Hin1) as J1.
  pose proof (trackSections_joined _ _ _ _ _ Hin2) as J2.
  fold curve in J1, J2.
  unfold trackSections, sectionsMemo, getTrackCurve, buildSections in Hhead, Hlast.
  destruct (Nat.ltb (List.length trackPoints) 2) eqn:En; [discriminate|].
  apply Nat.ltb_ge in En. cbn [fst] in Hhead, Hlast. fold curve in Hhead, Hlast.
  cbn [totalSplineSegmentsOf] in J1, J2.
  (* the first section is of point 0 *)
  assert (H1 : pointIndex first = Some 0%nat /\
               (type first = spline ->
                offsetThrough curve (buildLoopMap loopSegments)
                  (List.length trackPoints) 0 trackPoints = zero)).
  { destruct trackPoints as [|p0 rest] eqn:Etp; [cbn in En; lia|].
    destruct (buildLoop_head curve (buildLoopMap loopSegments)
                (List.length (p0 :: rest)) true p0 rest
                (initialTangent curve) (initialUp curve) En)
      as (s & after & E & Hi & Ht).
    rewrite E in Hhead. cbn [assignProgress head] in Hhead.
    injection Hhead as <-. cbn [withProgress pointIndex type].
    split; [exact Hi|]. intros Hs.
    unfold offsetThrough. cbn [accumulateRollOffset Nat.leb].
    rewrite (Ht Hs). apply accumulateRollOffset_past. lia. }
  (* the last section is the span of the last point *)
  assert (H2 : type lastSec = spline /\
               pointIndex lastSec = Some (List.length trackPoints - 1)%nat).
  { destruct (buildLoop_last_closed curve (buildLoopMap loopSegments)
                (List.length trackPoints) trackPoints
                (mkBuildState [] 0 zero (initialTangent curve)
                   (initialUp curve)))
      as (before & s & E & Ht & Hi).
    { intros E. rewrite E in En. cbn in En. lia. }
    rewrite E, assignProgress_app in Hlast.
    cbn [assignProgress] in Hlast. rewrite last_snoc in Hlast.
    injection Hlast as <-. cbn [withProgress pointIndex type].
    split; assumption. }
  destruct H1 as [Hi1 Hoff1]. destruct H2 as [Ht2 Hi2].
  destruct J1 as (i1 & Hi1' & J1). destruct J2 as (i2 & Hi2' & J2).
  assert (i1 = 0%nat) by congruence. assert (i2 = (List.length trackPoints - 1)%nat)
    by congruence. subst i1 i2.
  rewrite Ht2 in J2. destruct J2 as (Hf2 & Hs2 & He2).
  assert (HendT : INR (List.length trackPoints - 1 + 1)
                  / INR (List.length trackPoints) = 1).
  { replace (List.length trackPoints - 1 + 1)%nat with (List.length trackPoints)
      by lia.
    field. apply not_0_INR. lia. }
  assert (Hstart0 : INR 0 / INR (List.length trackPoints) = 0)
    by (simpl; unfold Rdiv; ring).
  (* the sample at the end of the lap *)
  assert (Hb : sampleInSection (endProgress lastSec) lastSec curve loopSegments
                 trackPoints true
               = Some (mkSample
                         (add (getPoint curve 1)
                              (offsetThrough curve (buildLoopMap loopSegments)
                                 (List.length trackPoints)
                                 (List.length trackPoints - 1) trackPoints))
                         (normalize (getTangent curve 1))
                         (splineUp (normalize (getTangent curve 1))) false)).
  { unfold sampleInSection. rewrite Ht2, Hs2, He2, Hi2. cbv zeta.
    cbn [default totalSplineSegmentsOf].
    replace ((endProgress lastSec - startProgress lastSec)
             / (endProgress lastSec - startProgress lastSec)) with 1
      by (field; intros E; apply Hne2; lra).
    rewrite HendT.
    replace (INR (List.length trackPoints - 1) / INR (List.length trackPoints)
             + 1 * (1 - INR (List.length trackPoints - 1)
                        / INR (List.length trackPoints))) with 1 by ring.
    reflexivity. }
  rewrite Hb.
  (* the sample at the start of the lap *)
  destruct (type first) eqn:Et1.
  - destruct J1 as (Hf1 & Hs1 & He1).
    unfold sampleInSection. rewrite Et1, Hs1, He1, Hi1. cbv zeta.
    cbn [default totalSplineSegmentsOf].
    eexists _, _. split; [reflexivity|]. split; [reflexivity|].
    cbn [point].
    replace ((startProgress first - startProgress first)
             / (endProgress first - startProgress first)) with 0
      by (unfold Rdiv; ring).
    rewrite Hstart0.
    replace (0 + 0 * (INR (0 + 1) / INR (List.length trackPoints) - 0)) with 0
      by ring.
    pose proof (Hoff1 eq_refl) as Hzero. unfold offsetThrough in Hzero.
    unfold Datatypes.id. rewrite Hzero.
    assert (Ha : add (getPoint curve 0) zero = getPoint curve 0)
      by (apply V3_eq; simpl; ring).
    rewrite Ha. split; [reflexivity|]. split; [reflexivity|].
    intros Hclosed. rewrite Hclosed. reflexivity.
  - destruct J1 as (frame & Hf1 & Hentry & _).
    unfold sampleInSection. rewrite Et1, Hf1.
    eexists _, _. split; [reflexivity|]. split; [reflexivity|].
    cbn [point sampleBarrelRollAnalytically].
    replace ((startProgress first - startProgress first)
             / (endProgress first - startProgress first)) with 0
      by (unfold Rdiv; ring).
    rewrite rollPoint_0, Hentry, Hstart0. cbn [offsetBefore].
    assert (Ha : add (getPoint curve 0) zero = getPoint curve 0)
      by (apply V3_eq; simpl; ring).
    rewrite Ha. split; [reflexivity|]. split; [reflexivity|].
    intros Hclosed. rewrite Hclosed. reflexivity.
Qed.

Lemma closedLoopTrack_sections :
  trackSections lineSpline loopTrack [loopSegment1] true
  = [closedLoop; closedFirstSpan; closedLastSpan].
Proof.
  unfold trackSections. rewrite sectionsMemo_unfold by (simpl; lia).
  cbv zeta. unfold lineSpline, buildSections, loopTrack.
  destruct buildLoopMap_loopSegment1 as [H1 H2].
  cbn [buildLoop List.length].
  rewrite (buildStep_no_loop _ _ _ _ _ 1%nat) by exact H2.
  cbn [Nat.sub Nat.leb negb andb].
  unfold buildStep. cbn [TrackPoint.id]. rewrite H1.
  cbn [Nat.sub Nat.leb negb andb totalSplineSegmentsOf sections
       accumulatedLength rollOffset prevTangent prevUp app
       LoopSegment.radius LoopSegment.pitch loopSegment1].
  rewrite initialTangent_line, initialUp_line, computeRollFrame_line.
  cbn [forward up getTangent lineCurve].
  assert (E0 : INR 0 / INR 2 = 0) by (simpl; field).
  assert (E1 : INR (0 + 1) / INR 2 = 1 / 2) by (simpl; field).
  assert (E1' : INR 1 / INR 2 = 1 / 2) by (simpl; field).
  assert (E2 : INR (1 + 1) / INR 2 = 1) by (simpl; field).
  rewrite (splineSegmentLength_line (INR 0 / INR 2))
    by (rewrite E0, E1; lra).
  rewrite (splineSegmentLength_line (INR 1 / INR 2))
    by (rewrite E1', E2; lra).
  replace (10 * (INR (0 + 1) / INR 2 - INR 0 / INR 2)) with 5
    by (rewrite E0, E1; field).
  replace (10 * (INR (1 + 1) / INR 2 - INR 1 / INR 2)) with 5
    by (rewrite E1', E2; field).
  replace (add (mkV3 (10 * (INR 0 / INR 2)) 0 0) zero) with zero
    by (rewrite E0; apply V3_eq; simpl; ring).
  fold loopArcLength.
  cbn [fst assignProgress withProgress type arcLength rollFrame splineStartT
       splineEndT pointIndex app].
  reflexivity.
Qed.

Lemma X25_witness :
  exists a b,
    sampleInSection (startProgress closedLoop) closedLoop lineCurve
      [loopSegment1] loopTrack true = Some a /\
    sampleInSection (endProgress closedLastSpan) closedLastSpan lineCurve
      [loopSegment1] loopTrack true = Some b /\
    point a = getPoint lineCurve 0.
Proof.
  pose proof loopArcLength_pos as HL.
  assert (HM : 0 < closedLoopLength) by (unfold closedLoopLength; lra).
  destruct (X25_closed_track_lap_is_displaced_by_loops lineSpline loopTrack
              [loopSegment1] closedLoop closedLastSpan)
    as (a & b & Ha & Hb & Hpa & _).
  - rewrite closedLoopTrack_sections. reflexivity.
  - rewrite closedLoopTrack_sections. reflexivity.
  - apply quotients_differ; [exact HM | lra].
  - apply quotients_differ; [exact HM | lra].
  - exists a, b. split; [exact Ha | split; [exact Hb | exact Hpa]].
Defined.


(* ================================================================== *)
(** * Further properties: starting a ride *)
(* ================================================================== *)

Lemma trackSections_nonempty CatmullRomCurve3 trackPoints loopSegments isLooped :
  (2 <= List.length trackPoints)%nat ->
  trackSections CatmullRomCurve3 trackPoints loopSegments isLooped <> [].
Proof.
  intros Hn E. apply (f_equal (@List.length _)) in E.
  rewrite trackSections_length in E.
  replace (Nat.ltb (List.length trackPoints) 2) with false in E
    by (symmetry; apply Nat.ltb_ge; exact Hn).
  unfold totalSplineSegmentsOf in E. cbn [List.length] in E.
  destruct isLooped; lia.
Qed.

(** X26. [startRide] changes nothing on a track of fewer than two
    points.  Otherwise it turns [isRiding] on, in mode ride at progress
    0; the section table of the track is then not empty, and when the
    track has a positive total arc length [sampleHybridTrack] returns
    a frame at every progress. *)
Theorem X26_started_ride_has_a_path
    (CatmullRomCurve3 : list V3 -> bool -> Curve) (w : Store.World)
    (progress : R) :
  let s := Store.state w in
  let s' := Store.state (Store.startRide w) in
  let table :=
    trackSections CatmullRomCurve3 (Store.trackPoints s') (Store.loopSegments s')
      (Store.isLooped s') in
  ((List.length (Store.trackPoints s) < 2)%nat -> Store.startRide w = w) /\
  ((2 <= List.length (Store.trackPoints s))%nat ->
   Store.isRiding s' = true /\ Store.mode s' = ride /\
   Store.rideProgress s' = 0 /\ table <> [] /\
   (0 < snd (sectionsMemo CatmullRomCurve3 (Store.trackPoints s')
               (Store.loopSegments s') (Store.isLooped s')) ->
    exists smp,
      sampleHybridTrack progress table
        (CatmullRomCurve3 (map TrackPoint.position (Store.trackPoints s'))
           (Store.isLooped s'))
        (Store.loopSegments s') (Store.trackPoints s') (Store.isLooped s')
      = Some smp)).
Proof.
  cbv zeta. unfold Store.startRide. split.
  - intros Hn.
    replace (Nat.leb 2 (List.length (Store.trackPoints (Store.state w))))
      with false by (symmetry; apply Nat.leb_gt; exact Hn).
    reflexivity.
  - intros Hn.
    replace (Nat.leb 2 (List.length (Store.trackPoints (Store.state w))))
      with true by (symmetry; apply Nat.leb_le; exact Hn).
    cbn [Store.withState Store.state Store.setRide Store.isRiding Store.mode
         Store.rideProgress Store.trackPoints Store.loopSegments Store.isLooped].
    split; [reflexivity|]. split; [reflexivity|]. split; [reflexivity|].
    split.
    + exact (trackSections_nonempty CatmullRomCurve3
               (Store.trackPoints (Store.state w))
               (Store.loopSegments (Store.state w))
               (Store.isLooped (Store.state w)) Hn).
    + intros Hpos.
      destruct (sampleHybridTrack_built CatmullRomCurve3
                  (Store.trackPoints (Store.state w))
                  (Store.loopSegments (Store.state w))
                  (Store.isLooped (Store.state w)) progress Hpos)
        as (_ & section & smp & H & _).
      exists smp. exact H.
Qed.

Lemma startRide_loopWorld :
  Store.trackPoints (Store.state (Store.startRide loopWorld)) = loopTrack /\
  Store.loopSegments (Store.state (Store.startRide loopWorld)) = [loopSegment1] /\
  Store.isLooped (Store.state (Store.startRide loopWorld)) = false.
Proof.
  destruct loopWorld_track as [Ht Hl].
  unfold Store.startRide. rewrite Ht.
  cbn [List.length loopTrack Nat.leb Store.withState Store.state Store.setRide
       Store.trackPoints Store.loopSegments Store.isLooped].
  repeat split; assumption || reflexivity.
Qed.

Lemma X26_witness :
  Store.isRiding (Store.state (Store.startRide loopWorld)) = true /\
  exists smp,
    sampleHybridTrack 0 (trackSections lineSpline loopTrack [loopSegment1] false)
      lineCurve [loopSegment1] loopTrack false = Some smp.
Proof.
  assert (Hn : (2 <= List.length (Store.trackPoints (Store.state loopWorld)))%nat)
    by (rewrite (proj1 loopWorld_track); simpl; lia).
  destruct (proj2 (X26_started_ride_has_a_path lineSpline loopWorld 0) Hn)
    as (Hr & _ & _ & _ & Hs).
  split; [exact Hr|].
  destruct startRide_loopWorld as (Et & El & Eb).
  rewrite Et, El, Eb in Hs. apply Hs.
  exact (firstLoop_total_pos lineSpline (mkV3 0 0 0) (mkV3 10 0 0) 5 12
           loopArcLength_pos).
Defined.

